(** * ParallelSort: a shallow embedding of parallelFor.hpp, parallelSort.hpp
    and the verification code of ParallelSortTest.cpp

    The development models the fork-join scheduler ([parallelFor],
    [parallelForNoWait]), the sequential merge step ([mergeFF]), the merge-path
    partitioner ([mergePath], [getMergePaths]), the parallel merge
    ([parallelMerge]) and the sort orchestrator ([parallelSort]) and proves
    properties of them.

    Conventions of the embedding:
    - [size_t] and [int64_t] values are integers of [Z]; an array access
      outside the array, a conversion of a non-finite or too large [double] to
      an integer and a division by zero are undefined behaviour ([UB]);
    - [double] is IEEE-754 binary64 as specified by the standard library's
      [SpecFloat] (round to nearest, ties to even);
    - the destination and the source of a merge are two distinct arrays, as
      in every call of the repository (original buffer and scratch buffer);
    - the workers of one fork-join group write disjoint parts of their
      destination and are run one after the other, in segment order. *)

From Stdlib Require Import ZArith QArith Qround Qabs Qpower Lia Lra Psatz Bool.
From Stdlib Require Import Sorting.Sorted Floats.SpecFloat.
From stdpp Require Import base option list gmap sorting.

Open Scope Z_scope.

(** ** Results of possibly undefined computations *)

Inductive res (A : Type) : Type :=
| Ok (a : A)
| UB
| Fuel.
Arguments Ok {A} a.
Arguments UB {A}.
Arguments Fuel {A}.

Definition bind {A B : Type} (r : res A) (k : A -> res B) : res B :=
  match r with
  | Ok a => k a
  | UB => UB
  | Fuel => Fuel
  end.

Notation "'do' x <- e ; k" := (bind e (fun x => k))
  (at level 10, x pattern, e at level 100, k at level 200).

Definition of_option {A : Type} (o : option A) : res A :=
  match o with
  | Some a => Ok a
  | None => UB
  end.

(** ** Binary64 arithmetic *)

Module Binary64.

Definition prec : Z := 53.
Definition emax : Z := 1024.
Definition double : Type := spec_float.

(** Conversion of an integer ([static_cast<double>], [double(n)]). *)
Definition d_of_Z (n : Z) : double := binary_normalize prec emax n 0 false.
Definition d_div : double -> double -> double := SFdiv prec emax.
Definition d_mul : double -> double -> double := SFmul prec emax.
Definition d_add : double -> double -> double := SFadd prec emax.
Definition d_two : double := d_of_Z 2.
Definition d_one : double := d_of_Z 1.

Definition in_int64 (v : Z) : bool := (- 2 ^ 63 <=? v) && (v <? 2 ^ 63).

(** [llround]: the nearest integer, halfway cases away from zero. *)
Definition llround (x : double) : res Z :=
  match x with
  | S754_zero _ => Ok 0
  | S754_finite s m e =>
      let r := if 0 <=? e then Zpos m * 2 ^ e
               else (Zpos m + 2 ^ (- e - 1)) / 2 ^ (- e) in
      let v := cond_Zopp s r in
      if in_int64 v then Ok v else UB
  | _ => UB
  end.

(** [(int64_t)floor(x)]. *)
Definition floor_int64 (x : double) : res Z :=
  match x with
  | S754_zero _ => Ok 0
  | S754_finite s m e =>
      let v := Z.shiftl (cond_Zopp s (Zpos m)) e in
      if in_int64 v then Ok v else UB
  | _ => UB
  end.

(** The rational number a finite double stands for. *)
Definition dval (x : double) : Q :=
  match x with
  | S754_finite s m e => (inject_Z (cond_Zopp s (Zpos m)) * 2 ^ e)%Q
  | _ => 0%Q
  end.

(** Multiplication by a power of two as a shift of the exponent. *)
Definition dscale (j : Z) (x : double) : double :=
  match x with
  | S754_finite s m e => S754_finite s m (e + j)
  | _ => x
  end.

(** A positive normal double with an exponent between [lo] and [hi]. *)
Definition dnormal (x : double) (lo hi : Z) : Prop :=
  exists m e, x = S754_finite false m e /\
              Zpos (digits2_pos m) = 53 /\ lo <= e <= hi.

Definition ulp53 : Q := 1 # (2 ^ 53).

(** [approx v r eta]: [v] is [r] up to the relative error [eta]. *)
Definition approx (v r eta : Q) : Prop :=
  (r * (1 - eta) <= v /\ v <= r * (1 + eta))%Q.

(** [loc_ok l R B]: the location [l] describes the remainder [R] of a
    division by [B]. *)
Definition loc_ok (l : location) (R B : Z) : Prop :=
  match l with
  | loc_Exact => R = 0
  | loc_Inexact Lt => 0 < 2 * R < B
  | loc_Inexact Eq => 2 * R = B
  | loc_Inexact Gt => B < 2 * R < 2 * B
  end.

(** Explicit form of the conversion of an integer below 2^53. *)
Definition mant_of (n : Z) : positive := Z.to_pos (n * 2 ^ (53 - Zdigits2 n)).

End Binary64.

Import Binary64.

(** ** parallelFor.hpp *)

Section ParallelFor.

Context {S : Type}.

(** [for (int64_t i = lb; i < le; i++) fn(begin + i);] *)
Fixpoint for_loop (count : nat) (fn : Z -> S -> res S) (i : Z) (s : S) : res S :=
  match count with
  | O => Ok s
  | Datatypes.S c => do s' <- fn i s; for_loop c fn (i + 1) s'
  end.

Definition run_segment (fn : Z -> S -> res S) (begin : Z) (seg : Z * Z) (s : S) : res S :=
  for_loop (Z.to_nat (snd seg - fst seg)) fn (begin + fst seg) s.

Fixpoint run_segments (fn : Z -> S -> res S) (begin : Z) (segs : list (Z * Z)) (s : S) : res S :=
  match segs with
  | [] => Ok s
  | seg :: rest => do s' <- run_segment fn begin seg s; run_segments fn begin rest s'
  end.

End ParallelFor.

(** The loop [for (seg = 0; seg < num_segs - 1; seg++)] that launches the
    workers: each one gets [(sBeg, llround(sEnd))]. *)
Fixpoint spawn_segments (k : nat) (seg_size : double) (sBeg : Z) (sEnd : double)
  : res (list (Z * Z) * Z * double) :=
  match k with
  | O => Ok ([], sBeg, sEnd)
  | Datatypes.S k' =>
      do le <- llround sEnd;
      do r <- spawn_segments k' seg_size le (d_add sEnd seg_size);
      let '(rest, b, e) := r in
      Ok ((sBeg, le) :: rest, b, e)
  end.

(** The index ranges [parallelFor] and [parallelForNoWait] hand out for a
    range of [n] indices: the launched workers' ranges in launch order, then
    the range the calling thread runs.  With [num_segs = 0] the first launch
    converts an infinite [sEnd], which is undefined. *)
Definition segments (n num_segs : Z) : res (list (Z * Z)) :=
  if n =? 0 then Ok []
  else if num_segs =? 0 then UB
  else
    let num_segs := if n <? num_segs then n else num_segs in
    let seg_size := d_div (d_of_Z n) (d_of_Z num_segs) in
    do r <- spawn_segments (Z.to_nat (num_segs - 1)) seg_size 0 seg_size;
    let '(spawned, sBeg, sEnd) := r in
    do le <- llround sEnd;
    Ok (spawned ++ [(sBeg, le)]).

Definition parallelFor {S : Type} (begin end_ : Z) (fn : Z -> S -> res S)
  (num_segs : Z) (s : S) : res S :=
  do segs <- segments (end_ - begin) num_segs;
  run_segments fn begin segs s.

(** [parallelForNoWait] hands out the same ranges and runs the same
    callbacks; [parallelForFinish] only waits. *)
Definition parallelForNoWait {S : Type} (begin end_ : Z) (fn : Z -> S -> res S)
  (num_segs : Z) (s : S) : res S :=
  parallelFor begin end_ fn num_segs s.

(** ** parallelSort.hpp *)

Definition iDivUp (a b : Z) : res Z :=
  if b =? 0 then UB
  else Ok (if a mod b =? 0 then a / b else a / b + 1).

Section Sort.

Context {T : Type}.
Variable compFunc : T -> T -> bool.

Definition rd (b : list T) (i : Z) : res T :=
  if 0 <=? i then of_option (b !! Z.to_nat i) else UB.

Definition wr (b : list T) (i : Z) (v : T) : res (list T) :=
  if (0 <=? i) && (i <? Z.of_nat (length b))
  then Ok (<[Z.to_nat i := v]> b) else UB.

(** [for (x = from; x < stop; x++) dst[d++] = src[x];] *)
Fixpoint copy_range (count : nat) (dst src : list T) (from d : Z) : res (list T) :=
  match count with
  | O => Ok dst
  | Datatypes.S c =>
      do x <- rd src from;
      do dst' <- wr dst d x;
      copy_range c dst' src (from + 1) (d + 1)
  end.

(** The first loop of [mergeFF] when the [a] range ends first. *)
Fixpoint mergeFF_a (fuel : nat) (dst src : list T) (aBeg aEnd bBeg dBeg : Z)
  : res (list T * Z * Z) :=
  match fuel with
  | O => Fuel
  | Datatypes.S f =>
      if aBeg <=? aEnd then
        do b <- rd src bBeg;
        do a <- rd src aBeg;
        if negb (compFunc b a)
        then do dst' <- wr dst dBeg a; mergeFF_a f dst' src (aBeg + 1) aEnd bBeg (dBeg + 1)
        else do dst' <- wr dst dBeg b; mergeFF_a f dst' src aBeg aEnd (bBeg + 1) (dBeg + 1)
      else Ok (dst, bBeg, dBeg)
  end.

(** The first loop of [mergeFF] when the [b] range ends first. *)
Fixpoint mergeFF_b (fuel : nat) (dst src : list T) (aBeg bBeg bEnd dBeg : Z)
  : res (list T * Z * Z) :=
  match fuel with
  | O => Fuel
  | Datatypes.S f =>
      if bBeg <=? bEnd then
        do a <- rd src aBeg;
        do b <- rd src bBeg;
        if compFunc a b
        then do dst' <- wr dst dBeg a; mergeFF_b f dst' src (aBeg + 1) bBeg bEnd (dBeg + 1)
        else do dst' <- wr dst dBeg b; mergeFF_b f dst' src aBeg (bBeg + 1) bEnd (dBeg + 1)
      else Ok (dst, aBeg, dBeg)
  end.

(** Every iteration of a merge loop reads [src] at [aBeg] and [bBeg] and
    advances one of them, so [2 * length src + 1] iterations are enough. *)
Definition merge_fuel (src : list T) : nat := (2 * length src + 1)%nat.

Definition mergeFF (dst src : list T) (aBeg aEnd bBeg bEnd dBeg : Z) : res (list T) :=
  do ae <- rd src aEnd;
  do be <- rd src bEnd;
  if compFunc ae be then
    do r <- mergeFF_a (merge_fuel src) dst src aBeg aEnd bBeg dBeg;
    let '(dst1, bBeg1, dBeg1) := r in
    copy_range (Z.to_nat (bEnd + 1 - bBeg1)) dst1 src bBeg1 dBeg1
  else
    do r <- mergeFF_b (merge_fuel src) dst src aBeg bBeg bEnd dBeg;
    let '(dst1, aBeg1, dBeg1) := r in
    copy_range (Z.to_nat (aEnd + 1 - aBeg1)) dst1 src aBeg1 dBeg1.

(** The binary search of [mergePath]; [valA = src + aOff], [valB = src + bOff]. *)
Fixpoint mergePath_loop (fuel : nat) (src : list T) (aOff bOff diag begin end_ : Z) : res Z :=
  match fuel with
  | O => Fuel
  | Datatypes.S f =>
      if begin <? end_ then
        let mid := begin + Z.shiftr (end_ - begin) 1 in
        do a <- rd src (aOff + mid);
        do b <- rd src (bOff + (diag - 1 - mid));
        if compFunc a b
        then mergePath_loop f src aOff bOff diag (mid + 1) end_
        else mergePath_loop f src aOff bOff diag begin mid
      else Ok begin
  end.

Definition mergePath (src : list T) (aOff aCount bOff bCount diag : Z) : res Z :=
  let begin := Z.max 0 (diag - bCount) in
  let end_ := Z.min diag aCount in
  mergePath_loop (Z.to_nat (end_ - begin) + 1) src aOff bOff diag begin end_.

(** The partition table [size_t mpi[1024]]: an entry that was never written
    has no value, and a write at or beyond entry 1024 is out of bounds. *)
Definition mpi_capacity : Z := 1024.

Definition mpi_write (mpi : gmap Z Z) (i v : Z) : res (gmap Z Z) :=
  if (0 <=? i) && (i <? mpi_capacity) then Ok (<[i := v]> mpi) else UB.

Definition mpi_read (mpi : gmap Z Z) (i : Z) : res Z :=
  if (0 <=? i) && (i <? mpi_capacity) then of_option (mpi !! i) else UB.

Fixpoint getMergePaths_loop (count : nat) (mpi : gmap Z Z) (src : list T)
  (aOff aCount bOff bCount : Z) (spacing : double) (i : Z) : res (gmap Z Z) :=
  match count with
  | O => Ok mpi
  | Datatypes.S c =>
      do diag <- llround (d_mul (d_of_Z i) spacing);
      do p <- mergePath src aOff aCount bOff bCount diag;
      do mpi' <- mpi_write mpi i p;
      getMergePaths_loop c mpi' src aOff aCount bOff bCount spacing (i + 1)
  end.

Definition getMergePaths (mpi : gmap Z Z) (src : list T)
  (aOff aCount bOff bCount : Z) (spacing : double) (threads : Z) : res (gmap Z Z) :=
  let partitions := threads in
  do mpi0 <- mpi_write mpi 0 0;
  do mpi1 <- mpi_write mpi0 partitions aCount;
  getMergePaths_loop (Z.to_nat (partitions - 1)) mpi1 src aOff aCount bOff bCount spacing 1.

(** The work of one thread of [parallelMerge]. *)
Definition merge_worker (mpi : gmap Z Z) (src : list T) (aBeg bBeg dBeg : Z)
  (spacing : double) (thread : Z) (dst : list T) : res (list T) :=
  let dthread := d_of_Z thread in
  do grid <- llround (d_mul dthread spacing);
  do m0 <- mpi_read mpi thread;
  do m1 <- mpi_read mpi (thread + 1);
  let a0 := m0 + aBeg in
  let a1 := m1 + aBeg in
  let b0 := (grid - m0) + bBeg in
  do g1 <- llround (d_mul (d_add dthread d_one) spacing);
  let b1 := (g1 - m1) + bBeg in
  let wtid := dBeg + grid in
  if a0 =? a1 then copy_range (Z.to_nat (b1 - b0)) dst src b0 wtid
  else if b0 =? b1 then copy_range (Z.to_nat (a1 - a0)) dst src a0 wtid
  else mergeFF dst src a0 (a1 - 1) b0 (b1 - 1) wtid.

(** A worker count is a [size_t]. *)
Definition to_size_t (v : Z) : Z := v mod 2 ^ 64.

Definition parallelMerge (dst src : list T) (aBeg aEnd bBeg bEnd dBeg threads : Z)
  : res (list T) :=
  let threads := to_size_t threads in
  let aCount := aEnd - aBeg + 1 in
  let bCount := bEnd - bBeg + 1 in
  let spacing := d_div (d_of_Z (aCount + bCount)) (d_of_Z threads) in
  do mpi <- getMergePaths ∅ src aBeg aCount bBeg bCount spacing threads;
  parallelFor 0 threads (merge_worker mpi src aBeg bBeg dBeg spacing) threads dst.

(** *** The sort orchestrator (minimized thread launch variant) *)

(** [std::sort(begin + lb, begin + le, compFunc)] for a sequential sort
    [std_sort]. *)
Variable std_sort : list T -> list T.

Definition sort_range (b : list T) (lb le : Z) : res (list T) :=
  if (0 <=? lb) && (lb <=? le) && (le <=? Z.of_nat (length b)) then
    Ok (take (Z.to_nat lb) b
          ++ std_sort (take (Z.to_nat (le - lb)) (drop (Z.to_nat lb) b))
          ++ drop (Z.to_nat le) b)
  else UB.

Definition local_sort (delta : double) (i : Z) (b : list T) : res (list T) :=
  do lb <- llround (d_mul (d_of_Z i) delta);
  do le <- llround (d_mul (d_of_Z (i + 1)) delta);
  sort_range b lb le.

(** The thread budget of one merge round. *)
Record round_plan : Type := mk_plan {
  loops : Z;
  loStart : double;
  tasks : Z;
  pmThreads : Z;
  loThreads : Z
}.

Definition plan_round (len threads : Z) (delta : double) : res round_plan :=
  do loops <- floor_int64 (d_div (d_of_Z len) (d_mul d_two delta));
  let loStart := d_mul (d_mul (d_of_Z loops) d_two) delta in
  do lo <- llround loStart;
  let tasks := loops + (if lo <? len then 1 else 0) in
  do pmThreads <- iDivUp threads tasks;
  let loThreads := threads - loops * pmThreads in
  Ok (mk_plan loops loStart tasks pmThreads loThreads).

Definition has_leftover (len : Z) (p : round_plan) : res bool :=
  do lo <- llround (loStart p);
  Ok (lo <? len).

Definition full_merge (src : list T) (delta : double) (pmThreads : Z)
  (i : Z) (dst : list T) : res (list T) :=
  do lb <- llround (d_mul (d_of_Z (2 * i)) delta);
  do lm <- llround (d_mul (d_of_Z (2 * i + 1)) delta);
  do le <- llround (d_mul (d_of_Z (2 * i + 2)) delta);
  parallelMerge dst src lb (lm - 1) lm (le - 1) lb pmThreads.

Definition leftover_merge (dst src : list T) (len : Z) (delta : double)
  (p : round_plan) : res (list T) :=
  do lo <- llround (loStart p);
  if lo <? len then
    do mid <- llround (d_add (loStart p) delta);
    let mid := if mid >? len then len else mid in
    parallelMerge dst src lo (mid - 1) mid (len - 1) lo (loThreads p)
  else Ok dst.

(** One merge round from [src] into [dst]. *)
Definition merge_round (dst src : list T) (len threads : Z) (delta : double)
  : res (list T) :=
  do p <- plan_round len threads delta;
  do dst1 <- parallelForNoWait 0 (loops p) (full_merge src delta (pmThreads p)) (loops p) dst;
  leftover_merge dst1 src len delta p.

(** [for (d = depth; d > 0; d -= 2)]: a round into the scratch buffer, then
    a round back into the original buffer. *)
Fixpoint merge_rounds (iters : nat) (orig swap : list T) (len threads : Z)
  (delta : double) : res (list T * list T) :=
  match iters with
  | O => Ok (orig, swap)
  | Datatypes.S k =>
      do swap' <- merge_round swap orig len threads delta;
      let delta1 := d_mul delta d_two in
      do orig' <- merge_round orig swap' len threads delta1;
      let delta2 := d_mul delta1 d_two in
      merge_rounds k orig' swap' len threads delta2
  end.

(** The thread count [parallelSort] works with. *)
Definition effective_threads (hw len threads : Z) : Z :=
  let threads := if threads =? 0 then hw else threads in
  let max_threads := (len + 64) / 128 in
  let max_threads := Z.max max_threads 1 in
  Z.min threads max_threads.

(** [parallelSort]: [hw] is the value of [hardware_concurrency()] and
    [scratch] the indeterminate initial contents of the [new T[len]] array.
    The result is the final original buffer and, when it was allocated, the
    final scratch buffer.  [(int64_t)ceil(log2(threads))] is [Z.log2_up]. *)
Definition parallelSort (hw : Z) (scratch : list T) (begin : list T) (threads : Z)
  : res (list T * option (list T)) :=
  let len := Z.of_nat (length begin) in
  let threads := effective_threads hw len threads in
  let delta := d_div (d_of_Z len) (d_of_Z threads) in
  do sorted <- parallelFor 0 threads (local_sort delta) threads begin;
  if threads <=? 1 then Ok (sorted, None)
  else
    let depth := Z.log2_up threads in
    do r <- merge_rounds (Z.to_nat ((depth + 1) / 2)) sorted scratch len threads delta;
    Ok (fst r, Some (snd r)).

(** *** The sort orchestrator (balanced variant)

    The variant of [parallelSort] that is compiled when
    [DO_NOT_USE_BALANCED_MULTITHREADING] is defined: the merges of a level
    run one after the other, each with all the threads. *)

(** [for (next = 2 * incr; next <= threads; next += 2 * incr)]: the merges
    of the full-sized pairs of one level; the result carries the final
    [start] and [next]. *)
Fixpoint balanced_pairs (fuel : nat) (dst src : list T) (threads incr : Z)
  (delta : double) (start next : Z) : res (list T * Z * Z) :=
  match fuel with
  | O => Fuel
  | Datatypes.S f =>
      if next <=? threads then
        do lb <- llround (d_mul (d_of_Z start) delta);
        do lm <- llround (d_mul (d_of_Z (start + incr)) delta);
        do le <- llround (d_mul (d_of_Z next) delta);
        do dst' <- parallelMerge dst src lb (lm - 1) lm (le - 1) lb threads;
        balanced_pairs f dst' src threads incr delta next (next + 2 * incr)
      else Ok (dst, start, next)
  end.

(** One level from [src] into [dst]: the full-sized pairs, then the
    leftover. *)
Definition balanced_level (dst src : list T) (len threads incr : Z) (delta : double)
  : res (list T) :=
  do r <- balanced_pairs (Z.to_nat threads + 1) dst src threads incr delta 0 (2 * incr);
  let '(dst1, start, next) := r in
  if (next >? threads) && (start <? threads) then
    do lb <- llround (d_mul (d_of_Z start) delta);
    do lm <- llround (d_mul (d_of_Z (start + incr)) delta);
    let lm := if lm >? len then len else lm in
    parallelMerge dst1 src lb (lm - 1) lm (len - 1) lb threads
  else Ok dst1.

(** [for (d = depth; d > 0; d -= 2)] of the balanced variant. *)
Fixpoint balanced_rounds (iters : nat) (orig swap : list T) (len threads incr : Z)
  (delta : double) : res (list T * list T) :=
  match iters with
  | O => Ok (orig, swap)
  | Datatypes.S k =>
      do swap' <- balanced_level swap orig len threads incr delta;
      let incr1 := incr * 2 in
      do orig' <- balanced_level orig swap' len threads incr1 delta;
      let incr2 := incr1 * 2 in
      balanced_rounds k orig' swap' len threads incr2 delta
  end.

Definition parallelSort_balanced (hw : Z) (scratch : list T) (begin : list T) (threads : Z)
  : res (list T * option (list T)) :=
  let len := Z.of_nat (length begin) in
  let threads := effective_threads hw len threads in
  let delta := d_div (d_of_Z len) (d_of_Z threads) in
  do sorted <- parallelFor 0 threads (local_sort delta) threads begin;
  if threads <=? 1 then Ok (sorted, None)
  else
    let depth := Z.log2_up threads in
    do r <- balanced_rounds (Z.to_nat ((depth + 1) / 2)) sorted scratch len threads 1 delta;
    Ok (fst r, Some (snd r)).

End Sort.

(** ** Orderings, slices and sortedness *)

(** A strict weak ordering: irreflexive, transitive, and with a transitive
    incomparability relation. *)
Record strict_weak_order {T : Type} (comp : T -> T -> bool) : Prop := {
  swo_irrefl : forall x, comp x x = false;
  swo_trans : forall x y z, comp x y = true -> comp y z = true -> comp x z = true;
  swo_equiv_trans : forall x y z,
    comp x y = false -> comp y x = false ->
    comp y z = false -> comp z y = false ->
    comp x z = false /\ comp z x = false
}.

(** [slice b lo hi] is [b[lo], ..., b[hi - 1]]. *)
Definition slice {T : Type} (b : list T) (lo hi : Z) : list T :=
  take (Z.to_nat (hi - lo)) (drop (Z.to_nat lo) b).

(** Non-descending under [comp]: no element is ordered strictly before an
    earlier one. *)
Definition sorted {T : Type} (comp : T -> T -> bool) (l : list T) : Prop :=
  StronglySorted (fun x y => comp y x = false) l.

(** [blit dst d out]: [dst] with [out] written from position [d] on. *)
Definition blit {T : Type} (dst : list T) (d : Z) (out : list T) : list T :=
  take (Z.to_nat d) dst ++ out ++ drop (Z.to_nat d + length out) dst.

(** ** Merge-path splits *)

(** The diagonal [llround(i * spacing)] of [getMergePaths] and of the
    workers of [parallelMerge]. *)
Definition grid (spacing : double) (k : Z) : Z :=
  match llround (d_mul (d_of_Z k) spacing) with
  | Ok v => v
  | _ => 0
  end.

(** [split_ok src aOff aCount bOff bCount d i]: taking the first [i]
    elements of A and the first [d - i] of B splits the merge at output
    position [d]: the last element taken from A is before the first one left
    in B, and the first one left in A is not before the last taken from B. *)
Definition split_ok {T : Type} (compFunc : T -> T -> bool) (src : list T)
  (aOff aCount bOff bCount d i : Z) : Prop :=
  Z.max 0 (d - bCount) <= i <= Z.min d aCount /\
  (0 < i -> d - i < bCount ->
   forall a b, src !! Z.to_nat (aOff + (i - 1)) = Some a ->
               src !! Z.to_nat (bOff + (d - 1 - (i - 1))) = Some b ->
               compFunc a b = true) /\
  (i < aCount -> 0 < d - i ->
   forall a b, src !! Z.to_nat (aOff + i) = Some a ->
               src !! Z.to_nat (bOff + (d - 1 - i)) = Some b ->
               compFunc a b = false).

(** ** Runs written one after the other *)

(** [chain B i pre src]: [pre] holds the first [B i] elements of [src]
    rearranged into the sorted runs [B j .. B (j + 1)], [j < i]. *)
Definition chain {T : Type} (compFunc : T -> T -> bool) (B : Z -> Z) (i : Z)
  (pre src : list T) : Prop :=
  Z.of_nat (length pre) = B i /\
  pre ≡ₚ slice src 0 (B i) /\
  forall j, 0 <= j < i -> sorted compFunc (slice pre (B j) (B (j + 1))).

(** [run_inv compFunc len t r buf]: before merge round [r] the buffer
    consists of sorted runs of [2 ^ r] local-sort segments each, followed
    by a sorted run of the segments left over. *)
Definition run_inv {T : Type} (compFunc : T -> T -> bool) (len t r : Z)
  (buf : list T) : Prop :=
  let G := grid (d_div (d_of_Z len) (d_of_Z t)) in
  Z.of_nat (length buf) = len /\
  (forall j, 0 <= j -> (j + 1) * 2 ^ r <= t ->
     sorted compFunc (slice buf (G (j * 2 ^ r)) (G ((j + 1) * 2 ^ r)))) /\
  (forall j, 0 <= j -> j * 2 ^ r <= t < (j + 1) * 2 ^ r ->
     sorted compFunc (slice buf (G (j * 2 ^ r)) len)).

(** ** Observing the scheduler *)

(** The indices [parallelFor] calls [fn] with, in the order of the model. *)
Definition invocation_log (begin end_ num_segs : Z) : res (list Z) :=
  parallelFor begin end_ (fun i log => Ok (log ++ [i])) num_segs [].

Definition seg_len (seg : Z * Z) : Z := snd seg - fst seg.

(** The running upper bound [sEnd] of [parallelFor] after [j] additions of
    [seg_size], and the segment boundaries it gives. *)
Fixpoint acc_sum (sigma : double) (j : nat) : double :=
  match j with
  | O => sigma
  | Datatypes.S j' => d_add (acc_sum sigma j') sigma
  end.

Definition seg_bound (sigma : double) (j : nat) : Z :=
  match j with
  | O => 0
  | Datatypes.S j' => match llround (acc_sum sigma j') with Ok v => v | _ => 0 end
  end.

(** [nearest n s j I]: [I] is an integer nearest to [j * n / s]. *)
Definition nearest (n s j I : Z) : Prop := 2 * Z.abs (s * I - j * n) <= s.

(** [delta] after [r] rounds ([delta *= 2.0] at the end of each). *)
Fixpoint round_delta (delta : double) (r : nat) : double :=
  match r with
  | O => delta
  | Datatypes.S r' => d_mul (round_delta delta r') d_two
  end.

(** *** Failing callbacks

    A callback may fail (throw).  [std::async] keeps the failure of a
    launched worker in the worker's future; [wait] on a future only waits
    and returns nothing; a failure in the segment the calling thread runs
    leaves [parallelFor] at once. *)

Section Failures.

Context {E : Type}.

(** [fn i = Some e]: the callback throws [e] on the index [i]. *)
Variable fn : Z -> option E.

(** [for (i = lb; i < le; i++) fn(begin + i)]: the calls made, and the
    failure that ended the loop. *)
Fixpoint call_loop (count : nat) (i : Z) : list Z * option E :=
  match count with
  | O => ([], None)
  | Datatypes.S c =>
      match fn i with
      | Some e => ([i], Some e)
      | None => let '(calls, r) := call_loop c (i + 1) in (i :: calls, r)
      end
  end.

Definition call_segment (begin : Z) (seg : Z * Z) : list Z * option E :=
  call_loop (Z.to_nat (snd seg - fst seg)) (begin + fst seg).

(** What a join leaves: the failure that reaches the caller, the failures
    kept in the futures, and the calls made. *)
Record join_result : Type := mk_join {
  raised : option E;
  futures : list (option E);
  calls : list Z
}.

(** [futures[seg].wait()]. *)
Definition wait (future : option E) : unit := tt.

Definition join_group (begin : Z) (segs : list (Z * Z)) : join_result :=
  match segs with
  | [] => mk_join None [] []
  | _ =>
      let launched := map (call_segment begin) (removelast segs) in
      let own := call_segment begin (List.last segs (0, 0)) in
      let _ := map wait (map snd launched) in
      mk_join (snd own) (map snd launched) (concat (map fst launched) ++ fst own)
  end.

Definition parallelFor_failing (begin end_ num_segs : Z) : res join_result :=
  do segs <- segments (end_ - begin) num_segs;
  Ok (join_group begin segs).

End Failures.

(** ** ParallelSortTest.cpp *)

Section Verifier.

Context {T : Type}.

(** [*(test_data + lc) != *(reference + lc)] *)
Variable neq : T -> T -> bool.

(** The callback of [sortVerifier]: one comparison, counted in the
    [size_t] counter [errCnt]. *)
Definition verify_step (test_data reference : list T) (lc : Z) (errCnt : Z) : res Z :=
  do a <- rd test_data lc;
  do b <- rd reference lc;
  Ok (if neq a b then to_size_t (errCnt + 1) else errCnt).

(** [sortVerifier]: [parallelFor((size_t)1, test_size, ..., (size_t)8)],
    where the number of iterations [end - begin] is computed in [size_t];
    the result is [thisTestFailed].  The [threads] parameter is not used. *)
Definition sortVerifier (test_data reference : list T) (test_size : Z) : res bool :=
  do errCnt <- parallelFor 1 (1 + to_size_t (test_size - 1))
                 (verify_step test_data reference) 8 0;
  Ok (errCnt >? 0).

End Verifier.

(** The kinds of test data. *)
Inductive data_type : Type := dtRandom | dtOrdered | dtReverseOrdered.

(** [for (i = 0; i < test_size; i += 19)
       source_data[i] = source_data[test_size - i];] *)
Fixpoint equalize (fuel : nat) (source_data : list Z) (test_size i : Z) : res (list Z) :=
  match fuel with
  | O => Fuel
  | Datatypes.S f =>
      if i <? test_size then
        do v <- rd source_data (test_size - i);
        do source_data' <- wr source_data i v;
        equalize f source_data' test_size (i + 19)
      else Ok source_data
  end.

(** [generateData] of [arraySortCase] and [vectorSortCase]; [rnd] is the
    sequence of values drawn from [riTestData].  The result is
    [source_data]. *)
Definition generateData (rnd : list Z) (test_size : Z) (dt : data_type) : res (list Z) :=
  match dt with
  | dtRandom =>
      equalize (Z.to_nat test_size + 1) (take (Z.to_nat test_size) rnd) test_size 0
  | dtOrdered => Ok (seqZ 0 test_size)
  | dtReverseOrdered => Ok (map (fun i => test_size - i) (seqZ 0 test_size))
  end.

(** [!=] on [int64_t]. *)
Definition int64_neq (a b : Z) : bool := negb (a =? b).

Section SortCases.

(** [std::sort] with the comparator of the test case. *)
Variable std_sort : (Z -> Z -> bool) -> list Z -> list Z.





End SortCases.

(** *** The string test case

    [textPointerSortCase] sorts pointers to the strings of the vector
    [strings].  A string is the sequence of its characters and a pointer
    into the vector is a position. *)



Section TextCase.

Variable strings : list (list Z).





Variable std_sort : (Z -> Z -> bool) -> list Z -> list Z.



End TextCase.

(** ** Sample data for the examples *)

(** Records ordered by their key only. *)
Definition key_lt (x y : Z * Z) : bool := fst x <? fst y.

(** A sequential sort: insertion sort. *)
Section InsertionSort.

Context {T : Type}.
Variable comp : T -> T -> bool.

Fixpoint insert_sorted (x : T) (l : list T) : list T :=
  match l with
  | [] => [x]
  | y :: l' => if comp x y then x :: l else y :: insert_sorted x l'
  end.

Definition insertion_sort (l : list T) : list T := foldr insert_sorted [] l.

End InsertionSort.

(** ** Facts on binary64 arithmetic *)

Module Binary64Facts.

Lemma iter_pos_nat {A} (f : A -> A) p x :
  SpecFloat.iter_pos f p x = Nat.iter (Pos.to_nat p) f x.
Proof.
  revert x. induction p as [p IH|p IH|]; intros x.
  - rewrite Pos2Nat.inj_xI. cbn [SpecFloat.iter_pos]. rewrite !IH.
    replace (S (2 * Pos.to_nat p))%nat with (Pos.to_nat p + S (Pos.to_nat p))%nat by lia.
    rewrite Nat.iter_add. f_equal. rewrite Nat.iter_succ_r. reflexivity.
  - rewrite Pos2Nat.inj_xO. cbn [SpecFloat.iter_pos]. rewrite !IH.
    replace (2 * Pos.to_nat p)%nat with (Pos.to_nat p + Pos.to_nat p)%nat by lia.
    rewrite Nat.iter_add. reflexivity.
  - reflexivity.
Qed.

Lemma shr_1_ok mrs R B :
  0 <= shr_m mrs -> 0 < B ->
  loc_ok (loc_of_shr_record mrs) R B ->
  shr_m (shr_1 mrs) = shr_m mrs / 2 /\
  loc_ok (loc_of_shr_record (shr_1 mrs)) (R + (shr_m mrs mod 2) * B) (2 * B).
Proof.
  destruct mrs as [m r s]. simpl. intros Hm HB Hl.
  assert (Hdm : m = 2 * (m / 2) + m mod 2) by (apply Z.div_mod; lia).
  assert (Hmod : 0 <= m mod 2 < 2) by (apply Z.mod_pos_bound; lia).
  destruct m as [|p|p]; [| |lia].
  - simpl. destruct r, s; simpl in *; lia.
  - destruct p as [p|p|].
    + assert (Z.pos p~1 / 2 = Z.pos p) as -> by (rewrite Pos2Z.inj_xI; lia).
      assert (Z.pos p~1 mod 2 = 1) as -> by (rewrite Pos2Z.inj_xI; lia).
      split; [reflexivity|]. destruct r, s; simpl in *; lia.
    + assert (Z.pos p~0 / 2 = Z.pos p) as -> by (rewrite Pos2Z.inj_xO; lia).
      assert (Z.pos p~0 mod 2 = 0) as -> by (rewrite Pos2Z.inj_xO; lia).
      split; [reflexivity|]. destruct r, s; simpl in *; lia.
    + split; [reflexivity|]. destruct r, s; simpl in *; lia.
Qed.


Lemma loc_ok_range l R B : 0 < B -> loc_ok l R B -> 0 <= R < B.
Proof. destruct l as [|[]]; simpl; lia. Qed.

Lemma iter_shr_ok k mrs R B :
  0 <= shr_m mrs -> 0 < B ->
  loc_ok (loc_of_shr_record mrs) R B ->
  let mrs' := Nat.iter k shr_1 mrs in
  shr_m mrs' = shr_m mrs / 2 ^ Z.of_nat k /\
  exists R', loc_ok (loc_of_shr_record mrs') R' (2 ^ Z.of_nat k * B) /\
             shr_m mrs * B + R = shr_m mrs' * (2 ^ Z.of_nat k * B) + R'.
Proof.
  intros Hm HB Hl. induction k as [|k IH].
  - change (Nat.iter 0 shr_1 mrs) with mrs. change (Z.of_nat 0) with 0. rewrite Z.pow_0_r, Z.div_1_r, Z.mul_1_l.
    split; [reflexivity|]. exists R. split; [exact Hl|lia].
  - change (Nat.iter (S k) shr_1 mrs) with (shr_1 (Nat.iter k shr_1 mrs)). cbv zeta in IH. destruct IH as [Hmk (R' & Hl' & Heq)].
    set (mk := Nat.iter k shr_1 mrs) in *.
    assert (Hpow : 0 < 2 ^ Z.of_nat k) by (apply Z.pow_pos_nonneg; lia).
    assert (Hmk0 : 0 <= shr_m mk)
      by (rewrite Hmk; apply Z.div_pos; lia).
    destruct (shr_1_ok mk R' (2 ^ Z.of_nat k * B) Hmk0 ltac:(lia) Hl') as [H1 H2].
    rewrite Nat2Z.inj_succ, Z.pow_succ_r by lia.
    split.
    + rewrite H1, Hmk, Z.div_div by lia. f_equal. lia.
    + exists (R' + shr_m mk mod 2 * (2 ^ Z.of_nat k * B)). split.
      * replace (2 * 2 ^ Z.of_nat k * B) with (2 * (2 ^ Z.of_nat k * B)) by lia. exact H2.
      * rewrite H1, Heq.
        pose proof (Z.div_mod (shr_m mk) 2 ltac:(lia)) as Hd. nia.
Qed.

Lemma rne_ok l m R B :
  0 < B -> loc_ok l R B ->
  let m1 := round_nearest_even m l in
  (m1 = m \/ m1 = m + 1) /\ 2 * Z.abs (m1 * B - (m * B + R)) <= B /\
  (R = 0 -> m1 = m).
Proof.
  intros HB Hl. destruct l as [|[]]; simpl in *.
  - split; [auto|]. split; [lia|auto].
  - destruct (Z.even m); (split; [auto|]; split; [lia|lia]).
  - split; [auto|]. split; [lia|lia].
  - split; [auto|]. split; [lia|lia].
Qed.

Lemma digits2_pos_bounds p :
  2 ^ (Zpos (digits2_pos p) - 1) <= Zpos p < 2 ^ Zpos (digits2_pos p).
Proof.
  induction p as [p IH|p IH|]; cbn [digits2_pos].
  - rewrite Pos2Z.inj_succ.
    replace (Z.succ (Z.pos (digits2_pos p)) - 1) with (Z.succ (Z.pos (digits2_pos p) - 1)) by lia.
    rewrite !Z.pow_succ_r by lia. lia.
  - rewrite Pos2Z.inj_succ.
    replace (Z.succ (Z.pos (digits2_pos p)) - 1) with (Z.succ (Z.pos (digits2_pos p) - 1)) by lia.
    rewrite !Z.pow_succ_r by lia. lia.
  - simpl. lia.
Qed.

Lemma Zdigits2_eq m n :
  0 < n -> 2 ^ (n - 1) <= m < 2 ^ n -> Zdigits2 m = n.
Proof.
  intros Hn [Hlo Hhi].
  assert (0 < m) by (pose proof (Z.pow_pos_nonneg 2 (n - 1)); lia).
  destruct m as [|p|p]; try lia. simpl.
  pose proof (digits2_pos_bounds p) as [H1 H2].
  set (d := Z.pos (digits2_pos p)) in *.
  destruct (Z.lt_trichotomy d n) as [Hlt|[Heq|Hgt]]; [|exact Heq|].
  - assert (2 ^ d <= 2 ^ (n - 1)) by (apply Z.pow_le_mono_r; lia). lia.
  - assert (2 ^ n <= 2 ^ (d - 1)) by (apply Z.pow_le_mono_r; lia). lia.
Qed.

Lemma Zdigits2_bounds m :
  0 < m -> 2 ^ (Zdigits2 m - 1) <= m < 2 ^ Zdigits2 m.
Proof. destruct m; try lia. intros _. apply digits2_pos_bounds. Qed.

Lemma Zdigits2_pos m : 0 < m -> 0 < Zdigits2 m.
Proof. destruct m; simpl; lia. Qed.


Lemma loc_of_record_of_loc m l : loc_of_shr_record (shr_record_of_loc m l) = l.
Proof. destruct l as [|[]]; reflexivity. Qed.

Lemma shr_m_record_of_loc m l : shr_m (shr_record_of_loc m l) = m.
Proof. destruct l as [|[]]; reflexivity. Qed.

Lemma shr_fexp_spec mx ex lx R B :
  0 < mx -> 0 < B -> loc_ok lx R B ->
  let k := Zdigits2 mx - 53 in
  0 <= k -> -1074 <= ex + k ->
  exists mrs R', shr_fexp prec emax mx ex lx = (mrs, ex + k) /\
     shr_m mrs = mx / 2 ^ k /\ loc_ok (loc_of_shr_record mrs) R' (2 ^ k * B) /\
     mx * B + R = shr_m mrs * (2 ^ k * B) + R'.
Proof.
  intros Hmx HB Hl k Hk Hex.
  unfold shr_fexp, fexp, emin, prec, emax.
  replace (Z.max (Zdigits2 mx + ex - 53) (3 - 1024 - 53) - ex) with k by (unfold k; lia).
  pose proof (iter_shr_ok (Z.to_nat k) (shr_record_of_loc mx lx) R B) as Hit.
  rewrite shr_m_record_of_loc, loc_of_record_of_loc in Hit.
  specialize (Hit ltac:(lia) HB Hl). cbv zeta in Hit.
  rewrite Z2Nat.id in Hit by lia.
  destruct Hit as [H1 (R' & H2 & H3)].
  exists (Nat.iter (Z.to_nat k) shr_1 (shr_record_of_loc mx lx)), R'.
  split; [|auto].
  unfold shr. destruct k as [|p|p] eqn:Ek; [| |lia].
  - simpl. f_equal. lia.
  - rewrite iter_pos_nat. reflexivity.
Qed.

Lemma bra_spec sx mx ex lx R B :
  0 < mx -> 0 < B -> loc_ok lx R B ->
  let k := Zdigits2 mx - 53 in
  0 <= k -> -1074 <= ex + k -> ex + k + 1 <= 971 ->
  exists m e, binary_round_aux prec emax sx mx ex lx = S754_finite sx m e /\
    Zpos (digits2_pos m) = 53 /\ ex + k <= e <= ex + k + 1 /\
    2 * Z.abs (Zpos m * 2 ^ (e - ex) * B - (mx * B + R)) <= 2 ^ k * B /\
    (R = 0 -> mx mod 2 ^ k = 0 -> Zpos m * 2 ^ (e - ex) = mx).
Proof.
  intros Hmx HB Hl k Hk Hlo Hhi.
  destruct (shr_fexp_spec mx ex lx R B Hmx HB Hl Hk Hlo) as (mrs & R' & E1 & Hm & Hl' & Heq).
  fold k in E1, Hm, Hl', Heq.
  assert (Hpk : 0 < 2 ^ k) by (apply Z.pow_pos_nonneg; lia).
  pose proof (Zdigits2_bounds mx Hmx) as [Hd1 Hd2].
  assert (Hmk : 2 ^ 52 <= shr_m mrs < 2 ^ 53).
  { rewrite Hm. replace (Zdigits2 mx) with (53 + k) in Hd1, Hd2 by (unfold k; lia).
    replace (53 + k - 1) with (52 + k) in Hd1 by lia.
    rewrite Z.pow_add_r in Hd1, Hd2 by lia. split.
    - apply Z.div_le_lower_bound; lia.
    - apply Z.div_lt_upper_bound; lia. }
  pose proof (rne_ok _ (shr_m mrs) R' (2 ^ k * B) ltac:(lia) Hl') as Hr.
  cbv zeta in Hr. destruct Hr as (Hm1 & Herr & Hex).
  set (m1 := round_nearest_even (shr_m mrs) (loc_of_shr_record mrs)) in *.
  assert (Hm1r : 2 ^ 52 <= m1 <= 2 ^ 53) by lia.
  set (k' := Zdigits2 m1 - 53).
  assert (Hk' : (m1 < 2 ^ 53 /\ k' = 0) \/ (m1 = 2 ^ 53 /\ k' = 1)).
  { destruct (Z.eq_dec m1 (2 ^ 53)) as [E|NE].
    - right. split; [exact E|]. unfold k'. rewrite E. reflexivity.
    - left. split; [lia|]. unfold k'. rewrite (Zdigits2_eq m1 53); lia. }
  destruct (shr_fexp_spec m1 (ex + k) loc_Exact 0 1 ltac:(lia) ltac:(lia) eq_refl)
    as (mrs2 & R2 & E2 & Hm2 & Hl2 & Heq2); fold k'; try lia.
  fold k' in E2, Hm2, Hl2, Heq2.
  unfold binary_round_aux. rewrite E1. fold m1. rewrite E2.
  assert (HM : shr_m mrs2 * 2 ^ k' = m1 /\ 2 ^ 52 <= shr_m mrs2 < 2 ^ 53).
  { rewrite Hm2. destruct Hk' as [[Hlt ->]|[-> ->]].
    - rewrite Z.pow_0_r, Z.div_1_r. lia.
    - split; reflexivity || (split; [reflexivity|reflexivity]) || idtac.
      all: vm_compute; try reflexivity; try (split; congruence). }
  destruct HM as [HM HMr].
  destruct (shr_m mrs2) as [|M|M] eqn:EM; try lia.
  exists M, (ex + k + k').
  assert (Hle : (ex + k + k' <=? emax - prec) = true)
    by (apply Z.leb_le; unfold emax, prec; destruct Hk' as [[_ ->]|[_ ->]]; lia).
  rewrite Hle. split; [reflexivity|].
  split.
  { change (Z.pos (digits2_pos M)) with (Zdigits2 (Z.pos M)). apply Zdigits2_eq; lia. }
  split; [destruct Hk' as [[_ ->]|[_ ->]]; lia|].
  replace (ex + k + k' - ex) with (k' + k) by lia.
  assert (Hk'0 : 0 <= k') by (destruct Hk' as [[_ ->]|[_ ->]]; lia).
  rewrite Z.pow_add_r by lia.
  replace (Z.pos M * (2 ^ k' * 2 ^ k)) with (m1 * 2 ^ k) by (rewrite <- HM; ring).
  split.
  - rewrite Heq. replace (m1 * 2 ^ k * B - (shr_m mrs * (2 ^ k * B) + R'))
      with (m1 * (2 ^ k * B) - (shr_m mrs * (2 ^ k * B) + R')) by ring. exact Herr.
  - intros HR0 Hmod.
    assert (R' = 0).
    { subst R. rewrite Hm in Heq.
      pose proof (Z.div_mod mx (2 ^ k) ltac:(lia)) as Hdm. rewrite Hmod in Hdm. nia. }
    rewrite (Hex H), Hm.
    pose proof (Z.div_mod mx (2 ^ k) ltac:(lia)) as Hdm. rewrite Hmod in Hdm. lia.
Qed.


Lemma bra_rel sx mx ex lx R B :
  0 < mx -> 0 < B -> loc_ok lx R B ->
  let k := Zdigits2 mx - 53 in
  0 <= k -> -1074 <= ex + k -> ex + k + 1 <= 971 ->
  exists m e, binary_round_aux prec emax sx mx ex lx = S754_finite sx m e /\
    Zpos (digits2_pos m) = 53 /\ ex + k <= e <= ex + k + 1 /\
    2 ^ 53 * Z.abs (Zpos m * 2 ^ (e - ex) * B - (mx * B + R)) <= mx * B + R /\
    (R = 0 -> mx mod 2 ^ k = 0 -> Zpos m * 2 ^ (e - ex) = mx).
Proof.
  intros Hmx HB Hl k Hk Hlo Hhi.
  destruct (bra_spec sx mx ex lx R B Hmx HB Hl Hk Hlo Hhi) as (m & e & E & Hd & He & Herr & Hex).
  exists m, e. repeat split; try assumption; try lia.
  fold k in Herr.
  pose proof (Zdigits2_bounds mx Hmx) as [Hd1 _].
  replace (Zdigits2 mx - 1) with (52 + k) in Hd1 by (unfold k; lia).
  rewrite Z.pow_add_r in Hd1 by lia.
  pose proof (loc_ok_range _ _ _ HB Hl) as HR.
  assert (Hpk : 0 < 2 ^ k) by (apply Z.pow_pos_nonneg; lia).
  assert (2 ^ 52 * (2 ^ k * B) <= mx * B + R) by nia.
  change (2 ^ 53) with (2 * 2 ^ 52).
  set (D := Z.abs (Z.pos m * 2 ^ (e - ex) * B - (mx * B + R))) in *.
  nia.
Qed.


Open Scope Q_scope.

Lemma two_pow_pos (e : Z) : 0 < 2 ^ e.
Proof. apply Qpower_0_lt. reflexivity. Qed.

Lemma inject_Z_pow2 (n : Z) : (0 <= n)%Z -> inject_Z (2 ^ n) == 2 ^ n.
Proof. intros H. rewrite Zpower_Qpower by assumption. reflexivity. Qed.

Lemma rel_to_approx (M N B : Z) (e ex : Z) :
  (0 < B)%Z -> (0 <= e - ex)%Z ->
  (2 ^ 53 * Z.abs (M * 2 ^ (e - ex) * B - N) <= N)%Z ->
  approx (inject_Z M * 2 ^ e) (inject_Z N / inject_Z B * 2 ^ ex) ulp53.
Proof.
  intros HB He Herr.
  assert (HBq : 0 < inject_Z B) by (change 0 with (inject_Z 0); rewrite <- Zlt_Qlt; exact HB).
  pose proof (two_pow_pos ex) as HP.
  assert (E2 : 2 ^ e == inject_Z (2 ^ (e - ex)) * 2 ^ ex).
  { rewrite inject_Z_pow2 by assumption. rewrite <- Qpower_plus by discriminate.
    apply Qpower_comp; [reflexivity|lia]. }
  set (D := (M * 2 ^ (e - ex) * B - N)%Z) in *.
  assert (HD1 : - inject_Z N <= inject_Z (2 ^ 53) * inject_Z D).
  { rewrite <- inject_Z_opp, <- inject_Z_mult, <- Zle_Qle. lia. }
  assert (HD2 : inject_Z (2 ^ 53) * inject_Z D <= inject_Z N).
  { rewrite <- inject_Z_mult, <- Zle_Qle. lia. }
  assert (ED : inject_Z D == inject_Z M * inject_Z (2 ^ (e - ex)) * inject_Z B - inject_Z N).
  { unfold D. unfold Z.sub. rewrite inject_Z_plus, inject_Z_opp, !inject_Z_mult. reflexivity. }
  set (c := inject_Z (2 ^ (e - ex))) in *.
  set (s := 2 ^ ex / inject_Z B).
  assert (Hs : 0 < s) by (apply Qlt_shift_div_l; [exact HBq|lra]).
  assert (EV : inject_Z M * 2 ^ e == (inject_Z N + inject_Z D) * s).
  { rewrite E2, ED. unfold s. field. lra. }
  assert (EX : inject_Z N / inject_Z B * 2 ^ ex == inject_Z N * s).
  { unfold s. field. lra. }
  unfold approx. rewrite EV, EX. unfold ulp53.
  change (inject_Z (2 ^ 53)) with (9007199254740992) in HD1, HD2.
  assert (H1 : 0 <= s * (inject_Z N + 9007199254740992 * inject_Z D))
    by (apply Qmult_le_0_compat; lra).
  assert (H2 : 0 <= s * (inject_Z N - 9007199254740992 * inject_Z D))
    by (apply Qmult_le_0_compat; lra).
  set (a := inject_Z N) in *. set (d := inject_Z D) in *.
  change (1 # 2 ^ 53) with (1 / 9007199254740992).
  split.
  - assert (E : (a + d) * s - a * s * (1 - (1 / 9007199254740992)) ==
               (s * (a + 9007199254740992 * d)) * (1 / 9007199254740992)) by (field).
    assert (0 <= (s * (a + 9007199254740992 * d)) * (1 / 9007199254740992))
      by (apply Qmult_le_0_compat; [exact H1|discriminate]).
    lra.
  - assert (E : a * s * (1 + (1 / 9007199254740992)) - (a + d) * s ==
               (s * (a - 9007199254740992 * d)) * (1 / 9007199254740992)) by (field).
    assert (0 <= (s * (a - 9007199254740992 * d)) * (1 / 9007199254740992))
      by (apply Qmult_le_0_compat; [exact H2|discriminate]).
    lra.
Qed.


Lemma dnormal_weaken x lo hi lo' hi' :
  dnormal x lo hi -> (lo' <= lo)%Z -> (hi <= hi')%Z -> dnormal x lo' hi'.
Proof. intros (m & e & -> & Hd & He) H1 H2. exists m, e. repeat split; auto; lia. Qed.

Lemma dnormal_pos x lo hi : dnormal x lo hi -> 0 < dval x.
Proof.
  intros (m & e & -> & _ & _). simpl.
  apply Qmult_lt_0_compat; [reflexivity|apply two_pow_pos].
Qed.

Lemma digits53_bounds m :
  Zpos (digits2_pos m) = 53%Z -> (2 ^ 52 <= Zpos m < 2 ^ 53)%Z.
Proof. intros H. pose proof (digits2_pos_bounds m) as Hb. rewrite H in Hb. exact Hb. Qed.

Lemma d_mul_spec x y a1 b1 a2 b2 :
  dnormal x a1 b1 -> dnormal y a2 b2 ->
  (-1074 <= a1 + a2 + 52)%Z -> (b1 + b2 + 54 <= 971)%Z ->
  dnormal (d_mul x y) (a1 + a2 + 52) (b1 + b2 + 54) /\
  approx (dval (d_mul x y)) (dval x * dval y) ulp53.
Proof.
  intros (m1 & e1 & -> & Hd1 & He1) (m2 & e2 & -> & Hd2 & He2) Hlo Hhi.
  pose proof (digits53_bounds _ Hd1) as Hb1. pose proof (digits53_bounds _ Hd2) as Hb2.
  unfold d_mul, SFmul. cbn [xorb].
  assert (Hp : (2 ^ 104 <= Zpos (m1 * m2) < 2 ^ 106)%Z).
  { rewrite Pos2Z.inj_mul. change (2 ^ 104)%Z with (2 ^ 52 * 2 ^ 52)%Z.
    change (2 ^ 106)%Z with (2 ^ 53 * 2 ^ 53)%Z. nia. }
  assert (Hk : (Zdigits2 (Zpos (m1 * m2)) = 105 \/ Zdigits2 (Zpos (m1 * m2)) = 106)%Z).
  { destruct (Z_lt_le_dec (Zpos (m1 * m2)) (2 ^ 105)).
    - left. apply Zdigits2_eq; [lia|]. change (105 - 1)%Z with 104%Z. lia.
    - right. apply Zdigits2_eq; [lia|]. change (106 - 1)%Z with 105%Z. lia. }
  destruct (bra_rel false (Zpos (m1 * m2)) (e1 + e2) loc_Exact 0 1)
    as (m & e & E & Hd & He & Herr & _); try lia; try reflexivity.
  rewrite E. split.
  - exists m, e. repeat split; auto; lia.
  - simpl. pose proof (rel_to_approx (Zpos m) (Zpos (m1 * m2) * 1 + 0) 1 e (e1 + e2)
                         ltac:(lia) ltac:(lia) Herr) as Ha.
    assert (EX : inject_Z (Z.pos (m1 * m2) * 1 + 0) / inject_Z 1 * 2 ^ (e1 + e2)
                 == inject_Z (Z.pos m1) * 2 ^ e1 * (inject_Z (Z.pos m2) * 2 ^ e2)).
    { rewrite Z.mul_1_r, Z.add_0_r, Pos2Z.inj_mul, inject_Z_mult.
      rewrite Qpower_plus by discriminate. change (inject_Z 1) with 1. field. }
    unfold approx in *. rewrite EX in Ha. exact Ha.
Qed.


Lemma new_location_ok (m r : Z) :
  (0 < m)%Z -> (0 <= r < m)%Z -> loc_ok (new_location m r) r m.
Proof.
  intros Hm Hr. unfold new_location, new_location_even, new_location_odd.
  destruct (Z.even m) eqn:Ev.
  - destruct (Z.eqb_spec r 0) as [->|Hn]; [reflexivity|].
    simpl. destruct (Z.compare_spec (2 * r) m); lia.
  - destruct (Z.eqb_spec r 0) as [->|Hn]; [reflexivity|].
    assert (Hodd : Z.odd m = true) by (rewrite <- Z.negb_even, Ev; reflexivity).
    apply Z.odd_spec in Hodd. destruct Hodd as [c Hc].
    simpl. destruct (Z.compare_spec (2 * r + 1) m); lia.
Qed.

Lemma d_div_spec x y a1 b1 a2 b2 :
  dnormal x a1 b1 -> dnormal y a2 b2 ->
  (-1074 <= a1 - b2 - 53)%Z -> (b1 - a2 - 51 <= 971)%Z ->
  dnormal (d_div x y) (a1 - b2 - 53) (b1 - a2 - 51) /\
  approx (dval (d_div x y)) (dval x / dval y) ulp53.
Proof.
  intros (m1 & e1 & -> & Hd1 & He1) (m2 & e2 & -> & Hd2 & He2) Hlo Hhi.
  pose proof (digits53_bounds _ Hd1) as Hb1. pose proof (digits53_bounds _ Hd2) as Hb2.
  unfold d_div, SFdiv, SFdiv_core_binary. cbn [xorb Zdigits2].
  rewrite Hd1, Hd2.
  replace (Z.min (fexp prec emax (53 + e1 - (53 + e2))) (e1 - e2))
    with (e1 - e2 - 53)%Z by (unfold fexp, emin, prec, emax; lia).
  replace (e1 - e2 - (e1 - e2 - 53))%Z with 53%Z by lia.
  rewrite Z.shiftl_mul_pow2 by lia.
  pose proof (Z_div_mod (Zpos m1 * 2 ^ 53) (Zpos m2) ltac:(lia)) as Hdm.
  destruct (Z.div_eucl (Zpos m1 * 2 ^ 53) (Zpos m2)) as [q r].
  destruct Hdm as [Hq Hr].
  assert (Hqb : (2 ^ 52 <= q < 2 ^ 54)%Z).
  { change (2 ^ 54)%Z with (2 * 2 ^ 53)%Z. change (2 ^ 53)%Z with (2 * 2 ^ 52)%Z in *. nia. }
  assert (Hk : (Zdigits2 q = 53 \/ Zdigits2 q = 54)%Z).
  { destruct (Z_lt_le_dec q (2 ^ 53)).
    - left. apply Zdigits2_eq; [lia|]. change (53 - 1)%Z with 52%Z. lia.
    - right. apply Zdigits2_eq; [lia|]. change (54 - 1)%Z with 53%Z. lia. }
  destruct (bra_rel false q (e1 - e2 - 53) (new_location (Zpos m2) r) r (Zpos m2))
    as (m & e & E & Hd & He & Herr & _); try lia.
  { apply new_location_ok; lia. }
  rewrite E. split.
  - exists m, e. repeat split; auto; lia.
  - simpl. pose proof (rel_to_approx (Zpos m) (q * Zpos m2 + r) (Zpos m2) e (e1 - e2 - 53)
                         ltac:(lia) ltac:(lia) Herr) as Ha.
    assert (EX : inject_Z (q * Z.pos m2 + r) / inject_Z (Z.pos m2) * 2 ^ (e1 - e2 - 53)
                 == inject_Z (Z.pos m1) * 2 ^ e1 / (inject_Z (Z.pos m2) * 2 ^ e2)).
    { replace (q * Z.pos m2 + r)%Z with (Z.pos m1 * 2 ^ 53)%Z by lia.
      rewrite inject_Z_mult, inject_Z_pow2 by lia.
      replace (e1 - e2 - 53)%Z with (e1 - (e2 + 53))%Z by lia.
      rewrite Qpower_minus, Qpower_plus by discriminate.
      pose proof (two_pow_pos e2). pose proof (two_pow_pos 53).
      assert (0 < inject_Z (Z.pos m2)) by reflexivity.
      field. repeat split; lra. }
    unfold approx in *. rewrite EX in Ha. exact Ha.
Qed.


Lemma pos_iter_xO (m d : positive) :
  Zpos (Pos.iter xO m d) = (Zpos m * 2 ^ Zpos d)%Z.
Proof.
  induction d as [|d IH] using Pos.peano_ind.
  - simpl. rewrite Pos2Z.inj_xO. lia.
  - rewrite Pos.iter_succ, Pos2Z.inj_xO, IH, Pos2Z.inj_succ, Z.pow_succ_r by lia. ring.
Qed.

Lemma shl_align_le m e e' :
  (e' <= e)%Z ->
  Zpos (fst (shl_align m e e')) = (Zpos m * 2 ^ (e - e'))%Z /\
  snd (shl_align m e e') = e'.
Proof.
  intros H. unfold shl_align. destruct (e' - e)%Z as [|p|p] eqn:E; try lia.
  - assert (e' = e) by lia. subst. simpl. rewrite Z.sub_diag. simpl. lia.
  - simpl. rewrite pos_iter_xO. replace (e - e')%Z with (Zpos p) by lia. auto.
Qed.

Lemma shl_align_ge m e e' :
  (e <= e')%Z -> shl_align m e e' = (m, e).
Proof.
  intros H. unfold shl_align. destruct (e' - e)%Z as [|p|p] eqn:E; try lia; reflexivity.
Qed.

Lemma d_add_spec x y a1 b1 a2 b2 :
  dnormal x a1 b1 -> dnormal y a2 b2 ->
  (-1074 <= Z.min a1 a2)%Z -> (Z.max b1 b2 + 2 <= 971)%Z ->
  dnormal (d_add x y) (Z.max a1 a2) (Z.max b1 b2 + 2) /\
  approx (dval (d_add x y)) (dval x + dval y) ulp53.
Proof.
  intros (m1 & e1 & -> & Hd1 & He1) (m2 & e2 & -> & Hd2 & He2) Hlo Hhi.
  pose proof (digits53_bounds _ Hd1) as Hb1. pose proof (digits53_bounds _ Hd2) as Hb2.
  unfold d_add, SFadd. cbn [cond_Zopp].
  set (ez := Z.min e1 e2).
  destruct (shl_align_le m1 e1 ez ltac:(unfold ez; lia)) as [H1 _].
  destruct (shl_align_le m2 e2 ez ltac:(unfold ez; lia)) as [H2 _].
  rewrite H1, H2.
  set (S := (Zpos m1 * 2 ^ (e1 - ez) + Zpos m2 * 2 ^ (e2 - ez))%Z).
  assert (Hp1 : (0 < 2 ^ (e1 - ez))%Z) by (apply Z.pow_pos_nonneg; unfold ez; lia).
  assert (Hp2 : (0 < 2 ^ (e2 - ez))%Z) by (apply Z.pow_pos_nonneg; unfold ez; lia).
  set (ex := Z.max e1 e2).
  assert (Hpx : (2 ^ (ex - ez) = 2 ^ (e1 - ez) \/ 2 ^ (ex - ez) = 2 ^ (e2 - ez))%Z)
    by (unfold ex; destruct (Z.max_spec e1 e2) as [[_ ->]|[_ ->]]; auto).
  assert (Hp12 : (2 ^ (e1 - ez) <= 2 ^ (ex - ez) /\ 2 ^ (e2 - ez) <= 2 ^ (ex - ez))%Z)
    by (split; apply Z.pow_le_mono_r; unfold ex, ez; lia).
  assert (HS : (2 ^ 52 * 2 ^ (ex - ez) < S < 2 ^ 54 * 2 ^ (ex - ez))%Z).
  { unfold S. change (2 ^ 54)%Z with (2 * 2 ^ 53)%Z. split; [|nia].
    destruct Hpx as [-> | ->]; nia. }
  rewrite <- !Z.pow_add_r in HS by (unfold ex, ez; lia).
  assert (HSpos : (0 < S)%Z) by (unfold S; nia).
  assert (Hdig : (53 + (ex - ez) <= Zdigits2 S <= 54 + (ex - ez))%Z).
  { pose proof (Zdigits2_bounds S HSpos) as [Hl Hu].
    pose proof (Zdigits2_pos S HSpos).
    split.
    - destruct (Z_lt_le_dec (Zdigits2 S) (53 + (ex - ez))) as [Hlt|]; [|lia].
      assert (2 ^ Zdigits2 S <= 2 ^ (52 + (ex - ez)))%Z by (apply Z.pow_le_mono_r; lia). lia.
    - destruct (Z_lt_le_dec (54 + (ex - ez)) (Zdigits2 S)) as [Hlt|]; [|lia].
      assert (2 ^ (54 + (ex - ez)) <= 2 ^ (Zdigits2 S - 1))%Z by (apply Z.pow_le_mono_r; lia). lia. }
  destruct S as [|s|s] eqn:ES; try lia.
  unfold binary_normalize, binary_round.
  rewrite shl_align_ge.
  2:{ unfold fexp, emin, prec, emax. cbn [Zdigits2] in Hdig. unfold ex, ez in *. lia. }
  destruct (bra_rel false (Zpos s) ez loc_Exact 0 1)
    as (m & e & E & Hd & He & Herr & _); try (unfold ex, ez in *; lia); try reflexivity.
  rewrite E. split.
  - exists m, e. repeat split; auto; unfold ex, ez in *; lia.
  - simpl. pose proof (rel_to_approx (Zpos m) (Zpos s * 1 + 0) 1 e ez
                         ltac:(lia) ltac:(unfold ex, ez in *; lia) Herr) as Ha.
    assert (EX : inject_Z (Z.pos s * 1 + 0) / inject_Z 1 * 2 ^ ez
                 == inject_Z (Z.pos m1) * 2 ^ e1 + inject_Z (Z.pos m2) * 2 ^ e2).
    { rewrite Z.mul_1_r, Z.add_0_r, <- ES. unfold S.
      rewrite inject_Z_plus, !inject_Z_mult, !inject_Z_pow2 by (unfold ez; lia).
      assert (E1 : 2 ^ e1 == 2 ^ (e1 - ez) * 2 ^ ez)
        by (rewrite <- Qpower_plus by discriminate; apply Qpower_comp; [reflexivity|lia]).
      assert (E2 : 2 ^ e2 == 2 ^ (e2 - ez) * 2 ^ ez)
        by (rewrite <- Qpower_plus by discriminate; apply Qpower_comp; [reflexivity|lia]).
      rewrite E1, E2. change (inject_Z 1) with 1. field. }
    unfold approx in *. rewrite EX in Ha. exact Ha.
Qed.


Lemma bra_exact sx (m0 : positive) (j ex : Z) :
  Zpos (digits2_pos m0) = 53%Z -> (0 <= j)%Z ->
  (-1074 <= ex + j)%Z -> (ex + j + 1 <= 971)%Z ->
  binary_round_aux prec emax sx (Zpos m0 * 2 ^ j) ex loc_Exact = S754_finite sx m0 (ex + j).
Proof.
  intros Hd Hj Hlo Hhi.
  pose proof (digits53_bounds _ Hd) as Hb.
  assert (Hpj : (0 < 2 ^ j)%Z) by (apply Z.pow_pos_nonneg; lia).
  assert (Hdig : Zdigits2 (Zpos m0 * 2 ^ j) = (53 + j)%Z).
  { apply Zdigits2_eq; [lia|]. replace (53 + j - 1)%Z with (52 + j)%Z by lia.
    rewrite !Z.pow_add_r by lia. nia. }
  destruct (bra_rel sx (Zpos m0 * 2 ^ j) ex loc_Exact 0 1)
    as (m & e & E & Hdm & He & _ & Hex); try lia; try reflexivity.
  rewrite Hdig in He, Hex. replace (53 + j - 53)%Z with j in He, Hex by lia.
  specialize (Hex eq_refl (Z_mod_mult _ _)).
  pose proof (digits53_bounds _ Hdm) as Hbm.
  assert (e = ex + j)%Z.
  { destruct (Z.eq_dec e (ex + j)%Z) as [|Hne]; [assumption|].
    replace (e - ex)%Z with (j + 1)%Z in Hex by lia.
    rewrite Z.pow_add_r in Hex by lia. change (2 ^ 1)%Z with 2%Z in Hex.
    change (2 ^ 53)%Z with (2 * 2 ^ 52)%Z in *. nia. }
  subst e. replace (ex + j - ex)%Z with j in Hex by lia.
  assert (Zpos m = Zpos m0) by nia.
  rewrite E. congruence.
Qed.

Lemma mant_of_spec n :
  (0 < n < 2 ^ 53)%Z ->
  Zpos (mant_of n) = (n * 2 ^ (53 - Zdigits2 n))%Z /\ Zpos (digits2_pos (mant_of n)) = 53%Z
  /\ (1 <= Zdigits2 n <= 53)%Z.
Proof.
  intros Hn. pose proof (Zdigits2_bounds n ltac:(lia)) as [Hl Hu].
  pose proof (Zdigits2_pos n ltac:(lia)) as Hp.
  assert (Hd : (Zdigits2 n <= 53)%Z).
  { destruct (Z_lt_le_dec 53 (Zdigits2 n)) as [Hlt|]; [|lia].
    assert (2 ^ 53 <= 2 ^ (Zdigits2 n - 1))%Z by (apply Z.pow_le_mono_r; lia). lia. }
  assert (Hpw : (0 < 2 ^ (53 - Zdigits2 n))%Z) by (apply Z.pow_pos_nonneg; lia).
  assert (E : Zpos (mant_of n) = (n * 2 ^ (53 - Zdigits2 n))%Z)
    by (unfold mant_of; rewrite Z2Pos.id; nia).
  split; [exact E|]. split; [|lia].
  change (Z.pos (digits2_pos (mant_of n))) with (Zdigits2 (Zpos (mant_of n))).
  apply Zdigits2_eq; [lia|]. rewrite E.
  assert (E1 : (2 ^ (53 - 1) = 2 ^ (Zdigits2 n - 1) * 2 ^ (53 - Zdigits2 n))%Z)
    by (rewrite <- Z.pow_add_r by lia; f_equal; lia).
  assert (E2 : (2 ^ 53 = 2 ^ (Zdigits2 n) * 2 ^ (53 - Zdigits2 n))%Z)
    by (rewrite <- Z.pow_add_r by lia; f_equal; lia).
  rewrite E1, E2. nia.
Qed.

Lemma d_of_Z_exact n :
  (0 < n < 2 ^ 53)%Z ->
  d_of_Z n = S754_finite false (mant_of n) (Zdigits2 n - 53).
Proof.
  intros Hn. destruct (mant_of_spec n Hn) as (Hm & Hd & Hdn).
  unfold d_of_Z, binary_normalize. destruct n as [|p|p]; try lia.
  unfold binary_round.
  assert (Hf : fexp prec emax (Zpos (digits2_pos p) + 0) = (Zdigits2 (Zpos p) - 53)%Z)
    by (unfold fexp, emin, prec, emax; simpl Zdigits2 in *; lia).
  rewrite Hf.
  destruct (shl_align_le p 0 (Zdigits2 (Zpos p) - 53) ltac:(lia)) as [H1 H2].
  destruct (shl_align p 0 (Zdigits2 (Z.pos p) - 53)) as [mz ez]. cbn [fst snd] in H1, H2. subst ez.
  rewrite H1.
  replace (0 - (Zdigits2 (Z.pos p) - 53))%Z with (53 - Zdigits2 (Zpos p))%Z by lia.
  rewrite <- Hm.
  pose proof (bra_exact false (mant_of (Zpos p)) 0 (Zdigits2 (Zpos p) - 53) Hd) as Hb.
  rewrite Z.pow_0_r, Z.mul_1_r, Z.add_0_r in Hb. apply Hb; lia.
Qed.

Lemma d_of_Z_zero : d_of_Z 0 = S754_zero false.
Proof. reflexivity. Qed.

Lemma d_of_Z_spec n :
  (0 < n < 2 ^ 53)%Z ->
  dnormal (d_of_Z n) (-52) 0 /\ dval (d_of_Z n) == inject_Z n.
Proof.
  intros Hn. destruct (mant_of_spec n Hn) as (Hm & Hd & Hdn).
  rewrite d_of_Z_exact by assumption. split.
  - exists (mant_of n), (Zdigits2 n - 53)%Z. repeat split; auto; lia.
  - simpl. rewrite Hm, inject_Z_mult, inject_Z_pow2 by lia.
    rewrite <- Qmult_assoc, <- Qpower_plus by discriminate.
    replace (53 - Zdigits2 n + (Zdigits2 n - 53))%Z with 0%Z by lia.
    simpl. ring.
Qed.


Open Scope Z_scope.

Lemma dscale_dnormal j x lo hi :
  dnormal x lo hi -> dnormal (dscale j x) (lo + j) (hi + j).
Proof. intros (m & e & -> & Hd & He). exists m, (e + j). repeat split; auto; lia. Qed.

Lemma dscale_dscale i j x : dscale i (dscale j x) = dscale (j + i) x.
Proof. destruct x; simpl; try reflexivity. f_equal. lia. Qed.

Lemma dscale_0 x : dscale 0 x = x.
Proof. destruct x; simpl; try reflexivity. f_equal. lia. Qed.

Lemma dval_dscale j x : (dval (dscale j x) == dval x * 2 ^ j)%Q.
Proof.
  destruct x; simpl; try ring.
  rewrite Qpower_plus by discriminate. ring.
Qed.

Lemma Zdigits2_double n : 0 < n -> Zdigits2 (2 * n) = Zdigits2 n + 1.
Proof.
  intros Hn. pose proof (Zdigits2_bounds n Hn) as [Hl Hu]. pose proof (Zdigits2_pos n Hn).
  apply Zdigits2_eq; [lia|].
  replace (Zdigits2 n + 1 - 1) with (Z.succ (Zdigits2 n - 1)) by lia.
  replace (Zdigits2 n + 1) with (Z.succ (Zdigits2 n)) by lia.
  rewrite !Z.pow_succ_r by lia. lia.
Qed.

Lemma d_of_Z_double n :
  0 < n -> 2 * n < 2 ^ 53 -> d_of_Z (2 * n) = dscale 1 (d_of_Z n).
Proof.
  intros Hn H2. rewrite !d_of_Z_exact by lia. simpl.
  rewrite Zdigits2_double by lia.
  f_equal; [|lia]. unfold mant_of. rewrite Zdigits2_double by lia.
  f_equal. replace (53 - Zdigits2 n) with (Z.succ (53 - (Zdigits2 n + 1))).
  2: lia.
  destruct (mant_of_spec n ltac:(lia)) as (_ & _ & Hd).
  destruct (mant_of_spec (2 * n) ltac:(lia)) as (_ & _ & Hd').
  rewrite Zdigits2_double in Hd' by lia.
  rewrite Z.pow_succ_r by lia. ring.
Qed.

Lemma d_of_Z_pow2_mul n j :
  0 < n -> 0 <= j -> n * 2 ^ j < 2 ^ 53 -> d_of_Z (n * 2 ^ j) = dscale j (d_of_Z n).
Proof.
  intros Hn Hj. pattern j. apply natlike_ind; [| |exact Hj].
  - intros _. rewrite Z.pow_0_r, Z.mul_1_r, dscale_0. reflexivity.
  - intros i Hi IH Hb. rewrite Z.pow_succ_r in * by lia.
    assert (0 < 2 ^ i) by (apply Z.pow_pos_nonneg; lia).
    replace (n * (2 * 2 ^ i)) with (2 * (n * 2 ^ i)) in * by ring.
    rewrite d_of_Z_double by nia. rewrite IH by nia.
    rewrite dscale_dscale. f_equal.
Qed.

Lemma d_mul_comm x y : d_mul x y = d_mul y x.
Proof.
  destruct x as [s|s| |s m e], y as [s'|s'| |s' m' e']; simpl; try reflexivity;
    try (rewrite xorb_comm; reflexivity).
  rewrite xorb_comm, Pos.mul_comm, Z.add_comm. reflexivity.
Qed.

Lemma d_mul_two x lo hi :
  dnormal x lo hi -> -1074 <= lo + 1 -> hi + 2 <= 971 ->
  d_mul d_two x = dscale 1 x.
Proof.
  intros (m & e & -> & Hd & He) Hlo Hhi.
  unfold d_two. rewrite d_of_Z_exact by (vm_compute; split; reflexivity).
  unfold d_mul, SFmul. cbn [xorb].
  change (mant_of 2) with (4503599627370496%positive).
  change (Zdigits2 2 - 53) with (-51).
  rewrite Pos2Z.inj_mul, Z.mul_comm. change (Z.pos 4503599627370496) with (2 ^ 52).
  rewrite bra_exact by (try assumption; lia).
  simpl. f_equal. lia.
Qed.

Lemma d_mul_scale_l x y j lo hi :
  dnormal x lo hi -> d_mul (dscale j x) y = d_mul x (dscale j y).
Proof.
  intros (m & e & -> & _ & _).
  destruct y as [s'|s'| |s' m' e']; simpl; try reflexivity.
  f_equal. lia.
Qed.

Lemma d_mul_zero_l x lo hi : dnormal x lo hi -> d_mul (S754_zero false) x = S754_zero false.
Proof. intros (m & e & -> & _ & _). reflexivity. Qed.

Lemma d_add_zero_l x lo hi : dnormal x lo hi -> d_add (S754_zero false) x = x.
Proof. intros (m & e & -> & _ & _). reflexivity. Qed.


Lemma Zdigits2_mul_pow2 n j : 0 < n -> 0 <= j -> Zdigits2 (n * 2 ^ j) = Zdigits2 n + j.
Proof.
  intros Hn Hj. pose proof (Zdigits2_bounds n Hn) as [Hl Hu]. pose proof (Zdigits2_pos n Hn).
  assert (0 < 2 ^ j) by (apply Z.pow_pos_nonneg; lia).
  apply Zdigits2_eq; [lia|].
  replace (Zdigits2 n + j - 1) with ((Zdigits2 n - 1) + j) by lia.
  rewrite !Z.pow_add_r by lia. nia.
Qed.

Lemma d_add_one t :
  0 <= t -> t + 1 < 2 ^ 53 -> d_add (d_of_Z t) d_one = d_of_Z (t + 1).
Proof.
  intros Ht Hb. destruct (Z.eq_dec t 0) as [->|Hne]; [reflexivity|].
  unfold d_one. rewrite (d_of_Z_exact t), (d_of_Z_exact 1), (d_of_Z_exact (t + 1)) by lia.
  destruct (mant_of_spec t ltac:(lia)) as (Hm & Hd & Hdt).
  destruct (mant_of_spec (t + 1) ltac:(lia)) as (Hm' & Hd' & Hdt').
  change (mant_of 1) with (4503599627370496%positive).
  change (Zdigits2 1 - 53) with (-52).
  unfold d_add, SFadd. cbn [cond_Zopp].
  replace (Z.min (Zdigits2 t - 53) (-52)) with (-52) by lia.
  destruct (shl_align_le (mant_of t) (Zdigits2 t - 53) (-52) ltac:(lia)) as [H1 _].
  destruct (shl_align_le 4503599627370496 (-52) (-52) ltac:(lia)) as [H2 _].
  rewrite H1, H2. change (-52 - -52) with 0. rewrite Z.pow_0_r, Z.mul_1_r.
  assert (ES : Z.pos (mant_of t) * 2 ^ (Zdigits2 t - 53 - -52) + Z.pos 4503599627370496
               = Zpos (mant_of (t + 1)) * 2 ^ (Zdigits2 (t + 1) - 1)).
  { rewrite Hm, Hm', <- !Z.mul_assoc, <- !Z.pow_add_r by lia.
    replace (53 - Zdigits2 t + (Zdigits2 t - 53 - -52)) with 52 by lia.
    replace (53 - Zdigits2 (t + 1) + (Zdigits2 (t + 1) - 1)) with 52 by lia.
    change (Z.pos 4503599627370496) with (2 ^ 52). ring. }
  rewrite ES.
  assert (Hpw : 0 < 2 ^ (Zdigits2 (t + 1) - 1)) by (apply Z.pow_pos_nonneg; lia).
  destruct (Z.pos (mant_of (t + 1)) * 2 ^ (Zdigits2 (t + 1) - 1)) as [|s|s] eqn:Es; try lia.
  unfold binary_normalize, binary_round.
  assert (Hdig : Zdigits2 (Zpos s) = 53 + (Zdigits2 (t + 1) - 1)).
  { rewrite <- Es, Zdigits2_mul_pow2 by lia. simpl. lia. }
  rewrite shl_align_ge.
  2:{ unfold fexp, emin, prec, emax. simpl Zdigits2 in Hdig. lia. }
  rewrite <- Es. rewrite bra_exact by (try assumption; lia).
  f_equal. lia.
Qed.

Lemma llround_spec x lo hi :
  dnormal x lo hi -> (dval x < 2 ^ 62)%Q ->
  llround x = Ok (Qfloor (dval x + (1 # 2))).
Proof.
  intros (m & e & -> & Hd & He) Hv. cbn [dval cond_Zopp llround] in *.
  assert (Hr : (if 0 <=? e then Z.pos m * 2 ^ e else (Z.pos m + 2 ^ (- e - 1)) / 2 ^ (- e))
               = Qfloor (inject_Z (Z.pos m) * 2 ^ e + (1 # 2))).
  { destruct (Z.leb_spec 0 e) as [H0|H0].
    - assert (E : (inject_Z (Z.pos m) * 2 ^ e + (1 # 2) ==
                   (2 * (Z.pos m * 2 ^ e) + 1) # 2)%Q).
      { rewrite <- inject_Z_pow2, <- inject_Z_mult by lia.
        unfold Qeq, Qplus, inject_Z. simpl. lia. }
      rewrite E. simpl. unfold Qfloor.
      assert (0 < 2 ^ e) by (apply Z.pow_pos_nonneg; lia).
      apply Z.div_unique with (r := 1); lia.
    - assert (Hp : 0 < 2 ^ (- e)) by (apply Z.pow_pos_nonneg; lia).
      assert (E2 : 2 ^ (- e) = 2 * 2 ^ (- e - 1)).
      { replace (- e) with (Z.succ (- e - 1)) at 1 by lia. rewrite Z.pow_succ_r by lia. reflexivity. }
      assert (E : (inject_Z (Z.pos m) * 2 ^ e + (1 # 2) ==
                   (Z.pos m + 2 ^ (- e - 1)) # (Z.to_pos (2 ^ (- e))))%Q).
      { replace e with (- (- e)) at 1 by lia. rewrite Qpower_opp.
        rewrite <- inject_Z_pow2 by lia.
        unfold Qeq, Qplus, Qmult, Qinv, inject_Z. simpl.
        destruct (2 ^ (- e)) as [|p|p] eqn:Ep; try lia. simpl.
        rewrite ?Pos.mul_1_l, ?Pos2Z.inj_mul. nia. }
      rewrite E. unfold Qfloor. simpl. rewrite Z2Pos.id by lia. reflexivity. }
  rewrite Hr.
  set (I := Qfloor (inject_Z (Z.pos m) * 2 ^ e + (1 # 2))) in *.
  assert (HI : 0 <= I < 2 ^ 63).
  { pose proof (Qfloor_le (inject_Z (Z.pos m) * 2 ^ e + (1 # 2))) as H1. fold I in H1.
    pose proof (Qlt_floor (inject_Z (Z.pos m) * 2 ^ e + (1 # 2))) as H2. fold I in H2.
    assert (0 < inject_Z (Z.pos m) * 2 ^ e)%Q
      by (apply Qmult_lt_0_compat; [reflexivity|apply two_pow_pos]).
    split.
    - assert (H3 : (inject_Z (-1) < inject_Z I)%Q).
      { rewrite inject_Z_plus in H2. change (inject_Z (-1)) with (-1)%Q.
        change (inject_Z 1) with 1%Q in H2. lra. }
      rewrite <- Zlt_Qlt in H3. lia.
    - assert (H3 : (inject_Z I < inject_Z (2 ^ 63))%Q).
      { change (inject_Z (2 ^ 63)) with (2 ^ 63)%Q.
        assert ((2:Q) ^ 62 + 1 < 2 ^ 63)%Q by reflexivity. lra. }
      rewrite <- Zlt_Qlt in H3. exact H3. }
  unfold in_int64.
  destruct (Z.leb_spec (- 2 ^ 63) I); [|lia].
  destruct (Z.ltb_spec I (2 ^ 63)); [|lia]. reflexivity.
Qed.


Lemma floor_int64_spec x lo hi :
  dnormal x lo hi -> (dval x < 2 ^ 62)%Q ->
  floor_int64 x = Ok (Qfloor (dval x)).
Proof.
  intros (m & e & -> & Hd & He) Hv. cbn [dval cond_Zopp floor_int64] in *.
  assert (Hr : Z.shiftl (Z.pos m) e = Qfloor (inject_Z (Z.pos m) * 2 ^ e)).
  { destruct (Z_le_gt_dec 0 e) as [H0|H0].
    - rewrite Z.shiftl_mul_pow2 by lia.
      assert (E : (inject_Z (Z.pos m) * 2 ^ e == inject_Z (Z.pos m * 2 ^ e))%Q)
        by (rewrite inject_Z_mult, inject_Z_pow2 by lia; reflexivity).
      rewrite E, Qfloor_Z. reflexivity.
    - rewrite Z.shiftl_div_pow2 by lia.
      assert (Hp : 0 < 2 ^ (- e)) by (apply Z.pow_pos_nonneg; lia).
      assert (E : (inject_Z (Z.pos m) * 2 ^ e == Z.pos m # (Z.to_pos (2 ^ (- e))))%Q).
      { replace e with (- (- e)) at 1 by lia. rewrite Qpower_opp.
        rewrite <- inject_Z_pow2 by lia.
        unfold Qeq, Qmult, Qinv, inject_Z. simpl.
        destruct (2 ^ (- e)) as [|p|p] eqn:Ep; try lia. simpl.
        rewrite ?Pos.mul_1_l, ?Pos2Z.inj_mul. nia. }
      rewrite E. unfold Qfloor. simpl. rewrite Z2Pos.id by lia. reflexivity. }
  rewrite Hr.
  set (I := Qfloor (inject_Z (Z.pos m) * 2 ^ e)) in *.
  assert (HI : 0 <= I < 2 ^ 63).
  { pose proof (Qfloor_le (inject_Z (Z.pos m) * 2 ^ e)) as H1. fold I in H1.
    pose proof (Qlt_floor (inject_Z (Z.pos m) * 2 ^ e)) as H2. fold I in H2.
    assert (0 < inject_Z (Z.pos m) * 2 ^ e)%Q
      by (apply Qmult_lt_0_compat; [reflexivity|apply two_pow_pos]).
    split.
    - assert (H3 : (inject_Z (-1) < inject_Z I)%Q).
      { rewrite inject_Z_plus in H2. change (inject_Z (-1)) with (-1)%Q.
        change (inject_Z 1) with 1%Q in H2. lra. }
      rewrite <- Zlt_Qlt in H3. lia.
    - assert (H3 : (inject_Z I < inject_Z (2 ^ 63))%Q).
      { change (inject_Z (2 ^ 63)) with (2 ^ 63)%Q.
        assert ((2:Q) ^ 62 < 2 ^ 63)%Q by reflexivity. lra. }
      rewrite <- Zlt_Qlt in H3. exact H3. }
  unfold in_int64.
  destruct (Z.leb_spec (- 2 ^ 63) I); [|lia].
  destruct (Z.ltb_spec I (2 ^ 63)); [|lia]. reflexivity.
Qed.

Lemma dnormal_exp_lt x lo hi j :
  dnormal x lo hi -> (dval x < 2 ^ j)%Q -> dnormal x lo (j - 53).
Proof.
  intros (m & e & -> & Hd & He) Hv. exists m, e. split; [reflexivity|]. split; [exact Hd|].
  split; [lia|]. cbn [dval cond_Zopp] in Hv.
  pose proof (digits53_bounds _ Hd) as [Hb _].
  assert (H1 : (2 ^ (52 + e) <= inject_Z (Z.pos m) * 2 ^ e)%Q).
  { rewrite Qpower_plus by discriminate.
    apply Qmult_le_compat_r; [|apply Qlt_le_weak, two_pow_pos].
    rewrite <- (inject_Z_pow2 52) by lia. rewrite <- Zle_Qle. exact Hb. }
  assert (H2 : ((2:Q) ^ (52 + e) < 2 ^ j)%Q) by lra.
  apply Qpower_lt_compat_l_inv in H2; [lia|reflexivity].
Qed.

Lemma dnormal_exp_ge x lo hi j :
  dnormal x lo hi -> (2 ^ j <= dval x)%Q -> dnormal x (j - 52) hi.
Proof.
  intros (m & e & -> & Hd & He) Hv. exists m, e. split; [reflexivity|]. split; [exact Hd|].
  split; [|lia]. cbn [dval cond_Zopp] in Hv.
  pose proof (digits53_bounds _ Hd) as [_ Hb].
  assert (H1 : (inject_Z (Z.pos m) * 2 ^ e < 2 ^ (53 + e))%Q).
  { rewrite Qpower_plus by discriminate.
    apply Qmult_lt_compat_r; [apply two_pow_pos|].
    rewrite <- (inject_Z_pow2 53) by lia. rewrite <- Zlt_Qlt. exact Hb. }
  assert (H2 : ((2:Q) ^ j < 2 ^ (53 + e))%Q) by lra.
  apply Qpower_lt_compat_l_inv in H2; [lia|reflexivity].
Qed.

Open Scope Q_scope.

#[export] Instance approx_proper : Proper (Qeq ==> Qeq ==> Qeq ==> iff) approx.
Proof.
  intros v v' Ev r r' Er e e' Ee. unfold approx. rewrite Ev, Er, Ee. reflexivity.
Qed.

Lemma approx_refl v : approx v v 0.
Proof. unfold approx. split; lra. Qed.

Lemma approx_eq v r r' eta : r == r' -> approx v r eta -> approx v r' eta.
Proof. unfold approx. intros E [H1 H2]. rewrite <- E. auto. Qed.

Lemma approx_weaken v r eta eta' :
  0 <= r -> eta <= eta' -> approx v r eta -> approx v r eta'.
Proof.
  unfold approx. intros Hr He [H1 H2].
  assert (0 <= r * (eta' - eta)) by (apply Qmult_le_0_compat; lra).
  split; lra.
Qed.

Lemma approx_trans v w r e1 e2 :
  0 <= r -> 0 <= e1 <= 1 -> 0 <= e2 <= 1 ->
  approx v r e1 -> approx w v e2 -> approx w r (e1 + e2 + e1 * e2).
Proof.
  unfold approx. intros Hr He1 He2 [H1 H2] [H3 H4].
  assert (A1 : r * (1 - e1) * (1 - e2) <= v * (1 - e2))
    by (apply Qmult_le_compat_r; lra).
  assert (A2 : v * (1 + e2) <= r * (1 + e1) * (1 + e2))
    by (apply Qmult_le_compat_r; lra).
  assert (A3 : 0 <= r * (e1 * e2)).
  { apply Qmult_le_0_compat; [lra|]. apply Qmult_le_0_compat; lra. }
  assert (E1 : r * (1 - e1) * (1 - e2) == r * (1 - (e1 + e2 + e1 * e2)) + 2 * (r * (e1 * e2)))
    by ring.
  assert (E2 : r * (1 + e1) * (1 + e2) == r * (1 + (e1 + e2 + e1 * e2))) by ring.
  split; lra.
Qed.

Lemma approx_pos v r eta : 0 < r -> eta < 1 -> approx v r eta -> 0 < v.
Proof.
  unfold approx. intros Hr He [H1 _].
  assert (0 < r * (1 - eta)) by (apply Qmult_lt_0_compat; lra). lra.
Qed.

Lemma approx_scale v r eta c :
  0 <= c -> approx v r eta -> approx (c * v) (c * r) eta.
Proof.
  unfold approx. intros Hc [H1 H2]. split.
  - assert ((r * (1 - eta)) * c <= v * c) by (apply Qmult_le_compat_r; auto). lra.
  - assert (v * c <= (r * (1 + eta)) * c) by (apply Qmult_le_compat_r; auto). lra.
Qed.

Lemma approx_add v1 r1 v2 r2 eta :
  approx v1 r1 eta -> approx v2 r2 eta -> approx (v1 + v2) (r1 + r2) eta.
Proof. unfold approx. intros [H1 H2] [H3 H4]. split; lra. Qed.


Lemma approx_div c v r eta :
  0 <= c -> 0 < r -> 0 <= eta -> eta <= 1 # 2 ->
  approx v r eta -> approx (c / v) (c / r) (2 * eta).
Proof.
  intros Hc Hr He0 He1 Ha.
  assert (Hv : 0 < v) by (apply (approx_pos v r eta); auto; lra).
  destruct Ha as [H1 H2]. unfold approx.
  set (k := c / r).
  assert (Hk : 0 <= k) by (unfold k; apply Qle_shift_div_l; lra).
  assert (Ec : c == k * r) by (unfold k; field; lra).
  assert (P1 : 0 <= r * eta) by (apply Qmult_le_0_compat; lra).
  assert (P2 : 0 <= r * eta * eta) by (apply Qmult_le_0_compat; lra).
  assert (P3 : 0 <= r * eta * (1 - 2 * eta)) by (apply Qmult_le_0_compat; lra).
  split.
  - apply Qle_shift_div_l; [exact Hv|]. rewrite Ec.
    destruct (Qlt_le_dec (1 - 2 * eta) 0) as [Hn|Hp].
    + assert (0 <= k * (v * (2 * eta - 1))).
      { apply Qmult_le_0_compat; [lra|]. apply Qmult_le_0_compat; lra. }
      assert (0 <= k * r) by (apply Qmult_le_0_compat; lra).
      lra.
    + assert (A : v * (1 - 2 * eta) <= r * (1 + eta) * (1 - 2 * eta))
        by (apply Qmult_le_compat_r; lra).
      assert (B : 0 <= k * (r - v * (1 - 2 * eta))).
      { apply Qmult_le_0_compat; [lra|]. lra. }
      lra.
  - apply Qle_shift_div_r; [exact Hv|]. rewrite Ec.
    assert (A : r * (1 - eta) * (1 + 2 * eta) <= v * (1 + 2 * eta))
      by (apply Qmult_le_compat_r; lra).
    assert (B : 0 <= k * (v * (1 + 2 * eta) - r)).
    { apply Qmult_le_0_compat; [lra|]. lra. }
    lra.
Qed.

(** When a double is close enough to the fraction [a / t], [llround] yields
    an integer nearest to the fraction. *)
Lemma llround_nearest x lo hi (a t : Z) eta :
  dnormal x lo hi -> (0 < t)%Z -> (0 <= a)%Z -> (a < t * 2 ^ 60)%Z ->
  0 <= eta -> eta <= 1 ->
  approx (dval x) (inject_Z a / inject_Z t) eta ->
  inject_Z (2 * a) * eta < 1 ->
  exists I, llround x = Ok I /\ (2 * Z.abs (t * I - a) <= t)%Z.
Proof.
  intros Hx Ht Ha Hb He0 He1 [H1 H2] Hsmall.
  assert (Htq : 0 < inject_Z t) by (change 0 with (inject_Z 0); rewrite <- Zlt_Qlt; exact Ht).
  assert (Haq : 0 <= inject_Z a) by (change 0 with (inject_Z 0); rewrite <- Zle_Qle; exact Ha).
  set (r := inject_Z a / inject_Z t) in *.
  assert (Hr0 : 0 <= r) by (unfold r; apply Qle_shift_div_l; lra).
  assert (Hrb : r < 2 ^ 60).
  { unfold r. apply Qlt_shift_div_r; [exact Htq|].
    rewrite <- (inject_Z_pow2 60) by lia. rewrite <- inject_Z_mult, <- Zlt_Qlt. lia. }
  assert (Er : r * inject_Z t == inject_Z a) by (unfold r; field; lra).
  assert (Hre : 0 <= r * eta) by (apply Qmult_le_0_compat; lra).
  assert (Hvb : dval x < 2 ^ 62).
  { assert (r * eta <= r * 1) by (rewrite !(Qmult_comm r); apply Qmult_le_compat_r; lra).
    assert ((2:Q) ^ 60 * 2 == 2 ^ 61) by reflexivity.
    assert ((2:Q) ^ 61 < 2 ^ 62) by reflexivity. lra. }
  rewrite (llround_spec x lo hi Hx Hvb).
  set (I := Qfloor (dval x + (1 # 2))).
  exists I. split; [reflexivity|].
  pose proof (Qfloor_le (dval x + (1 # 2))) as F1. fold I in F1.
  pose proof (Qlt_floor (dval x + (1 # 2))) as F2. fold I in F2.
  rewrite inject_Z_plus in F2. change (inject_Z 1) with 1 in F2.
  assert (M1 : inject_Z I * inject_Z t <= (dval x + (1 # 2)) * inject_Z t)
    by (apply Qmult_le_compat_r; lra).
  assert (M2 : (dval x + (1 # 2)) * inject_Z t <= (inject_Z I + 1) * inject_Z t)
    by (apply Qmult_le_compat_r; lra).
  assert (M3 : r * (1 - eta) * inject_Z t <= dval x * inject_Z t)
    by (apply Qmult_le_compat_r; lra).
  assert (M4 : dval x * inject_Z t <= r * (1 + eta) * inject_Z t)
    by (apply Qmult_le_compat_r; lra).
  assert (E1 : r * (1 - eta) * inject_Z t == inject_Z a - inject_Z a * eta)
    by (rewrite <- Er; ring).
  assert (E2 : r * (1 + eta) * inject_Z t == inject_Z a + inject_Z a * eta)
    by (rewrite <- Er; ring).
  rewrite inject_Z_mult in Hsmall. change (inject_Z 2) with 2 in Hsmall.
  assert (U : inject_Z (2 * (t * I - a)) < inject_Z (t + 1)).
  { rewrite !inject_Z_mult, inject_Z_plus. unfold Z.sub.
    rewrite inject_Z_plus, inject_Z_opp, inject_Z_mult.
    change (inject_Z 2) with 2. change (inject_Z 1) with 1. lra. }
  assert (L : inject_Z (- (t + 1)) < inject_Z (2 * (t * I - a))).
  { rewrite inject_Z_opp, !inject_Z_mult, inject_Z_plus. unfold Z.sub.
    rewrite inject_Z_plus, inject_Z_opp, inject_Z_mult.
    change (inject_Z 2) with 2. change (inject_Z 1) with 1.
    assert (F3 : inject_Z I > dval x + (1 # 2) - 1) by lra.
    assert (M5 : (dval x + (1 # 2) - 1) * inject_Z t < inject_Z I * inject_Z t)
      by (apply Qmult_lt_compat_r; lra).
    lra. }
  rewrite <- Zlt_Qlt in U, L. lia.
Qed.

Lemma ulp53_facts : 0 < ulp53 /\ ulp53 == 1 / 9007199254740992.
Proof. split; reflexivity. Qed.

(** [delta = double(n) / double(t)]. *)
Lemma delta_spec (n t : Z) :
  (0 < n < 2 ^ 53)%Z -> (0 < t < 2 ^ 53)%Z ->
  dnormal (d_div (d_of_Z n) (d_of_Z t)) (-105) 1 /\
  approx (dval (d_div (d_of_Z n) (d_of_Z t))) (inject_Z n / inject_Z t) ulp53.
Proof.
  intros Hn Ht.
  destruct (d_of_Z_spec n Hn) as [N1 V1]. destruct (d_of_Z_spec t Ht) as [N2 V2].
  destruct (d_div_spec _ _ _ _ _ _ N1 N2 ltac:(lia) ltac:(lia)) as [N3 A3].
  split; [exact N3|].
  unfold approx in *. rewrite V1, V2 in A3. exact A3.
Qed.


Open Scope Z_scope.

Lemma d_mul_two_r x lo hi :
  dnormal x lo hi -> -1074 <= lo + 1 -> hi + 2 <= 971 ->
  d_mul x d_two = dscale 1 x.
Proof. intros. rewrite d_mul_comm. eapply d_mul_two; eauto. Qed.

Lemma d_mul_index_scale k r x lo hi :
  0 <= k -> 0 <= r -> k * 2 ^ r < 2 ^ 53 -> dnormal x lo hi ->
  d_mul (d_of_Z k) (dscale r x) = d_mul (d_of_Z (k * 2 ^ r)) x.
Proof.
  intros Hk Hr Hb Hx. destruct (Z.eq_dec k 0) as [->|Hne].
  - rewrite Z.mul_0_l, d_of_Z_zero. destruct Hx as (m & e & -> & _ & _). reflexivity.
  - assert (0 < 2 ^ r) by (apply Z.pow_pos_nonneg; lia).
    rewrite d_of_Z_pow2_mul by lia.
    destruct (d_of_Z_spec k ltac:(nia)) as [Hn _].
    symmetry. eapply d_mul_scale_l. exact Hn.
Qed.

Lemma ulp53_range : (0 <= ulp53 <= 1)%Q.
Proof. unfold ulp53. split; unfold Qle; simpl; lia. Qed.

Lemma three_ulp_range : (0 <= 3 * ulp53 /\ 3 * ulp53 <= 1)%Q.
Proof. unfold ulp53. split; unfold Qle; simpl; lia. Qed.

Lemma three_ulp : (ulp53 + ulp53 + ulp53 * ulp53 <= 3 * ulp53)%Q.
Proof. unfold ulp53. unfold Qle. simpl. lia. Qed.

(** The scaled index [k * delta], rounded by [llround], is an integer
    nearest to [k * n / t]. *)
Lemma index_nearest (n t k : Z) :
  0 < n -> 0 < t < 2 ^ 53 -> 0 <= k -> 6 * k * n < 2 ^ 53 -> n < 2 ^ 53 ->
  exists I, llround (d_mul (d_of_Z k) (d_div (d_of_Z n) (d_of_Z t))) = Ok I /\
            2 * Z.abs (t * I - k * n) <= t.
Proof.
  intros Hn Ht Hk Hb Hn53.
  destruct (delta_spec n t ltac:(lia) ltac:(lia)) as [Nd Ad].
  set (delta := d_div (d_of_Z n) (d_of_Z t)) in *.
  destruct (Z.eq_dec k 0) as [->|Hne].
  { rewrite d_of_Z_zero. rewrite (d_mul_zero_l _ _ _ Nd). exists 0. simpl. split; [reflexivity|lia]. }
  assert (Hk53 : 0 < k < 2 ^ 53) by nia.
  destruct (d_of_Z_spec k Hk53) as [Nk Vk].
  destruct (d_mul_spec _ _ _ _ _ _ Nk Nd ltac:(lia) ltac:(lia)) as [Np Ap].
  assert (Hkq : (0 < inject_Z k)%Q) by (change 0%Q with (inject_Z 0); rewrite <- Zlt_Qlt; lia).
  assert (Hnq : (0 < inject_Z n)%Q) by (change 0%Q with (inject_Z 0); rewrite <- Zlt_Qlt; lia).
  assert (Htq : (0 < inject_Z t)%Q) by (change 0%Q with (inject_Z 0); rewrite <- Zlt_Qlt; lia).
  assert (Hr : (0 <= inject_Z k * (inject_Z n / inject_Z t))%Q).
  { apply Qmult_le_0_compat; [lra|]. apply Qle_shift_div_l; lra. }
  assert (A1 : approx (dval (d_of_Z k) * dval delta) (inject_Z k * (inject_Z n / inject_Z t)) ulp53).
  { rewrite Vk. apply approx_scale; [lra|exact Ad]. }
  pose proof (approx_trans _ _ _ _ _ Hr ulp53_range ulp53_range A1 Ap) as A2.
  apply (approx_weaken _ _ _ (3 * ulp53)%Q Hr three_ulp) in A2.
  assert (A3 : approx (dval (d_mul (d_of_Z k) delta)) (inject_Z (k * n) / inject_Z t) (3 * ulp53)%Q).
  { eapply approx_eq; [|exact A2]. rewrite inject_Z_mult. field. lra. }
  eapply (llround_nearest _ _ _ (k * n) t (3 * ulp53)%Q Np); [lia| | | | | |].
  - nia.
  - assert (k * n < 2 ^ 53) by nia.
    assert (2 ^ 53 <= t * 2 ^ 60) by lia. lia.
  - apply three_ulp_range.
  - apply three_ulp_range.
  - exact A3.
  - assert (E : (inject_Z (2 * (k * n)) * (3 * ulp53) == inject_Z (6 * k * n) * ulp53)%Q).
    { replace (6 * k * n) with (3 * (2 * (k * n))) by ring.
      rewrite (inject_Z_mult 3). change (inject_Z 3) with 3%Q. ring. }
    rewrite E. unfold ulp53.
    assert (H53 : (inject_Z (6 * k * n) < inject_Z (2 ^ 53))%Q) by (rewrite <- Zlt_Qlt; lia).
    change (inject_Z (2 ^ 53)) with 9007199254740992%Q in H53.
    change (1 # 2 ^ 53)%Q with (1 # 9007199254740992)%Q.
    lra.
Qed.


Lemma inject_Z_pos (z : Z) : 0 < z -> (0 < inject_Z z)%Q.
Proof. intros H. change 0%Q with (inject_Z 0). rewrite <- Zlt_Qlt. exact H. Qed.

Lemma inject_Z_nonneg (z : Z) : 0 <= z -> (0 <= inject_Z z)%Q.
Proof. intros H. change 0%Q with (inject_Z 0). rewrite <- Zle_Qle. exact H. Qed.

Lemma acc_sum_spec (n s : Z) (j : nat) :
  0 < n < 2 ^ 53 -> 0 < s -> Z.of_nat j + 1 <= s -> s < 2 ^ 26 ->
  let sigma := d_div (d_of_Z n) (d_of_Z s) in
  dnormal (acc_sum sigma j) (-105) 1 /\
  approx (dval (acc_sum sigma j))
         (inject_Z ((Z.of_nat j + 1) * n) / inject_Z s)
         (inject_Z (2 * Z.of_nat j + 1) * ulp53)%Q.
Proof.
  intros Hn Hs Hj Hs26 sigma.
  destruct (delta_spec n s ltac:(lia) ltac:(lia)) as [Nd Ad]. fold sigma in Nd, Ad.
  pose proof (inject_Z_pos n ltac:(lia)) as Hnq.
  pose proof (inject_Z_pos s ltac:(lia)) as Hsq.
  induction j as [|j IH].
  - cbn [acc_sum]. split; [exact Nd|].
    change (Z.of_nat 0) with 0.
    replace ((0 + 1) * n) with n by lia. replace (2 * 0 + 1) with 1 by lia.
    assert (E : (inject_Z 1 * ulp53 == ulp53)%Q) by (change (inject_Z 1) with 1%Q; ring).
    rewrite E. exact Ad.
  - destruct IH as [Nj Aj]; [lia|].
    cbn [acc_sum].
    destruct (d_add_spec _ _ _ _ _ _ Nj Nd ltac:(lia) ltac:(lia)) as [Np Ap].
    set (J := Z.of_nat j) in *.
    assert (HJ : 0 <= J) by (unfold J; lia).
    replace (Z.of_nat (Datatypes.S j)) with (J + 1) in * by (unfold J; lia).
    set (eta := (inject_Z (2 * J + 1) * ulp53)%Q) in *.
    assert (Heta0 : (0 <= eta)%Q).
    { unfold eta. apply Qmult_le_0_compat; [apply inject_Z_nonneg; lia|apply ulp53_range]. }
    assert (Hu : (ulp53 <= eta)%Q).
    { unfold eta. assert (1 <= inject_Z (2 * J + 1))%Q
        by (change 1%Q with (inject_Z 1); rewrite <- Zle_Qle; lia).
      pose proof ulp53_range as [U0 _].
      assert (0 <= (inject_Z (2 * J + 1) - 1) * ulp53)%Q by (apply Qmult_le_0_compat; lra).
      lra. }
    assert (Heta1 : (eta <= 1 # 1024)%Q).
    { unfold eta, ulp53.
      assert (inject_Z (2 * J + 1) <= inject_Z (2 ^ 27))%Q by (rewrite <- Zle_Qle; lia).
      change (inject_Z (2 ^ 27)) with 134217728%Q in H.
      change (1 # 2 ^ 53)%Q with (1 # 9007199254740992)%Q. lra. }
    set (r1 := (inject_Z ((J + 1) * n) / inject_Z s)%Q) in *.
    set (r0 := (inject_Z n / inject_Z s)%Q) in *.
    assert (Hr0 : (0 <= r0)%Q) by (unfold r0; apply Qle_shift_div_l; lra).
    assert (Hr1 : (0 <= r1)%Q).
    { unfold r1. apply Qle_shift_div_l; [lra|]. rewrite Qmult_0_l.
      apply inject_Z_nonneg. nia. }
    assert (A0 : approx (dval sigma) r0 eta) by (apply (approx_weaken _ _ ulp53); auto).
    pose proof (approx_add _ _ _ _ _ Aj A0) as As.
    assert (Hr : (0 <= r1 + r0)%Q) by lra.
    pose proof (approx_trans _ _ _ _ _ Hr ltac:(split; [exact Heta0|lra]) ulp53_range As Ap) as At.
    assert (Ew : (eta + ulp53 + eta * ulp53 <= inject_Z (2 * (J + 1) + 1) * ulp53)%Q).
    { replace (2 * (J + 1) + 1) with ((2 * J + 1) + 2) by lia.
      rewrite inject_Z_plus. change (inject_Z 2) with 2%Q. fold eta.
      pose proof ulp53_range as [U0 U1].
      assert (eta * ulp53 <= 1 * ulp53)%Q by (apply Qmult_le_compat_r; lra).
      unfold eta in *. lra. }
    apply (approx_weaken _ _ _ _ Hr Ew) in At.
    assert (Er : (r1 + r0 == inject_Z ((J + 1 + 1) * n) / inject_Z s)%Q).
    { unfold r1, r0. rewrite !inject_Z_mult, !inject_Z_plus. change (inject_Z 1) with 1%Q.
      field. lra. }
    apply (approx_eq _ _ _ _ Er) in At.
    split; [|exact At].
    apply (dnormal_weaken _ (Z.max (-105) (-105)) (54 - 53)); [|lia|lia].
    apply (dnormal_exp_lt _ _ (Z.max 1 1 + 2)); [exact Np|].
    destruct At as [_ Hup].
    set (eta' := (inject_Z (2 * (J + 1) + 1) * ulp53)%Q) in *.
    assert (Heta' : (eta' <= 1)%Q).
    { unfold eta', ulp53.
      assert (inject_Z (2 * (J + 1) + 1) <= inject_Z (2 ^ 27))%Q by (rewrite <- Zle_Qle; lia).
      change (inject_Z (2 ^ 27)) with 134217728%Q in H.
      change (1 # 2 ^ 53)%Q with (1 # 9007199254740992)%Q. lra. }
    set (r2 := (inject_Z ((J + 1 + 1) * n) / inject_Z s)%Q) in *.
    assert (Hr2 : (r2 <= inject_Z n)%Q).
    { unfold r2. apply Qle_shift_div_r; [lra|].
      rewrite <- inject_Z_mult, <- Zle_Qle. nia. }
    assert (Hr2' : (0 <= r2)%Q).
    { unfold r2. apply Qle_shift_div_l; [lra|]. rewrite Qmult_0_l. apply inject_Z_nonneg. nia. }
    assert (Hn53 : (inject_Z n < 2 ^ 53)%Q).
    { rewrite <- (inject_Z_pow2 53) by lia. rewrite <- Zlt_Qlt. lia. }
    assert (r2 * eta' <= r2 * 1)%Q by (rewrite !(Qmult_comm r2); apply Qmult_le_compat_r; lra).
    assert ((2:Q) ^ 53 * 2 == 2 ^ 54)%Q by reflexivity.
    lra.
Qed.

(** The [j]-th boundary of [parallelFor] is an integer nearest to
    [(j + 1) * n / s]. *)
Lemma acc_sum_nearest (n s : Z) (j : nat) :
  0 < n -> 0 < s -> Z.of_nat j + 1 <= s -> 4 * s * s * n < 2 ^ 53 ->
  exists I, llround (acc_sum (d_div (d_of_Z n) (d_of_Z s)) j) = Ok I /\
            2 * Z.abs (s * I - (Z.of_nat j + 1) * n) <= s.
Proof.
  intros Hn Hs Hj Hb.
  assert (Hs26 : s < 2 ^ 26).
  { destruct (Z_lt_le_dec s (2 ^ 26)); [assumption|].
    assert (2 ^ 26 * 2 ^ 26 <= s * s) by nia. nia. }
  assert (Hn53 : n < 2 ^ 53) by nia.
  destruct (acc_sum_spec n s j ltac:(lia) Hs Hj Hs26) as [Nj Aj].
  set (J := Z.of_nat j) in *.
  assert (HJ : 0 <= J) by (unfold J; lia).
  eapply (llround_nearest _ _ _ ((J + 1) * n) s _ Nj); [lia|nia| | | |exact Aj|].
  - assert ((J + 1) * n < 2 ^ 53) by nia.
    assert (2 ^ 53 <= s * 2 ^ 60) by lia. lia.
  - apply Qmult_le_0_compat; [apply inject_Z_nonneg; lia|apply ulp53_range].
  - unfold ulp53.
    assert (inject_Z (2 * J + 1) <= inject_Z (2 ^ 27))%Q by (rewrite <- Zle_Qle; lia).
    change (inject_Z (2 ^ 27)) with 134217728%Q in H.
    change (1 # 2 ^ 53)%Q with (1 # 9007199254740992)%Q. lra.
  - rewrite Qmult_assoc, <- inject_Z_mult. unfold ulp53.
    assert (H53 : (inject_Z (2 * ((J + 1) * n) * (2 * J + 1)) < inject_Z (2 ^ 53))%Q)
      by (rewrite <- Zlt_Qlt; nia).
    change (inject_Z (2 ^ 53)) with 9007199254740992%Q in H53.
    change (1 # 2 ^ 53)%Q with (1 # 9007199254740992)%Q. lra.
Qed.


(** A division whose quotient is a double is exact. *)
Lemma d_div_exact (m1 m2 mz : positive) (e1 e2 j : Z) :
  Zpos (digits2_pos m1) = 53 -> Zpos (digits2_pos m2) = 53 -> Zpos (digits2_pos mz) = 53 ->
  0 <= j -> Zpos m1 * 2 ^ 53 = Zpos m2 * (Zpos mz * 2 ^ j) ->
  -1074 <= e1 - e2 - 53 -> e1 - e2 - 53 + j + 1 <= 971 ->
  d_div (S754_finite false m1 e1) (S754_finite false m2 e2)
  = S754_finite false mz (e1 - e2 - 53 + j).
Proof.
  intros Hd1 Hd2 Hdz Hj Heq Hlo Hhi.
  unfold d_div, SFdiv, SFdiv_core_binary. cbn [xorb Zdigits2].
  rewrite Hd1, Hd2.
  replace (Z.min (fexp prec emax (53 + e1 - (53 + e2))) (e1 - e2))
    with (e1 - e2 - 53) by (unfold fexp, emin, prec, emax; lia).
  replace (e1 - e2 - (e1 - e2 - 53)) with 53 by lia.
  rewrite Z.shiftl_mul_pow2 by lia.
  pose proof (Z_div_mod (Zpos m1 * 2 ^ 53) (Zpos m2) ltac:(lia)) as Hdm.
  destruct (Z.div_eucl (Zpos m1 * 2 ^ 53) (Zpos m2)) as [q r].
  destruct Hdm as [Hq Hr].
  assert (Hpj : 0 < 2 ^ j) by (apply Z.pow_pos_nonneg; lia).
  assert (Eq : q = Zpos mz * 2 ^ j /\ r = 0).
  { rewrite Heq in Hq.
    assert (Zpos m2 * (Zpos mz * 2 ^ j - q) = r) by lia.
    assert (Zpos mz * 2 ^ j - q = 0) by nia. split; nia. }
  destruct Eq as [-> ->].
  assert (El : new_location (Z.pos m2) 0 = loc_Exact).
  { unfold new_location, new_location_even, new_location_odd.
    destruct (Z.even (Z.pos m2)); reflexivity. }
  rewrite El. apply bra_exact; auto; lia.
Qed.

Lemma Zdigits2_mul_bounds a b :
  0 < a -> 0 < b ->
  Zdigits2 a + Zdigits2 b - 1 <= Zdigits2 (a * b) <= Zdigits2 a + Zdigits2 b.
Proof.
  intros Ha Hb.
  pose proof (Zdigits2_bounds a Ha) as [La Ua]. pose proof (Zdigits2_bounds b Hb) as [Lb Ub].
  pose proof (Zdigits2_pos a Ha). pose proof (Zdigits2_pos b Hb).
  assert (Hab : 0 < a * b) by nia.
  pose proof (Zdigits2_bounds (a * b) Hab) as [Lab Uab].
  pose proof (Zdigits2_pos (a * b) Hab).
  assert (L : 2 ^ (Zdigits2 a - 1 + (Zdigits2 b - 1)) <= a * b).
  { rewrite Z.pow_add_r by lia.
    pose proof (Z.pow_pos_nonneg 2 (Zdigits2 a - 1) ltac:(lia) ltac:(lia)).
    pose proof (Z.pow_pos_nonneg 2 (Zdigits2 b - 1) ltac:(lia) ltac:(lia)). nia. }
  assert (U : a * b < 2 ^ (Zdigits2 a + Zdigits2 b)).
  { rewrite Z.pow_add_r by lia. nia. }
  split.
  - destruct (Z_lt_le_dec (Zdigits2 (a * b)) (Zdigits2 a + Zdigits2 b - 1)) as [Hlt|]; [|lia].
    assert (2 ^ Zdigits2 (a * b) <= 2 ^ (Zdigits2 a - 1 + (Zdigits2 b - 1)))
      by (apply Z.pow_le_mono_r; lia). lia.
  - destruct (Z_lt_le_dec (Zdigits2 a + Zdigits2 b) (Zdigits2 (a * b))) as [Hlt|]; [|lia].
    assert (2 ^ (Zdigits2 a + Zdigits2 b) <= 2 ^ (Zdigits2 (a * b) - 1))
      by (apply Z.pow_le_mono_r; lia). lia.
Qed.

(** The quotient of two integers, when the divisor is [c * 2^i] and [c]
    divides the dividend. *)
Lemma d_div_int_exact (z c i : Z) :
  0 < z -> 0 < c -> 0 <= i -> z * c < 2 ^ 53 -> c * 2 ^ i < 2 ^ 53 ->
  d_div (d_of_Z (z * c)) (d_of_Z (c * 2 ^ i)) = dscale (- i) (d_of_Z z).
Proof.
  intros Hz Hc Hi Hzc Hci.
  assert (Hpi : 0 < 2 ^ i) by (apply Z.pow_pos_nonneg; lia).
  rewrite (d_of_Z_pow2_mul c i) by lia.
  rewrite (d_of_Z_exact (z * c)), (d_of_Z_exact c), (d_of_Z_exact z) by nia.
  destruct (mant_of_spec (z * c) ltac:(nia)) as (Ma & Da & Ra).
  destruct (mant_of_spec c ltac:(nia)) as (Mc & Dc & Rc).
  destruct (mant_of_spec z ltac:(nia)) as (Mz & Dz & Rz).
  pose proof (Zdigits2_mul_bounds z c Hz Hc) as Hdig.
  cbn [dscale].
  set (j := Zdigits2 z + Zdigits2 c - Zdigits2 (z * c)).
  assert (Hi53 : i < 53).
  { destruct (Z_lt_le_dec i 53); [assumption|].
    assert (2 ^ 53 <= 2 ^ i) by (apply Z.pow_le_mono_r; lia). nia. }
  rewrite (d_div_exact (mant_of (z * c)) (mant_of c) (mant_of z) _ _ j Da Dc Dz);
    [| unfold j; lia | | unfold j; lia | unfold j; lia].
  - f_equal. unfold j. lia.
  - rewrite Ma, Mc, Mz.
    replace (z * c * 2 ^ (53 - Zdigits2 (z * c)) * 2 ^ 53)
      with (z * c * (2 ^ (53 - Zdigits2 (z * c)) * 2 ^ 53)) by ring.
    replace (c * 2 ^ (53 - Zdigits2 c) * (z * 2 ^ (53 - Zdigits2 z) * 2 ^ j))
      with (z * c * (2 ^ (53 - Zdigits2 c) * (2 ^ (53 - Zdigits2 z) * 2 ^ j))) by ring.
    f_equal. rewrite <- !Z.pow_add_r by (unfold j; lia). f_equal. unfold j. lia.
Qed.

Lemma d_div_one (n : Z) : 0 < n < 2 ^ 53 -> d_div (d_of_Z n) (d_of_Z 1) = d_of_Z n.
Proof.
  intros Hn. pose proof (d_div_int_exact n 1 0 ltac:(lia) ltac:(lia) ltac:(lia)) as H.
  rewrite Z.mul_1_r in H. change (1 * 2 ^ 0) with 1 in H.
  rewrite H by lia. apply dscale_0.
Qed.

Lemma d_mul_one_l x lo hi :
  dnormal x lo hi -> -1074 <= lo -> hi + 1 <= 971 -> d_mul (d_of_Z 1) x = x.
Proof.
  intros (m & e & -> & Hd & He) Hlo Hhi.
  rewrite d_of_Z_exact by (vm_compute; split; reflexivity).
  unfold d_mul, SFmul. cbn [xorb].
  change (mant_of 1) with (4503599627370496%positive).
  change (Zdigits2 1 - 53) with (-52).
  rewrite Pos2Z.inj_mul, Z.mul_comm. change (Z.pos 4503599627370496) with (2 ^ 52).
  rewrite bra_exact by (try assumption; lia).
  f_equal. lia.
Qed.

Lemma llround_of_Z (n : Z) : 0 <= n < 2 ^ 53 -> llround (d_of_Z n) = Ok n.
Proof.
  intros Hn. destruct (Z.eq_dec n 0) as [->|Hne]; [reflexivity|].
  destruct (d_of_Z_spec n ltac:(lia)) as [Nn Vn].
  assert (Hv : (dval (d_of_Z n) < 2 ^ 62)%Q).
  { rewrite Vn. rewrite <- (inject_Z_pow2 62) by lia. rewrite <- Zlt_Qlt. lia. }
  rewrite (llround_spec _ _ _ Nn Hv). f_equal.
  assert (E : (dval (d_of_Z n) + (1 # 2) == (2 * n + 1) # 2)%Q).
  { rewrite Vn. unfold Qeq, Qplus, inject_Z. simpl. lia. }
  rewrite E. unfold Qfloor. simpl. symmetry. apply Z.div_unique with (r := 1); lia.
Qed.

End Binary64Facts.

Import Binary64Facts.

(** ** Facts on results, buffers and slices *)

Section BufferFacts.

Context {T : Type}.
Implicit Types (b dst src pre rest out : list T) (x v : T).

Lemma rd_Ok b i x :
  rd b i = Ok x <-> 0 <= i /\ b !! Z.to_nat i = Some x.
Proof.
  unfold rd. destruct (Z.leb_spec 0 i) as [H|H].
  - destruct (b !! Z.to_nat i) eqn:E; simpl; split.
    + intros [= ->]. auto.
    + intros [_ [= ->]]. reflexivity.
    + discriminate.
    + intros [_ [=]].
  - split; [discriminate|]. intros [H' _]. lia.
Qed.

Lemma rd_lookup b i x :
  0 <= i -> b !! Z.to_nat i = Some x -> rd b i = Ok x.
Proof. intros. apply rd_Ok. auto. Qed.

Lemma wr_app pre rest x v :
  wr (pre ++ x :: rest) (Z.of_nat (length pre)) v = Ok (pre ++ v :: rest).
Proof.
  unfold wr. rewrite length_app. simpl.
  destruct (Z.leb_spec 0 (Z.of_nat (length pre))); [|lia].
  destruct (Z.ltb_spec (Z.of_nat (length pre)) (Z.of_nat (length pre + Datatypes.S (length rest))));
    [|lia].
  simpl. f_equal. rewrite Nat2Z.id.
  rewrite insert_app_r_alt by lia. rewrite Nat.sub_diag. reflexivity.
Qed.

Lemma slice_nil b lo hi : hi <= lo -> slice b lo hi = [].
Proof. intros H. unfold slice. replace (Z.to_nat (hi - lo)) with 0%nat by lia. reflexivity. Qed.

Lemma slice_cons b lo hi x :
  0 <= lo < hi -> b !! Z.to_nat lo = Some x ->
  slice b lo hi = x :: slice b (lo + 1) hi.
Proof.
  intros H Hx. unfold slice.
  replace (Z.to_nat (hi - lo)) with (Datatypes.S (Z.to_nat (hi - (lo + 1)))) by lia.
  rewrite (drop_S _ _ _ Hx). simpl.
  replace (Z.to_nat (lo + 1)) with (Datatypes.S (Z.to_nat lo)) by lia. reflexivity.
Qed.

Lemma slice_length b lo hi :
  0 <= lo <= hi -> hi <= Z.of_nat (length b) ->
  length (slice b lo hi) = Z.to_nat (hi - lo).
Proof. intros H1 H2. unfold slice. rewrite length_take, length_drop. lia. Qed.

Lemma slice_app b lo mid hi :
  0 <= lo <= mid -> mid <= hi ->
  slice b lo mid ++ slice b mid hi = slice b lo hi.
Proof.
  intros H1 H2. unfold slice.
  replace (Z.to_nat (hi - lo)) with (Z.to_nat (mid - lo) + Z.to_nat (hi - mid))%nat by lia.
  rewrite <- take_take_drop. f_equal. rewrite drop_drop. repeat f_equal. lia.
Qed.

End BufferFacts.

(** ** Consequences of a strict weak ordering *)

Section Order.

Context {T : Type} (compFunc : T -> T -> bool).
Hypothesis Hswo : strict_weak_order compFunc.

Lemma swo_asym x y : compFunc x y = true -> compFunc y x = false.
Proof.
  intros H. destruct (compFunc y x) eqn:E; [|reflexivity].
  pose proof (swo_trans _ Hswo _ _ _ H E) as H1.
  rewrite (swo_irrefl _ Hswo) in H1. discriminate.
Qed.

Lemma swo_neg_trans x y z :
  compFunc x z = true -> compFunc x y = true \/ compFunc y z = true.
Proof.
  intros Hxz.
  destruct (compFunc x y) eqn:Exy; [auto|].
  destruct (compFunc y z) eqn:Eyz; [auto|]. exfalso.
  destruct (compFunc y x) eqn:Eyx.
  { rewrite (swo_trans _ Hswo _ _ _ Eyx Hxz) in Eyz. discriminate. }
  destruct (compFunc z y) eqn:Ezy.
  { rewrite (swo_trans _ Hswo _ _ _ Hxz Ezy) in Exy. discriminate. }
  destruct (swo_equiv_trans _ Hswo _ _ _ Exy Eyx Eyz Ezy) as [H _].
  congruence.
Qed.

Lemma le_trans x y z :
  compFunc y x = false -> compFunc z y = false -> compFunc z x = false.
Proof.
  intros H1 H2. destruct (compFunc z x) eqn:E; [|reflexivity].
  destruct (swo_neg_trans _ y _ E); congruence.
Qed.

Lemma lt_le_trans x y z :
  compFunc x y = true -> compFunc z y = false -> compFunc x z = true.
Proof. intros H1 H2. destruct (swo_neg_trans _ z _ H1); congruence. Qed.

Lemma le_lt_trans x y z :
  compFunc y x = false -> compFunc y z = true -> compFunc x z = true.
Proof. intros H1 H2. destruct (swo_neg_trans _ x _ H2); congruence. Qed.

Lemma sorted_cons_inv x l :
  sorted compFunc (x :: l) ->
  sorted compFunc l /\ Forall (fun y => compFunc y x = false) l.
Proof. intros H. apply StronglySorted_inv in H. exact H. Qed.

Lemma sorted_cons x l :
  sorted compFunc l -> Forall (fun y => compFunc y x = false) l ->
  sorted compFunc (x :: l).
Proof. intros H1 H2. constructor; assumption. Qed.

Lemma sorted_app l1 l2 :
  sorted compFunc l1 -> sorted compFunc l2 ->
  (forall x y, x ∈ l1 -> y ∈ l2 -> compFunc y x = false) ->
  sorted compFunc (l1 ++ l2).
Proof.
  intros H1 H2 H. induction l1 as [|a l1 IH]; simpl; [exact H2|].
  apply sorted_cons_inv in H1. destruct H1 as [Hs Hf].
  apply sorted_cons.
  - apply IH; [exact Hs|]. intros x y Hx Hy. apply H; [right; exact Hx|exact Hy].
  - apply Forall_app. split; [exact Hf|].
    apply Forall_forall. intros y Hy. apply H; [left|exact Hy].
Qed.

Lemma sorted_app_inv l1 l2 :
  sorted compFunc (l1 ++ l2) ->
  sorted compFunc l1 /\ sorted compFunc l2 /\
  (forall x y, x ∈ l1 -> y ∈ l2 -> compFunc y x = false).
Proof.
  induction l1 as [|a l1 IH]; simpl; intros H.
  - split; [constructor|]. split; [exact H|]. intros x y Hx. inversion Hx.
  - apply sorted_cons_inv in H. destruct H as [Hs Hf].
    destruct (IH Hs) as (H1 & H2 & H3). apply Forall_app in Hf. destruct Hf as [Hf1 Hf2].
    split; [apply sorted_cons; assumption|]. split; [exact H2|].
    intros x y Hx Hy. apply elem_of_cons in Hx. destruct Hx as [->|Hx].
    + rewrite Forall_forall in Hf2. apply Hf2. exact Hy.
    + apply H3; assumption.
Qed.

Lemma sorted_slice (b : list T) lo hi lo' hi' :
  sorted compFunc (slice b lo hi) -> 0 <= lo <= lo' -> lo' <= hi' -> hi' <= hi ->
  sorted compFunc (slice b lo' hi').
Proof.
  intros H H1 H2 H3.
  rewrite <- (slice_app b lo lo' hi), <- (slice_app b lo' hi' hi) in H by lia.
  apply sorted_app_inv in H. destruct H as (_ & H & _).
  apply sorted_app_inv in H. tauto.
Qed.

End Order.

(** ** The sequential merge step *)

Section MergeFF.

Context {T : Type} (compFunc : T -> T -> bool).
Hypothesis Hswo : strict_weak_order compFunc.
Implicit Types (b dst src pre rest out : list T) (x v : T).

Lemma lookup_Z_is_Some src i :
  0 <= i < Z.of_nat (length src) -> exists x, src !! Z.to_nat i = Some x.
Proof. intros H. apply lookup_lt_is_Some. lia. Qed.

Lemma copy_range_spec src count : forall pre rest from,
  0 <= from -> from + Z.of_nat count <= Z.of_nat (length src) ->
  (count <= length rest)%nat ->
  copy_range count (pre ++ rest) src from (Z.of_nat (length pre))
  = Ok (pre ++ slice src from (from + Z.of_nat count) ++ drop count rest).
Proof.
  induction count as [|c IH]; intros pre rest from Hf Hs Hr.
  - simpl. rewrite slice_nil by lia. rewrite drop_0. reflexivity.
  - cbn [copy_range].
    destruct (lookup_Z_is_Some src from ltac:(lia)) as [x Hx].
    rewrite (rd_lookup _ _ _ Hf Hx). cbn [bind].
    destruct rest as [|r0 rest]; [simpl in Hr; lia|].
    rewrite wr_app. cbn [bind].
    replace (pre ++ x :: rest) with ((pre ++ [x]) ++ rest) by (rewrite <- app_assoc; reflexivity).
    replace (Z.of_nat (length pre) + 1) with (Z.of_nat (length (pre ++ [x])))
      by (rewrite length_app; simpl; lia).
    rewrite IH; [|lia|lia|simpl in Hr; lia].
    rewrite (slice_cons src from (from + Z.of_nat (Datatypes.S c)) x ltac:(lia) Hx).
    replace (from + 1 + Z.of_nat c) with (from + Z.of_nat (Datatypes.S c)) by lia.
    rewrite <- app_assoc. reflexivity.
Qed.

(** The loop of the first branch: the [a] range is exhausted before the [b]
    range because its last element is ordered strictly before the last
    element of the [b] range. *)
Lemma mergeFF_a_spec src aEnd bEnd ae be :
  src !! Z.to_nat aEnd = Some ae -> src !! Z.to_nat bEnd = Some be ->
  0 <= aEnd < Z.of_nat (length src) -> 0 <= bEnd < Z.of_nat (length src) ->
  compFunc ae be = true ->
  forall fuel pre rest aBeg bBeg,
  0 <= aBeg <= aEnd + 1 -> 0 <= bBeg <= bEnd ->
  sorted compFunc (slice src aBeg (aEnd + 1)) ->
  sorted compFunc (slice src bBeg (bEnd + 1)) ->
  (Z.to_nat (aEnd + 1 - aBeg) + Z.to_nat (bEnd - bBeg) < fuel)%nat ->
  (Z.to_nat (aEnd + 1 - aBeg) + Z.to_nat (bEnd + 1 - bBeg) <= length rest)%nat ->
  exists out bBeg',
    mergeFF_a compFunc fuel (pre ++ rest) src aBeg aEnd bBeg (Z.of_nat (length pre))
    = Ok (pre ++ out ++ drop (length out) rest, bBeg', Z.of_nat (length pre + length out)) /\
    bBeg <= bBeg' <= bEnd /\
    out ≡ₚ slice src aBeg (aEnd + 1) ++ slice src bBeg bBeg' /\
    sorted compFunc (out ++ slice src bBeg' (bEnd + 1)) /\
    (forall (a b : T), aBeg <= aEnd ->
       src !! Z.to_nat aBeg = Some a -> src !! Z.to_nat bBeg = Some b ->
       compFunc b a = false -> head out = Some a).
Proof.
  intros Hae Hbe HaE HbE Hlt.
  induction fuel as [|f IH]; intros pre rest aBeg bBeg Ha Hb HsA HsB Hfuel Hrest; [lia|].
  cbn [mergeFF_a].
  destruct (Z.leb_spec aBeg aEnd) as [Hle|Hgt].
  2:{ exists [], bBeg. rewrite drop_0, Nat.add_0_r. simpl.
      split; [reflexivity|]. split; [lia|].
      rewrite !slice_nil by lia. split; [reflexivity|]. split; [exact HsB|].
      intros; lia. }
  destruct (lookup_Z_is_Some src aBeg ltac:(lia)) as [a Hxa].
  destruct (lookup_Z_is_Some src bBeg ltac:(lia)) as [b Hxb].
  rewrite (rd_lookup src bBeg b ltac:(lia) Hxb), (rd_lookup src aBeg a ltac:(lia) Hxa). cbn [bind].
  pose proof (slice_cons src aBeg (aEnd + 1) a ltac:(lia) Hxa) as EA.
  pose proof (slice_cons src bBeg (bEnd + 1) b ltac:(lia) Hxb) as EB.
  pose proof HsA as HsA'. pose proof HsB as HsB'.
  rewrite EA in HsA'. rewrite EB in HsB'.
  apply (sorted_cons_inv compFunc) in HsA'. destruct HsA' as [HsA1 HfA].
  apply (sorted_cons_inv compFunc) in HsB'. destruct HsB' as [HsB1 HfB].
  destruct rest as [|r0 rest]; [simpl in Hrest; lia|].
  destruct (compFunc b a) eqn:Eba; cbn [negb].
  - (* the head of [b] is copied *)
    assert (Hbb : bBeg < bEnd).
    { destruct (Z.eq_dec bBeg bEnd) as [->|]; [|lia]. exfalso.
      rewrite Hbe in Hxb. injection Hxb as <-.
      assert (Hle' : compFunc ae a = false).
      { destruct (Z.eq_dec aBeg aEnd) as [->|].
        - rewrite Hae in Hxa. injection Hxa as <-. apply (swo_irrefl _ Hswo).
        - rewrite Forall_forall in HfA. apply HfA.
          apply list_elem_of_lookup. exists (Z.to_nat (aEnd - (aBeg + 1))).
          unfold slice. rewrite lookup_take_lt by lia. rewrite lookup_drop.
          replace (Z.to_nat (aBeg + 1) + Z.to_nat (aEnd - (aBeg + 1)))%nat
            with (Z.to_nat aEnd) by lia. exact Hae. }
      pose proof (lt_le_trans compFunc Hswo _ _ _ Eba Hle') as H1.
      pose proof (swo_trans _ Hswo _ _ _ H1 Hlt) as H2.
      rewrite (swo_irrefl _ Hswo) in H2. discriminate. }
    rewrite wr_app. cbn [bind].
    replace (pre ++ b :: rest) with ((pre ++ [b]) ++ rest) by (rewrite <- app_assoc; reflexivity).
    replace (Z.of_nat (length pre) + 1) with (Z.of_nat (length (pre ++ [b])))
      by (rewrite length_app; simpl; lia).
    destruct (IH (pre ++ [b]) rest aBeg (bBeg + 1)) as (out & bBeg' & E & Hb' & Hperm & Hsort & _);
      [lia|lia|exact HsA|exact HsB1|lia|simpl in Hrest; lia|].
    exists (b :: out), bBeg'. rewrite E. split.
    { rewrite <- !app_assoc. simpl. rewrite length_app. simpl.
      do 2 f_equal. lia. }
    split; [lia|]. split.
    { rewrite (slice_cons src bBeg bBeg' b ltac:(lia) Hxb).
      rewrite Hperm. rewrite Permutation_middle. reflexivity. }
    split; [|intros a' b' _ Ha' Hb'' Hc; congruence].
    simpl. apply sorted_cons; [exact Hsort|].
    assert (Hall : out ++ slice src bBeg' (bEnd + 1)
                   ≡ₚ slice src aBeg (aEnd + 1) ++ slice src (bBeg + 1) (bEnd + 1)).
    { rewrite Hperm, <- app_assoc. rewrite slice_app by lia. reflexivity. }
    rewrite Hall. apply Forall_app. split; [|exact HfB].
    rewrite EA. constructor.
    + apply (swo_asym compFunc Hswo). exact Eba.
    + eapply Forall_impl; [exact HfA|]. intros y Hy. simpl in Hy.
      apply (le_trans compFunc Hswo b a y); [|exact Hy].
      apply (swo_asym compFunc Hswo). exact Eba.
  - (* the head of [a] is copied *)
    rewrite wr_app. cbn [bind].
    replace (pre ++ a :: rest) with ((pre ++ [a]) ++ rest) by (rewrite <- app_assoc; reflexivity).
    replace (Z.of_nat (length pre) + 1) with (Z.of_nat (length (pre ++ [a])))
      by (rewrite length_app; simpl; lia).
    destruct (IH (pre ++ [a]) rest (aBeg + 1) bBeg) as (out & bBeg' & E & Hb' & Hperm & Hsort & _);
      [lia|lia|exact HsA1|exact HsB|lia|simpl in Hrest; lia|].
    exists (a :: out), bBeg'. rewrite E. split.
    { rewrite <- !app_assoc. simpl. rewrite length_app. simpl.
      do 2 f_equal. lia. }
    split; [lia|]. split.
    { rewrite EA. simpl. rewrite Hperm. reflexivity. }
    split; [|intros a' b' _ Ha' _ _; simpl; congruence].
    simpl. apply sorted_cons; [exact Hsort|].
    assert (Hall : out ++ slice src bBeg' (bEnd + 1)
                   ≡ₚ slice src (aBeg + 1) (aEnd + 1) ++ slice src bBeg (bEnd + 1)).
    { rewrite Hperm, <- app_assoc. rewrite slice_app by lia. reflexivity. }
    rewrite Hall. apply Forall_app. split; [exact HfA|].
    rewrite EB. constructor; [exact Eba|].
    eapply Forall_impl; [exact HfB|]. intros y Hy. simpl in Hy.
    apply (le_trans compFunc Hswo a b y); [exact Eba|exact Hy].
Qed.


(** The loop of the second branch: the [b] range is exhausted first. *)
Lemma mergeFF_b_spec src aEnd bEnd ae be :
  src !! Z.to_nat aEnd = Some ae -> src !! Z.to_nat bEnd = Some be ->
  0 <= aEnd < Z.of_nat (length src) -> 0 <= bEnd < Z.of_nat (length src) ->
  compFunc ae be = false ->
  forall fuel pre rest aBeg bBeg,
  0 <= aBeg <= aEnd -> 0 <= bBeg <= bEnd + 1 ->
  sorted compFunc (slice src aBeg (aEnd + 1)) ->
  sorted compFunc (slice src bBeg (bEnd + 1)) ->
  (Z.to_nat (aEnd - aBeg) + Z.to_nat (bEnd + 1 - bBeg) < fuel)%nat ->
  (Z.to_nat (aEnd + 1 - aBeg) + Z.to_nat (bEnd + 1 - bBeg) <= length rest)%nat ->
  exists out aBeg',
    mergeFF_b compFunc fuel (pre ++ rest) src aBeg bBeg bEnd (Z.of_nat (length pre))
    = Ok (pre ++ out ++ drop (length out) rest, aBeg', Z.of_nat (length pre + length out)) /\
    aBeg <= aBeg' <= aEnd /\
    out ≡ₚ slice src aBeg aBeg' ++ slice src bBeg (bEnd + 1) /\
    sorted compFunc (out ++ slice src aBeg' (aEnd + 1)) /\
    (forall (a b : T), bBeg <= bEnd ->
       src !! Z.to_nat aBeg = Some a -> src !! Z.to_nat bBeg = Some b ->
       compFunc a b = false -> head out = Some b).
Proof.
  intros Hae Hbe HaE HbE Hge.
  induction fuel as [|f IH]; intros pre rest aBeg bBeg Ha Hb HsA HsB Hfuel Hrest; [lia|].
  cbn [mergeFF_b].
  destruct (Z.leb_spec bBeg bEnd) as [Hle|Hgt].
  2:{ exists [], aBeg. rewrite drop_0, Nat.add_0_r. simpl.
      split; [reflexivity|]. split; [lia|].
      rewrite !slice_nil by lia. split; [reflexivity|]. split; [exact HsA|].
      intros; lia. }
  destruct (lookup_Z_is_Some src aBeg ltac:(lia)) as [a Hxa].
  destruct (lookup_Z_is_Some src bBeg ltac:(lia)) as [b Hxb].
  rewrite (rd_lookup src aBeg a ltac:(lia) Hxa), (rd_lookup src bBeg b ltac:(lia) Hxb). cbn [bind].
  pose proof (slice_cons src aBeg (aEnd + 1) a ltac:(lia) Hxa) as EA.
  pose proof (slice_cons src bBeg (bEnd + 1) b ltac:(lia) Hxb) as EB.
  pose proof HsA as HsA'. pose proof HsB as HsB'.
  rewrite EA in HsA'. rewrite EB in HsB'.
  apply (sorted_cons_inv compFunc) in HsA'. destruct HsA' as [HsA1 HfA].
  apply (sorted_cons_inv compFunc) in HsB'. destruct HsB' as [HsB1 HfB].
  destruct rest as [|r0 rest]; [simpl in Hrest; lia|].
  destruct (compFunc a b) eqn:Eab.
  - (* the head of [a] is copied *)
    assert (Haa : aBeg < aEnd).
    { destruct (Z.eq_dec aBeg aEnd) as [->|]; [|lia]. exfalso.
      rewrite Hae in Hxa. injection Hxa as <-.
      assert (Hle' : compFunc be b = false).
      { destruct (Z.eq_dec bBeg bEnd) as [->|].
        - rewrite Hbe in Hxb. injection Hxb as <-. apply (swo_irrefl _ Hswo).
        - rewrite Forall_forall in HfB. apply HfB.
          apply list_elem_of_lookup. exists (Z.to_nat (bEnd - (bBeg + 1))).
          unfold slice. rewrite lookup_take_lt by lia. rewrite lookup_drop.
          replace (Z.to_nat (bBeg + 1) + Z.to_nat (bEnd - (bBeg + 1)))%nat
            with (Z.to_nat bEnd) by lia. exact Hbe. }
      pose proof (lt_le_trans compFunc Hswo _ _ _ Eab Hle') as H1. congruence. }
    rewrite wr_app. cbn [bind].
    replace (pre ++ a :: rest) with ((pre ++ [a]) ++ rest) by (rewrite <- app_assoc; reflexivity).
    replace (Z.of_nat (length pre) + 1) with (Z.of_nat (length (pre ++ [a])))
      by (rewrite length_app; simpl; lia).
    destruct (IH (pre ++ [a]) rest (aBeg + 1) bBeg) as (out & aBeg' & E & Ha' & Hperm & Hsort & _);
      [lia|lia|exact HsA1|exact HsB|lia|simpl in Hrest; lia|].
    exists (a :: out), aBeg'. rewrite E. split.
    { rewrite <- !app_assoc. simpl. rewrite length_app. simpl.
      do 2 f_equal. lia. }
    split; [lia|]. split.
    { rewrite (slice_cons src aBeg aBeg' a ltac:(lia) Hxa).
      simpl. rewrite Hperm. reflexivity. }
    split; [|intros a' b' _ Ha'' Hb'' Hc; congruence].
    simpl. apply sorted_cons; [exact Hsort|].
    assert (Hall : out ++ slice src aBeg' (aEnd + 1)
                   ≡ₚ slice src (aBeg + 1) (aEnd + 1) ++ slice src bBeg (bEnd + 1)).
    { rewrite Hperm, <- app_assoc.
      rewrite (Permutation_app_comm (slice src bBeg (bEnd + 1))), app_assoc.
      rewrite slice_app by lia. reflexivity. }
    rewrite Hall. apply Forall_app. split; [exact HfA|].
    rewrite EB. constructor.
    + apply (swo_asym compFunc Hswo). exact Eab.
    + eapply Forall_impl; [exact HfB|]. intros y Hy. simpl in Hy.
      apply (le_trans compFunc Hswo a b y); [|exact Hy].
      apply (swo_asym compFunc Hswo). exact Eab.
  - (* the head of [b] is copied *)
    rewrite wr_app. cbn [bind].
    replace (pre ++ b :: rest) with ((pre ++ [b]) ++ rest) by (rewrite <- app_assoc; reflexivity).
    replace (Z.of_nat (length pre) + 1) with (Z.of_nat (length (pre ++ [b])))
      by (rewrite length_app; simpl; lia).
    destruct (IH (pre ++ [b]) rest aBeg (bBeg + 1)) as (out & aBeg' & E & Ha' & Hperm & Hsort & _);
      [lia|lia|exact HsA|exact HsB1|lia|simpl in Hrest; lia|].
    exists (b :: out), aBeg'. rewrite E. split.
    { rewrite <- !app_assoc. simpl. rewrite length_app. simpl.
      do 2 f_equal. lia. }
    split; [lia|]. split.
    { rewrite EB. rewrite Hperm. rewrite Permutation_middle. reflexivity. }
    split; [|intros a' b' _ _ Hb'' _; simpl; congruence].
    simpl. apply sorted_cons; [exact Hsort|].
    assert (Hall : out ++ slice src aBeg' (aEnd + 1)
                   ≡ₚ slice src aBeg (aEnd + 1) ++ slice src (bBeg + 1) (bEnd + 1)).
    { rewrite Hperm, <- app_assoc.
      rewrite (Permutation_app_comm (slice src (bBeg + 1) (bEnd + 1))), app_assoc.
      rewrite slice_app by lia. reflexivity. }
    rewrite Hall. apply Forall_app. split; [|exact HfB].
    rewrite EA. constructor; [exact Eab|].
    eapply Forall_impl; [exact HfA|]. intros y Hy. simpl in Hy.
    apply (le_trans compFunc Hswo b a y); [exact Eab|exact Hy].
Qed.

Lemma blit_split dst d :
  0 <= d <= Z.of_nat (length dst) ->
  dst = take (Z.to_nat d) dst ++ drop (Z.to_nat d) dst /\
  Z.of_nat (length (take (Z.to_nat d) dst)) = d.
Proof. intros H. rewrite take_drop, length_take. split; [reflexivity|lia]. Qed.

(** [mergeFF] on two sorted inclusive ranges. *)
Lemma mergeFF_spec dst src aBeg aEnd bBeg bEnd dBeg :
  0 <= aBeg <= aEnd -> aEnd < Z.of_nat (length src) ->
  0 <= bBeg <= bEnd -> bEnd < Z.of_nat (length src) ->
  0 <= dBeg ->
  dBeg + (aEnd - aBeg + 1) + (bEnd - bBeg + 1) <= Z.of_nat (length dst) ->
  sorted compFunc (slice src aBeg (aEnd + 1)) ->
  sorted compFunc (slice src bBeg (bEnd + 1)) ->
  exists run,
    mergeFF compFunc dst src aBeg aEnd bBeg bEnd dBeg = Ok (blit dst dBeg run) /\
    Z.of_nat (length run) = (aEnd - aBeg + 1) + (bEnd - bBeg + 1) /\
    sorted compFunc run /\
    run ≡ₚ slice src aBeg (aEnd + 1) ++ slice src bBeg (bEnd + 1) /\
    (forall (a b ae be : T),
       src !! Z.to_nat aBeg = Some a -> src !! Z.to_nat bBeg = Some b ->
       src !! Z.to_nat aEnd = Some ae -> src !! Z.to_nat bEnd = Some be ->
       compFunc a b = false -> compFunc b a = false ->
       head run = Some (if compFunc ae be then a else b)).
Proof.
  intros Ha HaE Hb HbE Hd Hroom HsA HsB.
  destruct (lookup_Z_is_Some src aEnd ltac:(lia)) as [ae Hae].
  destruct (lookup_Z_is_Some src bEnd ltac:(lia)) as [be Hbe].
  unfold mergeFF.
  rewrite (rd_lookup src aEnd ae ltac:(lia) Hae), (rd_lookup src bEnd be ltac:(lia) Hbe).
  cbn [bind].
  destruct (blit_split dst dBeg ltac:(lia)) as [Hdst Hpre].
  set (pre := take (Z.to_nat dBeg) dst) in *. set (rest := drop (Z.to_nat dBeg) dst) in *.
  assert (Hrest : length rest = (length dst - Z.to_nat dBeg)%nat)
    by (unfold rest; apply length_drop).
  assert (Hfin : forall out tail,
    Z.of_nat (length out + length tail) = (aEnd - aBeg + 1) + (bEnd - bBeg + 1) ->
    (pre ++ out) ++ tail ++ drop (length tail) (drop (length out) rest)
    = blit dst dBeg (out ++ tail)).
  { intros out tail Hlen. unfold blit. fold pre.
    rewrite <- !app_assoc. do 3 f_equal.
    unfold rest. rewrite !drop_drop. f_equal. rewrite length_app. lia. }
  destruct (compFunc ae be) eqn:Ecmp.
  - destruct (mergeFF_a_spec src aEnd bEnd ae be Hae Hbe ltac:(lia) ltac:(lia) Ecmp
                (merge_fuel src) pre rest aBeg bBeg)
      as (out & bBeg' & E & Hb' & Hperm & Hsort & Hhead);
      [lia|lia|exact HsA|exact HsB|unfold merge_fuel; lia|lia|].
    rewrite Hpre in E. rewrite <- Hdst in E. rewrite E. cbn [bind].
    assert (Hlen : Z.of_nat (length out) = (aEnd + 1 - aBeg) + (bBeg' - bBeg)).
    { rewrite Hperm, length_app, !slice_length by lia. lia. }
    replace (Z.of_nat (length pre + length out)) with (Z.of_nat (length (pre ++ out)))
      by (rewrite length_app; reflexivity).
    rewrite app_assoc.
    rewrite copy_range_spec; [|lia|lia|rewrite length_drop; lia].
    rewrite Z2Nat.id by lia. replace (bBeg' + (bEnd + 1 - bBeg')) with (bEnd + 1) by lia.
    exists (out ++ slice src bBeg' (bEnd + 1)).
    assert (Hlt : length (slice src bBeg' (bEnd + 1)) = Z.to_nat (bEnd + 1 - bBeg'))
      by (apply slice_length; lia).
    split.
    { f_equal. rewrite <- Hlt. apply Hfin. lia. }
    split; [rewrite length_app; lia|]. split; [exact Hsort|]. split.
    { rewrite Hperm, <- app_assoc, slice_app by lia. reflexivity. }
    intros a b ae' be' Hxa Hxb Hxae Hxbe Hab Hba.
    assert (ae' = ae) by congruence. assert (be' = be) by congruence. subst ae' be'.
    rewrite Ecmp. specialize (Hhead a b ltac:(lia) Hxa Hxb Hba).
    destruct out; [discriminate|]. exact Hhead.
  - destruct (mergeFF_b_spec src aEnd bEnd ae be Hae Hbe ltac:(lia) ltac:(lia) Ecmp
                (merge_fuel src) pre rest aBeg bBeg)
      as (out & aBeg' & E & Ha' & Hperm & Hsort & Hhead);
      [lia|lia|exact HsA|exact HsB|unfold merge_fuel; lia|lia|].
    rewrite Hpre in E. rewrite <- Hdst in E. rewrite E. cbn [bind].
    assert (Hlen : Z.of_nat (length out) = (aBeg' - aBeg) + (bEnd + 1 - bBeg)).
    { rewrite Hperm, length_app, !slice_length by lia. lia. }
    replace (Z.of_nat (length pre + length out)) with (Z.of_nat (length (pre ++ out)))
      by (rewrite length_app; reflexivity).
    rewrite app_assoc.
    rewrite copy_range_spec; [|lia|lia|rewrite length_drop; lia].
    rewrite Z2Nat.id by lia. replace (aBeg' + (aEnd + 1 - aBeg')) with (aEnd + 1) by lia.
    exists (out ++ slice src aBeg' (aEnd + 1)).
    assert (Hlt : length (slice src aBeg' (aEnd + 1)) = Z.to_nat (aEnd + 1 - aBeg'))
      by (apply slice_length; lia).
    split.
    { f_equal. rewrite <- Hlt. apply Hfin. lia. }
    split; [rewrite length_app; lia|]. split; [exact Hsort|]. split.
    { rewrite Hperm, <- app_assoc.
      rewrite (Permutation_app_comm (slice src bBeg (bEnd + 1))), app_assoc.
      rewrite slice_app by lia. reflexivity. }
    intros a b ae' be' Hxa Hxb Hxae Hxbe Hab Hba.
    assert (ae' = ae) by congruence. assert (be' = be) by congruence. subst ae' be'.
    rewrite Ecmp. specialize (Hhead a b ltac:(lia) Hxa Hxb Hab).
    destruct out; [discriminate|]. exact Hhead.
Qed.

End MergeFF.

(** ** The fork-join scheduler *)

Section ParallelForFacts.

Lemma spawn_segments_spec sigma k : forall j,
  (forall i, (j <= i < j + k)%nat -> exists v, llround (acc_sum sigma i) = Ok v) ->
  spawn_segments k sigma (seg_bound sigma j) (acc_sum sigma j)
  = Ok (map (fun i => (seg_bound sigma i, seg_bound sigma (Datatypes.S i))) (seq j k),
        seg_bound sigma (j + k), acc_sum sigma (j + k)%nat).
Proof.
  induction k as [|k IH]; intros j H.
  - simpl. rewrite Nat.add_0_r. reflexivity.
  - cbn [spawn_segments].
    destruct (H j ltac:(lia)) as [v Hv]. rewrite Hv. cbn [bind].
    assert (Ev : v = seg_bound sigma (Datatypes.S j)) by (simpl; rewrite Hv; reflexivity).
    rewrite Ev. change (d_add (acc_sum sigma j) sigma) with (acc_sum sigma (Datatypes.S j)).
    rewrite IH by (intros i Hi; apply H; lia). cbn [bind].
    replace (Datatypes.S j + k)%nat with (j + Datatypes.S k)%nat by lia. reflexivity.
Qed.

Lemma for_loop_log c : forall i (log : list Z),
  for_loop c (fun i log => Ok (log ++ [i])) i log = Ok (log ++ seqZ i (Z.of_nat c)).
Proof.
  induction c as [|c IH]; intros i log.
  - simpl. rewrite app_nil_r. reflexivity.
  - cbn [for_loop bind]. rewrite IH.
    rewrite Nat2Z.inj_succ, (seqZ_cons i) by lia. rewrite <- app_assoc. simpl.
    replace (Z.pred (Z.succ (Z.of_nat c))) with (Z.of_nat c) by lia.
    replace (Z.succ i) with (i + 1) by lia. reflexivity.
Qed.

Lemma run_segments_log (B : nat -> Z) begin k : forall j (log : list Z),
  (forall i, (j <= i < j + k)%nat -> B i <= B (Datatypes.S i)) ->
  run_segments (fun i log => Ok (log ++ [i])) begin
    (map (fun i => (B i, B (Datatypes.S i))) (seq j k)) log
  = Ok (log ++ seqZ (begin + B j) (B (j + k)%nat - B j)).
Proof.
  induction k as [|k IH]; intros j log H.
  - simpl. rewrite Nat.add_0_r, Z.sub_diag. simpl. rewrite app_nil_r. reflexivity.
  - cbn [seq map run_segments]. unfold run_segment. cbn [fst snd].
    rewrite for_loop_log. cbn [bind].
    rewrite IH by (intros i Hi; apply H; lia).
    pose proof (H j ltac:(lia)) as H1.
    assert (Hm : B (Datatypes.S j) <= B (Datatypes.S j + k)%nat).
    { clear IH. induction k as [|k IHk]; [rewrite Nat.add_0_r; lia|].
      etransitivity; [apply IHk; intros i Hi; apply H; lia|].
      replace (Datatypes.S j + Datatypes.S k)%nat with (Datatypes.S (Datatypes.S j + k)) by lia.
      apply H. lia. }
    rewrite <- app_assoc. f_equal. f_equal.
    rewrite Z2Nat.id by lia.
    replace (j + Datatypes.S k)%nat with (Datatypes.S j + k)%nat by lia.
    replace (B (Datatypes.S j + k)%nat - B j)
      with ((B (Datatypes.S j) - B j) + (B (Datatypes.S j + k)%nat - B (Datatypes.S j))) by lia.
    rewrite seqZ_app by lia. f_equal. f_equal. lia.
Qed.


Lemma nearest_zero n s I : 0 < s -> nearest n s 0 I -> I = 0.
Proof. unfold nearest. intros Hs H. nia. Qed.

Lemma nearest_full n s I : 0 < s -> nearest n s s I -> I = n.
Proof. unfold nearest. intros Hs H. nia. Qed.

Lemma nearest_mono n s j j' I I' :
  0 < s -> 0 < n -> j < j' -> nearest n s j I -> nearest n s j' I' -> I <= I'.
Proof. unfold nearest. intros Hs Hn Hj H H'. nia. Qed.

Lemma nearest_step n s j I I' :
  0 < s -> s <= n -> nearest n s j I -> nearest n s (j + 1) I' ->
  n / s <= I' - I <= n / s + 1 /\ (n mod s = 0 -> I' - I = n / s).
Proof.
  unfold nearest. intros Hs Hn H H'.
  pose proof (Z.div_mod n s ltac:(lia)) as Hdm.
  pose proof (Z.mod_pos_bound n s Hs) as Hm.
  set (q := n / s) in *. set (m := n mod s) in *.
  split; [|intros Hm0].
  - destruct (Z.eq_dec m 0) as [Hz|Hnz].
    + assert (I = j * q) by nia. assert (I' = (j + 1) * q) by nia. nia.
    + split; nia.
  - assert (I = j * q) by nia. assert (I' = (j + 1) * q) by nia. nia.
Qed.

Lemma seg_bound_nearest n s (j : nat) :
  0 < n -> 0 < s -> Z.of_nat j <= s -> 4 * s * s * n < 2 ^ 53 ->
  let sigma := d_div (d_of_Z n) (d_of_Z s) in
  nearest n s (Z.of_nat j) (seg_bound sigma j) /\
  (forall j', j = Datatypes.S j' -> llround (acc_sum sigma j') = Ok (seg_bound sigma j)).
Proof.
  intros Hn Hs Hj Hb sigma. destruct j as [|j'].
  - split; [|discriminate]. unfold nearest. simpl. lia.
  - destruct (acc_sum_nearest n s j' Hn Hs ltac:(lia) Hb) as (I & HI & Hnear).
    fold sigma in HI. cbn [seg_bound]. rewrite HI. split.
    + unfold nearest. replace (Z.of_nat (Datatypes.S j')) with (Z.of_nat j' + 1) by lia. exact Hnear.
    + intros j'' [= <-]. exact HI.
Qed.

(** The segments of a range of [n > 0] indices cut in [s <= n] parts. *)
Lemma segments_spec n segs :
  0 < n -> 1 <= segs ->
  let s := Z.min segs n in
  4 * s * s * n < 2 ^ 53 ->
  let sigma := d_div (d_of_Z n) (d_of_Z s) in
  segments n segs
  = Ok (map (fun i => (seg_bound sigma i, seg_bound sigma (Datatypes.S i)))
            (seq 0 (Z.to_nat s))) /\
  seg_bound sigma (Z.to_nat s) = n /\
  (forall i, (i < Z.to_nat s)%nat ->
     seg_bound sigma i <= seg_bound sigma (Datatypes.S i) /\
     n / s <= seg_bound sigma (Datatypes.S i) - seg_bound sigma i <= n / s + 1 /\
     (n mod s = 0 -> seg_bound sigma (Datatypes.S i) - seg_bound sigma i = n / s)).
Proof.
  intros Hn Hsegs s Hb sigma.
  assert (Hs : 1 <= s <= n) by (unfold s; lia).
  assert (Hnear : forall j, (j <= Z.to_nat s)%nat -> nearest n s (Z.of_nat j) (seg_bound sigma j)).
  { intros j Hj. apply seg_bound_nearest; lia. }
  assert (Hll : forall j, (j < Z.to_nat s)%nat ->
                 llround (acc_sum sigma j) = Ok (seg_bound sigma (Datatypes.S j))).
  { intros j Hj. destruct (seg_bound_nearest n s (Datatypes.S j) Hn ltac:(lia) ltac:(lia) Hb) as [_ H].
    apply H. reflexivity. }
  split; [|split].
  - unfold segments.
    destruct (Z.eqb_spec n 0) as [|_]; [lia|].
    destruct (Z.eqb_spec segs 0) as [|_]; [lia|].
    assert (Es : (if n <? segs then n else segs) = s).
    { unfold s. destruct (Z.ltb_spec n segs); lia. }
    rewrite Es. fold sigma.
    pose proof (spawn_segments_spec sigma (Z.to_nat (s - 1)) 0) as Hsp.
    cbn [seg_bound acc_sum] in Hsp. rewrite Hsp.
    2:{ intros i Hi. eexists. apply Hll. lia. }
    cbn [bind]. rewrite Nat.add_0_l.
    rewrite Hll by lia. cbn [bind]. f_equal.
    replace (Z.to_nat s) with (Z.to_nat (s - 1) + 1)%nat by lia.
    rewrite seq_app, map_app. cbn [seq map Nat.add]. reflexivity.
  - pose proof (Hnear (Z.to_nat s) ltac:(lia)) as H. rewrite Z2Nat.id in H by lia.
    apply (nearest_full n s); [lia|exact H].
  - intros i Hi.
    pose proof (Hnear i ltac:(lia)) as H1. pose proof (Hnear (Datatypes.S i) ltac:(lia)) as H2.
    replace (Z.of_nat (Datatypes.S i)) with (Z.of_nat i + 1) in H2 by lia.
    split.
    + apply (nearest_mono n s (Z.of_nat i) (Z.of_nat i + 1)); auto; lia.
    + apply (nearest_step n s (Z.of_nat i)); auto; lia.
Qed.


(** C5, within the range of exact interpolation: for [begin <= end],
    [segmentCount >= 1] and [4 * s * s * n < 2 ^ 53], where [n] is the range
    length and [s] the segment count clamped to [n], [parallelFor] hands out
    [s] segments, calls [fn] exactly once on each index of [begin, end) and
    on no other, and the segment lengths differ by at most one. *)
Theorem parallelFor_partition (begin end_ segs : Z) :
  begin <= end_ -> 1 <= segs ->
  let n := end_ - begin in
  let s := Z.min segs n in
  4 * s * s * n < 2 ^ 53 ->
  exists l,
    segments n segs = Ok l /\
    Z.of_nat (length l) = s /\
    invocation_log begin end_ segs = Ok (seqZ begin n) /\
    (forall s1 s2, s1 ∈ l -> s2 ∈ l -> Z.abs (seg_len s1 - seg_len s2) <= 1).
Proof.
  intros Hbe Hsegs n s Hb.
  destruct (Z.eq_dec n 0) as [Hn0|Hn0].
  - exists []. unfold invocation_log, parallelFor. fold n. rewrite Hn0.
    unfold segments. simpl. unfold s. rewrite Hn0.
    repeat split; try reflexivity; try lia.
    intros s1 s2 H. inversion H.
  - assert (Hn : 0 < n) by (unfold n in *; lia).
    destruct (segments_spec n segs Hn Hsegs Hb) as (Hseg & Hfull & Hstep).
    fold s in Hseg, Hfull, Hstep.
    set (sigma := d_div (d_of_Z n) (d_of_Z s)) in *.
    eexists. split; [exact Hseg|]. split; [|split].
    + rewrite length_map, length_seq. unfold s in *. lia.
    + unfold invocation_log, parallelFor. fold n. rewrite Hseg. cbn [bind].
      rewrite (run_segments_log (seg_bound sigma) begin (Z.to_nat s) 0 []).
      2:{ intros i Hi. apply Hstep. lia. }
      rewrite Nat.add_0_l, Hfull. simpl. rewrite Z.add_0_r, Z.sub_0_r. reflexivity.
    + intros s1 s2 H1 H2.
      apply list_elem_of_fmap in H1. destruct H1 as (i1 & -> & Hi1).
      apply list_elem_of_fmap in H2. destruct H2 as (i2 & -> & Hi2).
      apply elem_of_seq in Hi1. apply elem_of_seq in Hi2.
      destruct (Hstep i1 ltac:(lia)) as (_ & Ha & _).
      destruct (Hstep i2 ltac:(lia)) as (_ & Hc & _).
      unfold seg_len. cbn [fst snd]. lia.
Qed.

(** A range of [2^53 + 1] indices: [double(n)] is [2^53] and the last index
    is not visited. *)
(** C5 fails beyond the range of [double]: with 2^53 + 1 indices and one
    segment the last index, 2^53, is never visited. *)
Lemma parallelFor_large_range :
  invocation_log 0 (2 ^ 53 + 1) 1 = Ok (seqZ 0 (2 ^ 53)) /\
  ~ (2 ^ 53 ∈ seqZ 0 (2 ^ 53)).
Proof.
  split.
  - unfold invocation_log, parallelFor.
    assert (E : segments (2 ^ 53 + 1 - 0) 1 = Ok [(0, 2 ^ 53)]) by (vm_compute; reflexivity).
    rewrite E. cbn [bind run_segments]. unfold run_segment. cbn [fst snd bind].
    rewrite for_loop_log. rewrite Z2Nat.id by lia.
    replace (2 ^ 53 - 0) with (2 ^ 53) by lia.
    rewrite app_nil_l. rewrite Z.add_0_l. reflexivity.
  - rewrite elem_of_seqZ. lia.
Qed.

End ParallelForFacts.

Lemma parallelFor_partition_witness :
  exists l,
    segments (10 - 0) 100 = Ok l /\
    Z.of_nat (length l) = Z.min 100 (10 - 0) /\
    invocation_log 0 10 100 = Ok (seqZ 0 (10 - 0)) /\
    (forall s1 s2, s1 ∈ l -> s2 ∈ l -> Z.abs (seg_len s1 - seg_len s2) <= 1).
Proof.
  apply (parallelFor_partition 0 10 100).
  - lia.
  - lia.
  - vm_compute. reflexivity.
Defined.

Lemma bind_Ok_inv {A B : Type} (r : res A) (k : A -> res B) (b : B) :
  bind r k = Ok b -> exists a, r = Ok a /\ k a = Ok b.
Proof. destruct r; simpl; intros H; try discriminate. eauto. Qed.

(** ** The sort orchestrator with one thread *)

Section OneThread.

Context {T : Type} (compFunc : T -> T -> bool) (std_sort : list T -> list T).

Lemma segments_one : segments (1 - 0) 1 = Ok [(0, 1)].
Proof. vm_compute. reflexivity. Qed.

Lemma parallelSort_one_thread hw (scratch l : list T) threads :
  Z.of_nat (length l) < 2 ^ 53 ->
  effective_threads hw (Z.of_nat (length l)) threads = 1 ->
  parallelSort compFunc std_sort hw scratch l threads = Ok (std_sort l, None).
Proof.
  intros Hlen Heff. unfold parallelSort. rewrite Heff.
  unfold parallelFor. rewrite segments_one. cbn [bind run_segments].
  unfold run_segment. cbn [fst snd]. change (Z.to_nat (1 - 0)) with 1%nat.
  cbn [for_loop bind]. unfold local_sort.
  set (len := Z.of_nat (length l)) in *.
  assert (E0 : llround (d_mul (d_of_Z (0 + 0)) (d_div (d_of_Z len) (d_of_Z 1))) = Ok 0
             /\ llround (d_mul (d_of_Z (0 + 0 + 1)) (d_div (d_of_Z len) (d_of_Z 1))) = Ok len).
  { destruct (Z.eq_dec len 0) as [->|Hne]; [split; reflexivity|].
    rewrite d_div_one by lia.
    destruct (d_of_Z_spec len ltac:(lia)) as [Nn _].
    change (0 + 0) with 0. change (0 + 1) with 1.
    rewrite d_of_Z_zero, (d_mul_zero_l _ _ _ Nn).
    rewrite (d_mul_one_l _ _ _ Nn) by lia.
    split; [reflexivity|]. apply llround_of_Z. lia. }
  destruct E0 as [E0 E1]. rewrite E0, E1. cbn [bind].
  unfold sort_range. fold len.
  destruct (Z.leb_spec 0 0); [|lia]. destruct (Z.leb_spec 0 len); [|lia].
  destruct (Z.leb_spec len len); [|lia]. cbn [andb bind].
  change (Z.to_nat 0) with 0%nat. rewrite take_0, drop_0. 
  rewrite take_ge by (unfold len; lia). rewrite drop_ge by (unfold len; lia).
  rewrite app_nil_l, app_nil_r. reflexivity.
Qed.

(** C3: when the effective thread count is 1, the result of [parallelSort]
    is the result of the sequential sort on the whole input, and no scratch
    buffer is allocated (for a length a [double] holds exactly). *)
Theorem parallelSort_single_thread hw (scratch l : list T) threads :
  Z.of_nat (length l) < 2 ^ 53 ->
  effective_threads hw (Z.of_nat (length l)) threads = 1 ->
  parallelSort compFunc std_sort hw scratch l threads = Ok (std_sort l, None).
Proof. apply parallelSort_one_thread. Qed.

End OneThread.

Lemma parallelSort_single_thread_witness :
  parallelSort Z.ltb (insertion_sort Z.ltb) 16 [] (seqZ 0 130) 8
  = Ok (insertion_sort Z.ltb (seqZ 0 130), None).
Proof.
  apply (parallelSort_single_thread Z.ltb (insertion_sort Z.ltb) 16 [] (seqZ 0 130) 8).
  - vm_compute. reflexivity.
  - vm_compute. reflexivity.
Defined.


(** ** The thread cap *)

(** C7 at length 192 with two requested threads: the cap [(len + 64) / 128]
    lets two threads through, and the local-sort segments [0, 96) and
    [96, 192) hold 96 elements each, fewer than 128. *)
Theorem effective_threads_192 hw :
  let delta := d_div (d_of_Z 192) (d_of_Z 2) in
  effective_threads hw 192 2 = 2 /\
  llround (d_mul (d_of_Z 0) delta) = Ok 0 /\
  llround (d_mul (d_of_Z 1) delta) = Ok 96 /\
  llround (d_mul (d_of_Z 2) delta) = Ok 192.
Proof. repeat split; vm_compute; reflexivity. Qed.

(** ** The partition table *)

Section Table.

Context {T : Type} (compFunc : T -> T -> bool).

Lemma parallelMerge_table_overflow (dst src : list T) aBeg aEnd bBeg bEnd dBeg threads :
  1024 <= threads < 2 ^ 64 ->
  parallelMerge compFunc dst src aBeg aEnd bBeg bEnd dBeg threads = UB.
Proof.
  intros H. unfold parallelMerge, getMergePaths, to_size_t.
  rewrite Z.mod_small by lia.
  unfold mpi_write at 2. unfold mpi_capacity. cbn [Z.leb Z.ltb andb bind Z.compare].
  unfold mpi_write, mpi_capacity.
  destruct (Z.leb_spec 0 threads); [|lia].
  destruct (Z.ltb_spec threads 1024); [lia|]. reflexivity.
Qed.

End Table.

Section TableOverflow.

Context {T : Type} (compFunc : T -> T -> bool) (std_sort : list T -> list T).

(** The last merge round of 131072 elements with 1024 threads: one merge
    task with the whole budget of 1024 workers. *)
Lemma merge_round_1024 (dst src : list T) :
  merge_round compFunc dst src 131072 1024 (d_of_Z 65536) = UB.
Proof.
  unfold merge_round.
  assert (E : plan_round 131072 1024 (d_of_Z 65536)
              = Ok (mk_plan 1 (d_of_Z 131072) 1 1024 0)) by (vm_compute; reflexivity).
  rewrite E. cbn [bind loops pmThreads].
  unfold parallelForNoWait, parallelFor. rewrite segments_one. cbn [bind run_segments].
  unfold run_segment. cbn [fst snd]. change (Z.to_nat (1 - 0)) with 1%nat.
  cbn [for_loop]. unfold full_merge.
  assert (E0 : llround (d_mul (d_of_Z (2 * (0 + 0))) (d_of_Z 65536)) = Ok 0)
    by (vm_compute; reflexivity).
  assert (E1 : llround (d_mul (d_of_Z (2 * (0 + 0) + 1)) (d_of_Z 65536)) = Ok 65536)
    by (vm_compute; reflexivity).
  assert (E2 : llround (d_mul (d_of_Z (2 * (0 + 0) + 2)) (d_of_Z 65536)) = Ok 131072)
    by (vm_compute; reflexivity).
  rewrite E0, E1, E2. cbn [bind].
  rewrite parallelMerge_table_overflow by lia. reflexivity.
Qed.

Lemma merge_rounds_inv k (orig swap : list T) len threads delta r :
  merge_rounds compFunc (Datatypes.S k) orig swap len threads delta = Ok r ->
  exists swap' orig',
    merge_round compFunc swap orig len threads delta = Ok swap' /\
    merge_round compFunc orig swap' len threads (d_mul delta d_two) = Ok orig' /\
    merge_rounds compFunc k orig' swap' len threads (d_mul (d_mul delta d_two) d_two) = Ok r.
Proof.
  cbn [merge_rounds]. intros H.
  apply bind_Ok_inv in H. destruct H as (swap' & H1 & H).
  apply bind_Ok_inv in H. destruct H as (orig' & H2 & H).
  eauto.
Qed.

Lemma parallelSort_inv hw (scratch l : list T) threads r t :
  parallelSort compFunc std_sort hw scratch l threads = Ok r ->
  effective_threads hw (Z.of_nat (length l)) threads = t -> 1 < t ->
  exists sorted rr,
    merge_rounds compFunc (Z.to_nat ((Z.log2_up t + 1) / 2)) sorted scratch
      (Z.of_nat (length l)) t (d_div (d_of_Z (Z.of_nat (length l))) (d_of_Z t)) = Ok rr
    /\ r = (fst rr, Some (snd rr)).
Proof.
  unfold parallelSort. intros H <- Ht.
  apply bind_Ok_inv in H. destruct H as (sorted & _ & H).
  destruct (Z.leb_spec (effective_threads hw (Z.of_nat (length l)) threads) 1); [lia|].
  apply bind_Ok_inv in H. destruct H as (rr & H & E).
  exists sorted, rr. split; [exact H | congruence].
Qed.

Lemma delta_doubling :
  d_div (d_of_Z 131072) (d_of_Z 1024) = d_of_Z 128 /\
  d_mul (d_of_Z 128) d_two = d_of_Z 256 /\
  d_mul (d_of_Z 256) d_two = d_of_Z 512 /\
  d_mul (d_of_Z 512) d_two = d_of_Z 1024 /\
  d_mul (d_of_Z 1024) d_two = d_of_Z 2048 /\
  d_mul (d_of_Z 2048) d_two = d_of_Z 4096 /\
  d_mul (d_of_Z 4096) d_two = d_of_Z 8192 /\
  d_mul (d_of_Z 8192) d_two = d_of_Z 16384 /\
  d_mul (d_of_Z 16384) d_two = d_of_Z 32768 /\
  d_mul (d_of_Z 32768) d_two = d_of_Z 65536.
Proof. vm_compute. repeat split. Qed.

Lemma merge_rounds_1024 (orig swap : list T) r :
  merge_rounds compFunc 5 orig swap 131072 1024 (d_of_Z 128) <> Ok r.
Proof.
  destruct delta_doubling as (_ & E1 & E2 & E3 & E4 & E5 & E6 & E7 & E8 & E9).
  intros H.
  apply merge_rounds_inv in H. destruct H as (? & ? & _ & _ & H). rewrite E1, E2 in H.
  apply merge_rounds_inv in H. destruct H as (? & ? & _ & _ & H). rewrite E3, E4 in H.
  apply merge_rounds_inv in H. destruct H as (? & ? & _ & _ & H). rewrite E5, E6 in H.
  apply merge_rounds_inv in H. destruct H as (? & ? & _ & _ & H). rewrite E7, E8 in H.
  apply merge_rounds_inv in H. destruct H as (swap' & orig' & _ & H & _).
  rewrite E9 in H.
  rewrite merge_round_1024 in H. discriminate.
Qed.

Lemma parallelSort_1024_threads hw (scratch l : list T) r :
  Z.of_nat (length l) = 131072 ->
  parallelSort compFunc std_sort hw scratch l 1024 <> Ok r.
Proof.
  intros Hlen H.
  apply (parallelSort_inv _ _ _ _ _ 1024) in H; [| rewrite Hlen; vm_compute; reflexivity | lia].
  destruct H as (sorted & rr & H & _). rewrite Hlen in H.
  destruct delta_doubling as (E0 & _). rewrite E0 in H.
  replace (Z.to_nat ((Z.log2_up 1024 + 1) / 2)) with 5%nat in H by (vm_compute; reflexivity).
  exact (merge_rounds_1024 _ _ _ H).
Qed.

End TableOverflow.

(** C8 at 131072 elements with 1024 requested threads: nothing caps the
    worker count below the capacity of the table, the last merge round calls
    [parallelMerge] with 1024 workers and the write of [mpi[1024]] is out of
    bounds, so [parallelSort] has no defined result. *)
Theorem parallelSort_table_overflow hw (scratch : list Z) r :
  parallelSort Z.ltb (insertion_sort Z.ltb) hw scratch
    (replicate (Z.to_nat 131072) 0) 1024 <> Ok r.
Proof.
  apply parallelSort_1024_threads.
  rewrite length_replicate. apply Z2Nat.id. lia.
Qed.

Lemma Zltb_swo : strict_weak_order Z.ltb.
Proof.
  split; intros; rewrite ?Z.ltb_lt, ?Z.ltb_ge in *; try split; rewrite ?Z.ltb_ge; lia.
Qed.

Lemma key_lt_swo : strict_weak_order key_lt.
Proof.
  unfold key_lt.
  split; intros; rewrite ?Z.ltb_lt, ?Z.ltb_ge in *; try split; rewrite ?Z.ltb_ge; lia.
Qed.

Section MergeFFClaims.

Context {T : Type} (compFunc : T -> T -> bool).
Hypothesis Hswo : strict_weak_order compFunc.

(** C4: for sorted inclusive sub-ranges [aBeg..aEnd] and [bBeg..bEnd] of the
    source, [mergeFF] returns the destination with a run written from [dBeg]
    on, of exactly [(aEnd - aBeg + 1) + (bEnd - bBeg + 1)] elements, sorted
    under [compFunc], and a permutation of the two sub-ranges together. *)
Theorem mergeFF_sorted_permutation (dst src : list T) aBeg aEnd bBeg bEnd dBeg :
  0 <= aBeg <= aEnd -> aEnd < Z.of_nat (length src) ->
  0 <= bBeg <= bEnd -> bEnd < Z.of_nat (length src) ->
  0 <= dBeg ->
  dBeg + (aEnd - aBeg + 1) + (bEnd - bBeg + 1) <= Z.of_nat (length dst) ->
  sorted compFunc (slice src aBeg (aEnd + 1)) ->
  sorted compFunc (slice src bBeg (bEnd + 1)) ->
  exists run,
    mergeFF compFunc dst src aBeg aEnd bBeg bEnd dBeg = Ok (blit dst dBeg run) /\
    Z.of_nat (length run) = (aEnd - aBeg + 1) + (bEnd - bBeg + 1) /\
    sorted compFunc run /\
    run ≡ₚ slice src aBeg (aEnd + 1) ++ slice src bBeg (bEnd + 1).
Proof.
  intros Ha Ha' Hb Hb' Hd Hd' Sa Sb.
  destruct (mergeFF_spec compFunc Hswo dst src aBeg aEnd bBeg bEnd dBeg
              Ha Ha' Hb Hb' Hd Hd' Sa Sb) as (run & E & L & S & P & _).
  exists run. auto.
Qed.

(** C9: on a tie between the current heads [a] of the A range and [b] of the
    B range, the loop of the branch taken when [compFunc src[aEnd] src[bEnd]]
    holds copies [a] and advances in A, the loop of the other branch copies
    [b] and advances in B; so the first element [mergeFF] writes on a tie of
    the two first elements is the A head in the first branch and the B head
    in the second. *)
Theorem mergeFF_tie_order (dst src : list T) aBeg aEnd bBeg bEnd dBeg (a b : T) fuel :
  0 <= aBeg <= aEnd -> aEnd < Z.of_nat (length src) ->
  0 <= bBeg <= bEnd -> bEnd < Z.of_nat (length src) ->
  0 <= dBeg ->
  dBeg + (aEnd - aBeg + 1) + (bEnd - bBeg + 1) <= Z.of_nat (length dst) ->
  sorted compFunc (slice src aBeg (aEnd + 1)) ->
  sorted compFunc (slice src bBeg (bEnd + 1)) ->
  src !! Z.to_nat aBeg = Some a -> src !! Z.to_nat bBeg = Some b ->
  compFunc a b = false -> compFunc b a = false ->
  mergeFF_a compFunc (Datatypes.S fuel) dst src aBeg aEnd bBeg dBeg
    = mergeFF_a compFunc fuel (<[Z.to_nat dBeg := a]> dst) src (aBeg + 1) aEnd bBeg (dBeg + 1) /\
  mergeFF_b compFunc (Datatypes.S fuel) dst src aBeg bBeg bEnd dBeg
    = mergeFF_b compFunc fuel (<[Z.to_nat dBeg := b]> dst) src aBeg (bBeg + 1) bEnd (dBeg + 1) /\
  exists (ae be : T) run,
    src !! Z.to_nat aEnd = Some ae /\ src !! Z.to_nat bEnd = Some be /\
    mergeFF compFunc dst src aBeg aEnd bBeg bEnd dBeg = Ok (blit dst dBeg run) /\
    head run = Some (if compFunc ae be then a else b).
Proof.
  intros Ha Ha' Hb Hb' Hd Hd' Sa Sb Hxa Hxb Hab Hba.
  assert (Ra : rd src aBeg = Ok a) by (apply rd_lookup; [lia | exact Hxa]).
  assert (Rb : rd src bBeg = Ok b) by (apply rd_lookup; [lia | exact Hxb]).
  assert (W : forall v, wr dst dBeg v = Ok (<[Z.to_nat dBeg := v]> dst)).
  { intros v. unfold wr.
    replace ((0 <=? dBeg) && (dBeg <? Z.of_nat (length dst))) with true; [reflexivity|].
    symmetry. apply andb_true_iff. split; [apply Z.leb_le | apply Z.ltb_lt]; lia. }
  split; [|split].
  - cbn [mergeFF_a]. replace (aBeg <=? aEnd) with true by (symmetry; apply Z.leb_le; lia).
    rewrite Ra, Rb. cbn [bind]. rewrite Hba. cbn [negb]. rewrite W. reflexivity.
  - cbn [mergeFF_b]. replace (bBeg <=? bEnd) with true by (symmetry; apply Z.leb_le; lia).
    rewrite Ra, Rb. cbn [bind]. rewrite Hab. rewrite W. reflexivity.
  - destruct (lookup_Z_is_Some src aEnd) as [ae Hae]; [lia|].
    destruct (lookup_Z_is_Some src bEnd) as [be Hbe]; [lia|].
    destruct (mergeFF_spec compFunc Hswo dst src aBeg aEnd bBeg bEnd dBeg
                Ha Ha' Hb Hb' Hd Hd' Sa Sb) as (run & E & L & S & P & Hh).
    exists ae, be, run. repeat split; auto.
Qed.

End MergeFFClaims.

Lemma mergeFF_sorted_permutation_witness :
  exists run,
    mergeFF Z.ltb [0; 0; 0; 0; 0; 0] [1; 4; 6; 2; 3; 9] 0 2 3 5 0 = Ok (blit [0; 0; 0; 0; 0; 0] 0 run) /\
    Z.of_nat (length run) = (2 - 0 + 1) + (5 - 3 + 1) /\
    sorted Z.ltb run /\
    run ≡ₚ slice [1; 4; 6; 2; 3; 9] 0 (2 + 1) ++ slice [1; 4; 6; 2; 3; 9] 3 (5 + 1).
Proof.
  apply (mergeFF_sorted_permutation Z.ltb Zltb_swo).
  - lia.
  - cbn. lia.
  - lia.
  - cbn. lia.
  - lia.
  - cbn. lia.
  - vm_compute. repeat constructor.
  - vm_compute. repeat constructor.
Defined.

(** Equal keys from the two ranges come out in either order: the A record
    first when the A range ends first, the B record first otherwise. *)
Example mergeFF_tie_a_first :
  mergeFF key_lt [(0, 0); (0, 0); (0, 0)] [(1, 0); (1, 1); (2, 1)] 0 0 1 2 0
  = Ok [(1, 0); (1, 1); (2, 1)].
Proof. vm_compute. reflexivity. Qed.

Example mergeFF_tie_b_first :
  mergeFF key_lt [(0, 0); (0, 0); (0, 0)] [(1, 0); (2, 0); (1, 1)] 0 1 2 2 0
  = Ok [(1, 1); (1, 0); (2, 0)].
Proof. vm_compute. reflexivity. Qed.

Lemma mergeFF_tie_order_witness :
  mergeFF_a key_lt 1 [(0, 0); (0, 0); (0, 0)] [(1, 0); (1, 1); (2, 1)] 0 0 1 0
    = mergeFF_a key_lt 0 (<[Z.to_nat 0 := (1, 0)]> [(0, 0); (0, 0); (0, 0)])
        [(1, 0); (1, 1); (2, 1)] (0 + 1) 0 1 (0 + 1) /\
  mergeFF_b key_lt 1 [(0, 0); (0, 0); (0, 0)] [(1, 0); (1, 1); (2, 1)] 0 1 2 0
    = mergeFF_b key_lt 0 (<[Z.to_nat 0 := (1, 1)]> [(0, 0); (0, 0); (0, 0)])
        [(1, 0); (1, 1); (2, 1)] 0 (1 + 1) 2 (0 + 1) /\
  exists (ae be : Z * Z) run,
    [(1, 0); (1, 1); (2, 1)] !! Z.to_nat 0 = Some ae /\
    [(1, 0); (1, 1); (2, 1)] !! Z.to_nat 2 = Some be /\
    mergeFF key_lt [(0, 0); (0, 0); (0, 0)] [(1, 0); (1, 1); (2, 1)] 0 0 1 2 0
      = Ok (blit [(0, 0); (0, 0); (0, 0)] 0 run) /\
    head run = Some (if key_lt ae be then (1, 0) else (1, 1)).
Proof.
  apply (mergeFF_tie_order key_lt key_lt_swo).
  - lia.
  - cbn. lia.
  - lia.
  - cbn. lia.
  - lia.
  - cbn. lia.
  - vm_compute. repeat constructor.
  - vm_compute. repeat constructor.
  - reflexivity.
  - reflexivity.
  - reflexivity.
  - reflexivity.
Defined.

Section FailureFacts.

Context {E : Type} (fn : Z -> option E).

(** A segment calls [fn] on consecutive indices and stops at the first
    failure: the calls are an initial part of the segment's indices, only
    the last call can have failed, and without a failure all were made. *)
Lemma call_loop_spec count : forall i,
  exists k : nat,
    (k <= count)%nat /\
    fst (call_loop fn count i) = seqZ i (Z.of_nat k) /\
    (forall j, i <= j < i + Z.of_nat k - 1 -> fn j = None) /\
    match snd (call_loop fn count i) with
    | Some e => (0 < k)%nat /\ fn (i + Z.of_nat k - 1) = Some e
    | None => k = count /\ forall j, i <= j < i + Z.of_nat k -> fn j = None
    end.
Proof.
  induction count as [|c IH]; intros i.
  - exists 0%nat. cbn [call_loop fst snd]. split; [lia|]. split; [reflexivity|].
    split; [intros; exfalso; lia|]. split; [reflexivity | intros; exfalso; lia].
  - cbn [call_loop]. destruct (fn i) as [e|] eqn:Fi.
    + exists 1%nat. cbn [fst snd]. split; [lia|]. split; [reflexivity|].
      split; [intros; exfalso; lia|]. split; [lia|].
      rewrite <- Fi. f_equal. lia.
    + destruct (IH (i + 1)) as (k & Hk & Hc & Hn & Hs).
      destruct (call_loop fn c (i + 1)) as [cs r] eqn:Ec. cbn [fst snd] in *.
      exists (Datatypes.S k). repeat split.
      * lia.
      * rewrite Hc. rewrite (seqZ_cons i) by lia. f_equal. f_equal. lia.
      * intros j Hj. destruct (Z.eq_dec j i) as [->|]; [exact Fi|]. apply Hn. lia.
      * destruct r as [e|].
        -- destruct Hs as [Hk0 He]. split; [lia|]. rewrite <- He. f_equal. lia.
        -- destruct Hs as [-> Hall]. split; [reflexivity|].
           intros j Hj. destruct (Z.eq_dec j i) as [->|]; [exact Fi|]. apply Hall. lia.
Qed.

(** C6, as the code has it: the failure that reaches the caller of
    [parallelFor] is the one of the segment the calling thread runs, and no
    other; the failure of a launched worker stays in its future, which the
    join only waits for; a segment stops at its first failure and calls no
    index a second time. *)
Theorem parallelFor_failure_policy (begin end_ num_segs : Z) (r : join_result) :
  parallelFor_failing fn begin end_ num_segs = Ok r ->
  exists segs,
    segments (end_ - begin) num_segs = Ok segs /\
    raised r = match segs with
               | [] => None
               | _ => snd (call_segment fn begin (List.last segs (0, 0)))
               end /\
    futures r = map (fun seg => snd (call_segment fn begin seg)) (removelast segs) /\
    forall seg, seg ∈ segs ->
      exists k : nat,
        (k <= Z.to_nat (seg_len seg))%nat /\
        fst (call_segment fn begin seg) = seqZ (begin + fst seg) (Z.of_nat k) /\
        (forall j, begin + fst seg <= j < begin + fst seg + Z.of_nat k - 1 -> fn j = None).
Proof.
  unfold parallelFor_failing. intros H.
  apply bind_Ok_inv in H. destruct H as (segs & Hs & H).
  exists segs. split; [exact Hs|].
  injection H as <-.
  split; [|split].
  - unfold join_group. destruct segs; reflexivity.
  - unfold join_group. destruct segs; [reflexivity|].
    cbn [futures]. rewrite map_map. reflexivity.
  - intros seg _. unfold call_segment, seg_len.
    destruct (call_loop_spec (Z.to_nat (snd seg - fst seg)) (begin + fst seg))
      as (k & Hk & Hc & Hn & _).
    exists k. auto.
Qed.

End FailureFacts.

(** A callback that fails on index 0: with two segments the failing call is
    made by the launched worker, the failure stays in its future and the
    caller sees a normal return. *)
Lemma parallelFor_failure_dropped :
  exists r,
    parallelFor_failing (fun i => if i =? 0 then Some tt else None) 0 2 2 = Ok r /\
    futures r = [Some tt] /\ raised r = None.
Proof. eexists. split; [vm_compute; reflexivity|]. split; reflexivity. Qed.

Lemma parallelFor_failure_policy_witness :
  exists segs,
    segments (2 - 0) 2 = Ok segs /\
    raised (mk_join None [Some tt] [0; 1]) =
      match segs with
      | [] => None
      | _ => snd (call_segment (fun i => if i =? 0 then Some tt else None) 0
                    (List.last segs (0, 0)))
      end /\
    futures (mk_join None [Some tt] [0; 1]) =
      map (fun seg => snd (call_segment (fun i => if i =? 0 then Some tt else None) 0 seg))
          (removelast segs) /\
    forall seg, seg ∈ segs ->
      exists k : nat,
        (k <= Z.to_nat (seg_len seg))%nat /\
        fst (call_segment (fun i => if i =? 0 then Some tt else None) 0 seg)
          = seqZ (0 + fst seg) (Z.of_nat k) /\
        (forall j, 0 + fst seg <= j < 0 + fst seg + Z.of_nat k - 1 ->
                   (fun i => if i =? 0 then Some tt else None) j = None).
Proof.
  apply (parallelFor_failure_policy (fun i => if i =? 0 then Some tt else None) 0 2 2).
  vm_compute. reflexivity.
Defined.

Section RoundPlan.

Lemma round_delta_dscale delta lo hi (r : nat) :
  dnormal delta lo hi -> -1074 <= lo -> hi + Z.of_nat r + 2 <= 971 ->
  round_delta delta r = dscale (Z.of_nat r) delta.
Proof.
  intros Hd Hlo. induction r as [|r IH]; intros Hhi.
  - cbn. rewrite dscale_0. reflexivity.
  - cbn [round_delta]. rewrite IH by lia.
    rewrite (d_mul_two_r _ (lo + Z.of_nat r) (hi + Z.of_nat r)).
    + rewrite dscale_dscale. f_equal. lia.
    + apply dscale_dnormal. exact Hd.
    + lia.
    + lia.
Qed.

Lemma four_ulp : (2 * ulp53 + ulp53 + 2 * ulp53 * ulp53 <= 4 * ulp53)%Q.
Proof.
  unfold ulp53. change (1 # 2 ^ 53)%Q with (1 # 9007199254740992)%Q.
  assert (((1 # 9007199254740992) * (1 # 9007199254740992) <= (1 # 2) * (1 # 9007199254740992))%Q).
  { apply Qmult_le_compat_r; [|lra]. unfold Qle. cbn. lia. }
  lra.
Qed.

Lemma plan_loops (len t r : Z) :
  0 < len < 2 ^ 53 -> 0 < t -> 4 * t < 2 ^ 53 -> 0 <= r <= 60 ->
  exists L,
    floor_int64 (d_div (d_of_Z len)
                   (d_mul d_two (dscale r (d_div (d_of_Z len) (d_of_Z t))))) = Ok L /\
    0 <= L /\ L * 2 ^ (r + 1) <= t <= (L + 1) * 2 ^ (r + 1).
Proof.
  intros Hlen Ht Ht8 Hr.
  destruct (delta_spec len t Hlen ltac:(lia)) as [Nd Ad].
  set (delta := d_div (d_of_Z len) (d_of_Z t)) in *.
  pose proof (dscale_dnormal r _ _ _ Nd) as Nr.
  rewrite (d_mul_two _ _ _ Nr) by lia.
  rewrite dscale_dscale.
  pose proof (dscale_dnormal (r + 1) _ _ _ Nd) as ND.
  set (D := dscale (r + 1) delta) in *.
  destruct (d_of_Z_spec len Hlen) as [Nl Vl].
  destruct (d_div_spec _ _ _ _ _ _ Nl ND ltac:(lia) ltac:(lia)) as [Nq Aq].
  set (q := d_div (d_of_Z len) D) in *.
  set (w := 2 ^ (r + 1)).
  assert (Hw : 0 < w) by (apply Z.pow_pos_nonneg; lia).
  assert (HW : (inject_Z w == 2 ^ (r + 1))%Q) by (apply inject_Z_pow2; lia).
  assert (Hwq : (0 < inject_Z w)%Q) by (apply inject_Z_pos; exact Hw).
  assert (Hlq : (0 < inject_Z len)%Q) by (apply inject_Z_pos; lia).
  assert (Htq : (0 < inject_Z t)%Q) by (apply inject_Z_pos; lia).
  assert (VD : (dval D == inject_Z w * dval delta)%Q).
  { unfold D. rewrite dval_dscale, HW. ring. }
  assert (AD : approx (dval D) (inject_Z w * (inject_Z len / inject_Z t)) ulp53).
  { rewrite VD. apply approx_scale; [lra | exact Ad]. }
  assert (Hr0 : (0 < inject_Z w * (inject_Z len / inject_Z t))%Q).
  { apply Qmult_lt_0_compat; [exact Hwq|]. apply Qlt_shift_div_l; lra. }
  pose proof ulp53_range as [U0 U1].
  assert (Uh : (ulp53 <= 1 # 2)%Q).
  { unfold ulp53. unfold Qle. cbn. lia. }
  pose proof (approx_div (inject_Z len) _ _ _ ltac:(lra) Hr0 U0 Uh AD) as A1.
  assert (Etw : (inject_Z len / (inject_Z w * (inject_Z len / inject_Z t))
                 == inject_Z t / inject_Z w)%Q) by (field; lra).
  rewrite Etw in A1. rewrite Vl in Aq.
  assert (Htw : (0 <= inject_Z t / inject_Z w)%Q) by (apply Qle_shift_div_l; lra).
  assert (U2 : (0 <= 2 * ulp53 <= 1)%Q) by lra.
  pose proof (approx_trans _ _ _ _ _ Htw U2 ulp53_range A1 Aq) as A2.
  apply (approx_weaken _ _ _ (4 * ulp53)%Q Htw four_ulp) in A2.
  destruct A2 as [B1 B2].
  (* bounds on v * w *)
  set (v := dval q) in *.
  assert (Etq : (inject_Z t / inject_Z w * inject_Z w == inject_Z t)%Q) by (field; lra).
  assert (S4 : (inject_Z t * (4 * ulp53) < 1)%Q).
  { assert (H53 : (inject_Z (4 * t) < inject_Z (2 ^ 53))%Q) by (rewrite <- Zlt_Qlt; lia).
    rewrite inject_Z_mult in H53. change (inject_Z 4) with 4%Q in H53.
    change (inject_Z (2 ^ 53)) with 9007199254740992%Q in H53.
    unfold ulp53. change (1 # 2 ^ 53)%Q with (1 # 9007199254740992)%Q. lra. }
  assert (M1 : (inject_Z t / inject_Z w * (1 - 4 * ulp53) * inject_Z w <= v * inject_Z w)%Q)
    by (apply Qmult_le_compat_r; lra).
  assert (M2 : (v * inject_Z w <= inject_Z t / inject_Z w * (1 + 4 * ulp53) * inject_Z w)%Q)
    by (apply Qmult_le_compat_r; lra).
  assert (E1 : (inject_Z t / inject_Z w * (1 - 4 * ulp53) * inject_Z w
                == inject_Z t - inject_Z t * (4 * ulp53))%Q) by (field; lra).
  assert (E2 : (inject_Z t / inject_Z w * (1 + 4 * ulp53) * inject_Z w
                == inject_Z t + inject_Z t * (4 * ulp53))%Q) by (field; lra).
  assert (Vlo : (inject_Z t - 1 < v * inject_Z w)%Q) by lra.
  assert (Vhi : (v * inject_Z w < inject_Z t + 1)%Q) by lra.
  assert (Vpos : (0 <= v)%Q).
  { apply Qlt_le_weak. apply (dnormal_pos _ _ _ Nq). }
  assert (Vb : (v < 2 ^ 62)%Q).
  { assert (X : (v * 1 <= v * inject_Z w)%Q).
    { rewrite !(Qmult_comm v). apply Qmult_le_compat_r; [|exact Vpos].
      change 1%Q with (inject_Z 1). rewrite <- Zle_Qle. lia. }
    assert (Y : (inject_Z t + 1 < 2 ^ 62)%Q).
    { change 1%Q with (inject_Z 1). rewrite <- inject_Z_plus.
      change (2 ^ 62)%Q with (inject_Z (2 ^ 62)). rewrite <- Zlt_Qlt. lia. }
    lra. }
  rewrite (floor_int64_spec q _ _ Nq Vb). fold v.
  exists (Qfloor v). split; [reflexivity|].
  pose proof (Qfloor_le v) as F1. pose proof (Qlt_floor v) as F2.
  rewrite inject_Z_plus in F2. change (inject_Z 1) with 1%Q in F2.
  assert (F0 : 0 <= Qfloor v).
  { change 0 with (Qfloor 0). apply Qfloor_resp_le. exact Vpos. }
  split; [exact F0|].
  assert (G1 : (inject_Z (Qfloor v) * inject_Z w <= v * inject_Z w)%Q)
    by (apply Qmult_le_compat_r; lra).
  assert (G2 : (v * inject_Z w < (inject_Z (Qfloor v) + 1) * inject_Z w)%Q)
    by (apply Qmult_lt_compat_r; lra).
  assert (H1 : (inject_Z (Qfloor v * w) < inject_Z (t + 1))%Q).
  { rewrite inject_Z_mult, inject_Z_plus. change (inject_Z 1) with 1%Q. lra. }
  assert (H2 : (inject_Z (t - 1) < inject_Z ((Qfloor v + 1) * w))%Q).
  { rewrite inject_Z_mult, inject_Z_plus. unfold Z.sub. rewrite inject_Z_plus, inject_Z_opp.
    change (inject_Z 1) with 1%Q. lra. }
  rewrite <- Zlt_Qlt in H1, H2. fold w. lia.
Qed.

Lemma loStart_index (len t r L : Z) :
  0 < len < 2 ^ 53 -> 0 < t < 2 ^ 53 -> 0 <= r <= 60 -> 0 <= L ->
  L * 2 ^ (r + 1) < 2 ^ 53 ->
  d_mul (d_mul (d_of_Z L) d_two) (dscale r (d_div (d_of_Z len) (d_of_Z t)))
  = d_mul (d_of_Z (L * 2 ^ (r + 1))) (d_div (d_of_Z len) (d_of_Z t)).
Proof.
  intros Hlen Ht Hr HL Hb.
  destruct (delta_spec len t Hlen Ht) as [Nd _].
  assert (Hp : 0 < 2 ^ r) by (apply Z.pow_pos_nonneg; lia).
  assert (Ep : 2 ^ (r + 1) = 2 * 2 ^ r) by (rewrite Z.pow_add_r by lia; lia).
  destruct (Z.eq_dec L 0) as [->|Hne].
  - rewrite Z.mul_0_l, d_of_Z_zero.
    rewrite (d_mul_zero_l d_two (-52) 0) by (apply (d_of_Z_spec 2); lia).
    rewrite (d_mul_zero_l _ _ _ (dscale_dnormal r _ _ _ Nd)).
    rewrite (d_mul_zero_l _ _ _ Nd). reflexivity.
  - destruct (d_of_Z_spec L ltac:(nia)) as [NL _].
    rewrite (d_mul_two_r _ _ _ NL) by lia.
    rewrite <- d_of_Z_double by nia.
    rewrite (d_mul_index_scale (2 * L) r _ _ _ ltac:(lia) ltac:(lia) ltac:(nia) Nd).
    f_equal. f_equal. rewrite Ep. ring.
Qed.

(** One round's plan: [L] full merges over runs of [2 ^ r] segments each,
    the leftover start [lo], and the thread budgets. *)
Lemma plan_round_spec (len t r : Z) :
  0 < len -> 0 < t -> 6 * len * t < 2 ^ 53 -> 0 <= r <= 60 ->
  let delta := d_div (d_of_Z len) (d_of_Z t) in
  let w := 2 ^ (r + 1) in
  exists L lo pm,
    plan_round len t (dscale r delta)
      = Ok (mk_plan L (d_mul (d_of_Z (L * w)) delta)
              (L + (if lo <? len then 1 else 0)) pm (t - L * pm)) /\
    0 <= L /\ L * w <= t <= (L + 1) * w /\
    llround (d_mul (d_of_Z (L * w)) delta) = Ok lo /\
    nearest len t (L * w) lo /\
    iDivUp t (L + (if lo <? len then 1 else 0)) = Ok pm /\
    floor_int64 (d_div (d_of_Z len) (d_mul d_two (dscale r delta))) = Ok L.
Proof.
  intros Hlen Ht Hb Hr delta w.
  assert (Hl53 : len < 2 ^ 53) by nia.
  assert (Ht53 : 4 * t < 2 ^ 53) by nia.
  destruct (plan_loops len t r (conj Hlen Hl53) Ht Ht53 Hr) as (L & EL & HL0 & HLw).
  fold delta in EL. fold w in HLw.
  assert (Hw : 0 < w) by (apply Z.pow_pos_nonneg; lia).
  assert (Ht' : 0 < t < 2 ^ 53) by lia.
  assert (Hk0 : 0 <= L * w) by nia.
  assert (Hk6 : 6 * (L * w) * len < 2 ^ 53) by nia.
  destruct (index_nearest len t (L * w) Hlen Ht' Hk0 Hk6 Hl53) as (lo & Elo & Hlo).
  fold delta in Elo.
  assert (Hlo0 : L = 0 -> lo = 0).
  { intros ->. rewrite !Z.mul_0_l, Z.sub_0_r in Hlo. nia. }
  set (tasks := L + (if lo <? len then 1 else 0)).
  assert (Htasks : 0 < tasks).
  { unfold tasks. destruct (Z.eq_dec L 0) as [E0|].
    - rewrite (Hlo0 E0), E0. replace (0 <? len) with true by (symmetry; apply Z.ltb_lt; lia). lia.
    - destruct (lo <? len); lia. }
  destruct (iDivUp t tasks) as [pm| |] eqn:Epm;
    try (unfold iDivUp in Epm; replace (tasks =? 0) with false in Epm
           by (symmetry; apply Z.eqb_neq; lia); discriminate).
  exists L, lo, pm. unfold plan_round. rewrite EL. cbn [bind].
  assert (Hk53 : L * 2 ^ (r + 1) < 2 ^ 53) by (fold w; nia).
  pose proof (loStart_index len t r L (conj Hlen Hl53) Ht' Hr HL0 Hk53) as ELS.
  fold delta in ELS. fold w in ELS. rewrite ELS. rewrite Elo. cbn [bind]. fold tasks. rewrite Epm. cbn [bind].
  repeat split; auto; try lia. 
Qed.

Lemma rounds_bound (t : Z) (r : nat) :
  0 < t < 2 ^ 53 -> Z.of_nat r <= Z.log2_up t + 1 -> 0 <= Z.of_nat r <= 60.
Proof.
  intros Ht Hr. assert (Z.log2_up t <= 53) by (apply Z.log2_up_le_pow2; lia). lia.
Qed.

Lemma iDivUp_bound (t L w pm : Z) :
  0 <= L -> 0 < w -> L * w < t -> t <= (L + 1) * w ->
  iDivUp t (L + 1) = Ok pm -> L * pm < t /\ 0 < pm.
Proof.
  intros HL Hw H1 H2. unfold iDivUp.
  replace (L + 1 =? 0) with false by (symmetry; apply Z.eqb_neq; lia).
  intros E. injection E as <-.
  pose proof (Z.div_mod t (L + 1) ltac:(lia)) as Hdm.
  pose proof (Z.mod_pos_bound t (L + 1) ltac:(lia)) as Hm.
  destruct (Z.eqb_spec (t mod (L + 1)) 0) as [E0|E0].
  - assert (t / (L + 1) <= w) by nia. nia.
  - assert (t / (L + 1) < w) by nia. nia.
Qed.

(** C10: in every merge round the plan is computed, and when the round has a
    leftover merge ([llround(loStart) < len]) its thread budget [loThreads]
    is at least 1. *)
Theorem leftover_threads_positive (len t : Z) (r : nat) :
  0 < len -> 0 < t -> 6 * len * t < 2 ^ 53 -> Z.of_nat r <= Z.log2_up t + 1 ->
  exists p lo,
    plan_round len t (round_delta (d_div (d_of_Z len) (d_of_Z t)) r) = Ok p /\
    llround (loStart p) = Ok lo /\
    has_leftover len p = Ok (lo <? len) /\
    (lo < len -> tasks p = loops p + 1 /\ 1 <= loThreads p).
Proof.
  intros Hlen Ht Hb Hr.
  assert (Ht' : 0 < t < 2 ^ 53) by nia.
  assert (Hl' : 0 < len < 2 ^ 53) by nia.
  pose proof (rounds_bound t r Ht' Hr) as Hr'.
  destruct (delta_spec len t Hl' Ht') as [Nd _].
  rewrite (round_delta_dscale _ _ _ r Nd) by lia.
  destruct (plan_round_spec len t (Z.of_nat r) Hlen Ht Hb Hr')
    as (L & lo & pm & Ep & HL0 & HLw & Elo & Hn & Epm & _).
  eexists. exists lo. split; [exact Ep|]. cbn [loStart loThreads tasks loops].
  split; [exact Elo|].
  split; [unfold has_leftover; cbn [loStart]; rewrite Elo; reflexivity|].
  intros Hlt. replace (lo <? len) with true in * by (symmetry; apply Z.ltb_lt; lia).
  split; [reflexivity|].
  assert (Hw : 0 < 2 ^ (Z.of_nat r + 1)) by (apply Z.pow_pos_nonneg; lia).
  assert (Hne : L * 2 ^ (Z.of_nat r + 1) <> t).
  { intros E. rewrite E in Hn. unfold nearest in Hn. nia. }
  destruct (iDivUp_bound t L _ pm HL0 Hw ltac:(lia) ltac:(lia) Epm). lia.
Qed.

End RoundPlan.

Lemma leftover_threads_positive_witness :
  exists p lo,
    plan_round 1000 7 (round_delta (d_div (d_of_Z 1000) (d_of_Z 7)) 0) = Ok p /\
    llround (loStart p) = Ok lo /\
    has_leftover 1000 p = Ok (lo <? 1000) /\
    (lo < 1000 -> tasks p = loops p + 1 /\ 1 <= loThreads p).
Proof.
  apply (leftover_threads_positive 1000 7 0).
  - lia.
  - lia.
  - lia.
  - vm_compute. discriminate.
Defined.

Section MergePath.

Context {T : Type} (compFunc : T -> T -> bool).
Implicit Types (src dst : list T).

Lemma mergePath_loop_spec src aOff aCount bOff bCount diag :
  0 <= aOff -> aOff + aCount <= Z.of_nat (length src) ->
  0 <= bOff -> bOff + bCount <= Z.of_nat (length src) ->
  let lo := Z.max 0 (diag - bCount) in
  let hi := Z.min diag aCount in
  forall fuel begin end_,
    lo <= begin <= end_ -> end_ <= hi ->
    (Z.to_nat (end_ - begin) < fuel)%nat ->
    (begin = lo \/
     forall a b, src !! Z.to_nat (aOff + (begin - 1)) = Some a ->
                 src !! Z.to_nat (bOff + (diag - 1 - (begin - 1))) = Some b ->
                 compFunc a b = true) ->
    (end_ = hi \/
     forall a b, src !! Z.to_nat (aOff + end_) = Some a ->
                 src !! Z.to_nat (bOff + (diag - 1 - end_)) = Some b ->
                 compFunc a b = false) ->
    exists i,
      mergePath_loop compFunc fuel src aOff bOff diag begin end_ = Ok i /\
      lo <= i <= hi /\
      (i = lo \/
       forall a b, src !! Z.to_nat (aOff + (i - 1)) = Some a ->
                   src !! Z.to_nat (bOff + (diag - 1 - (i - 1))) = Some b ->
                   compFunc a b = true) /\
      (i = hi \/
       forall a b, src !! Z.to_nat (aOff + i) = Some a ->
                   src !! Z.to_nat (bOff + (diag - 1 - i)) = Some b ->
                   compFunc a b = false).
Proof.
  intros Ha Ha' Hb Hb' lo hi fuel.
  induction fuel as [|f IH]; intros begin end_ Hbe Heh Hf Hl Hr; [lia|].
  cbn [mergePath_loop]. destruct (Z.ltb_spec begin end_) as [Hlt|Hge].
  - set (mid := begin + Z.shiftr (end_ - begin) 1).
    assert (Hmid : begin <= mid < end_).
    { unfold mid. rewrite Z.shiftr_div_pow2 by lia. change (2 ^ 1) with 2.
      pose proof (Z.div_mod (end_ - begin) 2 ltac:(lia)).
      pose proof (Z.mod_pos_bound (end_ - begin) 2 ltac:(lia)). lia. }
    destruct (lookup_Z_is_Some src (aOff + mid)) as [a Hxa]; [unfold lo, hi in *; lia|].
    destruct (lookup_Z_is_Some src (bOff + (diag - 1 - mid))) as [b Hxb];
      [unfold lo, hi in *; lia|].
    rewrite (rd_lookup src (aOff + mid) a) by (try exact Hxa; lia).
    rewrite (rd_lookup src (bOff + (diag - 1 - mid)) b)
      by (try exact Hxb; unfold lo, hi in *; lia).
    cbn [bind]. destruct (compFunc a b) eqn:Ec.
    + apply IH; try lia; [|exact Hr].
      right. intros a' b' Ha1 Hb1.
      replace (mid + 1 - 1) with mid in Ha1, Hb1 by lia. congruence.
    + apply IH; try lia; [exact Hl|].
      right. intros a' b' Ha1 Hb1. congruence.
  - assert (begin = end_) by lia. subst end_.
    exists begin. split; [reflexivity|]. split; [lia|]. split; assumption.
Qed.

Lemma mergePath_spec src aOff aCount bOff bCount diag :
  0 <= aOff -> 0 <= aCount -> aOff + aCount <= Z.of_nat (length src) ->
  0 <= bOff -> 0 <= bCount -> bOff + bCount <= Z.of_nat (length src) ->
  0 <= diag <= aCount + bCount ->
  exists i, mergePath compFunc src aOff aCount bOff bCount diag = Ok i /\
            split_ok compFunc src aOff aCount bOff bCount diag i.
Proof.
  intros Ha Hac Ha' Hb Hbc Hb' Hd. unfold mergePath.
  destruct (mergePath_loop_spec src aOff aCount bOff bCount diag Ha Ha' Hb Hb'
              (Z.to_nat (Z.min diag aCount - Z.max 0 (diag - bCount)) + 1)
              (Z.max 0 (diag - bCount)) (Z.min diag aCount))
    as (i & Ei & Hi & H1 & H2); try lia; auto.
  exists i. split; [exact Ei|]. unfold split_ok. split; [exact Hi|]. split.
  - intros Hi0 Hlt. destruct H1 as [->|H1]; [lia | exact H1].
  - intros Hi0 Hlt. destruct H2 as [->|H2]; [lia | exact H2].
Qed.

End MergePath.

(** ** Splits of a merge of two sorted ranges *)

Section Splits.

Context {T : Type} (compFunc : T -> T -> bool).
Hypothesis Hswo : strict_weak_order compFunc.
Implicit Types (src dst : list T).

Lemma elem_of_slice src lo hi (x : T) :
  0 <= lo -> x ∈ slice src lo hi ->
  exists p, lo <= p < hi /\ src !! Z.to_nat p = Some x.
Proof.
  intros Hlo Hx. unfold slice in Hx.
  apply elem_of_take in Hx. destruct Hx as (i & Hi & Hlt).
  rewrite lookup_drop in Hi.
  exists (lo + Z.of_nat i). split; [lia|].
  replace (Z.to_nat (lo + Z.of_nat i)) with (Z.to_nat lo + i)%nat by lia. exact Hi.
Qed.

Lemma slice_lookup_elem src lo hi p (x : T) :
  0 <= lo -> lo <= p < hi -> src !! Z.to_nat p = Some x -> x ∈ slice src lo hi.
Proof.
  intros Hlo Hp Hx. unfold slice. apply elem_of_take.
  exists (Z.to_nat (p - lo)). split; [|lia].
  rewrite lookup_drop. replace (Z.to_nat lo + Z.to_nat (p - lo))%nat with (Z.to_nat p) by lia.
  exact Hx.
Qed.

(** In a sorted range a later element is not before an earlier one. *)
Lemma sorted_slice_lookup src lo hi p q (x y : T) :
  sorted compFunc (slice src lo hi) -> 0 <= lo -> lo <= p -> p <= q -> q < hi ->
  src !! Z.to_nat p = Some x -> src !! Z.to_nat q = Some y ->
  compFunc y x = false.
Proof.
  intros Hs Hlo Hp Hpq Hq Hx Hy.
  destruct (Z.eq_dec p q) as [->|Hne].
  - assert (x = y) by congruence. subst y. apply (swo_irrefl _ Hswo).
  - apply (sorted_slice compFunc src lo hi p hi) in Hs; try lia.
    rewrite (slice_cons src p hi x) in Hs by (try exact Hx; lia).
    apply (sorted_cons_inv compFunc) in Hs. destruct Hs as [_ Hall].
    rewrite Forall_forall in Hall. apply Hall.
    apply (slice_lookup_elem src (p + 1) hi q); try lia. exact Hy.
Qed.

Variables (src : list T) (aOff aCount bOff bCount : Z).
Hypothesis Ha : 0 <= aOff.
Hypothesis Hac : 0 <= aCount.
Hypothesis Ha' : aOff + aCount <= Z.of_nat (length src).
Hypothesis Hb : 0 <= bOff.
Hypothesis Hbc : 0 <= bCount.
Hypothesis Hb' : bOff + bCount <= Z.of_nat (length src).
Hypothesis SA : sorted compFunc (slice src aOff (aOff + aCount)).
Hypothesis SB : sorted compFunc (slice src bOff (bOff + bCount)).

(** Everything before a split is not after anything behind it. *)
Lemma split_cross d i (x y : T) :
  split_ok compFunc src aOff aCount bOff bCount d i ->
  x ∈ slice src aOff (aOff + i) ++ slice src bOff (bOff + (d - i)) ->
  y ∈ slice src (aOff + i) (aOff + aCount) ++ slice src (bOff + (d - i)) (bOff + bCount) ->
  compFunc y x = false.
Proof.
  intros (Hr & X1 & X2) Hx Hy.
  apply elem_of_app in Hx. apply elem_of_app in Hy.
  destruct Hx as [Hx|Hx]; apply elem_of_slice in Hx; try lia; destruct Hx as (p & Hp & Hxp);
  destruct Hy as [Hy|Hy]; apply elem_of_slice in Hy; try lia; destruct Hy as (q & Hq & Hyq).
  - apply (sorted_slice_lookup src aOff (aOff + aCount) p q); auto; lia.
  - destruct (lookup_Z_is_Some src (aOff + (i - 1))) as [a1 Ha1]; [lia|].
    destruct (lookup_Z_is_Some src (bOff + (d - 1 - (i - 1)))) as [b1 Hb1]; [lia|].
    pose proof (X1 ltac:(lia) ltac:(lia) a1 b1 Ha1 Hb1) as Hlt.
    assert (L1 : compFunc a1 x = false)
      by (apply (sorted_slice_lookup src aOff (aOff + aCount) p (aOff + (i - 1))); auto; lia).
    assert (L2 : compFunc y b1 = false)
      by (apply (sorted_slice_lookup src bOff (bOff + bCount) (bOff + (d - 1 - (i - 1))) q);
          auto; lia).
    apply (swo_asym compFunc Hswo).
    apply (le_lt_trans compFunc Hswo x a1 y L1).
    apply (lt_le_trans compFunc Hswo a1 b1 y Hlt L2).
  - destruct (lookup_Z_is_Some src (aOff + i)) as [a1 Ha1]; [lia|].
    destruct (lookup_Z_is_Some src (bOff + (d - 1 - i))) as [b1 Hb1]; [lia|].
    pose proof (X2 ltac:(lia) ltac:(lia) a1 b1 Ha1 Hb1) as Hle.
    assert (L1 : compFunc b1 x = false)
      by (apply (sorted_slice_lookup src bOff (bOff + bCount) p (bOff + (d - 1 - i))); auto; lia).
    assert (L2 : compFunc y a1 = false)
      by (apply (sorted_slice_lookup src aOff (aOff + aCount) (aOff + i) q); auto; lia).
    apply (le_trans compFunc Hswo x a1 y); [|exact L2].
    apply (le_trans compFunc Hswo x b1 a1 L1 Hle).
  - apply (sorted_slice_lookup src bOff (bOff + bCount) p q); auto; lia.
Qed.

(** Splits at later output positions take no fewer elements from either
    range. *)
Lemma split_mono d i d' i' :
  split_ok compFunc src aOff aCount bOff bCount d i ->
  split_ok compFunc src aOff aCount bOff bCount d' i' ->
  d <= d' -> i <= i' /\ d - i <= d' - i'.
Proof.
  intros (Hr & X1 & X2) (Hr' & X1' & X2') Hd.
  split.
  - destruct (Z_le_gt_dec i i') as [|Hgt]; [assumption|exfalso].
    destruct (lookup_Z_is_Some src (aOff + (i - 1))) as [a1 Ha1]; [lia|].
    destruct (lookup_Z_is_Some src (bOff + (d - 1 - (i - 1)))) as [b1 Hb1]; [lia|].
    destruct (lookup_Z_is_Some src (aOff + i')) as [a2 Ha2]; [lia|].
    destruct (lookup_Z_is_Some src (bOff + (d' - 1 - i'))) as [b2 Hb2]; [lia|].
    pose proof (X1 ltac:(lia) ltac:(lia) a1 b1 Ha1 Hb1) as Hlt.
    pose proof (X2' ltac:(lia) ltac:(lia) a2 b2 Ha2 Hb2) as Hle.
    assert (L1 : compFunc a1 a2 = false)
      by (apply (sorted_slice_lookup src aOff (aOff + aCount) (aOff + i') (aOff + (i - 1)));
          auto; lia).
    assert (L2 : compFunc b2 b1 = false)
      by (apply (sorted_slice_lookup src bOff (bOff + bCount)
                   (bOff + (d - 1 - (i - 1))) (bOff + (d' - 1 - i'))); auto; lia).
    pose proof (le_lt_trans compFunc Hswo a2 a1 b1 L1 Hlt) as H1.
    pose proof (lt_le_trans compFunc Hswo a2 b1 b2 H1 L2) as H2.
    congruence.
  - destruct (Z_le_gt_dec (d - i) (d' - i')) as [|Hgt]; [assumption|exfalso].
    destruct (lookup_Z_is_Some src (aOff + (i' - 1))) as [a1 Ha1]; [lia|].
    destruct (lookup_Z_is_Some src (bOff + (d' - 1 - (i' - 1)))) as [b1 Hb1]; [lia|].
    destruct (lookup_Z_is_Some src (aOff + i)) as [a2 Ha2]; [lia|].
    destruct (lookup_Z_is_Some src (bOff + (d - 1 - i))) as [b2 Hb2]; [lia|].
    pose proof (X1' ltac:(lia) ltac:(lia) a1 b1 Ha1 Hb1) as Hlt.
    pose proof (X2 ltac:(lia) ltac:(lia) a2 b2 Ha2 Hb2) as Hle.
    assert (L1 : compFunc a1 a2 = false)
      by (apply (sorted_slice_lookup src aOff (aOff + aCount) (aOff + i) (aOff + (i' - 1)));
          auto; lia).
    assert (L2 : compFunc b2 b1 = false)
      by (apply (sorted_slice_lookup src bOff (bOff + bCount)
                   (bOff + (d' - 1 - (i' - 1))) (bOff + (d - 1 - i))); auto; lia).
    pose proof (le_lt_trans compFunc Hswo a2 a1 b1 L1 Hlt) as H1.
    pose proof (lt_le_trans compFunc Hswo a2 b1 b2 H1 L2) as H2.
    congruence.
Qed.

End Splits.

(** ** [parallelFor] as a sequential loop *)

Section SequentialLoop.

Context {S : Type} (fn : Z -> S -> res S).

Lemma for_loop_add (a b : nat) : forall i (s : S),
  for_loop (a + b) fn i s
  = do s' <- for_loop a fn i s; for_loop b fn (i + Z.of_nat a) s'.
Proof.
  induction a as [|a IH]; intros i s.
  - cbn. rewrite Z.add_0_r. reflexivity.
  - cbn [Nat.add for_loop]. destruct (fn i s) as [s1| |]; cbn [bind]; try reflexivity.
    rewrite IH. replace (i + 1 + Z.of_nat a) with (i + Z.of_nat (Datatypes.S a)) by lia.
    reflexivity.
Qed.

Lemma bounds_mono (B : nat -> Z) (j k : nat) :
  (forall i, (j <= i < j + k)%nat -> B i <= B (Datatypes.S i)) -> B j <= B (j + k)%nat.
Proof.
  induction k as [|k IH]; intros H.
  - rewrite Nat.add_0_r. lia.
  - etransitivity; [apply IH; intros i Hi; apply H; lia|].
    replace (j + Datatypes.S k)%nat with (Datatypes.S (j + k)) by lia. apply H. lia.
Qed.

Lemma run_segments_for_loop (B : nat -> Z) begin k : forall j (s : S),
  (forall i, (j <= i < j + k)%nat -> B i <= B (Datatypes.S i)) ->
  run_segments fn begin (map (fun i => (B i, B (Datatypes.S i))) (seq j k)) s
  = for_loop (Z.to_nat (B (j + k)%nat - B j)) fn (begin + B j) s.
Proof.
  induction k as [|k IH]; intros j s H.
  - cbn. rewrite Nat.add_0_r, Z.sub_diag. reflexivity.
  - cbn [seq map run_segments]. unfold run_segment. cbn [fst snd].
    pose proof (H j ltac:(lia)) as H1.
    pose proof (bounds_mono B (Datatypes.S j) k ltac:(intros i Hi; apply H; lia)) as Hm.
    replace (j + Datatypes.S k)%nat with (Datatypes.S j + k)%nat by lia.
    replace (Z.to_nat (B (Datatypes.S j + k)%nat - B j))
      with (Z.to_nat (B (Datatypes.S j) - B j)
            + Z.to_nat (B (Datatypes.S j + k)%nat - B (Datatypes.S j)))%nat by lia.
    rewrite for_loop_add.
    destruct (for_loop (Z.to_nat (B (Datatypes.S j) - B j)) fn (begin + B j) s) as [s1| |];
      cbn [bind]; try reflexivity.
    rewrite IH by (intros i Hi; apply H; lia).
    f_equal. lia.
Qed.

(** Run in segment order, [parallelFor] is the loop
    [for (i = begin; i < end; i++) fn(i)]. *)
Lemma parallelFor_for_loop (begin end_ segs : Z) (s : S) :
  begin <= end_ -> 1 <= segs ->
  4 * Z.min segs (end_ - begin) * Z.min segs (end_ - begin) * (end_ - begin) < 2 ^ 53 ->
  parallelFor begin end_ fn segs s = for_loop (Z.to_nat (end_ - begin)) fn begin s.
Proof.
  intros Hbe Hsegs Hb. unfold parallelFor.
  destruct (Z.eq_dec (end_ - begin) 0) as [E0|Hne].
  - rewrite E0. reflexivity.
  - destruct (segments_spec (end_ - begin) segs ltac:(lia) Hsegs Hb) as (Hseg & Hfull & Hstep).
    rewrite Hseg. cbn [bind].
    rewrite run_segments_for_loop by (intros i Hi; apply Hstep; lia).
    rewrite Nat.add_0_l, Hfull. cbn [seg_bound]. rewrite Z.sub_0_r, Z.add_0_r. reflexivity.
Qed.

End SequentialLoop.

(** ** Diagonals *)

Lemma grid_nearest (count P k : Z) :
  0 < count -> 0 < P -> 6 * P * count < 2 ^ 53 -> 0 <= k <= P ->
  llround (d_mul (d_of_Z k) (d_div (d_of_Z count) (d_of_Z P)))
    = Ok (grid (d_div (d_of_Z count) (d_of_Z P)) k) /\
  nearest count P k (grid (d_div (d_of_Z count) (d_of_Z P)) k).
Proof.
  intros Hc HP Hb Hk.
  destruct (index_nearest count P k Hc ltac:(nia) ltac:(lia) ltac:(nia) ltac:(nia))
    as (I & E & HI).
  unfold grid. rewrite E. split; [reflexivity | exact HI].
Qed.

Lemma grid_range (count P k : Z) :
  0 < count -> 0 < P -> 6 * P * count < 2 ^ 53 -> 0 <= k <= P ->
  0 <= grid (d_div (d_of_Z count) (d_of_Z P)) k <= count.
Proof.
  intros Hc HP Hb Hk.
  destruct (grid_nearest count P k Hc HP Hb Hk) as [_ Hn].
  unfold nearest in Hn. nia.
Qed.

Lemma grid_mono (count P k k' : Z) :
  0 < count -> 0 < P -> 6 * P * count < 2 ^ 53 -> 0 <= k -> k <= k' -> k' <= P ->
  grid (d_div (d_of_Z count) (d_of_Z P)) k <= grid (d_div (d_of_Z count) (d_of_Z P)) k'.
Proof.
  intros Hc HP Hb Hk Hkk Hk'.
  destruct (Z.eq_dec k k') as [->|Hne]; [lia|].
  destruct (grid_nearest count P k Hc HP Hb ltac:(lia)) as [_ Hn].
  destruct (grid_nearest count P k' Hc HP Hb ltac:(lia)) as [_ Hn'].
  apply (nearest_mono count P k k'); auto; lia.
Qed.

Lemma grid_0 (count P : Z) :
  0 < count -> 0 < P -> 6 * P * count < 2 ^ 53 ->
  grid (d_div (d_of_Z count) (d_of_Z P)) 0 = 0.
Proof.
  intros Hc HP Hb.
  destruct (grid_nearest count P 0 Hc HP Hb ltac:(lia)) as [_ Hn].
  apply (nearest_zero count P); auto.
Qed.

Lemma grid_full (count P : Z) :
  0 < count -> 0 < P -> 6 * P * count < 2 ^ 53 ->
  grid (d_div (d_of_Z count) (d_of_Z P)) P = count.
Proof.
  intros Hc HP Hb.
  destruct (grid_nearest count P P Hc HP Hb ltac:(lia)) as [_ Hn].
  apply (nearest_full count P); auto.
Qed.

(** ** Writing runs into a buffer *)

Section Blit.

Context {T : Type}.
Implicit Types (dst out : list T).

Lemma blit_length dst d out :
  0 <= d -> d + Z.of_nat (length out) <= Z.of_nat (length dst) ->
  length (blit dst d out) = length dst.
Proof.
  intros Hd Hl. unfold blit. rewrite !length_app, length_take, length_drop. lia.
Qed.

Lemma blit_nil dst d : 0 <= d -> blit dst d [] = dst.
Proof.
  intros Hd. unfold blit. cbn [app length]. rewrite Nat.add_0_r. apply take_drop.
Qed.

Lemma blit_blit dst d out1 out2 :
  0 <= d ->
  d + Z.of_nat (length out1) + Z.of_nat (length out2) <= Z.of_nat (length dst) ->
  blit (blit dst d out1) (d + Z.of_nat (length out1)) out2 = blit dst d (out1 ++ out2).
Proof.
  intros Hd Hl. unfold blit at 1 3.
  assert (E : blit dst d out1 = (take (Z.to_nat d) dst ++ out1)
                                  ++ drop (Z.to_nat d + length out1) dst)
    by (unfold blit; rewrite <- app_assoc; reflexivity).
  rewrite E.
  assert (Hlen : length (take (Z.to_nat d) dst ++ out1) = Z.to_nat (d + Z.of_nat (length out1)))
    by (rewrite length_app, length_take; lia).
  rewrite take_app_length' by (symmetry; exact Hlen).
  rewrite drop_app_ge by lia. rewrite Hlen, drop_drop.
  rewrite <- !app_assoc. do 3 f_equal. rewrite length_app. f_equal. lia.
Qed.

Lemma blit_slice dst d out :
  0 <= d -> d + Z.of_nat (length out) <= Z.of_nat (length dst) ->
  slice (blit dst d out) d (d + Z.of_nat (length out)) = out.
Proof.
  intros Hd Hl. unfold slice, blit.
  rewrite drop_app_length' by (rewrite length_take; lia).
  replace (Z.to_nat (d + Z.of_nat (length out) - d)) with (length out) by lia.
  apply take_app_length.
Qed.

Lemma blit_slice_before dst d out lo hi :
  0 <= lo -> lo <= hi -> hi <= d -> d <= Z.of_nat (length dst) ->
  slice (blit dst d out) lo hi = slice dst lo hi.
Proof.
  intros H0 H1 H2 H3. unfold slice, blit.
  rewrite drop_app_le by (rewrite length_take; lia).
  rewrite take_app_le by (rewrite length_drop, length_take; lia).
  rewrite <- (take_drop (Z.to_nat d) dst) at 2.
  rewrite drop_app_le by (rewrite length_take; lia).
  rewrite take_app_le by (rewrite length_drop, length_take; lia).
  reflexivity.
Qed.

Lemma blit_slice_after dst d out lo hi :
  0 <= d -> d + Z.of_nat (length out) <= lo -> lo <= hi ->
  slice (blit dst d out) lo hi = slice dst lo hi.
Proof.
  intros H0 H1 H2. unfold slice, blit.
  destruct (Z_le_gt_dec (Z.of_nat (length dst)) lo) as [Hbig|Hsmall].
  - rewrite !drop_ge; [reflexivity|lia|].
    rewrite !length_app, length_take, length_drop. lia.
  - rewrite app_assoc.
    rewrite drop_app_ge by (rewrite length_app, length_take; lia).
    rewrite length_app, length_take, drop_drop. do 2 f_equal. lia.
Qed.

End Blit.

(** ** The partition table of [getMergePaths] *)

Section MergePaths.

Context {T : Type} (compFunc : T -> T -> bool).
Hypothesis Hswo : strict_weak_order compFunc.

Variables (src : list T) (aOff aCount bOff bCount P : Z).
Hypothesis Ha : 0 <= aOff.
Hypothesis Hac : 0 <= aCount.
Hypothesis Ha' : aOff + aCount <= Z.of_nat (length src).
Hypothesis Hb : 0 <= bOff.
Hypothesis Hbc : 0 <= bCount.
Hypothesis Hb' : bOff + bCount <= Z.of_nat (length src).
Hypothesis Hcount : 0 < aCount + bCount.
Hypothesis HP : 1 <= P <= 1023.
Hypothesis Hsize : 6 * P * (aCount + bCount) < 2 ^ 53.

Local Abbreviation spacing := (d_div (d_of_Z (aCount + bCount)) (d_of_Z P)).

Lemma mpi_write_Ok (mpi : gmap Z Z) i v :
  0 <= i < 1024 -> mpi_write mpi i v = Ok (<[i := v]> mpi).
Proof.
  intros H. unfold mpi_write, mpi_capacity.
  destruct (Z.leb_spec 0 i); [|lia]. destruct (Z.ltb_spec i 1024); [|lia]. reflexivity.
Qed.

Lemma mpi_read_Ok (mpi : gmap Z Z) i v :
  0 <= i < 1024 -> mpi !! i = Some v -> mpi_read mpi i = Ok v.
Proof.
  intros H E. unfold mpi_read, mpi_capacity.
  destruct (Z.leb_spec 0 i); [|lia]. destruct (Z.ltb_spec i 1024); [|lia].
  cbn [andb]. rewrite E. reflexivity.
Qed.

Lemma getMergePaths_loop_spec count : forall (mpi : gmap Z Z) i,
  1 <= i -> i + Z.of_nat count <= P ->
  exists mpi',
    getMergePaths_loop compFunc count mpi src aOff aCount bOff bCount spacing i = Ok mpi' /\
    (forall k, i <= k < i + Z.of_nat count ->
       exists v, mpi' !! k = Some v /\
                 split_ok compFunc src aOff aCount bOff bCount (grid spacing k) v) /\
    (forall k, ~ (i <= k < i + Z.of_nat count) -> mpi' !! k = mpi !! k).
Proof.
  induction count as [|c IH]; intros mpi i Hi Hic.
  - exists mpi. cbn. split; [reflexivity|]. split; [intros; lia | reflexivity].
  - cbn [getMergePaths_loop].
    destruct (grid_nearest (aCount + bCount) P i Hcount ltac:(lia) Hsize ltac:(lia)) as [Eg _].
    pose proof (grid_range (aCount + bCount) P i Hcount ltac:(lia) Hsize ltac:(lia)) as Hg.
    rewrite Eg. cbn [bind].
    destruct (mergePath_spec compFunc src aOff aCount bOff bCount (grid spacing i)
                Ha Hac Ha' Hb Hbc Hb' Hg) as (v & Ev & Hv).
    rewrite Ev. cbn [bind]. rewrite mpi_write_Ok by lia. cbn [bind].
    destruct (IH (<[i := v]> mpi) (i + 1) ltac:(lia) ltac:(lia)) as (mpi' & E & Hin & Hout).
    exists mpi'. split; [exact E|]. split.
    + intros k Hk. destruct (Z.eq_dec k i) as [->|Hne].
      * exists v. rewrite Hout by lia. rewrite lookup_insert_eq. auto.
      * apply Hin. lia.
    + intros k Hk. rewrite Hout by lia. apply lookup_insert_ne. lia.
Qed.

(** The table: entry 0 is 0, entry [P] is [aCount], and entry [k] splits
    the merge at the diagonal [grid spacing k]. *)
Lemma getMergePaths_spec :
  exists mpi,
    getMergePaths compFunc ∅ src aOff aCount bOff bCount spacing P = Ok mpi /\
    mpi !! 0 = Some 0 /\ mpi !! P = Some aCount /\
    (forall k, 0 <= k <= P ->
       exists v, mpi !! k = Some v /\
                 split_ok compFunc src aOff aCount bOff bCount (grid spacing k) v).
Proof.
  unfold getMergePaths. rewrite mpi_write_Ok by lia. cbn [bind].
  rewrite mpi_write_Ok by lia. cbn [bind].
  destruct (getMergePaths_loop_spec (Z.to_nat (P - 1)) (<[P := aCount]> (<[0 := 0]> ∅)) 1
              ltac:(lia) ltac:(lia)) as (mpi & E & Hin & Hout).
  exists mpi. split; [exact E|].
  assert (E0 : mpi !! 0 = Some 0).
  { rewrite Hout by lia. rewrite lookup_insert_ne by lia. apply lookup_insert_eq. }
  assert (EP : mpi !! P = Some aCount).
  { rewrite Hout by lia. apply lookup_insert_eq. }
  split; [exact E0|]. split; [exact EP|].
  intros k Hk.
  destruct (Z.eq_dec k 0) as [->|Hk0]; [|destruct (Z.eq_dec k P) as [->|HkP]].
  - exists 0. split; [exact E0|].
    rewrite grid_0 by (auto; lia). unfold split_ok. repeat split; intros; lia.
  - exists aCount. split; [exact EP|].
    rewrite grid_full by (auto; lia). unfold split_ok. repeat split; intros; lia.
  - apply Hin. lia.
Qed.

Hypothesis SA : sorted compFunc (slice src aOff (aOff + aCount)).
Hypothesis SB : sorted compFunc (slice src bOff (bOff + bCount)).

Lemma copy_range_blit (dst : list T) from n d :
  0 <= from -> 0 <= n -> from + n <= Z.of_nat (length src) ->
  0 <= d -> d + n <= Z.of_nat (length dst) ->
  copy_range (Z.to_nat n) dst src from d = Ok (blit dst d (slice src from (from + n))).
Proof.
  intros Hf Hn Hfn Hd Hdn.
  destruct (blit_split dst d ltac:(lia)) as [Hdst Hpre].
  set (pre := take (Z.to_nat d) dst) in *. set (rest := drop (Z.to_nat d) dst) in *.
  transitivity (copy_range (Z.to_nat n) (pre ++ rest) src from (Z.of_nat (length pre))).
  { rewrite <- Hdst, Hpre. reflexivity. }
  rewrite copy_range_spec. 2: lia. 2: lia. 2: { unfold rest. rewrite length_drop. clear - Hn Hd Hdn. lia. }
  rewrite Z2Nat.id by lia. unfold blit. fold pre. do 2 f_equal.
  unfold rest. rewrite drop_drop. rewrite slice_length by lia. do 2 f_equal. lia.
Qed.

Section Workers.

Variables (mpi : gmap Z Z) (I : Z -> Z) (dBeg : Z).
Hypothesis Htab : forall k, 0 <= k <= P ->
  mpi !! k = Some (I k) /\
  split_ok compFunc src aOff aCount bOff bCount (grid spacing k) (I k).
Hypothesis Hd : 0 <= dBeg.

Local Abbreviation g := (grid spacing).

Lemma table_step k :
  0 <= k < P ->
  0 <= I k /\ I k <= I (k + 1) /\ I (k + 1) <= aCount /\
  0 <= g k - I k /\ g k - I k <= g (k + 1) - I (k + 1) /\
  g (k + 1) - I (k + 1) <= bCount /\ 0 <= g k.
Proof.
  intros Hk.
  destruct (Htab k ltac:(lia)) as [_ S1]. destruct (Htab (k + 1) ltac:(lia)) as [_ S2].
  pose proof (grid_mono (aCount + bCount) P k (k + 1) Hcount ltac:(lia) Hsize
                ltac:(lia) ltac:(lia) ltac:(lia)) as Hm.
  pose proof (grid_range (aCount + bCount) P k Hcount ltac:(lia) Hsize ltac:(lia)) as Hr.
  assert (M : I k <= I (k + 1) /\ g k - I k <= g (k + 1) - I (k + 1))
    by (eapply (split_mono compFunc Hswo src aOff aCount bOff bCount); eauto).
  destruct M as [M1 M2].
  destruct S1 as (R1 & _). destruct S2 as (R2 & _). lia.
Qed.

Lemma merge_worker_spec (dst : list T) k :
  0 <= k < P -> dBeg + (aCount + bCount) <= Z.of_nat (length dst) ->
  exists piece,
    merge_worker compFunc mpi src aOff bOff dBeg spacing k dst
      = Ok (blit dst (dBeg + g k) piece) /\
    Z.of_nat (length piece) = g (k + 1) - g k /\
    sorted compFunc piece /\
    piece ≡ₚ slice src (aOff + I k) (aOff + I (k + 1))
             ++ slice src (bOff + (g k - I k)) (bOff + (g (k + 1) - I (k + 1))).
Proof.
  intros Hk Hroom.
  destruct (table_step k Hk) as (T1 & T2 & T3 & T4 & T5 & T6 & T7).
  destruct (Htab k ltac:(lia)) as [E0 _]. destruct (Htab (k + 1) ltac:(lia)) as [E1 _].
  destruct (grid_nearest (aCount + bCount) P k Hcount ltac:(lia) Hsize ltac:(lia)) as [Eg _].
  destruct (grid_nearest (aCount + bCount) P (k + 1) Hcount ltac:(lia) Hsize ltac:(lia))
    as [Eg1 _].
  pose proof (grid_range (aCount + bCount) P (k + 1) Hcount ltac:(lia) Hsize ltac:(lia)) as Hr1.
  unfold merge_worker. rewrite Eg. cbn [bind].
  rewrite (mpi_read_Ok mpi k (I k)) by (auto; lia).
  rewrite (mpi_read_Ok mpi (k + 1) (I (k + 1))) by (auto; lia). cbn [bind].
  rewrite d_add_one by lia. rewrite Eg1. cbn [bind].
  replace (I k + aOff) with (aOff + I k) by lia.
  replace (I (k + 1) + aOff) with (aOff + I (k + 1)) by lia.
  replace (g k - I k + bOff) with (bOff + (g k - I k)) by lia.
  replace (g (k + 1) - I (k + 1) + bOff) with (bOff + (g (k + 1) - I (k + 1))) by lia.
  set (a0 := aOff + I k). set (a1 := aOff + I (k + 1)).
  set (b0 := bOff + (g k - I k)). set (b1 := bOff + (g (k + 1) - I (k + 1))).
  assert (SA' : sorted compFunc (slice src a0 a1))
    by (apply (sorted_slice compFunc src aOff (aOff + aCount)); auto; unfold a0, a1; lia).
  assert (SB' : sorted compFunc (slice src b0 b1))
    by (apply (sorted_slice compFunc src bOff (bOff + bCount)); auto; unfold b0, b1; lia).
  destruct (Z.eqb_spec a0 a1) as [Ea|Na].
  - exists (slice src b0 b1). split.
    + replace b1 with (b0 + (b1 - b0)) at 2 by lia.
      apply copy_range_blit; unfold a0, a1, b0, b1 in *; lia.
    + split; [rewrite slice_length by (unfold a0, a1, b0, b1 in *; lia);
              unfold a0, a1, b0, b1 in *; lia|].
      split; [exact SB'|]. rewrite (slice_nil src a0 a1) by lia. reflexivity.
  - destruct (Z.eqb_spec b0 b1) as [Eb|Nb].
    + exists (slice src a0 a1). split.
      * replace a1 with (a0 + (a1 - a0)) at 2 by lia.
        apply copy_range_blit; unfold a0, a1, b0, b1 in *; lia.
      * split; [rewrite slice_length by (unfold a0, a1, b0, b1 in *; lia);
                unfold a0, a1, b0, b1 in *; lia|].
        split; [exact SA'|]. rewrite (slice_nil src b0 b1) by lia.
        rewrite app_nil_r. reflexivity.
    + destruct (mergeFF_spec compFunc Hswo dst src a0 (a1 - 1) b0 (b1 - 1) (dBeg + g k))
        as (run & E & L & S & Pm & _);
        try (unfold a0, a1, b0, b1 in *; lia).
      * replace (a1 - 1 + 1) with a1 by lia. exact SA'.
      * replace (b1 - 1 + 1) with b1 by lia. exact SB'.
      * exists run. split; [exact E|].
        split; [unfold a0, a1, b0, b1 in *; lia|]. split; [exact S|].
        replace (a1 - 1 + 1) with a1 in Pm by lia.
        replace (b1 - 1 + 1) with b1 in Pm by lia. exact Pm.
Qed.

Hypothesis HIP : I P = aCount.

Lemma sub_slice_elem lo mid1 mid2 hi (y : T) :
  0 <= lo -> lo <= mid1 -> mid1 <= mid2 -> mid2 <= hi ->
  y ∈ slice src mid1 mid2 -> y ∈ slice src lo hi.
Proof.
  intros H0 H1 H2 H3 Hy.
  rewrite <- (slice_app src lo mid1 hi), <- (slice_app src mid1 mid2 hi) by lia.
  rewrite !elem_of_app. auto.
Qed.

Lemma workers_run (dst : list T) :
  dBeg + (aCount + bCount) <= Z.of_nat (length dst) ->
  forall (n : nat) k (run_k : list T),
    0 <= k -> k + Z.of_nat n = P ->
    Z.of_nat (length run_k) = g k -> sorted compFunc run_k ->
    run_k ≡ₚ slice src aOff (aOff + I k) ++ slice src bOff (bOff + (g k - I k)) ->
    exists run,
      for_loop n (merge_worker compFunc mpi src aOff bOff dBeg spacing) k
        (blit dst dBeg run_k) = Ok (blit dst dBeg run) /\
      Z.of_nat (length run) = aCount + bCount /\
      sorted compFunc run /\
      run ≡ₚ slice src aOff (aOff + aCount) ++ slice src bOff (bOff + bCount).
Proof.
  intros Hroom n. induction n as [|n IH]; intros k run_k Hk Hkn Hlen Hs Hp.
  - assert (k = P) by lia. subst k.
    rewrite grid_full in Hlen, Hp by (auto; lia). rewrite HIP in Hp.
    replace (aCount + bCount - aCount) with bCount in Hp by lia.
    exists run_k. cbn [for_loop]. auto.
  - cbn [for_loop].
    destruct (table_step k ltac:(lia)) as (T1 & T2 & T3 & T4 & T5 & T6 & T7).
    pose proof (grid_range (aCount + bCount) P (k + 1) Hcount ltac:(lia) Hsize ltac:(lia)) as Hr1.
    pose proof (grid_mono (aCount + bCount) P k (k + 1) Hcount ltac:(lia) Hsize
                  ltac:(lia) ltac:(lia) ltac:(lia)) as Hm.
    destruct (merge_worker_spec (blit dst dBeg run_k) k ltac:(lia)) as (piece & E & L & S & Pm).
    { rewrite blit_length by lia. exact Hroom. }
    rewrite E. cbn [bind]. rewrite <- Hlen.
    rewrite blit_blit by lia.
    apply IH.
    + lia.
    + lia.
    + rewrite length_app. lia.
    + apply (sorted_app compFunc); auto.
      intros x y Hx Hy. rewrite Hp in Hx. rewrite Pm in Hy.
      destruct (Htab k ltac:(lia)) as [_ Sk].
      eapply (split_cross compFunc Hswo src aOff aCount bOff bCount); eauto.
      apply elem_of_app in Hy. apply elem_of_app. destruct Hy as [Hy|Hy]; [left|right].
      * apply (sub_slice_elem (aOff + I k) (aOff + I k) (aOff + I (k + 1))); auto; lia.
      * apply (sub_slice_elem (bOff + (g k - I k)) (bOff + (g k - I k))
                 (bOff + (g (k + 1) - I (k + 1)))); auto; lia.
    + rewrite Hp, Pm.
      rewrite <- (slice_app src aOff (aOff + I k) (aOff + I (k + 1))) by lia.
      rewrite <- (slice_app src bOff (bOff + (g k - I k)) (bOff + (g (k + 1) - I (k + 1))))
        by lia.
      rewrite <- !app_assoc. apply Permutation_app_head.
      rewrite !app_assoc. apply Permutation_app_tail. apply Permutation_app_comm.
Qed.

End Workers.

(** [parallelMerge] with [P] workers on two sorted ranges. *)
Lemma parallelMerge_run (dst : list T) dBeg :
  0 <= dBeg -> dBeg + (aCount + bCount) <= Z.of_nat (length dst) ->
  exists run,
    parallelMerge compFunc dst src aOff (aOff + aCount - 1) bOff (bOff + bCount - 1) dBeg P
      = Ok (blit dst dBeg run) /\
    Z.of_nat (length run) = aCount + bCount /\
    sorted compFunc run /\
    run ≡ₚ slice src aOff (aOff + aCount) ++ slice src bOff (bOff + bCount).
Proof.
  intros Hd Hroom. unfold parallelMerge, to_size_t.
  rewrite Z.mod_small by lia.
  replace (aOff + aCount - 1 - aOff + 1) with aCount by lia.
  replace (bOff + bCount - 1 - bOff + 1) with bCount by lia.
  destruct getMergePaths_spec as (mpi & E & E0 & EP & Htab).
  rewrite E. cbn [bind].
  rewrite parallelFor_for_loop by (rewrite ?Z.sub_0_r, ?Z.min_id; nia).
  set (I := fun k => default 0 (mpi !! k)).
  assert (Htab' : forall k, 0 <= k <= P ->
            mpi !! k = Some (I k) /\
            split_ok compFunc src aOff aCount bOff bCount (grid spacing k) (I k)).
  { intros k Hk. destruct (Htab k Hk) as (v & Ev & Sv). unfold I. rewrite Ev. auto. }
  assert (HIP : I P = aCount) by (unfold I; rewrite EP; reflexivity).
  assert (HI0 : I 0 = 0) by (unfold I; rewrite E0; reflexivity).
  rewrite Z.sub_0_r.
  destruct (workers_run mpi I dBeg Htab' Hd HIP dst Hroom (Z.to_nat P) 0 [])
    as (run & Er & Hrun).
  - lia.
  - lia.
  - cbn. rewrite grid_0 by (auto; lia). reflexivity.
  - constructor.
  - rewrite HI0, grid_0 by (auto; lia). rewrite !slice_nil by lia. reflexivity.
  - rewrite (blit_nil dst dBeg Hd) in Er. exists run. auto.
Qed.

End MergePaths.

Section ParallelMergeClaims.

Context {T : Type} (compFunc : T -> T -> bool).
Hypothesis Hswo : strict_weak_order compFunc.

(** Two sorted lists with the same elements are equal when elements that
    are not ordered either way are equal. *)
Lemma sorted_unique (l1 l2 : list T) :
  (forall x y, compFunc x y = false -> compFunc y x = false -> x = y) ->
  sorted compFunc l1 -> sorted compFunc l2 -> l1 ≡ₚ l2 -> l1 = l2.
Proof.
  intros Hanti S1 S2 Hp. unfold sorted in *.
  apply (StronglySorted_unique_strong (fun x y => compFunc y x = false) l1 l2);
    [|assumption..].
  intros x1 x2 _ _ H1 H2. apply Hanti; assumption.
Qed.

(** C2, as the code has it: for sorted ranges A and B and a worker count
    [1 <= P <= 1023] (with [6 * P * (aCount + bCount) < 2 ^ 53]) the table
    of [getMergePaths] has [table[0] = 0], [table[P] = aCount] and is
    non-decreasing, and the workers' outputs, in worker order, form a sorted
    permutation of A and B together; this is the very run the sequential
    [mergeFF] of A and B writes when elements that compare equal are
    equal. *)
Theorem parallelMerge_sorted_permutation (dst src : list T) aBeg aEnd bBeg bEnd dBeg P :
  0 <= aBeg <= aEnd -> aEnd < Z.of_nat (length src) ->
  0 <= bBeg <= bEnd -> bEnd < Z.of_nat (length src) ->
  0 <= dBeg ->
  dBeg + ((aEnd - aBeg + 1) + (bEnd - bBeg + 1)) <= Z.of_nat (length dst) ->
  sorted compFunc (slice src aBeg (aEnd + 1)) ->
  sorted compFunc (slice src bBeg (bEnd + 1)) ->
  1 <= P <= 1023 ->
  6 * P * ((aEnd - aBeg + 1) + (bEnd - bBeg + 1)) < 2 ^ 53 ->
  exists (mpi : gmap Z Z) (run : list T),
    getMergePaths compFunc ∅ src aBeg (aEnd - aBeg + 1) bBeg (bEnd - bBeg + 1)
      (d_div (d_of_Z ((aEnd - aBeg + 1) + (bEnd - bBeg + 1))) (d_of_Z P)) P = Ok mpi /\
    mpi !! 0 = Some 0 /\ mpi !! P = Some (aEnd - aBeg + 1) /\
    (forall k k', 0 <= k -> k <= k' -> k' <= P ->
       exists v v', mpi !! k = Some v /\ mpi !! k' = Some v' /\ v <= v') /\
    parallelMerge compFunc dst src aBeg aEnd bBeg bEnd dBeg P = Ok (blit dst dBeg run) /\
    Z.of_nat (length run) = (aEnd - aBeg + 1) + (bEnd - bBeg + 1) /\
    sorted compFunc run /\
    run ≡ₚ slice src aBeg (aEnd + 1) ++ slice src bBeg (bEnd + 1) /\
    ((forall x y, compFunc x y = false -> compFunc y x = false -> x = y) ->
     mergeFF compFunc dst src aBeg aEnd bBeg bEnd dBeg = Ok (blit dst dBeg run)).
Proof.
  intros Ha Ha' Hb Hb' Hd Hroom SA SB HP Hsize.
  set (aCount := aEnd - aBeg + 1) in *. set (bCount := bEnd - bBeg + 1) in *.
  assert (EA : aEnd + 1 = aBeg + aCount) by (unfold aCount; lia).
  assert (EB : bEnd + 1 = bBeg + bCount) by (unfold bCount; lia).
  rewrite EA in SA |- *. rewrite EB in SB |- *.
  assert (Hac : 0 <= aCount) by (unfold aCount; lia).
  assert (Hbc : 0 <= bCount) by (unfold bCount; lia).
  assert (Hal : aBeg + aCount <= Z.of_nat (length src)) by lia.
  assert (Hbl : bBeg + bCount <= Z.of_nat (length src)) by lia.
  assert (Hcount : 0 < aCount + bCount) by (unfold aCount, bCount; lia).
  destruct (getMergePaths_spec compFunc src aBeg aCount bBeg bCount P
              ltac:(lia) Hac Hal ltac:(lia) Hbc Hbl Hcount HP Hsize)
    as (mpi & E & E0 & EP & Htab).
  destruct (parallelMerge_run compFunc Hswo src aBeg aCount bBeg bCount P
              ltac:(lia) Hac Hal ltac:(lia) Hbc Hbl Hcount HP Hsize SA SB dst dBeg Hd Hroom)
    as (run & Er & Lr & Sr & Pr).
  replace (aBeg + aCount - 1) with aEnd in Er by lia.
  replace (bBeg + bCount - 1) with bEnd in Er by lia.
  exists mpi, run. split; [exact E|]. split; [exact E0|]. split; [exact EP|].
  split.
  { intros k k' Hk Hkk Hk'.
    destruct (Htab k ltac:(lia)) as (v & Ev & Sv).
    destruct (Htab k' ltac:(lia)) as (v' & Ev' & Sv').
    exists v, v'. split; [exact Ev|]. split; [exact Ev'|].
    pose proof (grid_mono (aCount + bCount) P k k' Hcount ltac:(lia) Hsize Hk Hkk Hk') as Hm.
    assert (M : v <= v' /\ grid (d_div (d_of_Z (aCount + bCount)) (d_of_Z P)) k - v
                          <= grid (d_div (d_of_Z (aCount + bCount)) (d_of_Z P)) k' - v').
    { eapply (split_mono compFunc Hswo src aBeg aCount bBeg bCount); eauto; lia. }
    tauto. }
  split; [exact Er|]. split; [exact Lr|]. split; [exact Sr|]. split; [exact Pr|].
  intros Hanti.
  destruct (mergeFF_spec compFunc Hswo dst src aBeg aEnd bBeg bEnd dBeg)
    as (run' & E' & L' & S' & P' & _); try lia.
  { rewrite EA. exact SA. }
  { rewrite EB. exact SB. }
  rewrite E'. do 2 f_equal.
  apply sorted_unique; auto.
  rewrite P', Pr, EA, EB. reflexivity.
Qed.

End ParallelMergeClaims.

(** C2 fails for records that compare equal without being equal: with two
    workers the parallel merge and the sequential merge of the same sorted
    ranges order the records with key 1 differently. *)
Lemma parallelMerge_not_sequential :
  sorted key_lt (slice [(1, 0); (9, 0); (9, 0); (1, 1); (2, 1); (3, 1)] 0 3) /\
  sorted key_lt (slice [(1, 0); (9, 0); (9, 0); (1, 1); (2, 1); (3, 1)] 3 6) /\
  parallelMerge key_lt (replicate 6 (0, 0))
    [(1, 0); (9, 0); (9, 0); (1, 1); (2, 1); (3, 1)] 0 2 3 5 0 2
  = Ok [(1, 0); (1, 1); (2, 1); (3, 1); (9, 0); (9, 0)] /\
  mergeFF key_lt (replicate 6 (0, 0))
    [(1, 0); (9, 0); (9, 0); (1, 1); (2, 1); (3, 1)] 0 2 3 5 0
  = Ok [(1, 1); (1, 0); (2, 1); (3, 1); (9, 0); (9, 0)] /\
  parallelMerge key_lt (replicate 6 (0, 0))
    [(1, 0); (9, 0); (9, 0); (1, 1); (2, 1); (3, 1)] 0 2 3 5 0 2
  <> mergeFF key_lt (replicate 6 (0, 0))
    [(1, 0); (9, 0); (9, 0); (1, 1); (2, 1); (3, 1)] 0 2 3 5 0.
Proof.
  split; [vm_compute; repeat constructor|].
  split; [vm_compute; repeat constructor|].
  split; [vm_compute; reflexivity|].
  split; [vm_compute; reflexivity|].
  vm_compute. discriminate.
Qed.

Lemma parallelMerge_sorted_permutation_witness :
  exists (mpi : gmap Z Z) (run : list Z),
    getMergePaths Z.ltb ∅ [1; 3; 5; 7; 2; 4; 6; 8] 0 (3 - 0 + 1) 4 (7 - 4 + 1)
      (d_div (d_of_Z ((3 - 0 + 1) + (7 - 4 + 1))) (d_of_Z 2)) 2 = Ok mpi /\
    mpi !! 0 = Some 0 /\ mpi !! 2 = Some (3 - 0 + 1) /\
    (forall k k', 0 <= k -> k <= k' -> k' <= 2 ->
       exists v v', mpi !! k = Some v /\ mpi !! k' = Some v' /\ v <= v') /\
    parallelMerge Z.ltb (replicate 8 0) [1; 3; 5; 7; 2; 4; 6; 8] 0 3 4 7 0 2
      = Ok (blit (replicate 8 0) 0 run) /\
    Z.of_nat (length run) = (3 - 0 + 1) + (7 - 4 + 1) /\
    sorted Z.ltb run /\
    run ≡ₚ slice [1; 3; 5; 7; 2; 4; 6; 8] 0 (3 + 1) ++ slice [1; 3; 5; 7; 2; 4; 6; 8] 4 (7 + 1) /\
    ((forall x y, Z.ltb x y = false -> Z.ltb y x = false -> x = y) ->
     mergeFF Z.ltb (replicate 8 0) [1; 3; 5; 7; 2; 4; 6; 8] 0 3 4 7 0
       = Ok (blit (replicate 8 0) 0 run)).
Proof.
  apply (parallelMerge_sorted_permutation Z.ltb Zltb_swo).
  - lia.
  - cbn. lia.
  - lia.
  - cbn. lia.
  - lia.
  - cbn. lia.
  - vm_compute. repeat constructor.
  - vm_compute. repeat constructor.
  - lia.
  - lia.
Defined.

(** ** Runs written one after the other *)

Section Chain.

Context {T : Type} (compFunc : T -> T -> bool).
Implicit Types (pre out src : list T).

Lemma slice_app_l pre out lo hi :
  0 <= lo -> hi <= Z.of_nat (length pre) ->
  slice (pre ++ out) lo hi = slice pre lo hi.
Proof.
  intros H0 H1. unfold slice.
  destruct (Z_le_gt_dec hi lo) as [Hle|Hgt].
  - replace (Z.to_nat (hi - lo)) with 0%nat by lia. reflexivity.
  - rewrite drop_app_le by lia. rewrite take_app_le by (rewrite length_drop; lia).
    reflexivity.
Qed.

Lemma slice_app_r pre out :
  slice (pre ++ out) (Z.of_nat (length pre)) (Z.of_nat (length pre) + Z.of_nat (length out))
  = out.
Proof.
  unfold slice. rewrite drop_app_length' by lia.
  replace (Z.to_nat (Z.of_nat (length pre) + Z.of_nat (length out) - Z.of_nat (length pre)))
    with (length out) by lia.
  apply firstn_all.
Qed.

Lemma slice_all src : slice src 0 (Z.of_nat (length src)) = src.
Proof.
  unfold slice. rewrite Z.sub_0_r, Nat2Z.id. cbn [Z.to_nat drop]. apply firstn_all.
Qed.

Lemma chain_start (B : Z -> Z) src : B 0 = 0 -> chain compFunc B 0 [] src.
Proof.
  intros H0. unfold chain. rewrite H0. split; [reflexivity|].
  split; [rewrite slice_nil by lia; reflexivity|]. intros j Hj. lia.
Qed.

Lemma chain_step (B : Z -> Z) i pre out src :
  0 <= i ->
  (forall j j', 0 <= j -> j <= j' -> j' <= i + 1 -> B j <= B j') -> 0 <= B 0 ->
  chain compFunc B i pre src ->
  sorted compFunc out -> out ≡ₚ slice src (B i) (B (i + 1)) ->
  B (i + 1) <= Z.of_nat (length src) ->
  chain compFunc B (i + 1) (pre ++ out) src.
Proof.
  intros Hi Hmono HB0 (Hl & Hp & Hs) So Po Hlen.
  pose proof (Hmono 0 i ltac:(lia) ltac:(lia) ltac:(lia)) as M0.
  pose proof (Hmono i (i + 1) ltac:(lia) ltac:(lia) ltac:(lia)) as M1.
  assert (Lo : Z.of_nat (length out) = B (i + 1) - B i).
  { rewrite Po, slice_length by lia. lia. }
  split; [rewrite length_app; lia|]. split.
  - rewrite <- (slice_app src 0 (B i) (B (i + 1))) by lia. rewrite Hp, Po. reflexivity.
  - intros j Hj. destruct (Z.eq_dec j i) as [->|Hne].
    + rewrite <- Hl. replace (B (i + 1)) with (Z.of_nat (length pre) + Z.of_nat (length out))
        by lia.
      rewrite slice_app_r. exact So.
    + pose proof (Hmono 0 j ltac:(lia) ltac:(lia) ltac:(lia)).
      pose proof (Hmono (j + 1) i ltac:(lia) ltac:(lia) ltac:(lia)).
      rewrite slice_app_l by lia. apply Hs. lia.
Qed.

End Chain.

(** ** Segment boundaries of the sort *)

Section Boundaries.

Variables (len t : Z).
Hypothesis Hlen : 0 < len.
Hypothesis Ht : 1 <= t.
Hypothesis Htl : t <= len.
Hypothesis Hsize : 6 * len * t < 2 ^ 53.

Local Abbreviation delta := (d_div (d_of_Z len) (d_of_Z t)).
Local Abbreviation G := (grid delta).

Lemma G_llround k : 0 <= k <= t -> llround (d_mul (d_of_Z k) delta) = Ok (G k).
Proof. intros Hk. apply grid_nearest; try lia. Qed.

Lemma G_nearest k : 0 <= k <= t -> nearest len t k (G k).
Proof. intros Hk. apply grid_nearest; try lia. Qed.

Lemma G_0 : G 0 = 0.
Proof. apply grid_0; lia. Qed.

Lemma G_t : G t = len.
Proof. apply grid_full; lia. Qed.

Lemma G_mono k k' : 0 <= k -> k <= k' -> k' <= t -> G k <= G k'.
Proof. intros. apply grid_mono; lia. Qed.

Lemma G_step k : 0 <= k < t -> G k < G (k + 1).
Proof.
  intros Hk.
  pose proof (nearest_step len t k (G k) (G (k + 1)) ltac:(lia) Htl
                (G_nearest k ltac:(lia)) (G_nearest (k + 1) ltac:(lia))) as [H _].
  assert (1 <= len / t) by (apply Z.div_le_lower_bound; lia). lia.
Qed.

Lemma G_strict k k' : 0 <= k -> k < k' -> k' <= t -> G k < G k'.
Proof.
  intros Hk Hkk Hk'.
  pose proof (G_step k ltac:(lia)). pose proof (G_mono (k + 1) k' ltac:(lia) ltac:(lia) Hk').
  lia.
Qed.

Lemma G_range k : 0 <= k <= t -> 0 <= G k <= len.
Proof. intros Hk. apply grid_range; lia. Qed.

Lemma delta_normal : dnormal delta (-105) 1.
Proof. apply delta_spec; nia. Qed.

(** The boundary [llround(k * delta_r)] of round [r] is the boundary
    [k * 2 ^ r] of the local sorts. *)
Lemma G_round (r k : Z) :
  0 <= r -> 0 <= k -> k * 2 ^ r <= t ->
  llround (d_mul (d_of_Z k) (dscale r delta)) = Ok (G (k * 2 ^ r)).
Proof.
  intros Hr Hk Hkt.
  assert (0 < 2 ^ r) by (apply Z.pow_pos_nonneg; lia).
  rewrite (d_mul_index_scale k r delta (-105) 1) by (try apply delta_normal; nia).
  apply G_llround. nia.
Qed.

End Boundaries.

(** ** Phase 1: the local sorts *)

Section LocalSort.

Context {T : Type} (compFunc : T -> T -> bool) (std_sort : list T -> list T).
Hypothesis std_sort_perm : forall l, std_sort l ≡ₚ l.
Hypothesis std_sort_sorted : forall l, sorted compFunc (std_sort l).

Lemma sort_range_blit (b : list T) lb le :
  0 <= lb -> lb <= le -> le <= Z.of_nat (length b) ->
  sort_range std_sort b lb le = Ok (blit b lb (std_sort (slice b lb le))).
Proof.
  intros H0 H1 H2. unfold sort_range.
  destruct (Z.leb_spec 0 lb); [|lia]. destruct (Z.leb_spec lb le); [|lia].
  destruct (Z.leb_spec le (Z.of_nat (length b))); [|lia]. cbn [andb].
  unfold blit, slice. do 4 f_equal.
  rewrite (Permutation_length (std_sort_perm _)), length_take, length_drop. lia.
Qed.

Variables (len t : Z).
Hypothesis Hlen : 0 < len.
Hypothesis Ht : 1 <= t.
Hypothesis Htl : t <= len.
Hypothesis Hsize : 6 * len * t < 2 ^ 53.

Local Abbreviation delta := (d_div (d_of_Z len) (d_of_Z t)).
Local Abbreviation G := (grid delta).

Lemma local_sorts_run (l : list T) :
  Z.of_nat (length l) = len ->
  forall (n : nat) i pre,
    0 <= i -> i + Z.of_nat n = t ->
    chain compFunc G i pre l ->
    exists pre',
      for_loop n (local_sort std_sort delta) i (blit l 0 pre) = Ok (blit l 0 pre') /\
      chain compFunc G t pre' l.
Proof.
  intros Hl n. induction n as [|n IH]; intros i pre Hi Hin Hc.
  - assert (i = t) by lia. subst i. exists pre. split; [reflexivity | exact Hc].
  - cbn [for_loop]. unfold local_sort.
    rewrite (G_llround len t Hlen Ht Hsize i) by lia.
    rewrite (G_llround len t Hlen Ht Hsize (i + 1)) by lia. cbn [bind].
    pose proof (G_range len t Hlen Ht Hsize i ltac:(lia)) as R0.
    pose proof (G_range len t Hlen Ht Hsize (i + 1) ltac:(lia)) as R1.
    pose proof (G_mono len t Hlen Ht Hsize i (i + 1) ltac:(lia) ltac:(lia) ltac:(lia)) as M.
    destruct Hc as (Lp & Pp & Sp).
    assert (Lb : length (blit l 0 pre) = length l) by (apply blit_length; lia).
    rewrite sort_range_blit by lia. cbn [bind].
    rewrite blit_slice_after by lia.
    pose proof (blit_blit l 0 pre (std_sort (slice l (G i) (G (i + 1)))) ltac:(lia)) as E.
    rewrite Z.add_0_l, Lp in E. rewrite E.
    2: { rewrite (Permutation_length (std_sort_perm _)), slice_length by lia. lia. }
    apply IH; try lia.
    apply (chain_step compFunc G i pre (std_sort (slice l (G i) (G (i + 1)))) l); try lia.
    + intros j j' Hj Hjj Hj'. apply (G_mono len t); lia.
    + rewrite (G_0 len t) by lia. lia.
    + split; [exact Lp|]. split; [exact Pp | exact Sp].
    + apply std_sort_sorted.
    + apply std_sort_perm.
Qed.

(** After the local sorts the buffer is a rearrangement of the input made
    of [t] sorted segments. *)
Lemma local_sorts_spec (l : list T) :
  Z.of_nat (length l) = len -> 4 * t * t * t < 2 ^ 53 ->
  exists b,
    parallelFor 0 t (local_sort std_sort delta) t l = Ok b /\
    chain compFunc G t b l.
Proof.
  intros Hl Ht3.
  rewrite parallelFor_for_loop by (rewrite ?Z.sub_0_r, ?Z.min_id; lia).
  rewrite Z.sub_0_r.
  destruct (local_sorts_run l Hl (Z.to_nat t) 0 []) as (pre & E & Hc); try lia.
  { apply chain_start. apply (G_0 len t); lia. }
  rewrite blit_nil in E by lia.
  assert (Lp : Z.of_nat (length pre) = Z.of_nat (length l)).
  { destruct Hc as (Lp & _). rewrite Lp, (G_t len t) by lia. lia. }
  assert (Eb : blit l 0 pre = pre).
  { unfold blit. cbn [Z.to_nat take app]. rewrite drop_ge by lia. apply app_nil_r. }
  rewrite Eb in E. exists pre. auto.
Qed.

End LocalSort.

(** ** The middle of the leftover merge *)

Section LeftoverMid.

Lemma five_ulp : (3 * ulp53 + ulp53 + 3 * ulp53 * ulp53 <= 5 * ulp53)%Q.
Proof. unfold ulp53. unfold Qle. simpl. lia. Qed.

Lemma five_ulp_range : (0 <= 5 * ulp53 /\ 5 * ulp53 <= 1)%Q.
Proof. unfold ulp53. split; unfold Qle; simpl; lia. Qed.

Lemma index_approx (n t k : Z) :
  0 < n < 2 ^ 53 -> 0 < t < 2 ^ 53 -> 0 < k < 2 ^ 53 ->
  dnormal (d_mul (d_of_Z k) (d_div (d_of_Z n) (d_of_Z t))) (-105) 55 /\
  approx (dval (d_mul (d_of_Z k) (d_div (d_of_Z n) (d_of_Z t))))
         (inject_Z (k * n) / inject_Z t) (3 * ulp53)%Q.
Proof.
  intros Hn Ht Hk.
  destruct (delta_spec n t Hn Ht) as [Nd Ad].
  set (delta := d_div (d_of_Z n) (d_of_Z t)) in *.
  destruct (d_of_Z_spec k Hk) as [Nk Vk].
  destruct (d_mul_spec _ _ _ _ _ _ Nk Nd ltac:(lia) ltac:(lia)) as [Np Ap].
  split; [exact Np|].
  assert (Hkq : (0 < inject_Z k)%Q) by (apply inject_Z_pos; lia).
  assert (Hnq : (0 < inject_Z n)%Q) by (apply inject_Z_pos; lia).
  assert (Htq : (0 < inject_Z t)%Q) by (apply inject_Z_pos; lia).
  assert (Hr : (0 <= inject_Z k * (inject_Z n / inject_Z t))%Q).
  { apply Qmult_le_0_compat; [lra|]. apply Qle_shift_div_l; lra. }
  assert (A1 : approx (dval (d_of_Z k) * dval delta)
                 (inject_Z k * (inject_Z n / inject_Z t)) ulp53).
  { rewrite Vk. apply approx_scale; [lra|exact Ad]. }
  pose proof (approx_trans _ _ _ _ _ Hr ulp53_range ulp53_range A1 Ap) as A2.
  apply (approx_weaken _ _ _ (3 * ulp53)%Q Hr three_ulp) in A2.
  eapply approx_eq; [|exact A2]. rewrite inject_Z_mult. field. lra.
Qed.

Variables (len t r L : Z).
Hypothesis Hlen : 0 < len.
Hypothesis Ht : 1 <= t.
Hypothesis Hsize : len * t < 2 ^ 49.
Hypothesis Hr : 0 <= r <= 11.
Hypothesis HL : 0 <= L.
Hypothesis HLw : L * 2 ^ (r + 1) <= t.

Local Abbreviation delta := (d_div (d_of_Z len) (d_of_Z t)).
Local Abbreviation w := (2 ^ (r + 1)).
Local Abbreviation K := (L * 2 ^ (r + 1) + 2 ^ r).
Local Abbreviation mid_sum :=
  (d_add (d_mul (d_of_Z (L * 2 ^ (r + 1))) delta) (dscale r delta)).

Lemma leftover_sum :
  dnormal mid_sum (-105) (57 + r) /\
  approx (dval mid_sum) (inject_Z (K * len) / inject_Z t) (5 * ulp53)%Q.
Proof.
  assert (Hl53 : 0 < len < 2 ^ 53) by nia.
  assert (Ht53 : 0 < t < 2 ^ 53) by nia.
  destruct (delta_spec len t Hl53 Ht53) as [Nd Ad].
  pose proof (dscale_dnormal r _ _ _ Nd) as Nr.
  assert (Hp : 0 < 2 ^ r) by (apply Z.pow_pos_nonneg; lia).
  assert (Hw : 0 < 2 ^ (r + 1)) by (apply Z.pow_pos_nonneg; lia).
  assert (Hlq : (0 < inject_Z len)%Q) by (apply inject_Z_pos; lia).
  assert (Htq : (0 < inject_Z t)%Q) by (apply inject_Z_pos; lia).
  assert (Hpq : (0 < inject_Z (2 ^ r))%Q) by (apply inject_Z_pos; lia).
  assert (Hq0 : (0 <= inject_Z len / inject_Z t)%Q) by (apply Qle_shift_div_l; lra).
  assert (AR : approx (dval (dscale r delta)) (inject_Z (2 ^ r * len) / inject_Z t) ulp53).
  { assert (E : (dval (dscale r delta) == inject_Z (2 ^ r) * dval delta)%Q).
    { rewrite dval_dscale, inject_Z_pow2 by lia. ring. }
    rewrite E. eapply approx_eq; [|apply approx_scale; [|exact Ad]]; [|lra].
    rewrite inject_Z_mult. field. lra. }
  assert (R0 : (0 <= inject_Z (2 ^ r * len) / inject_Z t)%Q).
  { apply Qle_shift_div_l; [lra|]. rewrite Qmult_0_l. apply inject_Z_nonneg. nia. }
  pose proof ulp53_range as [U0 U1].
  destruct (Z.eq_dec L 0) as [->|Hne].
  - rewrite Z.mul_0_l, Z.add_0_l, d_of_Z_zero.
    rewrite (d_mul_zero_l _ _ _ Nd), (d_add_zero_l _ _ _ Nr).
    split; [eapply dnormal_weaken; [exact Nr|lia|lia]|].
    apply (approx_weaken _ _ ulp53 (5 * ulp53)%Q R0); [lra | exact AR].
  - assert (Hk : 0 < L * 2 ^ (r + 1) < 2 ^ 53) by nia.
    destruct (index_approx len t _ Hl53 Ht53 Hk) as [N1 A1].
    destruct (d_add_spec _ _ _ _ _ _ N1 Nr ltac:(lia) ltac:(lia)) as [Ns As].
    split; [eapply dnormal_weaken; [exact Ns|lia|lia]|].
    assert (R1 : (0 <= inject_Z (L * 2 ^ (r + 1) * len) / inject_Z t)%Q).
    { apply Qle_shift_div_l; [lra|]. rewrite Qmult_0_l. apply inject_Z_nonneg. nia. }
    assert (U3 : (ulp53 <= 3 * ulp53)%Q) by lra.
    apply (approx_weaken _ _ _ _ R0 U3) in AR.
    pose proof (approx_add _ _ _ _ _ A1 AR) as A2.
    assert (E : (inject_Z (L * 2 ^ (r + 1) * len) / inject_Z t
                 + inject_Z (2 ^ r * len) / inject_Z t
                 == inject_Z (K * len) / inject_Z t)%Q).
    { rewrite Z.mul_add_distr_r, inject_Z_plus. field. lra. }
    apply (approx_eq _ _ _ _ E) in A2.
    assert (R2 : (0 <= inject_Z (K * len) / inject_Z t)%Q).
    { apply Qle_shift_div_l; [lra|]. rewrite Qmult_0_l. apply inject_Z_nonneg. nia. }
    pose proof (approx_trans _ _ _ _ _ R2 three_ulp_range ulp53_range A2 As) as A3.
    apply (approx_weaken _ _ _ (5 * ulp53)%Q R2 five_ulp) in A3. exact A3.
Qed.

(** When the leftover holds at most one run, the middle is clipped to the
    end of the buffer. *)
Lemma leftover_mid_ge :
  t <= K -> exists m, llround mid_sum = Ok m /\ len <= m.
Proof.
  intros HK. destruct leftover_sum as [Ns [A1 A2]].
  assert (Hp : 0 < 2 ^ r) by (apply Z.pow_pos_nonneg; lia).
  assert (Hp12 : 2 ^ r <= 2 ^ 11) by (apply Z.pow_le_mono_r; lia).
  assert (Hlq : (0 < inject_Z len)%Q) by (apply inject_Z_pos; lia).
  assert (Htq : (0 < inject_Z t)%Q) by (apply inject_Z_pos; lia).
  set (x := (inject_Z (K * len) / inject_Z t)%Q) in *.
  assert (X1 : (inject_Z len <= x)%Q).
  { unfold x. apply Qle_shift_div_l; [exact Htq|].
    rewrite <- inject_Z_mult, <- Zle_Qle. nia. }
  assert (X2 : (x <= inject_Z (len * 2 ^ 12))%Q).
  { unfold x. apply Qle_shift_div_r; [exact Htq|].
    rewrite <- inject_Z_mult, <- Zle_Qle. change (2 ^ 12) with (2 * 2 ^ 11). nia. }
  assert (X3 : (inject_Z (len * 2 ^ 12) < inject_Z (2 ^ 61))%Q).
  { rewrite <- Zlt_Qlt. change (2 ^ 61) with (2 ^ 49 * 2 ^ 12). nia. }
  change (inject_Z (2 ^ 61)) with 2305843009213693952%Q in X3.
  pose proof five_ulp_range as [F0 F1].
  assert (P1 : (0 <= x * (5 * ulp53))%Q) by (apply Qmult_le_0_compat; lra).
  assert (P2 : (x * (5 * ulp53) <= x * 1)%Q)
    by (rewrite !(Qmult_comm x); apply Qmult_le_compat_r; lra).
  assert (Vb : (dval mid_sum < 2 ^ 62)%Q).
  { change (2 ^ 62)%Q with 4611686018427387904%Q. lra. }
  rewrite (llround_spec _ _ _ Ns Vb).
  eexists. split; [reflexivity|].
  assert (S5 : (inject_Z len * (5 * ulp53) <= 1 # 2)%Q).
  { assert (H53 : (inject_Z (10 * len) < inject_Z (2 ^ 53))%Q) by (rewrite <- Zlt_Qlt; nia).
    rewrite inject_Z_mult in H53. change (inject_Z 10) with 10%Q in H53.
    change (inject_Z (2 ^ 53)) with 9007199254740992%Q in H53.
    unfold ulp53. change (1 # 2 ^ 53)%Q with (1 # 9007199254740992)%Q. lra. }
  assert (P3 : (inject_Z len * (1 - 5 * ulp53) <= x * (1 - 5 * ulp53))%Q)
    by (apply Qmult_le_compat_r; lra).
  assert (Fl : Qfloor (inject_Z len) <= Qfloor (dval mid_sum + (1 # 2)))
    by (apply Qfloor_resp_le; lra).
  rewrite Qfloor_Z in Fl. exact Fl.
Qed.

(** Otherwise the middle is an integer nearest to [K * len / t]. *)
Lemma leftover_mid_lt :
  K < t -> exists m, llround mid_sum = Ok m /\ nearest len t K m.
Proof.
  intros HK. destruct leftover_sum as [Ns As].
  assert (Hp : 0 < 2 ^ r) by (apply Z.pow_pos_nonneg; lia).
  pose proof five_ulp_range as [F0 F1].
  eapply (llround_nearest _ _ _ (K * len) t (5 * ulp53)%Q Ns); [lia| | | | |exact As|].
  - nia.
  - assert (K * len < 2 ^ 53) by nia. assert (2 ^ 53 <= t * 2 ^ 60) by lia. lia.
  - exact F0.
  - exact F1.
  - assert (E : (inject_Z (2 * (K * len)) * (5 * ulp53) == inject_Z (10 * (K * len)) * ulp53)%Q).
    { replace (10 * (K * len)) with (5 * (2 * (K * len))) by ring.
      rewrite (inject_Z_mult 5). change (inject_Z 5) with 5%Q. ring. }
    rewrite E. unfold ulp53.
    assert (H53 : (inject_Z (10 * (K * len)) < inject_Z (2 ^ 53))%Q)
      by (rewrite <- Zlt_Qlt; nia).
    change (inject_Z (2 ^ 53)) with 9007199254740992%Q in H53.
    change (1 # 2 ^ 53)%Q with (1 # 9007199254740992)%Q.
    lra.
Qed.

End LeftoverMid.

(** ** Uniqueness of the nearest integer *)

Lemma nearest_unique (n s j I I' : Z) :
  0 < s -> nearest n s j I -> nearest n s j I' ->
  (forall m, 2 * j * n <> s * (2 * m + 1)) -> I = I'.
Proof.
  unfold nearest. intros Hs H1 H2 Hnt.
  destruct (Z.eq_dec I I') as [|Hne]; [assumption|exfalso].
  assert (Hd : I' = I + 1 \/ I = I' + 1) by nia.
  destruct Hd as [-> | ->].
  - apply (Hnt I). nia.
  - apply (Hnt I'). nia.
Qed.

Lemma pow2_divides_odd_multiple (k : nat) : forall a t b : Z,
  2 ^ Z.of_nat k * a = t * (2 * b + 1) -> exists c, t = c * 2 ^ Z.of_nat k.
Proof.
  induction k as [|k IH]; intros a t b H.
  - exists t. cbn. lia.
  - rewrite Nat2Z.inj_succ, Z.pow_succ_r in H |- * by lia.
    assert (Ht : exists t', t = 2 * t').
    { exists (2 ^ Z.of_nat k * a - t * b). lia. }
    destruct Ht as [t' ->].
    destruct (IH a t' b ltac:(nia)) as [c Hc].
    exists c. rewrite Hc. ring.
Qed.

Lemma floor_of_Z (n : Z) : 0 <= n < 2 ^ 53 -> floor_int64 (d_of_Z n) = Ok n.
Proof.
  intros Hn. destruct (Z.eq_dec n 0) as [->|Hne]; [reflexivity|].
  destruct (d_of_Z_spec n ltac:(lia)) as [Nn Vn].
  assert (Vb : (dval (d_of_Z n) < 2 ^ 62)%Q).
  { rewrite Vn. change (2 ^ 62)%Q with (inject_Z (2 ^ 62)). rewrite <- Zlt_Qlt. lia. }
  rewrite (floor_int64_spec _ _ _ Nn Vb). f_equal.
  rewrite (Qfloor_comp _ _ Vn). apply Qfloor_Z.
Qed.

Section NoTie.

Variables (len t r L : Z).
Hypothesis Hlen : 0 < len.
Hypothesis Ht : 1 <= t.
Hypothesis Htl : t <= len.
Hypothesis Hsize : len * t < 2 ^ 49.
Hypothesis Hr : 0 <= r <= 11.
Hypothesis HL : 0 <= L.
Hypothesis HLw : L * 2 ^ (r + 1) < t.
Hypothesis HLw' : t <= (L + 1) * 2 ^ (r + 1).

Local Abbreviation delta := (d_div (d_of_Z len) (d_of_Z t)).
Local Abbreviation K := (L * 2 ^ (r + 1) + 2 ^ r).

(** When [len / t] is a dyadic multiple the quotient of the plan is exact. *)
Lemma exact_quotient (c z : Z) :
  0 < c -> 0 < z -> len = z * c -> t = c * 2 ^ (r + 1) ->
  d_div (d_of_Z len) (d_mul d_two (dscale r delta)) = d_of_Z c.
Proof.
  intros Hc Hz El Et.
  assert (Hw : 0 < 2 ^ (r + 1)) by (apply Z.pow_pos_nonneg; lia).
  assert (Ed : delta = dscale (- (r + 1)) (d_of_Z z)).
  { rewrite El, Et. apply d_div_int_exact; try lia; nia. }
  destruct (delta_spec len t ltac:(nia) ltac:(nia)) as [Nd _].
  rewrite (d_mul_two _ _ _ (dscale_dnormal r _ _ _ Nd)) by lia.
  rewrite dscale_dscale, Ed, dscale_dscale.
  replace (- (r + 1) + (r + 1)) with 0 by lia. rewrite dscale_0.
  replace len with (c * z) by lia.
  replace (d_of_Z z) with (d_of_Z (z * 2 ^ 0)) by (f_equal; lia).
  rewrite d_div_int_exact by (try lia; nia).
  apply dscale_0.
Qed.

Lemma no_tie (m : Z) :
  floor_int64 (d_div (d_of_Z len) (d_mul d_two (dscale r delta))) = Ok L ->
  2 * K * len <> t * (2 * m + 1).
Proof.
  intros Hfl Htie.
  assert (Hp : 0 < 2 ^ r) by (apply Z.pow_pos_nonneg; lia).
  assert (Ew : 2 ^ (r + 1) = 2 * 2 ^ r) by (rewrite Z.pow_add_r by lia; lia).
  destruct (pow2_divides_odd_multiple (Z.to_nat (r + 1)) ((2 * L + 1) * len) t m)
    as [c Hc].
  { rewrite Z2Nat.id by lia. rewrite <- Htie, Ew. ring. }
  rewrite Z2Nat.id in Hc by lia.
  assert (c = L + 1) by nia. subst c.
  assert (E1 : (2 * L + 1) * len = (L + 1) * (2 * m + 1)).
  { assert (2 ^ (r + 1) * ((2 * L + 1) * len) = 2 ^ (r + 1) * ((L + 1) * (2 * m + 1))).
    { rewrite Hc in Htie. rewrite Ew in *. nia. }
    nia. }
  assert (El : len = (2 * len - 2 * m - 1) * (L + 1)) by nia.
  assert (Hz : 0 < 2 * len - 2 * m - 1) by nia.
  rewrite (exact_quotient (L + 1) (2 * len - 2 * m - 1)) in Hfl by (try lia; assumption).
  rewrite floor_of_Z in Hfl by nia.
  injection Hfl. lia.
Qed.

(** With two runs in the leftover, its middle is the boundary between
    them. *)
Lemma leftover_mid_exact :
  floor_int64 (d_div (d_of_Z len) (d_mul d_two (dscale r delta))) = Ok L ->
  K < t ->
  llround (d_add (d_mul (d_of_Z (L * 2 ^ (r + 1))) delta) (dscale r delta))
  = Ok (grid delta K).
Proof.
  intros Hfl HK.
  assert (Hp : 0 < 2 ^ r) by (apply Z.pow_pos_nonneg; lia).
  destruct (leftover_mid_lt len t r L Hlen Ht Hsize Hr HL ltac:(lia) HK) as (mid & Em & Hm).
  rewrite Em. f_equal.
  apply (nearest_unique len t K mid (grid delta K)).
  - lia.
  - exact Hm.
  - apply G_nearest; try lia; nia.
  - intros m. apply no_tie. exact Hfl.
Qed.

End NoTie.

(** ** One merge round *)

Section Round.

Context {T : Type} (compFunc : T -> T -> bool).
Hypothesis Hswo : strict_weak_order compFunc.

Variables (len t : Z).
Hypothesis Hlen : 0 < len.
Hypothesis Ht : 1 <= t <= 1023.
Hypothesis Htl : t <= len.
Hypothesis Hsize : len * t < 2 ^ 49.

Local Abbreviation delta := (d_div (d_of_Z len) (d_of_Z t)).
Local Abbreviation G := (grid delta).

Lemma pow_succ2 r : 0 <= r -> 2 ^ (r + 1) = 2 * 2 ^ r.
Proof. intros Hr. rewrite Z.pow_add_r by lia. lia. Qed.

Lemma Gr r k :
  0 <= r -> 0 <= k -> k * 2 ^ r <= t ->
  llround (d_mul (d_of_Z k) (dscale r delta)) = Ok (G (k * 2 ^ r)).
Proof. intros. apply G_round; lia. Qed.

Lemma Grange k : 0 <= k <= t -> 0 <= G k <= len.
Proof. intros. apply G_range; lia. Qed.

Lemma Gstrict k k' : 0 <= k -> k < k' -> k' <= t -> G k < G k'.
Proof. intros. apply G_strict; lia. Qed.

Lemma Gmono k k' : 0 <= k -> k <= k' -> k' <= t -> G k <= G k'.
Proof. intros. apply G_mono; lia. Qed.

Lemma G0 : G 0 = 0.
Proof. apply G_0; lia. Qed.

Lemma Gt : G t = len.
Proof. apply G_t; lia. Qed.

Lemma full_merge_spec (src dst : list T) r i pm :
  run_inv compFunc len t r src -> 0 <= r <= 11 -> 0 <= i ->
  (i + 1) * 2 ^ (r + 1) <= t -> 1 <= pm <= t ->
  Z.of_nat (length dst) = len ->
  exists run,
    full_merge compFunc src (dscale r delta) pm i dst
      = Ok (blit dst (G (i * 2 ^ (r + 1))) run) /\
    sorted compFunc run /\
    run ≡ₚ slice src (G (i * 2 ^ (r + 1))) (G ((i + 1) * 2 ^ (r + 1))).
Proof.
  intros (Ls & Hruns & _) Hr Hi Hiw Hpm Ld.
  assert (Hp : 0 < 2 ^ r) by (apply Z.pow_pos_nonneg; lia).
  pose proof (pow_succ2 r ltac:(lia)) as Ew.
  unfold full_merge.
  rewrite (Gr r (2 * i)) by (try lia; nia).
  rewrite (Gr r (2 * i + 1)) by (try lia; nia).
  rewrite (Gr r (2 * i + 2)) by (try lia; nia).
  cbn [bind].
  replace (2 * i * 2 ^ r) with (i * 2 ^ (r + 1)) by (rewrite Ew; ring).
  replace ((2 * i + 2) * 2 ^ r) with ((i + 1) * 2 ^ (r + 1)) by (rewrite Ew; ring).
  set (lb := G (i * 2 ^ (r + 1))). set (lm := G ((2 * i + 1) * 2 ^ r)).
  set (le := G ((i + 1) * 2 ^ (r + 1))).
  assert (Hb0 : 0 <= lb) by (apply Grange; nia).
  assert (Hbm : lb < lm).
  { unfold lb, lm. apply Gstrict; nia. }
  assert (Hme : lm < le).
  { unfold le, lm. apply Gstrict; nia. }
  assert (Hel : le <= len) by (apply Grange; nia).
  assert (SA : sorted compFunc (slice src lb (lb + (lm - lb)))).
  { replace (lb + (lm - lb)) with lm by lia.
    pose proof (Hruns (2 * i) ltac:(lia) ltac:(nia)) as S.
    replace (2 * i * 2 ^ r) with (i * 2 ^ (r + 1)) in S by (rewrite Ew; ring). exact S. }
  assert (SB : sorted compFunc (slice src lm (lm + (le - lm)))).
  { replace (lm + (le - lm)) with le by lia.
    pose proof (Hruns (2 * i + 1) ltac:(lia) ltac:(nia)) as S.
    replace ((2 * i + 1 + 1) * 2 ^ r) with ((i + 1) * 2 ^ (r + 1)) in S by (rewrite Ew; ring).
    exact S. }
  destruct (parallelMerge_run compFunc Hswo src lb (lm - lb) lm (le - lm) pm
              ltac:(lia) ltac:(lia) ltac:(lia) ltac:(lia) ltac:(lia) ltac:(lia) ltac:(lia)
              ltac:(lia) ltac:(nia) SA SB dst lb ltac:(lia) ltac:(lia))
    as (run & E & L & S & P).
  replace (lb + (lm - lb) - 1) with (lm - 1) in E by lia.
  replace (lm + (le - lm) - 1) with (le - 1) in E by lia.
  exists run. split; [exact E|]. split; [exact S|].
  rewrite P. replace (lb + (lm - lb)) with lm by lia.
  replace (lm + (le - lm)) with le by lia. rewrite slice_app by lia. reflexivity.
Qed.

Lemma blit_full (dst pre : list T) :
  length pre = length dst -> blit dst 0 pre = pre.
Proof.
  intros H. unfold blit. cbn [Z.to_nat take app]. rewrite drop_ge by lia. apply app_nil_r.
Qed.

(** The run boundaries of the round that merges runs of [2 ^ r] segments. *)
Local Abbreviation Bd r := (fun j => G (Z.min (j * 2 ^ (r + 1)) t)).

Lemma Bd_mono r j j' : 0 <= r -> 0 <= j -> j <= j' -> Bd r j <= Bd r j'.
Proof.
  intros Hr Hj Hjj. assert (0 < 2 ^ (r + 1)) by (apply Z.pow_pos_nonneg; lia).
  apply Gmono; nia.
Qed.

Lemma full_merges_run (src dst : list T) r L pm :
  run_inv compFunc len t r src -> 0 <= r <= 11 -> 0 <= L ->
  L * 2 ^ (r + 1) <= t -> 1 <= pm <= t ->
  Z.of_nat (length dst) = len ->
  forall (n : nat) i pre,
    0 <= i -> i + Z.of_nat n = L ->
    chain compFunc (Bd r) i pre src ->
    exists pre',
      for_loop n (full_merge compFunc src (dscale r delta) pm) i (blit dst 0 pre)
        = Ok (blit dst 0 pre') /\
      chain compFunc (Bd r) L pre' src.
Proof.
  intros Hinv Hr HL HLw Hpm Ld n.
  assert (Hw : 0 < 2 ^ (r + 1)) by (apply Z.pow_pos_nonneg; lia).
  induction n as [|n IH]; intros i pre Hi Hin Hc.
  - assert (i = L) by lia. subst i. exists pre. split; [reflexivity | exact Hc].
  - cbn [for_loop].
    assert (Ei : Z.min (i * 2 ^ (r + 1)) t = i * 2 ^ (r + 1)) by nia.
    assert (Ei1 : Z.min ((i + 1) * 2 ^ (r + 1)) t = (i + 1) * 2 ^ (r + 1)) by nia.
    assert (Ls : Z.of_nat (length src) = len) by (destruct Hinv; assumption).
    pose proof (Grange (i * 2 ^ (r + 1)) ltac:(nia)) as R0.
    pose proof (Grange ((i + 1) * 2 ^ (r + 1)) ltac:(nia)) as R1.
    pose proof (Gmono (i * 2 ^ (r + 1)) ((i + 1) * 2 ^ (r + 1)) ltac:(nia) ltac:(nia)
                  ltac:(nia)) as M.
    destruct Hc as (Lp & Pp & Sp). cbv beta in Lp. rewrite Ei in Lp.
    destruct (full_merge_spec src (blit dst 0 pre) r i pm Hinv Hr Hi ltac:(nia) Hpm)
      as (run & E & S & P).
    { rewrite blit_length by lia. exact Ld. }
    rewrite E. cbn [bind].
    assert (Lr : Z.of_nat (length run)
                 = G ((i + 1) * 2 ^ (r + 1)) - G (i * 2 ^ (r + 1))).
    { rewrite P, slice_length by lia. lia. }
    pose proof (blit_blit dst 0 pre run ltac:(lia) ltac:(lia)) as Eb.
    rewrite Z.add_0_l, Lp in Eb. rewrite Eb.
    apply IH; try lia.
    apply (chain_step compFunc (Bd r) i pre run src); try lia.
    + intros j j' Hj Hjj _. apply Bd_mono; lia.
    + cbv beta. rewrite Z.mul_0_l, Z.min_l by lia. rewrite G0. lia.
    + split; [cbv beta; rewrite Ei; exact Lp|]. split; assumption.
    + exact S.
    + cbv beta. rewrite Ei, Ei1. exact P.
    + cbv beta. rewrite Ei1. lia.
Qed.

Lemma Gl k : 0 <= k <= t -> llround (d_mul (d_of_Z k) delta) = Ok (G k).
Proof. intros. apply G_llround; lia. Qed.

(** The merge of the leftover: the last full run, if there is one, and
    the segments behind it. *)
Lemma leftover_run (src dst : list T) r L lt :
  run_inv compFunc len t r src -> 0 <= r <= 11 -> 0 <= L ->
  L * 2 ^ (r + 1) < t -> t <= (L + 1) * 2 ^ (r + 1) ->
  floor_int64 (d_div (d_of_Z len) (d_mul d_two (dscale r delta))) = Ok L ->
  1 <= lt <= t -> Z.of_nat (length dst) = len ->
  exists run,
    (do mid <- llround (d_add (d_mul (d_of_Z (L * 2 ^ (r + 1))) delta) (dscale r delta));
     parallelMerge compFunc dst src (G (L * 2 ^ (r + 1)))
       ((if mid >? len then len else mid) - 1) (if mid >? len then len else mid) (len - 1)
       (G (L * 2 ^ (r + 1))) lt)
    = Ok (blit dst (G (L * 2 ^ (r + 1))) run) /\
    sorted compFunc run /\
    run ≡ₚ slice src (G (L * 2 ^ (r + 1))) len.
Proof.
  intros (Ls & Hruns & Htail) Hr HL HLw HLw' Hfl Hlt Ld.
  assert (Hp : 0 < 2 ^ r) by (apply Z.pow_pos_nonneg; lia).
  pose proof (pow_succ2 r ltac:(lia)) as Ew.
  set (lo := G (L * 2 ^ (r + 1))).
  assert (Hlo : 0 <= lo < len).
  { unfold lo. pose proof (Grange (L * 2 ^ (r + 1)) ltac:(nia)).
    pose proof (Gstrict (L * 2 ^ (r + 1)) t ltac:(nia) ltac:(lia) ltac:(lia)).
    rewrite Gt in *. lia. }
  destruct (Z_le_gt_dec t (L * 2 ^ (r + 1) + 2 ^ r)) as [HK|HK].
  - destruct (leftover_mid_ge len t r L) as (m & Em & Hm); try lia.
    rewrite Em. cbn [bind].
    assert (Emid : (if m >? len then len else m) = len).
    { destruct (Z.gtb_spec m len); lia. }
    rewrite Emid.
    assert (SA : sorted compFunc (slice src lo (lo + (len - lo)))).
    { replace (lo + (len - lo)) with len by lia. unfold lo.
      replace (L * 2 ^ (r + 1)) with (2 * L * 2 ^ r) by (rewrite Ew; ring).
      destruct (Z.eq_dec t (L * 2 ^ (r + 1) + 2 ^ r)) as [Et|Hne].
      + pose proof (Hruns (2 * L) ltac:(lia) ltac:(nia)) as S.
        replace ((2 * L + 1) * 2 ^ r) with t in S by (rewrite Et, Ew; ring).
        rewrite Gt in S. exact S.
      + apply Htail; nia. }
    assert (SB : sorted compFunc (slice src len (len + 0))).
    { rewrite slice_nil by lia. constructor. }
    destruct (parallelMerge_run compFunc Hswo src lo (len - lo) len 0 lt
                ltac:(lia) ltac:(lia) ltac:(lia) ltac:(lia) ltac:(lia) ltac:(lia) ltac:(lia)
                ltac:(lia) ltac:(nia) SA SB dst lo ltac:(lia) ltac:(lia))
      as (run & E & Lr & S & P).
    replace (lo + (len - lo) - 1) with (len - 1) in E by lia.
    replace (len + 0 - 1) with (len - 1) in E by lia.
    exists run. split; [exact E|]. split; [exact S|].
    rewrite P. replace (lo + (len - lo)) with len by lia.
    rewrite (slice_nil src len) by lia. rewrite app_nil_r. reflexivity.
  - rewrite (leftover_mid_exact len t r L) by (try lia; exact Hfl).
    cbn [bind].
    set (mid := G (L * 2 ^ (r + 1) + 2 ^ r)).
    assert (Hmid : lo < mid < len).
    { unfold lo, mid. split.
      - apply Gstrict; nia.
      - rewrite <- Gt at 2. apply Gstrict; nia. }
    assert (Emid : (if mid >? len then len else mid) = mid).
    { destruct (Z.gtb_spec mid len); lia. }
    rewrite Emid.
    assert (SA : sorted compFunc (slice src lo (lo + (mid - lo)))).
    { replace (lo + (mid - lo)) with mid by lia. unfold lo, mid.
      pose proof (Hruns (2 * L) ltac:(lia) ltac:(nia)) as S.
      replace (2 * L * 2 ^ r) with (L * 2 ^ (r + 1)) in S by (rewrite Ew; ring).
      replace ((2 * L + 1) * 2 ^ r) with (L * 2 ^ (r + 1) + 2 ^ r) in S by (rewrite Ew; ring).
      exact S. }
    assert (SB : sorted compFunc (slice src mid (mid + (len - mid)))).
    { replace (mid + (len - mid)) with len by lia. unfold mid.
      replace (L * 2 ^ (r + 1) + 2 ^ r) with ((2 * L + 1) * 2 ^ r) by (rewrite Ew; ring).
      destruct (Z.eq_dec t ((L + 1) * 2 ^ (r + 1))) as [Et|Hne].
      + pose proof (Hruns (2 * L + 1) ltac:(lia) ltac:(nia)) as S.
        replace ((2 * L + 1 + 1) * 2 ^ r) with t in S by (rewrite Et, Ew; ring).
        rewrite Gt in S. exact S.
      + apply Htail; nia. }
    destruct (parallelMerge_run compFunc Hswo src lo (mid - lo) mid (len - mid) lt
                ltac:(lia) ltac:(lia) ltac:(lia) ltac:(lia) ltac:(lia) ltac:(lia) ltac:(lia)
                ltac:(lia) ltac:(nia) SA SB dst lo ltac:(lia) ltac:(lia))
      as (run & E & Lr & S & P).
    replace (lo + (mid - lo) - 1) with (mid - 1) in E by lia.
    replace (mid + (len - mid) - 1) with (len - 1) in E by lia.
    exists run. split; [exact E|]. split; [exact S|].
    rewrite P. replace (lo + (mid - lo)) with mid by lia.
    replace (mid + (len - mid)) with len by lia. rewrite slice_app by lia. reflexivity.
Qed.

Lemma round_result (src pre run : list T) r L :
  0 <= r -> 0 <= L -> L * 2 ^ (r + 1) <= t -> t <= (L + 1) * 2 ^ (r + 1) ->
  Z.of_nat (length src) = len ->
  chain compFunc (Bd r) L pre src ->
  sorted compFunc run -> run ≡ₚ slice src (G (L * 2 ^ (r + 1))) len ->
  run_inv compFunc len t (r + 1) (pre ++ run) /\ pre ++ run ≡ₚ src.
Proof.
  intros Hr HL HLw HLw' Ls (Lp & Pp & Sp) Sr Pr.
  assert (Hw : 0 < 2 ^ (r + 1)) by (apply Z.pow_pos_nonneg; lia).
  cbv beta in Lp, Pp. rewrite Z.min_l in Lp, Pp by lia.
  set (lo := G (L * 2 ^ (r + 1))) in *.
  assert (Hlo : 0 <= lo <= len) by (apply Grange; nia).
  assert (Lr : Z.of_nat (length run) = len - lo).
  { rewrite Pr, slice_length by lia. lia. }
  assert (Etail : slice (pre ++ run) lo len = run).
  { rewrite <- Lp. replace len with (Z.of_nat (length pre) + Z.of_nat (length run)) by lia.
    apply slice_app_r. }
  split; [|rewrite Pp, Pr, slice_app by lia; rewrite <- Ls; rewrite slice_all; reflexivity].
  split; [rewrite length_app; lia|]. split.
  - intros j Hj Hjw. destruct (Z.eq_dec j L) as [->|Hne].
    + assert (Et : (L + 1) * 2 ^ (r + 1) = t) by lia.
      rewrite Et, Gt. fold lo. rewrite Etail. exact Sr.
    + assert (HjL : j < L) by nia.
      pose proof (Gmono ((j + 1) * 2 ^ (r + 1)) (L * 2 ^ (r + 1)) ltac:(nia) ltac:(nia)
                    ltac:(lia)) as M.
      pose proof (Grange (j * 2 ^ (r + 1)) ltac:(nia)) as R.
      rewrite slice_app_l by (fold lo in M; lia).
      pose proof (Sp j ltac:(lia)) as S. cbv beta in S.
      rewrite !Z.min_l in S by nia. exact S.
  - intros j Hj Hjw. destruct (Z.eq_dec j L) as [->|Hne].
    + fold lo. rewrite Etail. exact Sr.
    + assert (j = L + 1) by nia. subst j.
      assert (Et : (L + 1) * 2 ^ (r + 1) = t) by lia.
      rewrite Et, Gt. rewrite slice_nil by lia. constructor.
Qed.

Lemma iDivUp_range (a b pm : Z) :
  1 <= a -> 0 < b -> iDivUp a b = Ok pm -> 1 <= pm <= a.
Proof.
  intros Ha Hb. unfold iDivUp.
  replace (b =? 0) with false by (symmetry; apply Z.eqb_neq; lia).
  intros E. injection E as <-.
  pose proof (Z.div_mod a b ltac:(lia)) as Hdm.
  pose proof (Z.mod_pos_bound a b ltac:(lia)) as Hm.
  assert (0 <= a / b) by (apply Z.div_pos; lia).
  destruct (Z.eqb_spec (a mod b) 0) as [E0|E0]; nia.
Qed.

(** A merge round turns runs of [2 ^ r] segments in the source into runs
    of [2 ^ (r + 1)] segments in the destination. *)
Lemma merge_round_spec (src dst : list T) r :
  run_inv compFunc len t r src -> 0 <= r <= 11 ->
  Z.of_nat (length dst) = len ->
  exists out,
    merge_round compFunc dst src len t (dscale r delta) = Ok out /\
    run_inv compFunc len t (r + 1) out /\ out ≡ₚ src.
Proof.
  intros Hinv Hr Ld.
  assert (Ls : Z.of_nat (length src) = len) by (destruct Hinv; assumption).
  assert (Hw : 0 < 2 ^ (r + 1)) by (apply Z.pow_pos_nonneg; lia).
  destruct (plan_round_spec len t r Hlen ltac:(lia) ltac:(lia) ltac:(lia))
    as (L & lo & pm & Ep & HL0 & HLw & Elo & Hn & Epm & Hfl).
  rewrite (Gl (L * 2 ^ (r + 1))) in Elo by nia. injection Elo as <-.
  unfold merge_round. rewrite Ep. cbn [bind loops pmThreads].
  set (tasks := L + (if G (L * 2 ^ (r + 1)) <? len then 1 else 0)) in *.
  assert (Htasks : 0 < tasks).
  { unfold tasks. destruct (Z.ltb_spec (G (L * 2 ^ (r + 1))) len); [lia|].
    destruct (Z.eq_dec L 0) as [->|]; [|lia].
    rewrite Z.mul_0_l, G0 in *. lia. }
  pose proof (iDivUp_range t tasks pm ltac:(lia) Htasks Epm) as Hpm.
  assert (Hfull : exists pre,
    parallelForNoWait 0 L (full_merge compFunc src (dscale r delta) pm) L dst
      = Ok (blit dst 0 pre) /\ chain compFunc (Bd r) L pre src).
  { destruct (Z.eq_dec L 0) as [->|HLne].
    - exists []. split; [rewrite blit_nil by lia; reflexivity|].
      apply chain_start. cbv beta. rewrite Z.mul_0_l, Z.min_l by lia. apply G0.
    - unfold parallelForNoWait.
      rewrite parallelFor_for_loop by (rewrite ?Z.sub_0_r, ?Z.min_id; nia).
      rewrite Z.sub_0_r.
      destruct (full_merges_run src dst r L pm Hinv Hr HL0 ltac:(lia) Hpm Ld (Z.to_nat L) 0 [])
        as (pre & E & Hc); try lia.
      { apply chain_start. cbv beta. rewrite Z.mul_0_l, Z.min_l by lia. apply G0. }
      rewrite blit_nil in E by lia. exists pre. auto. }
  destruct Hfull as (pre & Ef & Hc). rewrite Ef. cbn [bind].
  assert (Lp : Z.of_nat (length pre) = G (L * 2 ^ (r + 1))).
  { destruct Hc as (Lp & _). cbv beta in Lp. rewrite Z.min_l in Lp by lia. exact Lp. }
  pose proof (Grange (L * 2 ^ (r + 1)) ltac:(nia)) as Rlo.
  unfold leftover_merge. cbn [loStart loThreads].
  rewrite (Gl (L * 2 ^ (r + 1))) by nia. cbn [bind].
  destruct (Z.ltb_spec (G (L * 2 ^ (r + 1))) len) as [Hlt|Hge].
  - assert (HLt : L * 2 ^ (r + 1) < t).
    { destruct (Z.eq_dec (L * 2 ^ (r + 1)) t) as [E|]; [|lia]. rewrite E, Gt in Hlt. lia. }
    assert (Etasks : tasks = L + 1).
    { unfold tasks. destruct (Z.ltb_spec (G (L * 2 ^ (r + 1))) len); lia. }
    rewrite Etasks in Epm.
    destruct (iDivUp_bound t L (2 ^ (r + 1)) pm HL0 Hw HLt ltac:(lia) Epm) as [Hb1 Hb2].
    destruct (leftover_run src (blit dst 0 pre) r L (t - L * pm) Hinv Hr HL0 HLt ltac:(lia)
                Hfl ltac:(lia)) as (run & E & Sr & Pr).
    { rewrite blit_length by lia. exact Ld. }
    cbv zeta. rewrite E.
    assert (Lr : Z.of_nat (length run) = len - G (L * 2 ^ (r + 1))).
    { rewrite Pr, slice_length by lia. lia. }
    pose proof (blit_blit dst 0 pre run ltac:(lia) ltac:(lia)) as Eb.
    rewrite Z.add_0_l, Lp in Eb. rewrite Eb.
    rewrite blit_full by (rewrite length_app; lia).
    exists (pre ++ run). split; [reflexivity|].
    apply (round_result src pre run r L); auto; lia.
  - assert (Elo : G (L * 2 ^ (r + 1)) = len) by lia.
    rewrite blit_full by lia.
    exists pre. split; [reflexivity|].
    rewrite <- (app_nil_r pre).
    apply (round_result src pre [] r L); auto; try lia.
    + constructor.
    + rewrite Elo, slice_nil by lia. reflexivity.
Qed.

End Round.

(** ** Insertion sort, the sequential sort of the examples *)

Section InsertionSortFacts.

Context {T : Type} (comp : T -> T -> bool).
Hypothesis Hswo : strict_weak_order comp.

Lemma insert_sorted_perm (x : T) l : insert_sorted comp x l ≡ₚ x :: l.
Proof.
  induction l as [|y l IH]; [reflexivity|]. cbn [insert_sorted].
  destruct (comp x y); [reflexivity|]. rewrite IH. apply Permutation_swap.
Qed.

Lemma insert_sorted_sorted (x : T) l :
  sorted comp l -> sorted comp (insert_sorted comp x l).
Proof.
  induction l as [|y l IH]; intros Hs.
  - cbn. apply sorted_cons; [constructor | constructor].
  - cbn [insert_sorted]. destruct (comp x y) eqn:E.
    + apply sorted_cons; [exact Hs|].
      apply sorted_cons_inv in Hs. destruct Hs as [_ Hall].
      constructor; [apply (swo_asym comp Hswo); exact E|].
      rewrite Forall_forall in Hall |- *. intros z Hz.
      apply (swo_asym comp Hswo). apply (lt_le_trans comp Hswo x y z E). apply Hall, Hz.
    + pose proof (sorted_cons_inv comp _ _ Hs) as [Hs' Hall].
      apply sorted_cons; [apply IH; exact Hs'|].
      rewrite Forall_forall in Hall |- *. intros z Hz.
      rewrite insert_sorted_perm in Hz. apply elem_of_cons in Hz.
      destruct Hz as [->|Hz]; [exact E | apply Hall, Hz].
Qed.

Lemma insertion_sort_perm l : insertion_sort comp l ≡ₚ l.
Proof.
  induction l as [|x l IH]; [reflexivity|]. cbn [insertion_sort foldr].
  rewrite insert_sorted_perm. fold (insertion_sort comp l). rewrite IH. reflexivity.
Qed.

Lemma insertion_sort_sorted l : sorted comp (insertion_sort comp l).
Proof.
  induction l as [|x l IH]; [constructor|]. cbn [insertion_sort foldr].
  apply insert_sorted_sorted. exact IH.
Qed.

End InsertionSortFacts.

(** ** The merge rounds and the sort *)

Section Sorting.

Context {T : Type} (compFunc : T -> T -> bool) (std_sort : list T -> list T).
Hypothesis Hswo : strict_weak_order compFunc.
Hypothesis std_sort_perm : forall l, std_sort l ≡ₚ l.
Hypothesis std_sort_sorted : forall l, sorted compFunc (std_sort l).

Variables (len t : Z).
Hypothesis Hlen : 0 < len.
Hypothesis Ht : 1 <= t <= 1023.
Hypothesis Htl : t <= len.
Hypothesis Hsize : len * t < 2 ^ 49.

Local Abbreviation delta := (d_div (d_of_Z len) (d_of_Z t)).
Local Abbreviation G := (grid delta).

Lemma merge_rounds_spec (k : nat) : forall r (orig swap : list T),
  run_inv compFunc len t r orig -> Z.of_nat (length swap) = len ->
  0 <= r -> r + 2 * Z.of_nat k <= 12 ->
  exists orig' swap',
    merge_rounds compFunc k orig swap len t (dscale r delta) = Ok (orig', swap') /\
    run_inv compFunc len t (r + 2 * Z.of_nat k) orig' /\ orig' ≡ₚ orig.
Proof.
  induction k as [|k IH]; intros r orig swap Hinv Lsw Hr Hrk.
  - exists orig, swap. cbn [merge_rounds]. replace (r + 2 * Z.of_nat 0) with r by lia.
    auto.
  - cbn [merge_rounds].
    assert (Lo : Z.of_nat (length orig) = len) by (destruct Hinv; assumption).
    destruct (merge_round_spec compFunc Hswo len t Hlen Ht Htl Hsize orig swap r Hinv
                ltac:(lia) Lsw) as (swap' & E1 & I1 & P1).
    rewrite E1. cbn [bind].
    destruct (delta_spec len t ltac:(nia) ltac:(nia)) as [Nd _].
    rewrite (d_mul_two_r _ _ _ (dscale_dnormal r _ _ _ Nd)) by lia.
    rewrite dscale_dscale.
    destruct (merge_round_spec compFunc Hswo len t Hlen Ht Htl Hsize swap' orig (r + 1) I1
                ltac:(lia) Lo) as (orig' & E2 & I2 & P2).
    rewrite E2. cbn [bind].
    rewrite (d_mul_two_r _ _ _ (dscale_dnormal (r + 1) _ _ _ Nd)) by lia.
    rewrite dscale_dscale.
    assert (Ls' : Z.of_nat (length swap') = len) by (destruct I1; assumption).
    destruct (IH (r + 1 + 1) orig' swap' I2 Ls' ltac:(lia) ltac:(lia))
      as (o & s & E3 & I3 & P3).
    exists o, s. split; [exact E3|]. split.
    + replace (r + 2 * Z.of_nat (Datatypes.S k)) with (r + 1 + 1 + 2 * Z.of_nat k) by lia.
      exact I3.
    + rewrite P3, P2, P1. reflexivity.
Qed.

(** Once the runs are as wide as the whole buffer, the buffer is sorted. *)
Lemma run_inv_sorted (r : Z) (buf : list T) :
  0 <= r -> t <= 2 ^ r -> run_inv compFunc len t r buf -> sorted compFunc buf.
Proof.
  intros Hr Htr (Lb & Hruns & Htail).
  assert (E0 : G 0 = 0) by (apply G_0; lia).
  rewrite <- (slice_all buf), Lb.
  destruct (Z.eq_dec t (2 ^ r)) as [Et|Hne].
  - pose proof (Hruns 0 ltac:(lia) ltac:(lia)) as S.
    rewrite Z.mul_0_l, E0 in S. replace ((0 + 1) * 2 ^ r) with t in S by lia.
    rewrite (G_t len t) in S by lia. exact S.
  - pose proof (Htail 0 ltac:(lia) ltac:(lia)) as S.
    rewrite Z.mul_0_l, E0 in S. exact S.
Qed.

Lemma run_inv_start (l b : list T) :
  Z.of_nat (length l) = len -> chain compFunc G t b l -> run_inv compFunc len t 0 b.
Proof.
  intros Ll (Lb & Pb & Sb).
  assert (Et : G t = len) by (apply G_t; lia).
  split; [lia|]. split.
  - intros j Hj Hjt. rewrite Z.pow_0_r, !Z.mul_1_r in *. apply Sb. lia.
  - intros j Hj Hjt. rewrite Z.pow_0_r, !Z.mul_1_r in *.
    assert (j = t) by lia. subst j. rewrite Et, slice_nil by lia. constructor.
Qed.

Lemma rounds_cover :
  2 <= t ->
  let k := Z.to_nat ((Z.log2_up t + 1) / 2) in
  2 * Z.of_nat k <= 12 /\ t <= 2 ^ (2 * Z.of_nat k).
Proof.
  intros Ht2 k.
  assert (Hd : 0 < Z.log2_up t <= 10).
  { split; [apply Z.log2_up_pos; lia|]. apply Z.log2_up_le_pow2; lia. }
  pose proof (Z.log2_up_spec t ltac:(lia)) as [_ Hup].
  pose proof (Z.div_mod (Z.log2_up t + 1) 2 ltac:(lia)) as Hdm.
  pose proof (Z.mod_pos_bound (Z.log2_up t + 1) 2 ltac:(lia)) as Hm.
  assert (Hk : Z.of_nat k = (Z.log2_up t + 1) / 2) by (unfold k; lia).
  split; [lia|].
  etransitivity; [exact Hup|]. apply Z.pow_le_mono_r; lia.
Qed.

End Sorting.

Section ParallelSortClaims.

Context {T : Type} (compFunc : T -> T -> bool) (std_sort : list T -> list T).
Hypothesis Hswo : strict_weak_order compFunc.
Hypothesis std_sort_perm : forall l, std_sort l ≡ₚ l.
Hypothesis std_sort_sorted : forall l, sorted compFunc (std_sort l).

(** The cap leaves at least one element for every thread. *)
Lemma effective_threads_le_len hw len threads :
  2 <= effective_threads hw len threads ->
  0 < len /\ effective_threads hw len threads <= len.
Proof.
  unfold effective_threads. intros H.
  set (th := if threads =? 0 then hw else threads) in *.
  assert (Hq : 2 <= (len + 64) / 128) by lia.
  pose proof (Z.mul_div_le (len + 64) 128 ltac:(lia)). lia.
Qed.

(** C1, within the capacity of the partition table and the range of exact
    boundaries: for a strict weak ordering and a sequential sort that
    returns a sorted permutation, when the effective thread count is between
    1 and 1023 and [len * threads < 2 ^ 49], [parallelSort] returns, and the
    original buffer holds a permutation of the input that is non-descending
    under the comparator. *)
Theorem parallelSort_sorted_permutation hw (scratch l : list T) threads :
  1 <= effective_threads hw (Z.of_nat (length l)) threads <= 1023 ->
  Z.of_nat (length l) * effective_threads hw (Z.of_nat (length l)) threads < 2 ^ 49 ->
  length scratch = length l ->
  exists out sw,
    parallelSort compFunc std_sort hw scratch l threads = Ok (out, sw) /\
    sorted compFunc out /\ out ≡ₚ l.
Proof.
  intros Ht Hsize Lsc.
  set (len := Z.of_nat (length l)) in *.
  destruct (Z.eq_dec (effective_threads hw len threads) 1) as [E1|Hne].
  - exists (std_sort l), None. split.
    + apply parallelSort_one_thread; [fold len; lia | exact E1].
    + split; [apply std_sort_sorted | apply std_sort_perm].
  - destruct (effective_threads_le_len hw len threads ltac:(lia)) as [Hlen Htl].
    unfold parallelSort. fold len.
    set (t := effective_threads hw len threads) in *.
    destruct (local_sorts_spec compFunc std_sort std_sort_perm std_sort_sorted len t
                Hlen ltac:(lia) ltac:(lia) l eq_refl ltac:(nia)) as (b & Eb & Hc).
    rewrite Eb. cbn [bind].
    destruct (Z.leb_spec t 1) as [|_]; [lia|].
    pose proof (rounds_cover t ltac:(lia) ltac:(lia)) as [Hk Hcov].
    set (k := Z.to_nat ((Z.log2_up t + 1) / 2)) in *.
    pose proof (run_inv_start compFunc len t Hlen ltac:(lia) ltac:(lia) l b eq_refl Hc) as I0.
    destruct (delta_spec len t ltac:(nia) ltac:(nia)) as [Nd _].
    destruct (merge_rounds_spec compFunc Hswo len t Hlen ltac:(lia) Htl Hsize k 0 b scratch I0
                ltac:(unfold len; lia) ltac:(lia) ltac:(lia)) as (o & s & E & I & P).
    rewrite dscale_0 in E. rewrite E. cbn [bind fst snd].
    exists o, (Some s). split; [reflexivity|]. split.
    + apply (run_inv_sorted compFunc len t Hlen ltac:(lia) ltac:(lia) (0 + 2 * Z.of_nat k));
        [lia | exact Hcov | exact I].
    + rewrite P. destruct Hc as (_ & Pb & _).
      rewrite Pb, (G_t len t) by lia. unfold len. rewrite slice_all. reflexivity.
Qed.

End ParallelSortClaims.

(** C1 fails outside these bounds.  When no thread count is given and the
    hardware concurrency is reported as 0, the effective thread count is 0
    and the input is returned as it is; with 1024 threads on 131072 elements
    the partition table overflows and there is no defined result. *)
Lemma parallelSort_unsorted :
  (parallelSort Z.ltb (insertion_sort Z.ltb) 0 [] [2; 1] 0 = Ok ([2; 1], None) /\
   ~ sorted Z.ltb [2; 1]) /\
  (forall hw (scratch : list Z) r,
     parallelSort Z.ltb (insertion_sort Z.ltb) hw scratch
       (replicate (Z.to_nat 131072) 0) 1024 <> Ok r).
Proof.
  split; [split|].
  - vm_compute. reflexivity.
  - intros H. apply (sorted_cons_inv Z.ltb) in H. destruct H as [_ H].
    apply Forall_cons in H. destruct H as [H _]. vm_compute in H. discriminate.
  - intros hw scratch r. apply parallelSort_1024_threads.
    rewrite length_replicate. apply Z2Nat.id. lia.
Qed.

Lemma parallelSort_sorted_permutation_witness :
  exists out sw,
    parallelSort Z.ltb (insertion_sort Z.ltb) 8 (replicate 256 0)
      (reverse (seqZ 0 256)) 2 = Ok (out, sw) /\
    sorted Z.ltb out /\ out ≡ₚ reverse (seqZ 0 256).
Proof.
  apply (parallelSort_sorted_permutation Z.ltb (insertion_sort Z.ltb) Zltb_swo
           (insertion_sort_perm Z.ltb) (insertion_sort_sorted Z.ltb Zltb_swo)).
  - vm_compute. split; discriminate.
  - vm_compute. reflexivity.
  - vm_compute. reflexivity.
Defined.

(** * Further properties of the merge-path partitioner *)

Section MergePathProperties.

Context {T : Type} (compFunc : T -> T -> bool).

(** X1: [mergePath] returns, for a diagonal within the two ranges, an index
    [i] between [max(0, diag - bCount)] and [min(diag, aCount)] such that
    the last element taken from A is before the first element left in B,
    and the first element left in A is not before the last one taken from
    B; every read stays inside the two ranges.  The ranges need not be
    sorted. *)
Theorem mergePath_split (src : list T) aOff aCount bOff bCount diag :
  0 <= aOff -> 0 <= aCount -> aOff + aCount <= Z.of_nat (length src) ->
  0 <= bOff -> 0 <= bCount -> bOff + bCount <= Z.of_nat (length src) ->
  0 <= diag <= aCount + bCount ->
  exists i,
    mergePath compFunc src aOff aCount bOff bCount diag = Ok i /\
    Z.max 0 (diag - bCount) <= i <= Z.min diag aCount /\
    (0 < i -> diag - i < bCount ->
     forall a b, src !! Z.to_nat (aOff + (i - 1)) = Some a ->
                 src !! Z.to_nat (bOff + (diag - i)) = Some b ->
                 compFunc a b = true) /\
    (i < aCount -> 0 < diag - i ->
     forall a b, src !! Z.to_nat (aOff + i) = Some a ->
                 src !! Z.to_nat (bOff + (diag - i - 1)) = Some b ->
                 compFunc a b = false).
Proof.
  intros Ha Hac Ha' Hb Hbc Hb' Hd.
  destruct (mergePath_spec compFunc src aOff aCount bOff bCount diag Ha Hac Ha' Hb Hbc Hb' Hd)
    as (i & E & Hr & X1 & X2).
  exists i. split; [exact E|]. split; [exact Hr|]. split.
  - intros H1 H2 a b Hxa Hxb. apply (X1 H1 H2 a b Hxa).
    replace (diag - 1 - (i - 1)) with (diag - i) by lia. exact Hxb.
  - intros H1 H2 a b Hxa Hxb. apply (X2 H1 H2 a b Hxa).
    replace (diag - 1 - i) with (diag - i - 1) by lia. exact Hxb.
Qed.

Hypothesis Hswo : strict_weak_order compFunc.

(** X2: on sorted ranges a later diagonal takes no fewer elements from A
    and no fewer from B than an earlier one: the split points of
    [mergePath] never cross. *)
Theorem mergePath_monotone (src : list T) aOff aCount bOff bCount diag diag' i i' :
  0 <= aOff -> 0 <= aCount -> aOff + aCount <= Z.of_nat (length src) ->
  0 <= bOff -> 0 <= bCount -> bOff + bCount <= Z.of_nat (length src) ->
  sorted compFunc (slice src aOff (aOff + aCount)) ->
  sorted compFunc (slice src bOff (bOff + bCount)) ->
  0 <= diag -> diag <= diag' -> diag' <= aCount + bCount ->
  mergePath compFunc src aOff aCount bOff bCount diag = Ok i ->
  mergePath compFunc src aOff aCount bOff bCount diag' = Ok i' ->
  i <= i' /\ diag - i <= diag' - i'.
Proof.
  intros Ha Hac Ha' Hb Hbc Hb' SA SB Hd Hdd Hd' E E'.
  destruct (mergePath_spec compFunc src aOff aCount bOff bCount diag Ha Hac Ha' Hb Hbc Hb'
              ltac:(lia)) as (j & Ej & Sj).
  destruct (mergePath_spec compFunc src aOff aCount bOff bCount diag' Ha Hac Ha' Hb Hbc Hb'
              ltac:(lia)) as (j' & Ej' & Sj').
  assert (j = i) by congruence. assert (j' = i') by congruence. subst j j'.
  eapply (split_mono compFunc Hswo src aOff aCount bOff bCount); eauto.
Qed.

(** X3: every entry [k] of the table of [getMergePaths], not only the
    first and the last, splits the merge at the diagonal
    [llround(k * spacing)]: it lies between [max(0, diag - bCount)] and
    [min(diag, aCount)], and all the elements before the split are not
    after any element behind it. *)
Theorem getMergePaths_splits (src : list T) aOff aCount bOff bCount P (mpi : gmap Z Z) k :
  0 <= aOff -> 0 <= aCount -> aOff + aCount <= Z.of_nat (length src) ->
  0 <= bOff -> 0 <= bCount -> bOff + bCount <= Z.of_nat (length src) ->
  0 < aCount + bCount -> 1 <= P <= 1023 -> 6 * P * (aCount + bCount) < 2 ^ 53 ->
  sorted compFunc (slice src aOff (aOff + aCount)) ->
  sorted compFunc (slice src bOff (bOff + bCount)) ->
  getMergePaths compFunc ∅ src aOff aCount bOff bCount
    (d_div (d_of_Z (aCount + bCount)) (d_of_Z P)) P = Ok mpi ->
  0 <= k <= P ->
  exists diag i,
    llround (d_mul (d_of_Z k) (d_div (d_of_Z (aCount + bCount)) (d_of_Z P))) = Ok diag /\
    mpi !! k = Some i /\
    0 <= diag <= aCount + bCount /\
    Z.max 0 (diag - bCount) <= i <= Z.min diag aCount /\
    forall x y,
      x ∈ slice src aOff (aOff + i) ++ slice src bOff (bOff + (diag - i)) ->
      y ∈ slice src (aOff + i) (aOff + aCount)
          ++ slice src (bOff + (diag - i)) (bOff + bCount) ->
      compFunc y x = false.
Proof.
  intros Ha Hac Ha' Hb Hbc Hb' Hcount HP Hsize SA SB E Hk.
  destruct (getMergePaths_spec compFunc src aOff aCount bOff bCount P
              Ha Hac Ha' Hb Hbc Hb' Hcount HP Hsize) as (mpi' & E' & _ & _ & Htab).
  assert (mpi' = mpi) by congruence. subst mpi'.
  destruct (Htab k Hk) as (i & Ei & Si).
  destruct (grid_nearest (aCount + bCount) P k Hcount ltac:(lia) Hsize Hk) as [Eg _].
  pose proof (grid_range (aCount + bCount) P k Hcount ltac:(lia) Hsize Hk) as Hg.
  eexists. exists i. split; [exact Eg|]. split; [exact Ei|]. split; [exact Hg|].
  split; [destruct Si as [Hr _]; exact Hr|].
  intros x y Hx Hy.
  eapply (split_cross compFunc Hswo src aOff aCount bOff bCount); eauto.
Qed.

(** X4: worker [k] of [parallelMerge] writes the output positions from
    [dBeg + llround(k * spacing)] up to [dBeg + llround((k + 1) * spacing)]
    and no other: its result is the destination with a sorted run of that
    length written there, so the workers of one merge write disjoint parts
    of the destination. *)
Theorem merge_worker_writes (dst src : list T) aOff aCount bOff bCount dBeg P
  (mpi : gmap Z Z) k :
  0 <= aOff -> 0 <= aCount -> aOff + aCount <= Z.of_nat (length src) ->
  0 <= bOff -> 0 <= bCount -> bOff + bCount <= Z.of_nat (length src) ->
  0 < aCount + bCount -> 1 <= P <= 1023 -> 6 * P * (aCount + bCount) < 2 ^ 53 ->
  sorted compFunc (slice src aOff (aOff + aCount)) ->
  sorted compFunc (slice src bOff (bOff + bCount)) ->
  0 <= dBeg -> dBeg + (aCount + bCount) <= Z.of_nat (length dst) ->
  getMergePaths compFunc ∅ src aOff aCount bOff bCount
    (d_div (d_of_Z (aCount + bCount)) (d_of_Z P)) P = Ok mpi ->
  0 <= k < P ->
  exists g0 g1 piece,
    llround (d_mul (d_of_Z k) (d_div (d_of_Z (aCount + bCount)) (d_of_Z P))) = Ok g0 /\
    llround (d_mul (d_of_Z (k + 1)) (d_div (d_of_Z (aCount + bCount)) (d_of_Z P))) = Ok g1 /\
    0 <= g0 <= g1 /\ g1 <= aCount + bCount /\
    merge_worker compFunc mpi src aOff bOff dBeg
      (d_div (d_of_Z (aCount + bCount)) (d_of_Z P)) k dst
      = Ok (blit dst (dBeg + g0) piece) /\
    Z.of_nat (length piece) = g1 - g0 /\
    sorted compFunc piece.
Proof.
  intros Ha Hac Ha' Hb Hbc Hb' Hcount HP Hsize SA SB Hd Hroom E Hk.
  destruct (getMergePaths_spec compFunc src aOff aCount bOff bCount P
              Ha Hac Ha' Hb Hbc Hb' Hcount HP Hsize) as (mpi' & E' & _ & _ & Htab).
  assert (mpi' = mpi) by congruence. subst mpi'.
  set (I := fun k => default 0 (mpi !! k)).
  assert (Htab' : forall k, 0 <= k <= P ->
            mpi !! k = Some (I k) /\
            split_ok compFunc src aOff aCount bOff bCount
              (grid (d_div (d_of_Z (aCount + bCount)) (d_of_Z P)) k) (I k)).
  { intros j Hj. destruct (Htab j Hj) as (v & Ev & Sv). unfold I. rewrite Ev. auto. }
  destruct (merge_worker_spec compFunc Hswo src aOff aCount bOff bCount P)
    with (mpi := mpi) (I := I) (dBeg := dBeg) (dst := dst) (k := k)
    as (piece & Ew & Lw & Sw & _); auto.
  destruct (grid_nearest (aCount + bCount) P k Hcount ltac:(lia) Hsize ltac:(lia)) as [Eg _].
  destruct (grid_nearest (aCount + bCount) P (k + 1) Hcount ltac:(lia) Hsize ltac:(lia))
    as [Eg1 _].
  pose proof (grid_range (aCount + bCount) P k Hcount ltac:(lia) Hsize ltac:(lia)) as Hg.
  pose proof (grid_range (aCount + bCount) P (k + 1) Hcount ltac:(lia) Hsize ltac:(lia)) as Hg1.
  pose proof (grid_mono (aCount + bCount) P k (k + 1) Hcount ltac:(lia) Hsize
                ltac:(lia) ltac:(lia) ltac:(lia)) as Hm.
  eexists. eexists. exists piece.
  split; [exact Eg|]. split; [exact Eg1|].
  split; [lia|]. split; [lia|]. split; [exact Ew|]. split; [exact Lw | exact Sw].
Qed.

End MergePathProperties.

Lemma mergePath_split_witness :
  exists i,
    mergePath Z.ltb [1; 3; 5; 7; 2; 4; 6; 8] 0 4 4 4 4 = Ok i /\
    Z.max 0 (4 - 4) <= i <= Z.min 4 4 /\
    (0 < i -> 4 - i < 4 ->
     forall a b, [1; 3; 5; 7; 2; 4; 6; 8] !! Z.to_nat (0 + (i - 1)) = Some a ->
                 [1; 3; 5; 7; 2; 4; 6; 8] !! Z.to_nat (4 + (4 - i)) = Some b ->
                 Z.ltb a b = true) /\
    (i < 4 -> 0 < 4 - i ->
     forall a b, [1; 3; 5; 7; 2; 4; 6; 8] !! Z.to_nat (0 + i) = Some a ->
                 [1; 3; 5; 7; 2; 4; 6; 8] !! Z.to_nat (4 + (4 - i - 1)) = Some b ->
                 Z.ltb a b = false).
Proof.
  apply (mergePath_split Z.ltb [1; 3; 5; 7; 2; 4; 6; 8] 0 4 4 4 4).
  - lia.
  - lia.
  - cbn. lia.
  - lia.
  - lia.
  - cbn. lia.
  - lia.
Defined.

Lemma mergePath_monotone_witness : 1 <= 3 /\ 2 - 1 <= 6 - 3.
Proof.
  apply (mergePath_monotone Z.ltb Zltb_swo [1; 3; 5; 7; 2; 4; 6; 8] 0 4 4 4 2 6 1 3).
  - lia.
  - lia.
  - cbn. lia.
  - lia.
  - lia.
  - cbn. lia.
  - vm_compute. repeat constructor.
  - vm_compute. repeat constructor.
  - lia.
  - lia.
  - lia.
  - vm_compute. reflexivity.
  - vm_compute. reflexivity.
Defined.

Lemma getMergePaths_splits_witness :
  exists diag i,
    llround (d_mul (d_of_Z 1) (d_div (d_of_Z (4 + 4)) (d_of_Z 2))) = Ok diag /\
    (<[1 := 2]> (<[2 := 4]> (<[0 := 0]> (∅ : gmap Z Z)))) !! 1 = Some i /\
    0 <= diag <= 4 + 4 /\
    Z.max 0 (diag - 4) <= i <= Z.min diag 4 /\
    forall x y,
      x ∈ slice [1; 3; 5; 7; 2; 4; 6; 8] 0 (0 + i)
          ++ slice [1; 3; 5; 7; 2; 4; 6; 8] 4 (4 + (diag - i)) ->
      y ∈ slice [1; 3; 5; 7; 2; 4; 6; 8] (0 + i) (0 + 4)
          ++ slice [1; 3; 5; 7; 2; 4; 6; 8] (4 + (diag - i)) (4 + 4) ->
      Z.ltb y x = false.
Proof.
  apply (getMergePaths_splits Z.ltb Zltb_swo [1; 3; 5; 7; 2; 4; 6; 8] 0 4 4 4 2).
  - lia.
  - lia.
  - cbn. lia.
  - lia.
  - lia.
  - cbn. lia.
  - lia.
  - lia.
  - lia.
  - vm_compute. repeat constructor.
  - vm_compute. repeat constructor.
  - vm_compute. reflexivity.
  - lia.
Defined.

Lemma merge_worker_writes_witness :
  exists g0 g1 piece,
    llround (d_mul (d_of_Z 1) (d_div (d_of_Z (4 + 4)) (d_of_Z 2))) = Ok g0 /\
    llround (d_mul (d_of_Z (1 + 1)) (d_div (d_of_Z (4 + 4)) (d_of_Z 2))) = Ok g1 /\
    0 <= g0 <= g1 /\ g1 <= 4 + 4 /\
    merge_worker Z.ltb (<[1 := 2]> (<[2 := 4]> (<[0 := 0]> (∅ : gmap Z Z))))
      [1; 3; 5; 7; 2; 4; 6; 8] 0 4 0
      (d_div (d_of_Z (4 + 4)) (d_of_Z 2)) 1 (replicate 8 0)
      = Ok (blit (replicate 8 0) (0 + g0) piece) /\
    Z.of_nat (length piece) = g1 - g0 /\
    sorted Z.ltb piece.
Proof.
  apply (merge_worker_writes Z.ltb Zltb_swo (replicate 8 0) [1; 3; 5; 7; 2; 4; 6; 8]
           0 4 4 4 0 2).
  - lia.
  - lia.
  - cbn. lia.
  - lia.
  - lia.
  - cbn. lia.
  - lia.
  - lia.
  - lia.
  - vm_compute. repeat constructor.
  - vm_compute. repeat constructor.
  - lia.
  - cbn. lia.
  - vm_compute. reflexivity.
  - lia.
Defined.

(** * Further properties of the scheduler *)

(** X5: with its segments run in order, [parallelFor] (and
    [parallelForNoWait]) computes what the loop
    [for (i = begin; i < end; i++) fn(i)] computes, for every callback and
    every segment count within the range of exact boundaries. *)
Theorem parallelFor_sequential {S : Type} (fn : Z -> S -> res S) (begin end_ segs : Z) (s : S) :
  begin <= end_ -> 1 <= segs ->
  4 * Z.min segs (end_ - begin) * Z.min segs (end_ - begin) * (end_ - begin) < 2 ^ 53 ->
  parallelFor begin end_ fn segs s = for_loop (Z.to_nat (end_ - begin)) fn begin s /\
  parallelForNoWait begin end_ fn segs s = for_loop (Z.to_nat (end_ - begin)) fn begin s.
Proof.
  intros Hbe Hs Hb. unfold parallelForNoWait.
  rewrite (parallelFor_for_loop fn begin end_ segs s Hbe Hs Hb). auto.
Qed.

Lemma parallelFor_sequential_witness :
  parallelFor 0 10 (fun i s => Ok (s + i)) 4 0
    = for_loop (Z.to_nat (10 - 0)) (fun i s => Ok (s + i)) 0 0 /\
  parallelForNoWait 0 10 (fun i s => Ok (s + i)) 4 0
    = for_loop (Z.to_nat (10 - 0)) (fun i s => Ok (s + i)) 0 0.
Proof.
  apply (parallelFor_sequential (fun i s => Ok (s + i)) 0 10 4 0).
  - lia.
  - lia.
  - vm_compute. reflexivity.
Defined.

Lemma seg_bound_multiple (n s : Z) :
  0 < n -> 0 < s -> s <= n -> n mod s = 0 -> 4 * s * s * n < 2 ^ 53 ->
  forall j : nat, Z.of_nat j <= s ->
    seg_bound (d_div (d_of_Z n) (d_of_Z s)) j = Z.of_nat j * (n / s).
Proof.
  intros Hn Hs Hsn Hmod Hb j Hj.
  destruct (seg_bound_nearest n s j Hn Hs Hj Hb) as [Hnear _].
  unfold nearest in Hnear.
  pose proof (Z.div_mod n s ltac:(lia)) as Hdm. rewrite Hmod, Z.add_0_r in Hdm.
  remember (n / s) as q eqn:Eq. clear Eq.
  remember (seg_bound (d_div (d_of_Z n) (d_of_Z s)) j) as I eqn:EI. clear EI.
  cbv zeta in Hnear. subst n.
  replace (s * I - Z.of_nat j * (s * q)) with (s * (I - Z.of_nat j * q)) in Hnear by ring.
  assert (Habs : 2 * Z.abs (I - Z.of_nat j * q) <= 1).
  { rewrite Z.abs_mul, (Z.abs_eq s) in Hnear by lia. nia. }
  lia.
Qed.

(** X6: when the clamped segment count [s = min(segs, n)] divides the range
    length [n], every segment holds exactly [n / s] indices; a segment
    count of [n] or more gives every index a segment of its own. *)
Theorem segments_equal (n segs : Z) :
  0 < n -> 1 <= segs -> n mod Z.min segs n = 0 ->
  4 * Z.min segs n * Z.min segs n * n < 2 ^ 53 ->
  segments n segs
  = Ok (map (fun i : nat => (Z.of_nat i * (n / Z.min segs n),
                             (Z.of_nat i + 1) * (n / Z.min segs n)))
            (seq 0 (Z.to_nat (Z.min segs n)))).
Proof.
  intros Hn Hsegs Hmod Hb.
  destruct (segments_spec n segs Hn Hsegs Hb) as (E & _ & _).
  rewrite E. f_equal. apply map_ext_in. intros i Hi. apply in_seq in Hi.
  rewrite !(seg_bound_multiple n (Z.min segs n)) by lia.
  f_equal. f_equal. lia.
Qed.

Lemma segments_equal_witness :
  segments 3 100
  = Ok (map (fun i : nat => (Z.of_nat i * (3 / Z.min 100 3),
                             (Z.of_nat i + 1) * (3 / Z.min 100 3)))
            (seq 0 (Z.to_nat (Z.min 100 3)))).
Proof.
  apply (segments_equal 3 100).
  - lia.
  - lia.
  - reflexivity.
  - vm_compute. reflexivity.
Defined.

(** X7: [iDivUp a b] is the quotient rounded up: the least [r] with
    [a <= r * b]. *)
Theorem iDivUp_ceiling (a b : Z) :
  0 <= a -> 0 < b ->
  exists r, iDivUp a b = Ok r /\ (r - 1) * b < a <= r * b.
Proof.
  intros Ha Hb. unfold iDivUp.
  replace (b =? 0) with false by (symmetry; apply Z.eqb_neq; lia).
  pose proof (Z.div_mod a b ltac:(lia)) as Hdm.
  pose proof (Z.mod_pos_bound a b ltac:(lia)) as Hm.
  eexists. split; [reflexivity|].
  destruct (Z.eqb_spec (a mod b) 0) as [E0|E0]; nia.
Qed.

Lemma iDivUp_ceiling_witness :
  exists r, iDivUp 7 3 = Ok r /\ (r - 1) * 3 < 7 <= r * 3.
Proof. apply (iDivUp_ceiling 7 3); lia. Defined.

(** * Further properties of the sort *)

Section SmallInputs.

Context {T : Type} (compFunc : T -> T -> bool) (std_sort : list T -> list T).

(** X8: an input of fewer than 192 elements is sorted by one call of the
    sequential sort on the whole range, without a scratch buffer, whatever
    positive thread count is requested or reported by the hardware. *)
Theorem parallelSort_small_input hw (scratch l : list T) threads :
  Z.of_nat (length l) < 192 ->
  1 <= threads \/ (threads = 0 /\ 1 <= hw) ->
  parallelSort compFunc std_sort hw scratch l threads = Ok (std_sort l, None).
Proof.
  intros Hlen Hth. apply parallelSort_one_thread; [lia|].
  unfold effective_threads.
  assert (Hq : (Z.of_nat (length l) + 64) / 128 <= 1).
  { apply Z.lt_succ_r. apply Z.div_lt_upper_bound; lia. }
  assert (Hq0 : 0 <= (Z.of_nat (length l) + 64) / 128) by (apply Z.div_pos; lia).
  destruct Hth as [H1 | [-> H1]].
  - replace (threads =? 0) with false by (symmetry; apply Z.eqb_neq; lia). lia.
  - cbn [Z.eqb]. lia.
Qed.

(** X9: on the empty input [parallelSort] returns the empty buffer and
    allocates no scratch buffer, for every requested thread count and every
    hardware concurrency, zero included. *)
Theorem parallelSort_empty hw (scratch : list T) threads :
  std_sort [] = [] -> 0 <= hw -> 0 <= threads ->
  parallelSort compFunc std_sort hw scratch [] threads = Ok ([], None).
Proof.
  intros Hnil Hhw Hth.
  set (th := if threads =? 0 then hw else threads).
  assert (Hth0 : 0 <= th) by (unfold th; destruct (threads =? 0); lia).
  assert (Et : effective_threads hw (Z.of_nat (length (@nil T))) threads = Z.min th 1).
  { unfold effective_threads. fold th. reflexivity. }
  destruct (Z.eq_dec th 0) as [E0|Hne].
  - unfold parallelSort. rewrite Et, E0. cbn. reflexivity.
  - rewrite <- Hnil at 2. apply parallelSort_one_thread; [cbn; lia|].
    rewrite Et. lia.
Qed.

End SmallInputs.

Lemma parallelSort_small_input_witness :
  parallelSort Z.ltb (insertion_sort Z.ltb) 64 [] (reverse (seqZ 0 191)) 0
  = Ok (insertion_sort Z.ltb (reverse (seqZ 0 191)), None).
Proof.
  apply (parallelSort_small_input Z.ltb (insertion_sort Z.ltb) 64 [] (reverse (seqZ 0 191)) 0).
  - vm_compute. reflexivity.
  - right. split; [reflexivity | lia].
Defined.

Lemma parallelSort_empty_witness :
  parallelSort Z.ltb (insertion_sort Z.ltb) 0 [] [] 0 = Ok ([], None).
Proof.
  apply (parallelSort_empty Z.ltb (insertion_sort Z.ltb) 0 [] 0).
  - reflexivity.
  - lia.
  - lia.
Defined.

(** * The phases of [parallelSort] *)

(** X10: the local sort of segment [i] works on [lb, le) with
    [lb = llround(i * delta)] and [le = llround((i + 1) * delta)]; these
    stay inside the buffer and every segment has [len / t] or
    [len / t + 1] elements: the largest segment is at most one element
    longer than the smallest. *)
Theorem local_segment_lengths (len t i : Z) :
  0 < len -> 1 <= t -> 6 * len * t < 2 ^ 53 -> 0 <= i < t ->
  exists lb le,
    llround (d_mul (d_of_Z i) (d_div (d_of_Z len) (d_of_Z t))) = Ok lb /\
    llround (d_mul (d_of_Z (i + 1)) (d_div (d_of_Z len) (d_of_Z t))) = Ok le /\
    0 <= lb /\ le <= len /\
    len / t <= le - lb <= len / t + 1.
Proof.
  intros Hlen Ht Hb Hi.
  set (G := grid (d_div (d_of_Z len) (d_of_Z t))).
  exists (G i), (G (i + 1)).
  split; [apply G_llround; lia|]. split; [apply G_llround; lia|].
  pose proof (G_range len t Hlen Ht Hb i ltac:(lia)) as R1.
  pose proof (G_range len t Hlen Ht Hb (i + 1) ltac:(lia)) as R2.
  pose proof (G_nearest len t Hlen Ht Hb i ltac:(lia)) as N1.
  pose proof (G_nearest len t Hlen Ht Hb (i + 1) ltac:(lia)) as N2.
  fold G in R1, R2, N1, N2. unfold nearest in N1, N2.
  split; [lia|]. split; [lia|].
  pose proof (Z.div_mod len t ltac:(lia)) as Hdm.
  pose proof (Z.mod_pos_bound len t ltac:(lia)) as Hm.
  remember (len / t) as q eqn:Eq. remember (len mod t) as m eqn:Em.
  clear Eq Em. remember (G i) as a eqn:Ea. remember (G (i + 1)) as b eqn:Eb.
  clear Ea Eb G R1 R2.
  destruct (Z.eq_dec m 0) as [E0|Hne].
  - subst m len.
    replace (t * a - i * (t * q + 0)) with (t * (a - i * q)) in N1 by ring.
    replace (t * b - (i + 1) * (t * q + 0)) with (t * (b - (i + 1) * q)) in N2 by ring.
    rewrite Z.abs_mul, (Z.abs_eq t) in N1, N2 by lia.
    assert (2 * Z.abs (a - i * q) <= 1) by nia.
    assert (2 * Z.abs (b - (i + 1) * q) <= 1) by nia.
    lia.
  - assert (Hd : len - t <= t * (b - a) <= len + t) by lia.
    subst len. split; nia.
Qed.

Lemma local_segment_lengths_witness :
  exists lb le,
    llround (d_mul (d_of_Z 3) (d_div (d_of_Z 1000) (d_of_Z 7))) = Ok lb /\
    llround (d_mul (d_of_Z (3 + 1)) (d_div (d_of_Z 1000) (d_of_Z 7))) = Ok le /\
    0 <= lb /\ le <= 1000 /\
    1000 / 7 <= le - lb <= 1000 / 7 + 1.
Proof.
  apply (local_segment_lengths 1000 7 3).
  - lia.
  - lia.
  - vm_compute. reflexivity.
  - lia.
Defined.

(** X11: when [parallelSort] works with two or more threads, its cap
    [(len + 64) / 128] on the thread count leaves every local-sort segment
    at least 96 elements. *)
Theorem local_segment_min_size (hw len threads i : Z) :
  let t := effective_threads hw len threads in
  2 <= t -> 6 * len * t < 2 ^ 53 -> 0 <= i < t ->
  exists lb le,
    llround (d_mul (d_of_Z i) (d_div (d_of_Z len) (d_of_Z t))) = Ok lb /\
    llround (d_mul (d_of_Z (i + 1)) (d_div (d_of_Z len) (d_of_Z t))) = Ok le /\
    96 <= le - lb.
Proof.
  intros t Ht Hb Hi.
  assert (Hcap : 128 * t <= len + 64).
  { assert (Hq : t <= (len + 64) / 128).
    { unfold t, effective_threads in *.
      destruct (threads =? 0); lia. }
    pose proof (Z.mul_div_le (len + 64) 128 ltac:(lia)). lia. }
  assert (Hlen : 0 < len) by lia.
  destruct (local_segment_lengths len t i Hlen ltac:(lia) Hb Hi)
    as (lb & le & E1 & E2 & _ & _ & Hq & _).
  exists lb, le. split; [exact E1|]. split; [exact E2|].
  assert (96 <= len / t); [|lia].
  apply Z.div_le_lower_bound; lia.
Qed.

Lemma local_segment_min_size_witness :
  exists lb le,
    llround (d_mul (d_of_Z 1)
               (d_div (d_of_Z 192) (d_of_Z (effective_threads 8 192 0)))) = Ok lb /\
    llround (d_mul (d_of_Z (1 + 1))
               (d_div (d_of_Z 192) (d_of_Z (effective_threads 8 192 0)))) = Ok le /\
    96 <= le - lb.
Proof.
  apply (local_segment_min_size 8 192 0 1).
  - vm_compute. discriminate.
  - vm_compute. reflexivity.
  - vm_compute. split; [discriminate | reflexivity].
Defined.

Section LocalPhase.

Context {T : Type} (compFunc : T -> T -> bool) (std_sort : list T -> list T).
Hypothesis std_sort_perm : forall l, std_sort l ≡ₚ l.
Hypothesis std_sort_sorted : forall l, sorted compFunc (std_sort l).

(** X12: the first phase of [parallelSort], the [t] local sorts, returns
    a buffer with the elements of the input in which every segment
    [llround(i * delta), llround((i + 1) * delta)) is sorted. *)
Theorem local_sorts_sorted_segments (len t : Z) (l : list T) :
  0 < len -> 1 <= t -> 6 * len * t < 2 ^ 53 -> 4 * t * t * t < 2 ^ 53 ->
  Z.of_nat (length l) = len ->
  exists b,
    parallelFor 0 t (local_sort std_sort (d_div (d_of_Z len) (d_of_Z t))) t l = Ok b /\
    b ≡ₚ l /\
    forall i, 0 <= i < t ->
      exists lb le,
        llround (d_mul (d_of_Z i) (d_div (d_of_Z len) (d_of_Z t))) = Ok lb /\
        llround (d_mul (d_of_Z (i + 1)) (d_div (d_of_Z len) (d_of_Z t))) = Ok le /\
        sorted compFunc (slice b lb le).
Proof.
  intros Hlen Ht Hb Hc Hl.
  destruct (local_sorts_spec compFunc std_sort std_sort_perm std_sort_sorted
              len t Hlen Ht Hb l Hl Hc) as (b & Eb & Hlenb & Hperm & Hs).
  exists b. split; [exact Eb|].
  rewrite (G_t len t Hlen Ht Hb) in Hperm, Hlenb.
  split.
  - rewrite Hperm, <- Hl, slice_all. reflexivity.
  - intros i Hi. eexists _, _.
    split; [apply G_llround; lia|]. split; [apply G_llround; lia|].
    apply Hs. lia.
Qed.

End LocalPhase.

Lemma local_sorts_sorted_segments_witness :
  exists b,
    parallelFor 0 2 (local_sort (insertion_sort Z.ltb) (d_div (d_of_Z 6) (d_of_Z 2))) 2
      [5; 3; 1; 6; 4; 2] = Ok b /\
    b ≡ₚ [5; 3; 1; 6; 4; 2] /\
    forall i, 0 <= i < 2 ->
      exists lb le,
        llround (d_mul (d_of_Z i) (d_div (d_of_Z 6) (d_of_Z 2))) = Ok lb /\
        llround (d_mul (d_of_Z (i + 1)) (d_div (d_of_Z 6) (d_of_Z 2))) = Ok le /\
        sorted Z.ltb (slice b lb le).
Proof.
  apply (local_sorts_sorted_segments Z.ltb (insertion_sort Z.ltb)
           (insertion_sort_perm Z.ltb) (insertion_sort_sorted Z.ltb Zltb_swo)
           6 2 [5; 3; 1; 6; 4; 2]).
  - lia.
  - lia.
  - vm_compute. reflexivity.
  - vm_compute. reflexivity.
  - reflexivity.
Defined.

(** X13: the segment spacing of merge round [r] is [delta] doubled [r]
    times, and the boundary [llround(k * delta_r)] a round computes is the
    local-sort boundary [llround(k * 2^r * delta)]: merged runs start and
    end exactly where local-sort segments do. *)
Theorem round_boundaries_agree (len t k : Z) (r : nat) :
  0 < len -> 1 <= t -> t <= len -> 6 * len * t < 2 ^ 53 ->
  Z.of_nat r <= 60 -> 0 <= k -> k * 2 ^ Z.of_nat r <= t ->
  exists b,
    llround (d_mul (d_of_Z k) (round_delta (d_div (d_of_Z len) (d_of_Z t)) r)) = Ok b /\
    llround (d_mul (d_of_Z (k * 2 ^ Z.of_nat r)) (d_div (d_of_Z len) (d_of_Z t))) = Ok b /\
    0 <= b <= len.
Proof.
  intros Hlen Ht Htl Hb Hr Hk Hkr.
  set (delta := d_div (d_of_Z len) (d_of_Z t)).
  assert (Hp : 0 < 2 ^ Z.of_nat r) by (apply Z.pow_pos_nonneg; lia).
  exists (grid delta (k * 2 ^ Z.of_nat r)).
  rewrite (round_delta_dscale delta (-105) 1 r) by
    (try apply delta_normal; try lia; assumption).
  split; [apply (G_round len t Hlen Ht Htl Hb (Z.of_nat r) k); lia|].
  split; [apply G_llround; nia | apply G_range; nia].
Qed.

Lemma round_boundaries_agree_witness :
  exists b,
    llround (d_mul (d_of_Z 3) (round_delta (d_div (d_of_Z 1000) (d_of_Z 7)) 1)) = Ok b /\
    llround (d_mul (d_of_Z (3 * 2 ^ Z.of_nat 1)) (d_div (d_of_Z 1000) (d_of_Z 7))) = Ok b /\
    0 <= b <= 1000.
Proof.
  apply (round_boundaries_agree 1000 7 3 1).
  - lia.
  - lia.
  - lia.
  - vm_compute. reflexivity.
  - vm_compute. discriminate.
  - lia.
  - vm_compute. discriminate.
Defined.

(** * The merge rounds of [parallelSort] *)

Lemma iDivUp_inv (a b r : Z) :
  0 <= a -> 0 < b -> iDivUp a b = Ok r -> (r - 1) * b < a <= r * b.
Proof.
  intros Ha Hb. unfold iDivUp.
  replace (b =? 0) with false by (symmetry; apply Z.eqb_neq; lia).
  pose proof (Z.div_mod a b ltac:(lia)) as Hdm.
  pose proof (Z.mod_pos_bound a b ltac:(lia)) as Hm.
  intros E. injection E as <-.
  destruct (Z.eqb_spec (a mod b) 0) as [E0|E0]; nia.
Qed.

(** X14: the thread budget of merge round [r].  With [loops] full pair
    merges and at most one leftover merge, every full merge gets
    [pmThreads >= 1] threads, the leftover merge gets [loThreads], the
    budget adds up to the thread count, [loThreads] never exceeds
    [pmThreads], and it is 0 exactly when the round has no leftover. *)
Theorem round_thread_budget (len t : Z) (r : nat) :
  0 < len -> 1 <= t -> t <= len -> 6 * len * t < 2 ^ 53 -> Z.of_nat r <= 60 ->
  exists p,
    plan_round len t (round_delta (d_div (d_of_Z len) (d_of_Z t)) r) = Ok p /\
    0 <= loops p /\
    loops p * 2 ^ (Z.of_nat r + 1) <= t <= (loops p + 1) * 2 ^ (Z.of_nat r + 1) /\
    (tasks p = loops p \/ tasks p = loops p + 1) /\
    1 <= pmThreads p <= t /\
    0 <= loThreads p <= pmThreads p /\
    loops p * pmThreads p + loThreads p = t /\
    (loThreads p = 0 <-> tasks p = loops p).
Proof.
  intros Hlen Ht Htl Hb Hr.
  assert (Ht' : 0 < t < 2 ^ 53) by nia.
  assert (Hl' : 0 < len < 2 ^ 53) by nia.
  destruct (delta_spec len t Hl' Ht') as [Nd _].
  rewrite (round_delta_dscale _ _ _ r Nd) by lia.
  destruct (plan_round_spec len t (Z.of_nat r) Hlen ltac:(lia) Hb ltac:(lia))
    as (L & lo & pm & Ep & HL0 & HLw & Elo & Hn & Epm & _).
  assert (Hw : 0 < 2 ^ (Z.of_nat r + 1)) by (apply Z.pow_pos_nonneg; lia).
  eexists. split; [exact Ep|]. cbn [loStart loThreads tasks loops pmThreads].
  split; [exact HL0|]. split; [exact HLw|].
  unfold nearest in Hn.
  destruct (Z.ltb_spec lo len) as [Hlt|Hge].
  - assert (Hne : L * 2 ^ (Z.of_nat r + 1) <> t).
    { intros E. rewrite E in Hn. nia. }
    destruct (iDivUp_bound t L _ pm HL0 Hw ltac:(lia) ltac:(lia) Epm) as [B1 B2].
    pose proof (iDivUp_inv t (L + 1) pm ltac:(lia) ltac:(lia) Epm) as B3.
    pose proof (iDivUp_range t (L + 1) pm ltac:(lia) ltac:(lia) Epm) as B4.
    split; [right; reflexivity|]. split; [lia|]. split; [lia|].
    split; [lia|]. split; intros; lia.
  - assert (E : L * 2 ^ (Z.of_nat r + 1) = t).
    { remember (2 ^ (Z.of_nat r + 1)) as w eqn:Ew. clear Ew.
      assert (Hd : len * (t - L * w) + t * (lo - len) = t * lo - L * w * len) by ring.
      assert (H0 : 0 <= t * (lo - len)) by nia.
      assert (H1 : len * (t - L * w) <= t * lo - L * w * len) by lia.
      destruct (Z.eq_dec (L * w) t) as [|Hne]; [assumption|exfalso].
      assert (H2 : len <= len * (t - L * w)) by nia.
      lia. }
    assert (HL1 : 1 <= L) by nia.
    rewrite Z.add_0_r in Epm |- *.
    pose proof (iDivUp_inv t L pm ltac:(lia) ltac:(lia) Epm) as B3.
    pose proof (iDivUp_range t L pm ltac:(lia) ltac:(lia) Epm) as B4.
    assert (Epmw : pm = 2 ^ (Z.of_nat r + 1)) by nia.
    split; [left; reflexivity|]. split; [lia|]. split; [nia|].
    split; [lia|]. split; intros; nia.
Qed.

Lemma round_thread_budget_witness :
  exists p,
    plan_round 2000 13 (round_delta (d_div (d_of_Z 2000) (d_of_Z 13)) 1) = Ok p /\
    0 <= loops p /\
    loops p * 2 ^ (Z.of_nat 1 + 1) <= 13 <= (loops p + 1) * 2 ^ (Z.of_nat 1 + 1) /\
    (tasks p = loops p \/ tasks p = loops p + 1) /\
    1 <= pmThreads p <= 13 /\
    0 <= loThreads p <= pmThreads p /\
    loops p * pmThreads p + loThreads p = 13 /\
    (loThreads p = 0 <-> tasks p = loops p).
Proof.
  apply (round_thread_budget 2000 13 1).
  - lia.
  - lia.
  - lia.
  - vm_compute. reflexivity.
  - vm_compute. discriminate.
Defined.

(** X15: the middle of the leftover merge, [llround(loStart + delta_r)].
    When the leftover part holds more than one run, it is the boundary
    [llround((2 * loops + 1) * delta_r)] a full merge would use and lies
    before the end, so the leftover merge joins two runs; otherwise it is at
    or past the end (the code clips it to [len]) and the leftover merge
    copies a single run. *)
Theorem leftover_mid_boundary (len t : Z) (r : nat) :
  0 < len -> 1 <= t -> t <= len -> len * t < 2 ^ 49 -> Z.of_nat r <= 11 ->
  exists p mid,
    plan_round len t (round_delta (d_div (d_of_Z len) (d_of_Z t)) r) = Ok p /\
    llround (d_add (loStart p) (round_delta (d_div (d_of_Z len) (d_of_Z t)) r)) = Ok mid /\
    if loops p * 2 ^ (Z.of_nat r + 1) + 2 ^ Z.of_nat r <? t
    then llround (d_mul (d_of_Z (2 * loops p + 1))
                    (round_delta (d_div (d_of_Z len) (d_of_Z t)) r)) = Ok mid /\
         mid < len
    else len <= mid.
Proof.
  intros Hlen Ht Htl Hsize Hr.
  assert (Hb : 6 * len * t < 2 ^ 53).
  { change (2 ^ 53) with (16 * 2 ^ 49). lia. }
  assert (Ht' : 0 < t < 2 ^ 53) by nia.
  assert (Hl' : 0 < len < 2 ^ 53) by nia.
  destruct (delta_spec len t Hl' Ht') as [Nd _].
  rewrite (round_delta_dscale _ _ _ r Nd) by lia.
  destruct (plan_round_spec len t (Z.of_nat r) Hlen ltac:(lia) Hb ltac:(lia))
    as (L & lo & pm & Ep & HL0 & HLw & Elo & Hn & Epm & Efl).
  assert (Hp : 0 < 2 ^ Z.of_nat r) by (apply Z.pow_pos_nonneg; lia).
  assert (Ew : 2 ^ (Z.of_nat r + 1) = 2 * 2 ^ Z.of_nat r)
    by (rewrite Z.pow_add_r by lia; lia).
  destruct (Z.ltb_spec (L * 2 ^ (Z.of_nat r + 1) + 2 ^ Z.of_nat r) t) as [Hlt|Hge].
  - eexists. exists (grid (d_div (d_of_Z len) (d_of_Z t))
                       (L * 2 ^ (Z.of_nat r + 1) + 2 ^ Z.of_nat r)).
    split; [exact Ep|]. cbn [loStart loops].
    replace (L * 2 ^ (Z.of_nat r + 1) + 2 ^ Z.of_nat r <? t) with true
      by (symmetry; apply Z.ltb_lt; lia).
    split; [|split].
    + apply leftover_mid_exact; try lia; assumption.
    + replace (L * 2 ^ (Z.of_nat r + 1) + 2 ^ Z.of_nat r)
        with ((2 * L + 1) * 2 ^ Z.of_nat r) by lia.
      apply (G_round len t Hlen Ht Htl Hb (Z.of_nat r) (2 * L + 1)); lia.
    + rewrite <- (G_t len t Hlen Ht Hb) at 2.
      apply (G_strict len t); try lia.
  - destruct (leftover_mid_ge len t (Z.of_nat r) L Hlen Ht Hsize ltac:(lia) HL0
                ltac:(lia) Hge) as (m & Em & Hm).
    eexists. exists m. split; [exact Ep|]. cbn [loStart loops].
    replace (L * 2 ^ (Z.of_nat r + 1) + 2 ^ Z.of_nat r <? t) with false
      by (symmetry; apply Z.ltb_ge; lia).
    split; [exact Em | exact Hm].
Qed.

Lemma leftover_mid_boundary_witness :
  exists p mid,
    plan_round 2000 13 (round_delta (d_div (d_of_Z 2000) (d_of_Z 13)) 1) = Ok p /\
    llround (d_add (loStart p) (round_delta (d_div (d_of_Z 2000) (d_of_Z 13)) 1)) = Ok mid /\
    if loops p * 2 ^ (Z.of_nat 1 + 1) + 2 ^ Z.of_nat 1 <? 13
    then llround (d_mul (d_of_Z (2 * loops p + 1))
                    (round_delta (d_div (d_of_Z 2000) (d_of_Z 13)) 1)) = Ok mid /\
         mid < 2000
    else 2000 <= mid.
Proof.
  apply (leftover_mid_boundary 2000 13 1).
  - lia.
  - lia.
  - lia.
  - vm_compute. reflexivity.
  - vm_compute. discriminate.
Defined.

Section MergeRound.

Context {T : Type} (compFunc : T -> T -> bool).
Hypothesis Hswo : strict_weak_order compFunc.

(** X16: one merge round.  If the source buffer consists of sorted runs of
    [2^r] local-sort segments (the last run possibly shorter), the round
    returns a destination buffer that holds the same elements in sorted runs
    of [2^(r+1)] segments. *)
Theorem merge_round_doubles_runs (len t : Z) (r : nat) (src dst : list T) :
  0 < len -> 1 <= t <= 1023 -> t <= len -> len * t < 2 ^ 49 ->
  Z.of_nat r <= 11 ->
  run_inv compFunc len t (Z.of_nat r) src ->
  Z.of_nat (length dst) = len ->
  exists out,
    merge_round compFunc dst src len t
      (round_delta (d_div (d_of_Z len) (d_of_Z t)) r) = Ok out /\
    run_inv compFunc len t (Z.of_nat r + 1) out /\
    out ≡ₚ src.
Proof.
  intros Hlen Ht Htl Hsize Hr Hinv Hdst.
  assert (Ht' : 0 < t < 2 ^ 53) by nia.
  assert (Hl' : 0 < len < 2 ^ 53) by nia.
  destruct (delta_spec len t Hl' Ht') as [Nd _].
  rewrite (round_delta_dscale _ _ _ r Nd) by lia.
  apply (merge_round_spec compFunc Hswo len t Hlen Ht Htl Hsize src dst (Z.of_nat r));
    [assumption | lia | assumption].
Qed.

End MergeRound.

Lemma merge_round_doubles_runs_witness :
  exists out,
    merge_round Z.ltb [0; 0; 0; 0; 0; 0] [1; 5; 2; 6; 3; 4] 6 3
      (round_delta (d_div (d_of_Z 6) (d_of_Z 3)) 0) = Ok out /\
    run_inv Z.ltb 6 3 (Z.of_nat 0 + 1) out /\
    out ≡ₚ [1; 5; 2; 6; 3; 4].
Proof.
  apply (merge_round_doubles_runs Z.ltb Zltb_swo 6 3 0 [1; 5; 2; 6; 3; 4] [0; 0; 0; 0; 0; 0]).
  - lia.
  - lia.
  - lia.
  - vm_compute. reflexivity.
  - vm_compute. discriminate.
  - split; [reflexivity|]. split.
    + intros j Hj Hj'. change (2 ^ Z.of_nat 0) with 1 in *.
      assert (Ej : j = 0 \/ j = 1 \/ j = 2) by lia.
      destruct Ej as [-> | [-> | ->]]; vm_compute; repeat constructor.
    + intros j Hj Hj'. change (2 ^ Z.of_nat 0) with 1 in *.
      assert (Ej : j = 3) by lia. subst j. vm_compute. constructor.
  - reflexivity.
Defined.

(** * Merging with an empty second range *)

Section SingleRange.

Context {T : Type} (compFunc : T -> T -> bool).
Variables (src : list T) (aOff aCount bOff P dBeg : Z).
Hypothesis Ha : 0 <= aOff.
Hypothesis Hac : 0 < aCount.
Hypothesis Ha' : aOff + aCount <= Z.of_nat (length src).
Hypothesis Hb : 0 <= bOff <= Z.of_nat (length src).
Hypothesis HP : 1 <= P <= 1023.
Hypothesis Hsize : 6 * P * aCount < 2 ^ 53.
Hypothesis Hd : 0 <= dBeg.

Local Abbreviation spacing := (d_div (d_of_Z (aCount + 0)) (d_of_Z P)).
Local Abbreviation g := (grid spacing).

Lemma single_range_grid k :
  0 <= k <= P ->
  llround (d_mul (d_of_Z k) spacing) = Ok (g k) /\ 0 <= g k <= aCount.
Proof.
  intros Hk. rewrite Z.add_0_r.
  split.
  - apply grid_nearest; lia.
  - apply grid_range; lia.
Qed.

Lemma single_range_table :
  exists mpi,
    getMergePaths compFunc ∅ src aOff aCount bOff 0 spacing P = Ok mpi /\
    forall k, 0 <= k <= P -> mpi !! k = Some (g k).
Proof.
  destruct (getMergePaths_spec compFunc src aOff aCount bOff 0 P)
    as (mpi & E & _ & _ & Htab); try lia.
  exists mpi. split; [exact E|].
  intros k Hk. destruct (Htab k Hk) as (v & Ev & (Hr & _)).
  destruct (single_range_grid k Hk) as [_ Hg].
  rewrite Ev. f_equal. lia.
Qed.

Lemma single_range_worker (mpi : gmap Z Z) (dst : list T) k :
  (forall k, 0 <= k <= P -> mpi !! k = Some (g k)) ->
  0 <= k < P -> dBeg + aCount <= Z.of_nat (length dst) ->
  g k <= g (k + 1) ->
  merge_worker compFunc mpi src aOff bOff dBeg spacing k dst
  = Ok (blit dst (dBeg + g k) (slice src (aOff + g k) (aOff + g (k + 1)))).
Proof.
  intros Htab Hk Hroom Hm.
  destruct (single_range_grid k ltac:(lia)) as [Eg Hg].
  destruct (single_range_grid (k + 1) ltac:(lia)) as [Eg1 Hg1].
  unfold merge_worker. rewrite Eg. cbn [bind].
  rewrite (mpi_read_Ok src mpi k (g k)) by (try apply Htab; lia).
  rewrite (mpi_read_Ok src mpi (k + 1) (g (k + 1))) by (try apply Htab; lia). cbn [bind].
  rewrite d_add_one by lia. rewrite Eg1. cbn [bind].
  replace (g k - g k + bOff) with bOff by lia.
  replace (g (k + 1) - g (k + 1) + bOff) with bOff by lia.
  rewrite Z.sub_diag, Z.eqb_refl. cbn [Z.to_nat copy_range].
  replace (g k + aOff) with (aOff + g k) by lia.
  replace (g (k + 1) + aOff) with (aOff + g (k + 1)) by lia.
  destruct (Z.eqb_spec (aOff + g k) (aOff + g (k + 1))) as [Ea|Na].
  - rewrite Ea, slice_nil by lia. rewrite blit_nil by lia. reflexivity.
  - replace (aOff + g (k + 1)) with (aOff + g k + (aOff + g (k + 1) - (aOff + g k))) at 2
      by lia.
    apply copy_range_blit; lia.
Qed.

Lemma single_range_workers (mpi : gmap Z Z) (dst : list T) :
  (forall k, 0 <= k <= P -> mpi !! k = Some (g k)) ->
  dBeg + aCount <= Z.of_nat (length dst) ->
  forall (n : nat) k,
    0 <= k -> k + Z.of_nat n = P ->
    for_loop n (merge_worker compFunc mpi src aOff bOff dBeg spacing) k
      (blit dst dBeg (slice src aOff (aOff + g k)))
    = Ok (blit dst dBeg (slice src aOff (aOff + aCount))).
Proof.
  intros Htab Hroom n. induction n as [|n IH]; intros k Hk Hkn.
  - assert (k = P) by lia. subst k. cbn [for_loop].
    rewrite Z.add_0_r, grid_full by lia. reflexivity.
  - cbn [for_loop].
    destruct (single_range_grid k ltac:(lia)) as [_ Hg].
    destruct (single_range_grid (k + 1) ltac:(lia)) as [_ Hg1].
    assert (Hm : g k <= g (k + 1)).
    { rewrite Z.add_0_r. apply grid_mono; lia. }
    assert (Lk : Z.of_nat (length (slice src aOff (aOff + g k))) = g k)
      by (rewrite slice_length by lia; lia).
    assert (Lp : Z.of_nat (length (slice src (aOff + g k) (aOff + g (k + 1))))
                 = g (k + 1) - g k)
      by (rewrite slice_length by lia; lia).
    rewrite single_range_worker; [|assumption|lia|rewrite blit_length by lia; lia|assumption].
    cbn [bind]. rewrite <- Lk at 2.
    rewrite blit_blit by lia.
    rewrite slice_app by lia.
    apply IH; lia.
Qed.

Lemma single_range_merge (dst : list T) :
  dBeg + aCount <= Z.of_nat (length dst) ->
  parallelMerge compFunc dst src aOff (aOff + aCount - 1) bOff (bOff - 1) dBeg P
  = Ok (blit dst dBeg (slice src aOff (aOff + aCount))).
Proof.
  intros Hroom. unfold parallelMerge, to_size_t.
  rewrite Z.mod_small by lia.
  replace (aOff + aCount - 1 - aOff + 1) with aCount by lia.
  replace (bOff - 1 - bOff + 1) with 0 by lia.
  destruct single_range_table as (mpi & E & Htab).
  rewrite E. cbn [bind].
  rewrite parallelFor_for_loop by (rewrite ?Z.sub_0_r, ?Z.min_id; nia).
  rewrite Z.sub_0_r.
  pose proof (single_range_workers mpi dst Htab Hroom (Z.to_nat P) 0 ltac:(lia) ltac:(lia))
    as Er.
  rewrite Z.add_0_r in Er at 1.
  rewrite grid_0, Z.add_0_r, slice_nil, blit_nil in Er by lia.
  rewrite Z.add_0_r. exact Er.
Qed.

(** X17: [parallelMerge] with an empty second range ([bEnd = bBeg - 1],
    as in the leftover merge whose middle was clipped to the end) copies the
    first range to the destination as it is: the result does not depend on
    the comparator and the range need not be sorted. *)
Theorem parallelMerge_single_range (dst : list T) :
  dBeg + aCount <= Z.of_nat (length dst) ->
  parallelMerge compFunc dst src aOff (aOff + aCount - 1) bOff (bOff - 1) dBeg P
  = Ok (blit dst dBeg (slice src aOff (aOff + aCount))).
Proof. apply single_range_merge. Qed.

End SingleRange.

Lemma parallelMerge_single_range_witness :
  parallelMerge Z.ltb [0; 0; 0; 0; 0; 0] [5; 3; 9; 1] 0 (0 + 4 - 1) 4 (4 - 1) 1 3
  = Ok (blit [0; 0; 0; 0; 0; 0] 1 (slice [5; 3; 9; 1] 0 (0 + 4))).
Proof.
  apply (parallelMerge_single_range Z.ltb [5; 3; 9; 1] 0 4 4 3 1).
  - lia.
  - lia.
  - cbn. lia.
  - cbn. lia.
  - lia.
  - vm_compute. reflexivity.
  - lia.
  - cbn. lia.
Defined.

(** * [parallelSort] against the sequential sort *)

Section AgainstSequential.

Context {T : Type} (compFunc : T -> T -> bool) (std_sort : list T -> list T).
Hypothesis Hswo : strict_weak_order compFunc.
Hypothesis std_sort_perm : forall l, std_sort l ≡ₚ l.
Hypothesis std_sort_sorted : forall l, sorted compFunc (std_sort l).

Lemma parallelSort_run hw (scratch l : list T) threads :
  1 <= effective_threads hw (Z.of_nat (length l)) threads <= 1023 ->
  Z.of_nat (length l) * effective_threads hw (Z.of_nat (length l)) threads < 2 ^ 49 ->
  length scratch = length l ->
  exists out sw,
    parallelSort compFunc std_sort hw scratch l threads = Ok (out, sw) /\
    sorted compFunc out /\ out ≡ₚ l.
Proof.
  intros Ht Hsize Lsc.
  set (len := Z.of_nat (length l)) in *.
  destruct (Z.eq_dec (effective_threads hw len threads) 1) as [E1|Hne].
  - exists (std_sort l), None. split.
    + apply parallelSort_one_thread; [fold len; lia | exact E1].
    + split; [apply std_sort_sorted | apply std_sort_perm].
  - assert (Hcap : 0 < len /\ effective_threads hw len threads <= len).
    { assert (Hq : effective_threads hw len threads <= (len + 64) / 128).
      { unfold effective_threads in *. destruct (threads =? 0); lia. }
      pose proof (Z.mul_div_le (len + 64) 128 ltac:(lia)). lia. }
    destruct Hcap as [Hlen Htl].
    unfold parallelSort. fold len.
    set (t := effective_threads hw len threads) in *.
    destruct (local_sorts_spec compFunc std_sort std_sort_perm std_sort_sorted len t
                Hlen ltac:(lia) ltac:(lia) l eq_refl ltac:(nia)) as (b & Eb & Hc).
    rewrite Eb. cbn [bind].
    destruct (Z.leb_spec t 1) as [|_]; [lia|].
    pose proof (rounds_cover t ltac:(lia) ltac:(lia)) as [Hk Hcov].
    set (k := Z.to_nat ((Z.log2_up t + 1) / 2)) in *.
    pose proof (run_inv_start compFunc len t Hlen ltac:(lia) ltac:(lia) l b eq_refl Hc) as I0.
    destruct (merge_rounds_spec compFunc Hswo len t Hlen ltac:(lia) Htl Hsize k 0 b scratch I0
                ltac:(unfold len; lia) ltac:(lia) ltac:(lia)) as (o & s & E & I & P).
    rewrite dscale_0 in E. rewrite E. cbn [bind fst snd].
    exists o, (Some s). split; [reflexivity|]. split.
    + apply (run_inv_sorted compFunc len t Hlen ltac:(lia) ltac:(lia) (0 + 2 * Z.of_nat k));
        [lia | exact Hcov | exact I].
    + rewrite P. destruct Hc as (_ & Pb & _).
      rewrite Pb, (G_t len t) by lia. unfold len. rewrite slice_all. reflexivity.
Qed.

(** X18: for an ordering in which no two different elements tie,
    [parallelSort] leaves in the original buffer exactly what the
    sequential sort returns on the same input (within the table capacity
    and the range of exact boundaries). *)
Theorem parallelSort_matches_sequential hw (scratch l : list T) threads :
  (forall x y, compFunc x y = false -> compFunc y x = false -> x = y) ->
  1 <= effective_threads hw (Z.of_nat (length l)) threads <= 1023 ->
  Z.of_nat (length l) * effective_threads hw (Z.of_nat (length l)) threads < 2 ^ 49 ->
  length scratch = length l ->
  exists sw,
    parallelSort compFunc std_sort hw scratch l threads = Ok (std_sort l, sw).
Proof.
  intros Hanti Ht Hsize Lsc.
  destruct (parallelSort_run hw scratch l threads Ht Hsize Lsc) as (out & sw & E & S & P).
  exists sw. rewrite E. do 2 f_equal.
  apply (sorted_unique compFunc); auto.
  rewrite P. symmetry. apply std_sort_perm.
Qed.

End AgainstSequential.

Lemma Zltb_total (x y : Z) : (x <? y) = false -> (y <? x) = false -> x = y.
Proof. intros H1 H2. apply Z.ltb_ge in H1. apply Z.ltb_ge in H2. lia. Qed.

Lemma parallelSort_matches_sequential_witness :
  exists sw,
    parallelSort Z.ltb (insertion_sort Z.ltb) 8 (replicate 256 0)
      (reverse (seqZ 0 256)) 2
    = Ok (insertion_sort Z.ltb (reverse (seqZ 0 256)), sw).
Proof.
  apply (parallelSort_matches_sequential Z.ltb (insertion_sort Z.ltb) Zltb_swo
           (insertion_sort_perm Z.ltb) (insertion_sort_sorted Z.ltb Zltb_swo)).
  - exact Zltb_total.
  - vm_compute. split; discriminate.
  - vm_compute. reflexivity.
  - vm_compute. reflexivity.
Defined.

(** * The verification code of the test program *)

Section VerifierFacts.

Context {T : Type} (neq : T -> T -> bool).
Hypothesis neq_spec : forall a b, neq a b = false <-> a = b.

Lemma verify_loop (test_data reference : list T) (n : nat) : forall i c,
  0 <= i ->
  i + Z.of_nat n <= Z.of_nat (length test_data) ->
  i + Z.of_nat n <= Z.of_nat (length reference) ->
  0 <= c -> c + Z.of_nat n < 2 ^ 64 ->
  exists c',
    for_loop n (verify_step neq test_data reference) i c = Ok c' /\
    c <= c' <= c + Z.of_nat n /\
    (c' = c <->
     forall lc, i <= lc < i + Z.of_nat n ->
       test_data !! Z.to_nat lc = reference !! Z.to_nat lc).
Proof.
  induction n as [|n IH]; intros i c Hi Ht Hr Hc Hb.
  - exists c. cbn [for_loop]. split; [reflexivity|]. split; [lia|].
    split; [intros _ lc Hlc; lia | reflexivity].
  - cbn [for_loop]. unfold verify_step at 1. unfold rd.
    replace (0 <=? i) with true by (symmetry; apply Z.leb_le; lia).
    destruct (lookup_lt_is_Some_2 test_data (Z.to_nat i) ltac:(lia)) as [a Ea].
    destruct (lookup_lt_is_Some_2 reference (Z.to_nat i) ltac:(lia)) as [b Eb].
    rewrite Ea, Eb. cbn [of_option bind].
    set (c1 := if neq a b then to_size_t (c + 1) else c).
    assert (Hc1 : c <= c1 <= c + 1 /\ (c1 = c <-> a = b)).
    { unfold c1, to_size_t. destruct (neq a b) eqn:En.
      - rewrite Z.mod_small by lia. split; [lia|]. split; [lia|].
        intros Eab. apply neq_spec in Eab. congruence.
      - split; [lia|]. split; [intros _; apply neq_spec; exact En | reflexivity]. }
    destruct Hc1 as [Hr1 Heq1].
    destruct (IH (i + 1) c1 ltac:(lia) ltac:(lia) ltac:(lia) ltac:(lia) ltac:(lia))
      as (c' & E & Hr' & Heq').
    exists c'. split; [exact E|]. split; [lia|]. split.
    + intros Ec lc Hlc.
      assert (Ec1 : c1 = c) by lia.
      destruct (Z.eq_dec lc i) as [->|Hne].
      * rewrite Ea, Eb. f_equal. apply Heq1. exact Ec1.
      * apply Heq'; lia.
    + intros Hall.
      assert (Eab : a = b).
      { pose proof (Hall i ltac:(lia)) as Hi'. rewrite Ea, Eb in Hi'. congruence. }
      assert (Ec1 : c1 = c) by (apply Heq1; exact Eab).
      rewrite <- Ec1. apply Heq'. intros lc Hlc. apply Hall. lia.
Qed.

Lemma sortVerifier_spec (test_data reference : list T) (test_size : Z) :
  1 <= test_size < 2 ^ 45 ->
  test_size <= Z.of_nat (length test_data) ->
  test_size <= Z.of_nat (length reference) ->
  exists failed,
    sortVerifier neq test_data reference test_size = Ok failed /\
    (failed = false <->
     forall lc, 1 <= lc < test_size ->
       test_data !! Z.to_nat lc = reference !! Z.to_nat lc).
Proof.
  intros Hn Ht Hr. unfold sortVerifier, to_size_t.
  assert (H45 : 2 ^ 45 < 2 ^ 64) by (apply Z.pow_lt_mono_r; lia).
  rewrite Z.mod_small by lia.
  replace (1 + (test_size - 1)) with test_size by lia.
  rewrite parallelFor_for_loop.
  - destruct (verify_loop test_data reference (Z.to_nat (test_size - 1)) 1 0)
      as (c & E & Hc & Heq); try lia.
    rewrite E. cbn [bind]. exists (c >? 0). split; [reflexivity|].
    rewrite Z2Nat.id in Heq by lia.
    replace (1 + (test_size - 1)) with test_size in Heq by lia.
    rewrite <- Heq. split.
    + intros Hf. destruct (Z.gtb_spec c 0); [discriminate | lia].
    + intros ->. reflexivity.
  - lia.
  - lia.
  - assert (Hs : 0 <= Z.min 8 (test_size - 1) <= 8) by lia.
    assert (Hss : Z.min 8 (test_size - 1) * Z.min 8 (test_size - 1) <= 64) by nia.
    change (2 ^ 53) with (256 * 2 ^ 45). nia.
Qed.

(** X19: [sortVerifier] reports a failure exactly when the two arrays
    differ at some index from 1 on: the loop starts at 1, so the elements at
    index 0 are never compared. *)
Theorem sortVerifier_from_index_one (test_data reference : list T) (test_size : Z) :
  1 <= test_size < 2 ^ 45 ->
  test_size <= Z.of_nat (length test_data) ->
  test_size <= Z.of_nat (length reference) ->
  exists failed,
    sortVerifier neq test_data reference test_size = Ok failed /\
    (failed = false <->
     forall lc, 1 <= lc < test_size ->
       test_data !! Z.to_nat lc = reference !! Z.to_nat lc).
Proof. apply sortVerifier_spec. Qed.

(** X20: with [test_size = 0] the iteration count [test_size - 1] of
    [sortVerifier] wraps around in [size_t] to [2^64 - 1]; the segment
    boundaries of [parallelFor] then reach [2^63], which no [int64_t]
    holds, and the call has no defined result, whatever the arrays are. *)
Theorem sortVerifier_zero_size (test_data reference : list T) :
  to_size_t (0 - 1) = 2 ^ 64 - 1 /\
  sortVerifier neq test_data reference 0 = UB.
Proof.
  split; [reflexivity|].
  unfold sortVerifier, parallelFor.
  replace (1 + to_size_t (0 - 1) - 1) with 18446744073709551615 by reflexivity.
  assert (Es : segments 18446744073709551615 8 = UB) by (vm_compute; reflexivity).
  rewrite Es. reflexivity.
Qed.

End VerifierFacts.

Lemma int64_neq_spec (a b : Z) : int64_neq a b = false <-> a = b.
Proof.
  unfold int64_neq. destruct (Z.eqb_spec a b); cbn; split; intros; congruence.
Qed.

Lemma sortVerifier_from_index_one_witness :
  exists failed,
    sortVerifier int64_neq [9; 2; 3] [1; 2; 3] 3 = Ok failed /\
    (failed = false <->
     forall lc, 1 <= lc < 3 ->
       [9; 2; 3] !! Z.to_nat lc = [1; 2; 3] !! Z.to_nat lc).
Proof.
  apply (sortVerifier_from_index_one int64_neq int64_neq_spec [9; 2; 3] [1; 2; 3] 3).
  - split; [lia | reflexivity].
  - cbn. lia.
  - cbn. lia.
Defined.

(** X21: the random data of [generateData] is never produced: the loop
    that makes some values equal starts with [i = 0] and reads
    [source_data[test_size]], one past the end of the array. *)
Theorem generateData_random_out_of_bounds (rnd : list Z) (test_size : Z) :
  1 <= test_size -> test_size <= Z.of_nat (length rnd) ->
  generateData rnd test_size dtRandom = UB.
Proof.
  intros Hn Hr. unfold generateData.
  replace (Z.to_nat test_size + 1)%nat with (Datatypes.S (Z.to_nat test_size)) by lia.
  cbn [equalize].
  replace (0 <? test_size) with true by (symmetry; apply Z.ltb_lt; lia).
  unfold rd. rewrite Z.sub_0_r.
  replace (0 <=? test_size) with true by (symmetry; apply Z.leb_le; lia).
  rewrite lookup_ge_None_2 by (rewrite length_take; lia).
  reflexivity.
Qed.

Lemma generateData_random_out_of_bounds_witness :
  generateData [5; 7; 1] 3 dtRandom = UB.
Proof.
  apply (generateData_random_out_of_bounds [5; 7; 1] 3).
  - lia.
  - cbn. lia.
Defined.

(** * The integer test cases *)



Section SortCaseFacts.

Variable std_sort : (Z -> Z -> bool) -> list Z -> list Z.
Hypothesis std_sort_perm : forall comp l, std_sort comp l ≡ₚ l.
Hypothesis std_sort_sorted :
  forall comp, strict_weak_order comp -> forall l, sorted comp (std_sort comp l).



End SortCaseFacts.


(** * The balanced variant of [parallelSort] *)

Section BalancedLevel.

Context {T : Type} (compFunc : T -> T -> bool).
Hypothesis Hswo : strict_weak_order compFunc.

Variables (len t : Z).
Hypothesis Hlen : 0 < len.
Hypothesis Ht : 1 <= t <= 1023.
Hypothesis Htl : t <= len.
Hypothesis Hsize : len * t < 2 ^ 49.

Local Abbreviation delta := (d_div (d_of_Z len) (d_of_Z t)).
Local Abbreviation G := (grid delta).
Local Abbreviation Bd r := (fun j => G (Z.min (j * 2 ^ (r + 1)) t)).

Lemma lv_llround k : 0 <= k <= t -> llround (d_mul (d_of_Z k) delta) = Ok (G k).
Proof. intros. apply G_llround; lia. Qed.

Lemma lv_range k : 0 <= k <= t -> 0 <= G k <= len.
Proof. intros. apply G_range; lia. Qed.

Lemma lv_strict k k' : 0 <= k -> k < k' -> k' <= t -> G k < G k'.
Proof. intros. apply G_strict; lia. Qed.

Lemma lv_mono k k' : 0 <= k -> k <= k' -> k' <= t -> G k <= G k'.
Proof. intros. apply G_mono; lia. Qed.

Lemma lv_0 : G 0 = 0.
Proof. apply G_0; lia. Qed.

Lemma lv_t : G t = len.
Proof. apply G_t; lia. Qed.

(** A boundary index beyond the last segment gives a position at or
    beyond the end of the buffer. *)
Lemma lv_beyond k :
  t <= k -> k <= 2 * t ->
  exists m, llround (d_mul (d_of_Z k) delta) = Ok m /\ len <= m.
Proof.
  intros Hk Hk2.
  assert (H49 : 2 ^ 53 = 16 * 2 ^ 49) by reflexivity.
  assert (Hl : len < 2 ^ 49) by nia.
  assert (Hkl : 6 * k * len < 2 ^ 53) by nia.
  destruct (index_nearest len t k) as (m & E & Hn); try lia.
  exists m. split; [exact E|]. nia.
Qed.

Lemma pair_merge (src dst : list T) r i :
  run_inv compFunc len t r src -> 0 <= r <= 11 -> 0 <= i ->
  (i + 1) * 2 ^ (r + 1) <= t ->
  Z.of_nat (length dst) = len ->
  exists run,
    parallelMerge compFunc dst src (G (i * 2 ^ (r + 1)))
      (G (i * 2 ^ (r + 1) + 2 ^ r) - 1) (G (i * 2 ^ (r + 1) + 2 ^ r))
      (G ((i + 1) * 2 ^ (r + 1)) - 1) (G (i * 2 ^ (r + 1))) t
    = Ok (blit dst (G (i * 2 ^ (r + 1))) run) /\
    sorted compFunc run /\
    run ≡ₚ slice src (G (i * 2 ^ (r + 1))) (G ((i + 1) * 2 ^ (r + 1))).
Proof.
  intros (Ls & Hruns & _) Hr Hi Hiw Ld.
  assert (Hp : 0 < 2 ^ r) by (apply Z.pow_pos_nonneg; lia).
  pose proof (pow_succ2 r ltac:(lia)) as Ew.
  set (lb := G (i * 2 ^ (r + 1))). set (lm := G (i * 2 ^ (r + 1) + 2 ^ r)).
  set (le := G ((i + 1) * 2 ^ (r + 1))).
  assert (Hb0 : 0 <= lb) by (apply lv_range; nia).
  assert (Hbm : lb < lm) by (unfold lb, lm; apply lv_strict; nia).
  assert (Hme : lm < le) by (unfold le, lm; apply lv_strict; nia).
  assert (Hel : le <= len) by (apply lv_range; nia).
  assert (SA : sorted compFunc (slice src lb (lb + (lm - lb)))).
  { replace (lb + (lm - lb)) with lm by lia.
    pose proof (Hruns (2 * i) ltac:(lia) ltac:(nia)) as S.
    replace (2 * i * 2 ^ r) with (i * 2 ^ (r + 1)) in S by (rewrite Ew; ring).
    replace ((2 * i + 1) * 2 ^ r) with (i * 2 ^ (r + 1) + 2 ^ r) in S by (rewrite Ew; ring).
    exact S. }
  assert (SB : sorted compFunc (slice src lm (lm + (le - lm)))).
  { replace (lm + (le - lm)) with le by lia.
    pose proof (Hruns (2 * i + 1) ltac:(lia) ltac:(nia)) as S.
    replace ((2 * i + 1) * 2 ^ r) with (i * 2 ^ (r + 1) + 2 ^ r) in S by (rewrite Ew; ring).
    replace ((2 * i + 1 + 1) * 2 ^ r) with ((i + 1) * 2 ^ (r + 1)) in S by (rewrite Ew; ring).
    exact S. }
  destruct (parallelMerge_run compFunc Hswo src lb (lm - lb) lm (le - lm) t
              ltac:(lia) ltac:(lia) ltac:(lia) ltac:(lia) ltac:(lia) ltac:(lia) ltac:(lia)
              ltac:(lia) ltac:(change (2 ^ 53) with (16 * 2 ^ 49); nia) SA SB dst lb
              ltac:(lia) ltac:(lia))
    as (run & E & L & S & P).
  replace (lb + (lm - lb) - 1) with (lm - 1) in E by lia.
  replace (lm + (le - lm) - 1) with (le - 1) in E by lia.
  exists run. split; [exact E|]. split; [exact S|].
  rewrite P. replace (lb + (lm - lb)) with lm by lia.
  replace (lm + (le - lm)) with le by lia. rewrite slice_app by lia. reflexivity.
Qed.

Lemma balanced_pairs_run (src dst : list T) r L :
  run_inv compFunc len t r src -> 0 <= r <= 11 -> 0 <= L ->
  L * 2 ^ (r + 1) <= t -> t < (L + 1) * 2 ^ (r + 1) ->
  Z.of_nat (length dst) = len ->
  forall (fuel : nat) i pre,
    0 <= i <= L -> (Z.to_nat (L - i) < fuel)%nat ->
    chain compFunc (Bd r) i pre src ->
    exists pre',
      balanced_pairs compFunc fuel (blit dst 0 pre) src t (2 ^ r) delta
        (i * 2 ^ (r + 1)) ((i + 1) * 2 ^ (r + 1))
      = Ok (blit dst 0 pre', L * 2 ^ (r + 1), (L + 1) * 2 ^ (r + 1)) /\
      chain compFunc (Bd r) L pre' src.
Proof.
  intros Hinv Hr HL HLw HLw' Ld fuel.
  assert (Hp : 0 < 2 ^ r) by (apply Z.pow_pos_nonneg; lia).
  pose proof (pow_succ2 r ltac:(lia)) as Ew.
  assert (Hw : 0 < 2 ^ (r + 1)) by lia.
  induction fuel as [|f IH]; intros i pre Hi Hf Hc; [lia|].
  cbn [balanced_pairs].
  destruct (Z.leb_spec ((i + 1) * 2 ^ (r + 1)) t) as [Hle|Hgt].
  - assert (HiL : i < L) by nia.
    rewrite (lv_llround (i * 2 ^ (r + 1))) by nia.
    rewrite (lv_llround (i * 2 ^ (r + 1) + 2 ^ r)) by nia.
    rewrite (lv_llround ((i + 1) * 2 ^ (r + 1))) by nia.
    cbn [bind].
    assert (Ei : Z.min (i * 2 ^ (r + 1)) t = i * 2 ^ (r + 1)) by nia.
    assert (Ei1 : Z.min ((i + 1) * 2 ^ (r + 1)) t = (i + 1) * 2 ^ (r + 1)) by nia.
    assert (Ls : Z.of_nat (length src) = len) by (destruct Hinv; assumption).
    pose proof (lv_range (i * 2 ^ (r + 1)) ltac:(nia)) as R0.
    pose proof (lv_range ((i + 1) * 2 ^ (r + 1)) ltac:(nia)) as R1.
    pose proof (lv_mono (i * 2 ^ (r + 1)) ((i + 1) * 2 ^ (r + 1)) ltac:(nia) ltac:(nia)
                  ltac:(nia)) as M.
    destruct Hc as (Lp & Pp & Sp). cbv beta in Lp. rewrite Ei in Lp.
    destruct (pair_merge src (blit dst 0 pre) r i Hinv Hr ltac:(lia) Hle)
      as (run & E & S & P).
    { rewrite blit_length by lia. exact Ld. }
    rewrite E. cbn [bind].
    assert (Lr : Z.of_nat (length run)
                 = G ((i + 1) * 2 ^ (r + 1)) - G (i * 2 ^ (r + 1))).
    { rewrite P, slice_length by lia. lia. }
    pose proof (blit_blit dst 0 pre run ltac:(lia) ltac:(lia)) as Eb.
    rewrite Z.add_0_l, Lp in Eb. rewrite Eb.
    replace ((i + 1) * 2 ^ (r + 1) + 2 * 2 ^ r) with ((i + 1 + 1) * 2 ^ (r + 1))
      by (rewrite Ew; ring).
    apply IH; try lia.
    apply (chain_step compFunc (Bd r) i pre run src); try lia.
    + intros j j' Hj Hjj _. apply lv_mono; nia.
    + cbv beta. rewrite Z.mul_0_l, Z.min_l by lia. rewrite lv_0. lia.
    + split; [cbv beta; rewrite Ei; exact Lp|]. split; assumption.
    + exact S.
    + cbv beta. rewrite Ei, Ei1. exact P.
    + cbv beta. rewrite Ei1. lia.
  - assert (i = L) by nia. subst i. exists pre. split; [reflexivity | exact Hc].
Qed.

(** The leftover of a level: the last run, whole or partial, and what
    is behind it. *)
Lemma balanced_leftover (src dst : list T) r L :
  run_inv compFunc len t r src -> 0 <= r <= 11 -> 2 ^ r < 2 * t -> 0 <= L ->
  L * 2 ^ (r + 1) < t -> t < (L + 1) * 2 ^ (r + 1) ->
  Z.of_nat (length dst) = len ->
  exists run,
    (do lm <- llround (d_mul (d_of_Z (L * 2 ^ (r + 1) + 2 ^ r)) delta);
     parallelMerge compFunc dst src (G (L * 2 ^ (r + 1)))
       ((if lm >? len then len else lm) - 1) (if lm >? len then len else lm) (len - 1)
       (G (L * 2 ^ (r + 1))) t)
    = Ok (blit dst (G (L * 2 ^ (r + 1))) run) /\
    sorted compFunc run /\
    run ≡ₚ slice src (G (L * 2 ^ (r + 1))) len.
Proof.
  intros (Ls & Hruns & Htail) Hr Hrt HL HLw HLw' Ld.
  assert (Hp : 0 < 2 ^ r) by (apply Z.pow_pos_nonneg; lia).
  pose proof (pow_succ2 r ltac:(lia)) as Ew.
  set (lo := G (L * 2 ^ (r + 1))).
  assert (Hlo : 0 <= lo < len).
  { unfold lo. pose proof (lv_range (L * 2 ^ (r + 1)) ltac:(nia)).
    pose proof (lv_strict (L * 2 ^ (r + 1)) t ltac:(nia) ltac:(lia) ltac:(lia)).
    rewrite lv_t in *. lia. }
  assert (Hsz : forall n, 0 <= n <= len -> 6 * t * n < 2 ^ 53).
  { intros n Hn. change (2 ^ 53) with (16 * 2 ^ 49). nia. }
  destruct (Z_le_gt_dec t (L * 2 ^ (r + 1) + 2 ^ r)) as [HK|HK].
  - assert (Emid : exists m, llround (d_mul (d_of_Z (L * 2 ^ (r + 1) + 2 ^ r)) delta) = Ok m /\
                             (if m >? len then len else m) = len).
    { destruct (lv_beyond (L * 2 ^ (r + 1) + 2 ^ r) HK) as (m & Em & Hm).
      - destruct (Z.eq_dec L 0) as [->|HL0]; [lia | nia].
      - exists m. split; [exact Em|]. destruct (Z.gtb_spec m len); lia. }
    destruct Emid as (m & Em & Emid). rewrite Em. cbn [bind]. rewrite Emid.
    assert (SA : sorted compFunc (slice src lo (lo + (len - lo)))).
    { replace (lo + (len - lo)) with len by lia. unfold lo.
      replace (L * 2 ^ (r + 1)) with (2 * L * 2 ^ r) by (rewrite Ew; ring).
      destruct (Z.eq_dec t (L * 2 ^ (r + 1) + 2 ^ r)) as [Et|Hne].
      + pose proof (Hruns (2 * L) ltac:(lia) ltac:(nia)) as S.
        replace ((2 * L + 1) * 2 ^ r) with t in S by (rewrite Et, Ew; ring).
        rewrite lv_t in S. exact S.
      + apply Htail; nia. }
    assert (SB : sorted compFunc (slice src len (len + 0))).
    { rewrite slice_nil by lia. constructor. }
    destruct (parallelMerge_run compFunc Hswo src lo (len - lo) len 0 t
                ltac:(lia) ltac:(lia) ltac:(lia) ltac:(lia) ltac:(lia) ltac:(lia) ltac:(lia)
                ltac:(lia) ltac:(apply Hsz; lia) SA SB dst lo ltac:(lia) ltac:(lia))
      as (run & E & Lr & S & P).
    replace (lo + (len - lo) - 1) with (len - 1) in E by lia.
    replace (len + 0 - 1) with (len - 1) in E by lia.
    exists run. split; [exact E|]. split; [exact S|].
    rewrite P. replace (lo + (len - lo)) with len by lia.
    rewrite (slice_nil src len) by lia. rewrite app_nil_r. reflexivity.
  - rewrite (lv_llround (L * 2 ^ (r + 1) + 2 ^ r)) by nia.
    cbn [bind].
    set (mid := G (L * 2 ^ (r + 1) + 2 ^ r)).
    assert (Hmid : lo < mid < len).
    { unfold lo, mid. split.
      - apply lv_strict; nia.
      - rewrite <- lv_t at 2. apply lv_strict; nia. }
    assert (Emid : (if mid >? len then len else mid) = mid).
    { destruct (Z.gtb_spec mid len); lia. }
    rewrite Emid.
    assert (SA : sorted compFunc (slice src lo (lo + (mid - lo)))).
    { replace (lo + (mid - lo)) with mid by lia. unfold lo, mid.
      pose proof (Hruns (2 * L) ltac:(lia) ltac:(nia)) as S.
      replace (2 * L * 2 ^ r) with (L * 2 ^ (r + 1)) in S by (rewrite Ew; ring).
      replace ((2 * L + 1) * 2 ^ r) with (L * 2 ^ (r + 1) + 2 ^ r) in S by (rewrite Ew; ring).
      exact S. }
    assert (SB : sorted compFunc (slice src mid (mid + (len - mid)))).
    { replace (mid + (len - mid)) with len by lia. unfold mid.
      replace (L * 2 ^ (r + 1) + 2 ^ r) with ((2 * L + 1) * 2 ^ r) by (rewrite Ew; ring).
      apply Htail; nia. }
    destruct (parallelMerge_run compFunc Hswo src lo (mid - lo) mid (len - mid) t
                ltac:(lia) ltac:(lia) ltac:(lia) ltac:(lia) ltac:(lia) ltac:(lia) ltac:(lia)
                ltac:(lia) ltac:(apply Hsz; lia) SA SB dst lo ltac:(lia) ltac:(lia))
      as (run & E & Lr & S & P).
    replace (lo + (mid - lo) - 1) with (mid - 1) in E by lia.
    replace (mid + (len - mid) - 1) with (len - 1) in E by lia.
    exists run. split; [exact E|]. split; [exact S|].
    rewrite P. replace (lo + (mid - lo)) with mid by lia.
    replace (mid + (len - mid)) with len by lia. rewrite slice_app by lia. reflexivity.
Qed.

(** One level of the balanced variant doubles the runs, as a merge round
    does. *)
Lemma balanced_level_spec (src dst : list T) r :
  run_inv compFunc len t r src -> 0 <= r <= 11 -> 2 ^ r < 2 * t ->
  Z.of_nat (length dst) = len ->
  exists out,
    balanced_level compFunc dst src len t (2 ^ r) delta = Ok out /\
    run_inv compFunc len t (r + 1) out /\ out ≡ₚ src.
Proof.
  intros Hinv Hr Hrt Ld.
  assert (Ls : Z.of_nat (length src) = len) by (destruct Hinv; assumption).
  assert (Hp : 0 < 2 ^ r) by (apply Z.pow_pos_nonneg; lia).
  pose proof (pow_succ2 r ltac:(lia)) as Ew.
  assert (Hw : 0 < 2 ^ (r + 1)) by lia.
  set (L := t / 2 ^ (r + 1)).
  assert (HL : 0 <= L /\ L * 2 ^ (r + 1) <= t /\ t < (L + 1) * 2 ^ (r + 1)).
  { pose proof (Z.div_mod t (2 ^ (r + 1)) ltac:(lia)) as Hdm.
    pose proof (Z.mod_pos_bound t (2 ^ (r + 1)) ltac:(lia)) as Hm.
    fold L in Hdm. split; [apply Z.div_pos; lia|]. split; nia. }
  destruct HL as (HL0 & HLw & HLw').
  unfold balanced_level.
  destruct (balanced_pairs_run src dst r L Hinv Hr HL0 HLw HLw' Ld (Z.to_nat t + 1) 0 [])
    as (pre & E & Hc).
  - lia.
  - assert (L <= t) by nia. lia.
  - apply chain_start. cbv beta. rewrite Z.mul_0_l, Z.min_l by lia. apply lv_0.
  - rewrite blit_nil, Z.mul_0_l in E by lia.
    replace ((0 + 1) * 2 ^ (r + 1)) with (2 * 2 ^ r) in E by (rewrite Ew; ring).
    rewrite E. cbn [bind]. cbv iota beta.
    assert (Lp : Z.of_nat (length pre) = G (L * 2 ^ (r + 1))).
    { destruct Hc as (Lp & _). cbv beta in Lp. rewrite Z.min_l in Lp by lia. exact Lp. }
    pose proof (lv_range (L * 2 ^ (r + 1)) ltac:(nia)) as Rlo.
    replace ((L + 1) * 2 ^ (r + 1) >? t) with true
      by (symmetry; apply Z.gtb_lt; lia).
    cbn [andb].
    destruct (Z.ltb_spec (L * 2 ^ (r + 1)) t) as [Hlt|Hge].
    + rewrite (lv_llround (L * 2 ^ (r + 1))) by nia. cbn [bind].
      destruct (balanced_leftover src (blit dst 0 pre) r L Hinv Hr Hrt HL0 Hlt HLw')
        as (run & El & Sr & Pr).
      { rewrite blit_length by lia. exact Ld. }
      cbv zeta. rewrite El.
      assert (Lr : Z.of_nat (length run) = len - G (L * 2 ^ (r + 1))).
      { rewrite Pr, slice_length by lia. lia. }
      pose proof (blit_blit dst 0 pre run ltac:(lia) ltac:(lia)) as Eb.
      rewrite Z.add_0_l, Lp in Eb. rewrite Eb.
      rewrite blit_full by (rewrite length_app; lia).
      exists (pre ++ run). split; [reflexivity|].
      apply (round_result compFunc len t Hlen Ht Hsize src pre run r L); auto; lia.
    + assert (Et : L * 2 ^ (r + 1) = t) by lia.
      assert (Elo : G (L * 2 ^ (r + 1)) = len) by (rewrite Et; apply lv_t).
      rewrite blit_full by lia.
      exists pre. split; [reflexivity|].
      rewrite <- (app_nil_r pre).
      apply (round_result compFunc len t Hlen Ht Hsize src pre [] r L); auto; try lia.
      * constructor.
      * rewrite Elo, slice_nil by lia. reflexivity.
Qed.

Lemma balanced_rounds_spec (k : nat) : forall r (orig swap : list T),
  run_inv compFunc len t r orig -> Z.of_nat (length swap) = len ->
  0 <= r -> r + 2 * Z.of_nat k <= 12 -> 2 ^ (r + 2 * Z.of_nat k) < 4 * t \/ k = O ->
  exists orig' swap',
    balanced_rounds compFunc k orig swap len t (2 ^ r) delta = Ok (orig', swap') /\
    run_inv compFunc len t (r + 2 * Z.of_nat k) orig' /\ orig' ≡ₚ orig.
Proof.
  induction k as [|k IH]; intros r orig swap Hinv Lsw Hr Hrk Hcap.
  - exists orig, swap. cbn [balanced_rounds]. replace (r + 2 * Z.of_nat 0) with r by lia.
    auto.
  - cbn [balanced_rounds].
    destruct Hcap as [Hcap|]; [|discriminate].
    assert (Hp : 0 < 2 ^ r) by (apply Z.pow_pos_nonneg; lia).
    assert (Hpk : 2 ^ (r + 2 * Z.of_nat (Datatypes.S k)) = 2 ^ r * 4 * 4 ^ Z.of_nat k).
    { replace (r + 2 * Z.of_nat (Datatypes.S k)) with (r + 2 + 2 * Z.of_nat k) by lia.
      rewrite !Z.pow_add_r, Z.pow_mul_r by lia. reflexivity. }
    assert (Hk4 : 0 < 4 ^ Z.of_nat k) by (apply Z.pow_pos_nonneg; lia).
    assert (Lo : Z.of_nat (length orig) = len) by (destruct Hinv; assumption).
    destruct (balanced_level_spec orig swap r Hinv ltac:(lia) ltac:(nia) Lsw)
      as (swap' & E1 & I1 & P1).
    rewrite E1. cbn [bind].
    replace (2 ^ r * 2) with (2 ^ (r + 1)) by (rewrite Z.pow_add_r by lia; lia).
    destruct (balanced_level_spec swap' orig (r + 1) I1 ltac:(lia)
                ltac:(rewrite Z.pow_add_r by lia; nia) Lo)
      as (orig' & E2 & I2 & P2).
    rewrite E2. cbn [bind].
    replace (2 ^ (r + 1) * 2) with (2 ^ (r + 1 + 1)) by (rewrite (Z.pow_add_r _ (r + 1)) by lia; lia).
    assert (Ls' : Z.of_nat (length swap') = len) by (destruct I1; assumption).
    destruct (IH (r + 1 + 1) orig' swap' I2 Ls' ltac:(lia) ltac:(lia))
      as (o & s & E3 & I3 & P3).
    { destruct k as [|k']; [right; reflexivity | left].
      replace (r + 1 + 1 + 2 * Z.of_nat (Datatypes.S k'))
        with (r + 2 * Z.of_nat (Datatypes.S (Datatypes.S k'))) by lia.
      exact Hcap. }
    exists o, s. split; [exact E3|]. split.
    + replace (r + 2 * Z.of_nat (Datatypes.S k)) with (r + 1 + 1 + 2 * Z.of_nat k) by lia.
      exact I3.
    + rewrite P3, P2, P1. reflexivity.
Qed.

End BalancedLevel.

Section BalancedSort.

Context {T : Type} (compFunc : T -> T -> bool) (std_sort : list T -> list T).
Hypothesis Hswo : strict_weak_order compFunc.
Hypothesis std_sort_perm : forall l, std_sort l ≡ₚ l.
Hypothesis std_sort_sorted : forall l, sorted compFunc (std_sort l).

(** With one thread the two variants are the same code. *)
Lemma parallelSort_balanced_one_thread hw (scratch l : list T) threads :
  effective_threads hw (Z.of_nat (length l)) threads <= 1 ->
  parallelSort_balanced compFunc std_sort hw scratch l threads
  = parallelSort compFunc std_sort hw scratch l threads.
Proof.
  intros Ht. unfold parallelSort_balanced, parallelSort.
  destruct (parallelFor _ _ _ _ _) as [b| |]; cbn [bind]; try reflexivity.
  replace (effective_threads hw (Z.of_nat (length l)) threads <=? 1) with true
    by (symmetry; apply Z.leb_le; exact Ht).
  reflexivity.
Qed.

Lemma rounds_cap (t : Z) :
  2 <= t ->
  2 ^ (0 + 2 * Z.of_nat (Z.to_nat ((Z.log2_up t + 1) / 2))) < 4 * t.
Proof.
  intros Ht.
  assert (Hd : 0 < Z.log2_up t) by (apply Z.log2_up_pos; lia).
  pose proof (Z.log2_up_spec t ltac:(lia)) as [Hlo _].
  pose proof (Z.div_mod (Z.log2_up t + 1) 2 ltac:(lia)) as Hdm.
  pose proof (Z.mod_pos_bound (Z.log2_up t + 1) 2 ltac:(lia)) as Hm.
  assert (Hk : 0 + 2 * Z.of_nat (Z.to_nat ((Z.log2_up t + 1) / 2)) <= Z.log2_up t + 1).
  { rewrite Z2Nat.id by (apply Z.div_pos; lia). lia. }
  assert (Hpow : 2 ^ (Z.log2_up t + 1) = 4 * 2 ^ Z.pred (Z.log2_up t)).
  { replace (Z.log2_up t + 1) with (2 + Z.pred (Z.log2_up t)) by lia.
    rewrite Z.pow_add_r by lia. reflexivity. }
  eapply Z.le_lt_trans; [apply Z.pow_le_mono_r; [lia | exact Hk]|].
  lia.
Qed.

Lemma parallelSort_balanced_run hw (scratch l : list T) threads :
  1 <= effective_threads hw (Z.of_nat (length l)) threads <= 1023 ->
  Z.of_nat (length l) * effective_threads hw (Z.of_nat (length l)) threads < 2 ^ 49 ->
  length scratch = length l ->
  exists out sw,
    parallelSort_balanced compFunc std_sort hw scratch l threads = Ok (out, sw) /\
    sorted compFunc out /\ out ≡ₚ l.
Proof.
  intros Ht Hsize Lsc.
  set (len := Z.of_nat (length l)) in *.
  destruct (Z.eq_dec (effective_threads hw len threads) 1) as [E1|Hne].
  - exists (std_sort l), None. split.
    + rewrite parallelSort_balanced_one_thread by (fold len; lia).
      apply parallelSort_one_thread; [fold len; lia | exact E1].
    + split; [apply std_sort_sorted | apply std_sort_perm].
  - assert (Hcap : 0 < len /\ effective_threads hw len threads <= len).
    { assert (Hq : effective_threads hw len threads <= (len + 64) / 128).
      { unfold effective_threads in *. destruct (threads =? 0); lia. }
      pose proof (Z.mul_div_le (len + 64) 128 ltac:(lia)). lia. }
    destruct Hcap as [Hlen Htl].
    unfold parallelSort_balanced. fold len.
    set (t := effective_threads hw len threads) in *.
    destruct (local_sorts_spec compFunc std_sort std_sort_perm std_sort_sorted len t
                Hlen ltac:(lia) ltac:(lia) l eq_refl ltac:(nia)) as (b & Eb & Hc).
    rewrite Eb. cbn [bind].
    destruct (Z.leb_spec t 1) as [|_]; [lia|].
    pose proof (rounds_cover t ltac:(lia) ltac:(lia)) as [Hk Hcov].
    pose proof (rounds_cap t ltac:(lia)) as Hcp.
    set (k := Z.to_nat ((Z.log2_up t + 1) / 2)) in *.
    pose proof (run_inv_start compFunc len t Hlen ltac:(lia) ltac:(lia) l b eq_refl Hc) as I0.
    destruct (balanced_rounds_spec compFunc Hswo len t Hlen ltac:(lia) Htl Hsize k 0 b scratch
                I0 ltac:(unfold len; lia) ltac:(lia) ltac:(lia) ltac:(left; exact Hcp))
      as (o & s & E & I & P).
    change (2 ^ 0) with 1 in E. rewrite E. cbn [bind fst snd].
    exists o, (Some s). split; [reflexivity|]. split.
    + apply (run_inv_sorted compFunc len t Hlen ltac:(lia) ltac:(lia) (0 + 2 * Z.of_nat k));
        [lia | exact Hcov | exact I].
    + rewrite P. destruct Hc as (_ & Pb & _).
      rewrite Pb, (G_t len t) by lia. unfold len. rewrite slice_all. reflexivity.
Qed.

(** X23: the balanced variant of [parallelSort] sorts under the same
    conditions as the default variant: for a strict weak ordering, an
    effective thread count between 1 and 1023 and [len * threads < 2 ^ 49]
    it returns, and the original buffer holds a permutation of the input
    that is non-descending under the comparator. *)
Theorem parallelSort_balanced_sorted_permutation hw (scratch l : list T) threads :
  1 <= effective_threads hw (Z.of_nat (length l)) threads <= 1023 ->
  Z.of_nat (length l) * effective_threads hw (Z.of_nat (length l)) threads < 2 ^ 49 ->
  length scratch = length l ->
  exists out sw,
    parallelSort_balanced compFunc std_sort hw scratch l threads = Ok (out, sw) /\
    sorted compFunc out /\ out ≡ₚ l.
Proof. apply parallelSort_balanced_run. Qed.

(** X24: for an ordering in which no two different elements tie, the two
    variants of [parallelSort] leave the same contents in the original
    buffer. *)
Theorem parallelSort_variants_agree hw (scratch l : list T) threads :
  (forall x y, compFunc x y = false -> compFunc y x = false -> x = y) ->
  1 <= effective_threads hw (Z.of_nat (length l)) threads <= 1023 ->
  Z.of_nat (length l) * effective_threads hw (Z.of_nat (length l)) threads < 2 ^ 49 ->
  length scratch = length l ->
  exists out sw sw',
    parallelSort compFunc std_sort hw scratch l threads = Ok (out, sw) /\
    parallelSort_balanced compFunc std_sort hw scratch l threads = Ok (out, sw').
Proof.
  intros Hanti Ht Hsize Lsc.
  destruct (parallelSort_run compFunc std_sort Hswo std_sort_perm std_sort_sorted
              hw scratch l threads Ht Hsize Lsc) as (out & sw & E & S & P).
  destruct (parallelSort_balanced_run hw scratch l threads Ht Hsize Lsc)
    as (out' & sw' & E' & S' & P').
  exists out, sw, sw'. split; [exact E|]. rewrite E'. do 2 f_equal.
  apply (sorted_unique compFunc); auto. rewrite P, P'. reflexivity.
Qed.

End BalancedSort.

Lemma parallelSort_balanced_sorted_permutation_witness :
  exists out sw,
    parallelSort_balanced Z.ltb (insertion_sort Z.ltb) 8 (replicate 400 0)
      (reverse (seqZ 0 400)) 3 = Ok (out, sw) /\
    sorted Z.ltb out /\ out ≡ₚ reverse (seqZ 0 400).
Proof.
  apply (parallelSort_balanced_sorted_permutation Z.ltb (insertion_sort Z.ltb) Zltb_swo
           (insertion_sort_perm Z.ltb) (insertion_sort_sorted Z.ltb Zltb_swo)).
  - vm_compute. split; discriminate.
  - vm_compute. reflexivity.
  - vm_compute. reflexivity.
Defined.

Lemma parallelSort_variants_agree_witness :
  exists out sw sw',
    parallelSort Z.ltb (insertion_sort Z.ltb) 8 (replicate 400 0)
      (reverse (seqZ 0 400)) 3 = Ok (out, sw) /\
    parallelSort_balanced Z.ltb (insertion_sort Z.ltb) 8 (replicate 400 0)
      (reverse (seqZ 0 400)) 3 = Ok (out, sw').
Proof.
  apply (parallelSort_variants_agree Z.ltb (insertion_sort Z.ltb) Zltb_swo
           (insertion_sort_perm Z.ltb) (insertion_sort_sorted Z.ltb Zltb_swo)).
  - exact Zltb_total.
  - vm_compute. split; discriminate.
  - vm_compute. reflexivity.
  - vm_compute. reflexivity.
Defined.

(** * Failures do not cancel other segments *)

Section Independence.

Context {E : Type} (fn : Z -> option E).




End Independence.


(** * Degenerate thread counts *)

Section OneWorker.

Context {T : Type} (compFunc : T -> T -> bool).

(** X26: [parallelMerge] with one worker is the sequential merge: for two
    non-empty ranges it makes the very call of [mergeFF] on the whole
    ranges, so the two have the same result, defined or not. *)
Theorem parallelMerge_one_worker (dst src : list T) aBeg aEnd bBeg bEnd dBeg :
  aBeg <= aEnd -> bBeg <= bEnd ->
  (aEnd - aBeg + 1) + (bEnd - bBeg + 1) < 2 ^ 53 ->
  parallelMerge compFunc dst src aBeg aEnd bBeg bEnd dBeg 1
  = mergeFF compFunc dst src aBeg aEnd bBeg bEnd dBeg.
Proof.
  intros Ha Hb Hn. unfold parallelMerge, to_size_t.
  change (1 mod 2 ^ 64) with 1.
  set (aCount := aEnd - aBeg + 1) in *. set (bCount := bEnd - bBeg + 1) in *.
  unfold getMergePaths. cbn [mpi_write]. 
  change (mpi_write ∅ 0 0) with (Ok (<[0 := 0]> (∅ : gmap Z Z))). cbn [bind].
  change (mpi_write (<[0 := 0]> ∅) 1 aCount)
    with (Ok (<[1 := aCount]> (<[0 := 0]> (∅ : gmap Z Z)))).
  cbn [bind]. change (Z.to_nat (1 - 1)) with 0%nat. cbn [getMergePaths_loop bind].
  unfold parallelFor. rewrite segments_one. cbn [bind run_segments].
  unfold run_segment. cbn [fst snd]. change (Z.to_nat (1 - 0)) with 1%nat.
  cbn [for_loop]. change (0 + 0) with 0.
  unfold merge_worker.
  rewrite d_div_one by lia.
  destruct (d_of_Z_spec (aCount + bCount) ltac:(lia)) as [Nn _].
  rewrite d_of_Z_zero, (d_mul_zero_l _ _ _ Nn).
  change (llround (S754_zero false)) with (Ok 0). cbn [bind].
  change (mpi_read (<[1 := aCount]> (<[0 := 0]> ∅)) 0)
    with (of_option ((<[1 := aCount]> (<[0 := 0]> (∅ : gmap Z Z))) !! 0)).
  change (mpi_read (<[1 := aCount]> (<[0 := 0]> ∅)) (0 + 1))
    with (of_option ((<[1 := aCount]> (<[0 := 0]> (∅ : gmap Z Z))) !! 1)).
  rewrite lookup_insert_ne by lia. rewrite !lookup_insert_eq. cbn [of_option bind].
  destruct (d_of_Z_spec 1 ltac:(lia)) as [N1 _].
  unfold d_one. rewrite (d_add_zero_l _ _ _ N1).
  rewrite (d_mul_one_l _ _ _ Nn) by lia.
  rewrite llround_of_Z by lia. cbn [bind].
  replace (0 + aBeg =? aCount + aBeg) with false
    by (symmetry; apply Z.eqb_neq; unfold aCount; lia).
  replace (0 - 0 + bBeg =? aCount + bCount - aCount + bBeg) with false
    by (symmetry; apply Z.eqb_neq; unfold bCount; lia).
  cbn [bind]. 
  replace (0 + aBeg) with aBeg by lia.
  replace (aCount + aBeg - 1) with aEnd by (unfold aCount; lia).
  replace (0 - 0 + bBeg) with bBeg by lia.
  replace (aCount + bCount - aCount + bBeg - 1) with bEnd by (unfold bCount; lia).
  replace (dBeg + 0) with dBeg by lia.
  destruct (mergeFF compFunc dst src aBeg aEnd bBeg bEnd dBeg); reflexivity.
Qed.

End OneWorker.

Lemma parallelMerge_one_worker_witness :
  parallelMerge key_lt (replicate 6 (0, 0))
    [(1, 0); (9, 0); (9, 0); (1, 1); (2, 1); (3, 1)] 0 2 3 5 0 1
  = mergeFF key_lt (replicate 6 (0, 0))
    [(1, 0); (9, 0); (9, 0); (1, 1); (2, 1); (3, 1)] 0 2 3 5 0.
Proof.
  apply (parallelMerge_one_worker key_lt).
  - lia.
  - lia.
  - vm_compute. reflexivity.
Defined.

Section CopyRound.

Context {T : Type} (compFunc : T -> T -> bool).

(** X27: once the runs are as wide as the whole buffer ([t <= 2^r]), a
    further merge round only copies: it returns the source buffer as it is,
    without a comparison.  With an odd number of levels this is the second
    round of the last iteration, which brings the data back to the original
    buffer. *)
Theorem merge_round_copies (len t : Z) (r : nat) (src dst : list T) :
  0 < len -> 1 <= t <= 1023 -> t <= len -> len * t < 2 ^ 49 ->
  Z.of_nat r <= 11 -> t <= 2 ^ Z.of_nat r ->
  Z.of_nat (length src) = len -> Z.of_nat (length dst) = len ->
  merge_round compFunc dst src len t (round_delta (d_div (d_of_Z len) (d_of_Z t)) r)
  = Ok src.
Proof.
  intros Hlen Ht Htl Hsize Hr Htr Ls Ld.
  assert (H49 : 2 ^ 53 = 16 * 2 ^ 49) by reflexivity.
  assert (Hb : 6 * len * t < 2 ^ 53) by lia.
  assert (Ht' : 0 < t < 2 ^ 53) by nia.
  assert (Hl' : 0 < len < 2 ^ 53) by nia.
  destruct (delta_spec len t Hl' Ht') as [Nd _].
  rewrite (round_delta_dscale _ _ _ r Nd) by lia.
  assert (Hp : 0 < 2 ^ Z.of_nat r) by (apply Z.pow_pos_nonneg; lia).
  pose proof (pow_succ2 (Z.of_nat r) ltac:(lia)) as Ew.
  destruct (plan_round_spec len t (Z.of_nat r) Hlen ltac:(lia) Hb ltac:(lia))
    as (L & lo & pm & Ep & HL0 & HLw & Elo & Hn & Epm & _).
  assert (EL : L = 0) by nia. subst L.
  rewrite Z.mul_0_l in *.
  rewrite (G_llround len t Hlen ltac:(lia) Hb 0 ltac:(lia)) in Elo.
  rewrite (G_0 len t Hlen ltac:(lia) Hb) in Elo. injection Elo as <-.
  replace (0 <? len) with true in * by (symmetry; apply Z.ltb_lt; lia).
  assert (Epm' : pm = t).
  { change (0 + 1) with 1 in Epm.
    unfold iDivUp in Epm. change (1 =? 0) with false in Epm.
    rewrite Z.mod_1_r, Z.div_1_r in Epm. change (0 =? 0) with true in Epm.
    cbv iota in Epm. congruence. }
  subst pm.
  unfold merge_round. rewrite Ep. cbn [bind loops pmThreads].
  unfold parallelForNoWait, parallelFor.
  change (segments (0 - 0) 0) with (@Ok (list (Z * Z)) []). cbn [bind run_segments].
  unfold leftover_merge. cbn [loStart loThreads].
  rewrite (G_llround len t Hlen ltac:(lia) Hb 0 ltac:(lia)).
  rewrite (G_0 len t Hlen ltac:(lia) Hb). cbn [bind].
  replace (0 <? len) with true by (symmetry; apply Z.ltb_lt; lia).
  destruct (leftover_mid_ge len t (Z.of_nat r) 0 Hlen ltac:(lia) Hsize ltac:(lia)
              ltac:(lia) ltac:(lia) ltac:(lia)) as (m & Em & Hm).
  rewrite Z.mul_0_l in Em. rewrite Em. cbn [bind].
  replace (if m >? len then len else m) with len
    by (destruct (Z.gtb_spec m len); lia).
  replace (t - 0 * t) with t by lia.
  pose proof (single_range_merge compFunc src 0 len len t 0 ltac:(lia) Hlen ltac:(lia)
                ltac:(lia) ltac:(lia) ltac:(lia) ltac:(lia) dst ltac:(lia)) as E.
  replace (0 + len - 1) with (len - 1) in E by lia.
  rewrite E. f_equal.
  rewrite Z.add_0_l, <- Ls, slice_all. apply blit_full. lia.
Qed.

End CopyRound.

Lemma merge_round_copies_witness :
  merge_round Z.ltb [0; 0; 0; 0; 0; 0] [1; 2; 3; 4; 5; 6] 6 2
    (round_delta (d_div (d_of_Z 6) (d_of_Z 2)) 1)
  = Ok [1; 2; 3; 4; 5; 6].
Proof.
  apply (merge_round_copies Z.ltb 6 2 1 [1; 2; 3; 4; 5; 6] [0; 0; 0; 0; 0; 0]).
  - lia.
  - lia.
  - lia.
  - vm_compute. reflexivity.
  - vm_compute. discriminate.
  - vm_compute. discriminate.
  - reflexivity.
  - reflexivity.
Defined.

Section ZeroThreads.

Context {T : Type} (compFunc : T -> T -> bool) (std_sort : list T -> list T).

(** X28: when no thread count is given and the hardware concurrency is
    reported as 0, both variants of [parallelSort] return at once: the
    buffer is left as it was, sorted or not, and no scratch buffer is
    allocated. *)
Theorem parallelSort_zero_threads (scratch l : list T) :
  parallelSort compFunc std_sort 0 scratch l 0 = Ok (l, None) /\
  parallelSort_balanced compFunc std_sort 0 scratch l 0 = Ok (l, None).
Proof.
  assert (E : effective_threads 0 (Z.of_nat (length l)) 0 = 0).
  { unfold effective_threads. cbn [Z.eqb]. lia. }
  unfold parallelSort, parallelSort_balanced. rewrite E.
  unfold parallelFor.
  change (segments (0 - 0) 0) with (@Ok (list (Z * Z)) []).
  cbn [bind run_segments]. split; reflexivity.
Qed.

End ZeroThreads.

(** * The string test case *)






(** An ordering through a key inherits the strict weak order of the
    keys, and sorted permutations have the same keys. *)
Section Keys.

Context {T K : Type} (key : T -> K) (gt : K -> K -> bool).
Hypothesis gt_swo : strict_weak_order gt.
Hypothesis gt_total : forall a b, gt a b = false -> gt b a = false -> a = b.




End Keys.

Section LoopExt.

Context {S : Type} (f g : Z -> S -> res S).
Hypothesis Hfg : forall i s, f i s = g i s.




End LoopExt.

Section TextCaseFacts.

Variable strings : list (list Z).



Variable std_sort : (Z -> Z -> bool) -> list Z -> list Z.
Hypothesis std_sort_perm : forall comp l, std_sort comp l ≡ₚ l.
Hypothesis std_sort_sorted :
  forall comp, strict_weak_order comp -> forall l, sorted comp (std_sort comp l).


End TextCaseFacts.

